(** * Pixel kernels of wasm-camera-fx (cpp/effects.cpp)

    A shallow embedding of the RGBA8 raster kernels of [effects.cpp] and the
    properties its specification states about them.

    Conventions of the embedding:
    - [double] is Rocq's primitive binary64 [float]: every arithmetic
      operation below is the IEEE-754 operation the C++ code performs, with
      its rounding.
    - [int] is [Z], kept inside the 32-bit range by the hypotheses of the
      theorems: [raster_ok] bounds [width], [height] and the byte count
      [4 * width * height] by [2^31], so that no index expression of the
      kernels overflows; a theorem about sizes without a raster states
      these bounds itself.
    - [uint8_t] is a [Z] in [0, 256).
    - a raster is a [list Z] of bytes indexed from 0; a read or a write
      outside of it, and a conversion of a [double] to an integer type that
      cannot hold its truncation, have no defined behaviour in C++ and give
      the outcome [Undefined].
    - the functions of <cmath> other than [sqrt] come with the platform, not
      with the repository: the kernels take them through the class [Libm]. *)

From Stdlib Require Import ZArith List Lia Bool Floats Uint63 QArith Lqa.
From stdpp Require Import base list.
Import ListNotations.

Set Warnings "-inexact-float".
#[local] Open Scope Z_scope.

(** ** Outcomes of a run *)

Inductive outcome (A : Type) : Type :=
| Done (a : A)     (* the call returned *)
| Undefined        (* the call left defined behaviour *)
| Diverged.        (* the call was still looping when the fuel ran out *)
Arguments Done {A} a.
Arguments Undefined {A}.
Arguments Diverged {A}.

#[global] Instance outcome_bind : MBind outcome := fun A B k c =>
  match c with
  | Done a => k a
  | Undefined => Undefined
  | Diverged => Diverged
  end.

(** A [for] loop whose counter runs over [lo], [lo+1], ..., [hi-1]. *)
Fixpoint for_count {S : Type} (n : nat) (i : Z) (body : Z -> S -> outcome S) (s : S)
  : outcome S :=
  match n with
  | O => Done s
  | S n' => s' ← body i s; for_count n' (i + 1) body s'
  end.

Definition for_range {S : Type} (lo hi : Z) (body : Z -> S -> outcome S) (s : S)
  : outcome S :=
  for_count (Z.to_nat (hi - lo)) lo body s.

(** ** Doubles, and the conversions between doubles and integers *)

Module F.
#[local] Open Scope float_scope.

(** [(double) z] for a 32-bit [z]: exact. *)
Definition of_int (z : Z) : float :=
  if (z <? 0)%Z then - of_uint63 (of_Z (- z)) else of_uint63 (of_Z z).

(** Integer part of a double [0 <= d < 2^53], from its binary expansion:
    [frshiftexp d = (m, e)] with [d = m * 2^(e - shift)] and [0.5 <= m < 1],
    and [normfr_mantissa m = m * 2^53]. *)
Definition floor63 (d : float) : int :=
  if d <? 1 then 0%uint63
  else let (m, e) := frshiftexp d in
       (normfr_mantissa m >> (2154 - e))%uint63.

(** [static_cast<uint8_t>(d)]: truncation toward zero, defined when the
    truncated value is one of 0..255. *)
Definition to_u8 (d : float) : outcome Z :=
  if (-1 <? d) && (d <? 256) then Done (to_Z (floor63 (abs d))) else Undefined.

(** [static_cast<int>(d)]: truncation toward zero, defined when the
    truncated value is a 32-bit integer. *)
Definition to_int (d : float) : outcome Z :=
  if (-2147483649 <? d) && (d <? 2147483648)
  then Done (if d <? 0 then (- to_Z (floor63 (abs d)))%Z else to_Z (floor63 d))
  else Undefined.

(** [std::max(a, b)] is [(a < b) ? b : a]; [std::min(a, b)] is
    [(b < a) ? b : a]. *)
Definition max (a b : float) : float := if a <? b then b else a.
Definition min (a b : float) : float := if b <? a then b else a.
(** [std::max({a, b, c})] keeps the first largest element. *)
Definition max3 (a b c : float) : float := max (max a b) c.
Definition min3 (a b c : float) : float := min (min a b) c.
End F.

(** The part of <cmath> the kernels call besides [sqrt]. *)
Class Libm : Type := {
  cos : float -> float;
  sin : float -> float;
  atan2 : float -> float -> float;
  pow : float -> float -> float;
  fmod : float -> float -> float
}.

(** ** Colour model conversion *)

Record HSL : Type := mkHSL { hsl_h : float; hsl_s : float; hsl_l : float }.

Section Colour.
#[local] Open Scope float_scope.

Definition rgbToHsl (r g b : Z) : HSL :=
  let rd := F.of_int r / 255 in
  let gd := F.of_int g / 255 in
  let bd := F.of_int b / 255 in
  let max := F.max3 rd gd bd in
  let min := F.min3 rd gd bd in
  let l := (max + min) / 2 in
  if max =? min then mkHSL (0 * 360) 0 l
  else
    let d := max - min in
    let s := if 0.5 <? l then d / (2 - max - min) else d / (max + min) in
    let h :=
      if max =? rd then (gd - bd) / d + (if gd <? bd then 6 else 0)
      else if max =? gd then (bd - rd) / d + 2
      else (rd - gd) / d + 4 in
    let h := h / 6 in
    mkHSL (h * 360) s l.

Definition hueToRgb (p q t : float) : outcome Z :=
  let t := if t <? 0 then t + 1 else t in
  let t := if 1 <? t then t - 1 else t in
  if t <? 1 / 6 then F.to_u8 ((p + (q - p) * 6 * t) * 255)
  else if t <? 1 / 2 then F.to_u8 (q * 255)
  else if t <? 2 / 3 then F.to_u8 ((p + (q - p) * (2 / 3 - t) * 6) * 255)
  else F.to_u8 (p * 255).

Definition hslToRgb (hsl : HSL) : outcome (Z * Z * Z) :=
  let h := hsl_h hsl / 360 in
  let s := hsl_s hsl in
  let l := hsl_l hsl in
  if s =? 0 then
    c ← F.to_u8 (l * 255); Done (c, c, c)
  else
    let q := if l <? 0.5 then l * (1 + s) else l + s - l * s in
    let p := 2 * l - q in
    r ← hueToRgb p q (h + 1 / 3);
    g ← hueToRgb p q h;
    b ← hueToRgb p q (h - 1 / 3);
    Done (r, g, b).

(** [clamp]: the helper that stores a double as a byte. *)
Definition clamp (val : float) : outcome Z :=
  F.to_u8 (F.max 0 (F.min 255 val)).
End Colour.

(** ** Rasters *)

(** A raster is the flat byte buffer behind a [uint8_t*]: 4 bytes per pixel,
    row-major. *)
Abbreviation raster := (list Z).

Definition load (m : raster) (i : Z) : outcome Z :=
  if i <? 0 then Undefined
  else match m !! Z.to_nat i with
       | Some b => Done b
       | None => Undefined
       end.

Definition store (m : raster) (i : Z) (b : Z) : outcome raster :=
  if (0 <=? i) && (i <? Z.of_nat (length m))
  then Done (<[Z.to_nat i := b]> m)
  else Undefined.

(** ** Bilinear sampler *)

Section Sampler.
#[local] Open Scope float_scope.

(** The clamped coordinate of [sampleBilinear]. *)
Definition clamp_coord (size : Z) (u : float) : float :=
  F.max 0 (F.min (F.of_int size - 1.001) u).

(** Byte offsets of [ptr1], [ptr2], [ptr3], [ptr4] from [srcData], for the
    cell [(x, y)]. *)
Definition corner_offsets (width x y : Z) : Z * Z * Z * Z :=
  let ptr1 := ((y * width + x) * 4)%Z in
  let ptr2 := (ptr1 + 4)%Z in
  let ptr3 := (ptr1 + width * 4)%Z in
  let ptr4 := (ptr3 + 4)%Z in
  (ptr1, ptr2, ptr3, ptr4).

(** The four offsets [sampleBilinear] reads at for the coordinate [(u, v)]. *)
Definition sample_corners (width height : Z) (u v : float) : outcome (Z * Z * Z * Z) :=
  x ← F.to_int (clamp_coord width u);
  y ← F.to_int (clamp_coord height v);
  Done (corner_offsets width x y).

(** One channel of the blend: channel [c] of the four corners. *)
Definition blend (srcData : raster) (ptrs : Z * Z * Z * Z)
    (u_ratio v_ratio : float) (c : Z) : outcome Z :=
  let '(ptr1, ptr2, ptr3, ptr4) := ptrs in
  let u_opposite := 1 - u_ratio in
  let v_opposite := 1 - v_ratio in
  p1 ← load srcData (ptr1 + c);
  p2 ← load srcData (ptr2 + c);
  p3 ← load srcData (ptr3 + c);
  p4 ← load srcData (ptr4 + c);
  F.to_u8 ((F.of_int p1 * u_opposite + F.of_int p2 * u_ratio) * v_opposite +
           (F.of_int p3 * u_opposite + F.of_int p4 * u_ratio) * v_ratio).

Definition sampleBilinear (srcData : raster) (width height : Z) (u v : float)
  : outcome (Z * Z * Z * Z) :=
  let u := clamp_coord width u in
  let v := clamp_coord height v in
  x ← F.to_int u;
  y ← F.to_int v;
  let u_ratio := u - F.of_int x in
  let v_ratio := v - F.of_int y in
  let ptrs := corner_offsets width x y in
  r ← blend srcData ptrs u_ratio v_ratio 0;
  g ← blend srcData ptrs u_ratio v_ratio 1;
  b ← blend srcData ptrs u_ratio v_ratio 2;
  a ← blend srcData ptrs u_ratio v_ratio 3;
  Done (r, g, b, a).
End Sampler.

(** ** The exported kernels *)

Section Kernels.
Context {L : Libm}.
#[local] Open Scope float_scope.

(** The in-place kernels run [for (i = 0; i < numPixels * 4; i += 4)]: the
    loop below counts the pixel [p] and uses [i = p * 4]. *)
Definition for_pixels (numPixels : Z) (body : Z -> raster -> outcome raster)
    (imageData : raster) : outcome raster :=
  for_range 0 numPixels (fun p img => body (p * 4)%Z img) imageData.

(** The luminance both [grayscale] and [sobelEdgeDetection] compute. *)
Definition luma (r g b : Z) : outcome Z :=
  F.to_u8 (0.299 * F.of_int r + 0.587 * F.of_int g + 0.114 * F.of_int b).

Definition grayscale (imageData : raster) (width height : Z) : outcome raster :=
  let numPixels := (width * height)%Z in
  for_pixels numPixels (fun i img =>
    r ← load img i;
    g ← load img (i + 1);
    b ← load img (i + 2);
    gray ← luma r g b;
    img ← store img i gray;
    img ← store img (i + 1) gray;
    store img (i + 2) gray) imageData.

Definition gx : list (list Z) := [[-1; 0; 1]; [-2; 0; 2]; [-1; 0; 1]]%Z.
Definition gy : list (list Z) := [[-1; -2; -1]; [0; 0; 0]; [1; 2; 1]]%Z.
Definition at2 (k : list (list Z)) (i j : Z) : Z :=
  nth (Z.to_nat j) (nth (Z.to_nat i) k []) 0%Z.

(** The two gradient sums of the 3x3 window around [(x, y)]. *)
Definition sobel_sums (inputData : raster) (width x y : Z) : outcome (float * float) :=
  for_range (-1) 2 (fun ky sums =>
    for_range (-1) 2 (fun kx '(sumX, sumY) =>
      let pixelPtr := (((y + ky) * width + (x + kx)) * 4)%Z in
      p0 ← load inputData pixelPtr;
      p1 ← load inputData (pixelPtr + 1);
      p2 ← load inputData (pixelPtr + 2);
      intensity ← luma p0 p1 p2;
      Done (sumX + F.of_int (at2 gx (ky + 1) (kx + 1) * intensity),
            sumY + F.of_int (at2 gy (ky + 1) (kx + 1) * intensity))) sums) (0, 0).

(** The body of the convolution pass at the interior cell [(x, y)]. *)
Definition sobel_cell (inputData : raster) (width x y : Z) (out : raster) : outcome raster :=
  '(sumX, sumY) ← sobel_sums inputData width x y;
  let magnitude := PrimFloat.sqrt (sumX * sumX + sumY * sumY) in
  edge ← F.to_u8 (F.min 255 magnitude);
  let outPtr := ((y * width + x) * 4)%Z in
  out ← store out outPtr edge;
  out ← store out (outPtr + 1) edge;
  out ← store out (outPtr + 2) edge;
  alpha ← load inputData ((y * width + x) * 4 + 3);
  store out (outPtr + 3) alpha.

Definition sobel_interior (inputData : raster) (width height : Z) (outputData : raster)
  : outcome raster :=
  for_range 1 (height - 1) (fun y out =>
    for_range 1 (width - 1) (fun x out =>
      sobel_cell inputData width x y out) out) outputData.

(** The body of the border pass at the cell [(x, y)]. *)
Definition border_cell (width height x y : Z) (out : raster) : outcome raster :=
  if (y =? 0)%Z || (y =? height - 1)%Z || (x =? 0)%Z || (x =? width - 1)%Z then
    let borderPtr := ((y * width + x) * 4)%Z in
    out ← store out borderPtr 0%Z;
    out ← store out (borderPtr + 1) 0%Z;
    out ← store out (borderPtr + 2) 0%Z;
    store out (borderPtr + 3) 255%Z
  else Done out.

Definition sobel_border (width height : Z) (outputData : raster) : outcome raster :=
  for_range 0 height (fun y out =>
    for_range 0 width (fun x out =>
      border_cell width height x y out) out) outputData.

Definition sobelEdgeDetection (inputData outputData : raster) (width height : Z)
  : outcome raster :=
  out ← sobel_interior inputData width height outputData;
  sobel_border width height out.

(** [while (hsl.h < 0) hsl.h += 360.0;] with at most [fuel] additions. *)
Fixpoint wrap_negative (fuel : nat) (h : float) : outcome float :=
  if h <? 0 then
    match fuel with
    | O => Diverged
    | S fuel' => wrap_negative fuel' (h + 360)
    end
  else Done h.

Definition hueRotate (fuel : nat) (imageData : raster) (width height : Z)
    (angleDegrees : float) : outcome raster :=
  let numPixels := (width * height)%Z in
  for_pixels numPixels (fun i img =>
    r ← load img i;
    g ← load img (i + 1);
    b ← load img (i + 2);
    let hsl := rgbToHsl r g b in
    h ← wrap_negative fuel (hsl_h hsl + angleDegrees);
    let hsl := mkHSL (fmod h 360) (hsl_s hsl) (hsl_l hsl) in
    '(r, g, b) ← hslToRgb hsl;
    img ← store img i r;
    img ← store img (i + 1) g;
    store img (i + 2) b) imageData.

(** The body shared by the two remap kernels: sample and write one pixel. *)
Definition write_sample (inputData : raster) (width height x y : Z) (srcX srcY : float)
    (out : raster) : outcome raster :=
  '(r, g, b, a) ← sampleBilinear inputData width height srcX srcY;
  let outIndex := ((y * width + x) * 4)%Z in
  out ← store out outIndex r;
  out ← store out (outIndex + 1) g;
  out ← store out (outIndex + 2) b;
  store out (outIndex + 3) a.

(** The source point of the spiral for the output cell [(x, y)]. *)
Definition spiral_source (centerX centerY maxRadius spiralFactor : float) (x y : Z)
  : float * float :=
  let dx := F.of_int x - centerX in
  let dy := F.of_int y - centerY in
  let radius := PrimFloat.sqrt (dx * dx + dy * dy) in
  let angle := atan2 dy dx in
  let distortedAngle := angle + spiralFactor * (radius / maxRadius) in
  let srcX := centerX + radius * cos distortedAngle in
  let srcY := centerY + radius * sin distortedAngle in
  (srcX, srcY).

Definition spiralDistortion (inputData outputData : raster) (width height : Z)
    (spiralFactor : float) : outcome raster :=
  let centerX := F.of_int width / 2 in
  let centerY := F.of_int height / 2 in
  let maxRadius := PrimFloat.sqrt (centerX * centerX + centerY * centerY) in
  for_range 0 height (fun y out =>
    for_range 0 width (fun x out =>
      let '(srcX, srcY) := spiral_source centerX centerY maxRadius spiralFactor x y in
      write_sample inputData width height x y srcX srcY out) out) outputData.

(** The source point of the wormhole for the output cell [(x, y)];
    [pullFactor] is already clamped. *)
Definition wormhole_source (centerX centerY maxRadius pullFactor : float) (x y : Z)
  : float * float :=
  let dx := F.of_int x - centerX in
  let dy := F.of_int y - centerY in
  let radius := PrimFloat.sqrt (dx * dx + dy * dy) in
  let angle := atan2 dy dx in
  let normalizedRadius := if radius =? 0 then 0 else radius / maxRadius in
  let distortedRadius := radius * (1 - pullFactor * normalizedRadius) in
  let distortedRadius := F.max 0 distortedRadius in
  let srcX := centerX + distortedRadius * cos angle in
  let srcY := centerY + distortedRadius * sin angle in
  (srcX, srcY).

Definition wormholeDistortion (inputData outputData : raster) (width height : Z)
    (pullFactor : float) : outcome raster :=
  let centerX := F.of_int width / 2 in
  let centerY := F.of_int height / 2 in
  let maxRadius := PrimFloat.sqrt (centerX * centerX + centerY * centerY) in
  let pullFactor := F.max 0 (F.min 0.99 pullFactor) in
  for_range 0 height (fun y out =>
    for_range 0 width (fun x out =>
      let '(srcX, srcY) := wormhole_source centerX centerY maxRadius pullFactor x y in
      write_sample inputData width height x y srcX srcY out) out) outputData.

Definition brightnessContrast (imageData : raster) (width height : Z)
    (brightness contrast : float) : outcome raster :=
  let numPixels := (width * height)%Z in
  let factor := 1 + contrast in
  let brightnessAdjust := brightness * 255 in
  for_pixels numPixels (fun i img =>
    r ← load img i;
    g ← load img (i + 1);
    b ← load img (i + 2);
    let r := 128 + factor * (F.of_int r - 128) in
    let g := 128 + factor * (F.of_int g - 128) in
    let b := 128 + factor * (F.of_int b - 128) in
    let r := r + brightnessAdjust in
    let g := g + brightnessAdjust in
    let b := b + brightnessAdjust in
    r ← clamp r;
    img ← store img i r;
    g ← clamp g;
    img ← store img (i + 1) g;
    b ← clamp b;
    store img (i + 2) b) imageData.

Definition gammaCorrection (imageData : raster) (width height : Z) (gamma : float)
  : outcome raster :=
  let numPixels := (width * height)%Z in
  let gamma := F.max 0.01 gamma in
  let gammaInv := 1 / gamma in
  for_pixels numPixels (fun i img =>
    r ← load img i;
    r ← clamp (pow (F.of_int r / 255) gammaInv * 255);
    img ← store img i r;
    g ← load img (i + 1);
    g ← clamp (pow (F.of_int g / 255) gammaInv * 255);
    img ← store img (i + 1) g;
    b ← load img (i + 2);
    b ← clamp (pow (F.of_int b / 255) gammaInv * 255);
    store img (i + 2) b) imageData.
End Kernels.


(** ** A reference instance of [Libm]

    Series implementations of the <cmath> functions, accurate to a few units
    in the last place on the arguments the kernels produce.  They serve to run
    the kernels on concrete rasters; the theorems below hold for every
    instance of [Libm] (some under the hypothesis that [pow x 1 = x]). *)

Module RefLibm.
#[local] Open Scope float_scope.

Definition pi : float := 0x1.921fb54442d18p+1.
Definition ln2 : float := 0x1.62e42fefa39efp-1.

(** [1 - x2/(n(n+1)) (1 - x2/((n+2)(n+3)) (1 - ...))], [k] factors deep. *)
Fixpoint alternating (k : nat) (n x2 : float) : float :=
  match k with
  | O => 1
  | S k' => 1 - x2 / (n * (n + 1)) * alternating k' (n + 2) x2
  end.

(** The argument brought into [-pi, pi] by a multiple of [2 pi]. *)
Definition reduce (x : float) : float :=
  match F.to_int (x / (2 * pi) + (if x <? 0 then -0.5 else 0.5)) with
  | Done k => x - F.of_int k * (2 * pi)
  | _ => x - x
  end.

Definition cos (x : float) : float := alternating 14 1 (reduce x * reduce x).
Definition sin (x : float) : float := reduce x * alternating 14 2 (reduce x * reduce x).

(** [z (1 - z2/3 + z2^2/5 - ...)] for a small [z]. *)
Fixpoint atan_series (k : nat) (n z2 : float) : float :=
  match k with
  | O => 1 / n
  | S k' => 1 / n - z2 * atan_series k' (n + 2) z2
  end.

Definition halve (z : float) : float := z / (1 + PrimFloat.sqrt (1 + z * z)).

Definition atan (z : float) : float :=
  let t := halve (halve (halve z)) in
  8 * (t * atan_series 12 1 (t * t)).

Definition atan2 (y x : float) : float :=
  if 0 <? x then atan (y / x)
  else if x <? 0 then
    (if y <? 0 then atan (y / x) - pi else atan (y / x) + pi)
  else if 0 <? y then pi / 2
  else if y <? 0 then - (pi / 2)
  else if 1 / x <? 0 then (if 1 / y <? 0 then - pi else pi)
  else y.

(** [2 (t + t^3/3 + t^5/5 + ...)] with [t = (m - 1)/(m + 1)]: the logarithm
    of the mantissa [0.5 <= m < 1]. *)
Fixpoint atanh_series (k : nat) (n t2 : float) : float :=
  match k with
  | O => 1 / n
  | S k' => 1 / n + t2 * atanh_series k' (n + 2) t2
  end.

Definition ln (x : float) : float :=
  let (m, e) := frshiftexp x in
  let t := (m - 1) / (m + 1) in
  2 * (t * atanh_series 40 1 (t * t)) + (F.of_int (to_Z e) - 2101) * ln2.

Fixpoint exp_series (k : nat) (n r : float) : float :=
  match k with
  | O => 1
  | S k' => 1 + r / n * exp_series k' (n + 1) r
  end.

Definition exp (z : float) : float :=
  match F.to_int (z / ln2 + (if z <? 0 then -0.5 else 0.5)) with
  | Done k => ldshiftexp (exp_series 24 1 (z - F.of_int k * ln2)) (of_Z (k + 2101))
  | _ => if z <? 0 then 0 else infinity
  end.

Definition pow (x y : float) : float :=
  if y =? 1 then x
  else if y =? 0 then 1
  else if x =? 0 then (if 0 <? y then 0 else infinity)
  else exp (y * ln x).

(** [fmod] by exact subtraction of the largest [|y| 2^k] below the rest. *)
Fixpoint fmod_loop (fuel : nat) (r b : float) : float :=
  match fuel with
  | O => r
  | S fuel' =>
      if r <? b then r
      else
        let t := ldshiftexp b (snd (frshiftexp r) - snd (frshiftexp b) + 2101)%uint63 in
        fmod_loop fuel' (r - (if r <? t then t / 2 else t)) b
  end.

Definition fmod (x y : float) : float :=
  if (abs x <? infinity) && (0 <? abs y) then
    (if abs y <? infinity
     then (if x <? 0 then - fmod_loop 2200 (abs x) (abs y) else fmod_loop 2200 (abs x) (abs y))
     else x)
  else nan.
End RefLibm.

Definition ref_libm : Libm :=
  {| cos := RefLibm.cos; sin := RefLibm.sin; atan2 := RefLibm.atan2;
     pow := RefLibm.pow; fmod := RefLibm.fmod |}.
(** ** Vocabulary of the statements *)

(** A byte value. *)
Definition u8 (c : Z) : Prop := 0 <= c < 256.

(** [img] holds [width * height] RGBA pixels of bytes, and [width],
    [height] and the byte count [4 * width * height] are values of a 32-bit
    [int]: on such a raster [numPixels * 4], [(y * width + x) * 4] and the
    other index expressions of the kernels do not overflow. *)
Definition raster_ok (img : raster) (width height : Z) : Prop :=
  0 <= width < 2 ^ 31 /\ 0 <= height < 2 ^ 31 /\
  Z.of_nat (length img) = 4 * (width * height) /\
  4 * (width * height) < 2 ^ 31 /\
  Forall u8 img.

(** The four channels of pixel number [p]. *)
Definition pixel_at (img : raster) (p : nat) : option (Z * Z * Z * Z) :=
  r ← img !! (4 * p)%nat;
  g ← img !! (4 * p + 1)%nat;
  b ← img !! (4 * p + 2)%nat;
  a ← img !! (4 * p + 3)%nat;
  Some (r, g, b, a).

(** What an in-place kernel computes, pixel by pixel: [f] maps the colour
    channels, the alpha byte stays. *)
Fixpoint map_pixels (f : Z -> Z -> Z -> outcome (Z * Z * Z)) (n : nat) (img : raster)
  : outcome raster :=
  match n with
  | O => Done img
  | S k =>
      match img with
      | r :: g :: b :: a :: rest =>
          '(r', g', b') ← f r g b;
          rest' ← map_pixels f k rest;
          Done (r' :: g' :: b' :: a :: rest')
      | _ => Undefined
      end
  end.

(** The bytes 0..255, for properties checked on every byte. *)
Definition u8s : list Z := Eval vm_compute in map Z.of_nat (seq 0 256).


(** The colour maps of the four in-place kernels: what each loop body does to
    the colour channels of one pixel. *)
Section PixelMaps.
Context {L : Libm}.
#[local] Open Scope float_scope.

Definition gray_px (r g b : Z) : outcome (Z * Z * Z) :=
  gray ← luma r g b; Done (gray, gray, gray).

Definition hue_px (fuel : nat) (angleDegrees : float) (r g b : Z) : outcome (Z * Z * Z) :=
  let hsl := rgbToHsl r g b in
  h ← wrap_negative fuel (hsl_h hsl + angleDegrees);
  hslToRgb (mkHSL (fmod h 360) (hsl_s hsl) (hsl_l hsl)).

Definition bc_channel (brightness contrast : float) (c : Z) : outcome Z :=
  clamp (128 + (1 + contrast) * (F.of_int c - 128) + brightness * 255).

Definition bc_px (brightness contrast : float) (r g b : Z) : outcome (Z * Z * Z) :=
  r' ← bc_channel brightness contrast r;
  g' ← bc_channel brightness contrast g;
  b' ← bc_channel brightness contrast b;
  Done (r', g', b').

Definition gamma_channel (gamma : float) (c : Z) : outcome Z :=
  clamp (pow (F.of_int c / 255) (1 / F.max 0.01 gamma) * 255).

Definition gamma_px (gamma : float) (r g b : Z) : outcome (Z * Z * Z) :=
  r' ← gamma_channel gamma r;
  g' ← gamma_channel gamma g;
  b' ← gamma_channel gamma b;
  Done (r', g', b').
End PixelMaps.

(** ** Reference semantics of the conversions *)

(** Truncation toward zero of the value of a double, as binary64 defines it. *)
Definition trunc (d : float) : option Z :=
  match Prim2SF d with
  | S754_zero _ => Some 0
  | S754_finite s m e =>
      let v := if 0 <=? e then Zpos m * 2 ^ e else Zpos m / 2 ^ (- e) in
      Some (if s then - v else v)
  | _ => None
  end.

(** ** Vocabulary for the magnitude of doubles *)

(** A double that is [+0] or positive and finite. *)
Definition nonneg_finite (a : float) : Prop :=
  Prim2SF a = S754_zero false \/ exists m e, Prim2SF a = S754_finite false m e.

(** A double that is a zero or finite with exponent at most [E]. *)
Definition bounded_by (E : Z) (x : spec_float) : Prop :=
  match x with
  | S754_zero _ => True
  | S754_finite _ _ e => e <= E
  | _ => False
  end.

(** The value of a double that is [+0] or positive and finite. *)
Definition nonneg (x : spec_float) : Prop :=
  match x with
  | S754_zero false | S754_finite false _ _ => True
  | _ => False
  end.

(** A positive finite double with exponent at least [A]. *)
Definition above (A : Z) (x : spec_float) : Prop :=
  match x with
  | S754_finite false _ e => A <= e
  | _ => False
  end.

(** The conversion to an integer type holding [lo .. hi - 1]. *)
Definition in_range (lo hi : Z) (o : option Z) : outcome Z :=
  match o with
  | Some z => if (lo <=? z) && (z <? hi) then Done z else Undefined
  | None => Undefined
  end.

(** [round(d)] for a non-negative [d]: the nearest integer, halves upward. *)
Definition round_nearest (d : float) : option Z := trunc (d + 0.5)%float.

(** A double that converts to a byte: [-1 < v < 256]. *)
Definition byte_valued (v : float) : bool := ((-1 <? v) && (v <? 256))%float.

(** The three products [luma] adds, over all bytes. *)
Definition luma_r : list float :=
  Eval vm_compute in map (fun c => (0.299 * F.of_int c)%float) u8s.
Definition luma_g : list float :=
  Eval vm_compute in map (fun c => (0.587 * F.of_int c)%float) u8s.
Definition luma_b : list float :=
  Eval vm_compute in map (fun c => (0.114 * F.of_int c)%float) u8s.

(** [luma y y y] is [y] or [y - 1]. *)
Definition gray_again (y : Z) : bool :=
  match luma y y y with
  | Done y' => (y - 1 <=? y') && (y' <=? y)
  | _ => false
  end.

(** Rasters the examples run on: 2 x 2 pixels, one of them opaque white. *)
Definition white_at_1_0 : raster :=
  [0; 0; 0; 0;  255; 255; 255; 255;  0; 0; 0; 0;  0; 0; 0; 0].
Definition white_at_1_1 : raster :=
  [0; 0; 0; 0;  0; 0; 0; 0;  0; 0; 0; 0;  255; 255; 255; 255].
Definition blank_2x2 : raster := repeat 0 16.
(** A 3 x 3 raster whose bytes are all different. *)
Definition ramp_3x3 : raster := Eval vm_compute in map Z.of_nat (seq 0 36).

(** ** The colour conversions on machine integers

    The same conversions with the bytes kept as 63-bit machine integers, for
    checking a property on all 2^24 colours by evaluation. *)

Definition outcome_map {A B : Type} (f : A -> B) (c : outcome A) : outcome B :=
  match c with
  | Done a => Done (f a)
  | Undefined => Undefined
  | Diverged => Diverged
  end.

Section Machine.
#[local] Open Scope float_scope.

Definition to_u8_63 (d : float) : outcome int :=
  if (-1 <? d) && (d <? 256) then Done (F.floor63 (abs d)) else Undefined.

Definition rgbToHsl_63 (r g b : int) : HSL :=
  let rd := of_uint63 r / 255 in
  let gd := of_uint63 g / 255 in
  let bd := of_uint63 b / 255 in
  let max := F.max3 rd gd bd in
  let min := F.min3 rd gd bd in
  let l := (max + min) / 2 in
  if max =? min then mkHSL (0 * 360) 0 l
  else
    let d := max - min in
    let s := if 0.5 <? l then d / (2 - max - min) else d / (max + min) in
    let h :=
      if max =? rd then (gd - bd) / d + (if gd <? bd then 6 else 0)
      else if max =? gd then (bd - rd) / d + 2
      else (rd - gd) / d + 4 in
    let h := h / 6 in
    mkHSL (h * 360) s l.

Definition hueToRgb_63 (p q t : float) : outcome int :=
  let t := if t <? 0 then t + 1 else t in
  let t := if 1 <? t then t - 1 else t in
  if t <? 1 / 6 then to_u8_63 ((p + (q - p) * 6 * t) * 255)
  else if t <? 1 / 2 then to_u8_63 (q * 255)
  else if t <? 2 / 3 then to_u8_63 ((p + (q - p) * (2 / 3 - t) * 6) * 255)
  else to_u8_63 (p * 255).

Definition hslToRgb_63 (hsl : HSL) : outcome (int * int * int) :=
  let h := hsl_h hsl / 360 in
  let s := hsl_s hsl in
  let l := hsl_l hsl in
  if s =? 0 then
    c ← to_u8_63 (l * 255); Done (c, c, c)
  else
    let q := if l <? 0.5 then l * (1 + s) else l + s - l * s in
    let p := 2 * l - q in
    r ← hueToRgb_63 p q (h + 1 / 3);
    g ← hueToRgb_63 p q h;
    b ← hueToRgb_63 p q (h - 1 / 3);
    Done (r, g, b).

(** [a] and [b] differ by at most 1. *)
Definition near_63 (a b : int) : bool :=
  ((a <=? b + 1) && (b <=? a + 1))%uint63.

Definition roundtrip_63 (r g b : int) : bool :=
  match hslToRgb_63 (rgbToHsl_63 r g b) with
  | Done (r', g', b') => near_63 r r' && near_63 g g' && near_63 b b'
  | _ => false
  end.

Definition u8s_63 : list int := Eval vm_compute in map of_Z u8s.
End Machine.

(** ** Writing pixels into the output raster *)

(** Channel [c] (0..3) of a pixel. *)
Definition channel (c : Z) (v : Z * Z * Z * Z) : Z :=
  let '(r, g, b, a) := v in
  if c =? 0 then r else if c =? 1 then g else if c =? 2 then b else a.

(** [out] with each pixel [p] for which [g p] is [Some v] replaced by [v]. *)
Definition painted (g : Z -> option (Z * Z * Z * Z)) (out : raster) : raster :=
  imap (fun i old =>
          match g (Z.of_nat i / 4) with
          | Some v => channel (Z.of_nat i mod 4) v
          | None => old
          end) out.

(** The four stores of one pixel, in the order the kernels make them. *)
Definition store_pixel (out : raster) (p : Z) (v : Z * Z * Z * Z) : outcome raster :=
  let '(r, g, b, a) := v in
  out ← store out (p * 4) r;
  out ← store out (p * 4 + 1) g;
  out ← store out (p * 4 + 2) b;
  store out (p * 4 + 3) a.

Definition upd (g : Z -> option (Z * Z * Z * Z)) (p : Z) (v : Z * Z * Z * Z)
  : Z -> option (Z * Z * Z * Z) :=
  fun q => if q =? p then Some v else g q.

(** The cells [(x, y)] with [x0 <= x < x1] and [y0 <= y < y1]. *)
Definition in_rect (x0 x1 y0 y1 x y : Z) : bool :=
  (x0 <=? x) && (x <? x1) && (y0 <=? y) && (y <? y1).

(** [g] overridden, on the cells of a rectangle of a raster [w] pixels wide
    followed by the cells [x0 .. x-1] of row [y], by what [val] gives there. *)
Definition overlay (w : Z) (val : Z -> Z -> option (Z * Z * Z * Z))
    (x0 x1 y0 y x : Z) (g : Z -> option (Z * Z * Z * Z)) : Z -> option (Z * Z * Z * Z) :=
  fun p =>
    if in_rect x0 x1 y0 y (p mod w) (p / w) || in_rect x0 x y (y + 1) (p mod w) (p / w)
    then match val (p mod w) (p / w) with
         | Some v => Some v
         | None => g p
         end
    else g p.

(** What the two passes of [sobelEdgeDetection] write at the cell [(x, y)]. *)
Definition edge_val (inputData : raster) (width x y : Z) : option (Z * Z * Z * Z) :=
  match sobel_sums inputData width x y with
  | Done (sumX, sumY) =>
      match F.to_u8 (F.min 255 (PrimFloat.sqrt (sumX * sumX + sumY * sumY))),
            load inputData ((y * width + x) * 4 + 3) with
      | Done edge, Done alpha => Some (edge, edge, edge, alpha)
      | _, _ => None
      end
  | _ => None
  end.

Definition border_val (width height x y : Z) : option (Z * Z * Z * Z) :=
  if (y =? 0) || (y =? height - 1) || (x =? 0) || (x =? width - 1)
  then Some (0, 0, 0, 255)
  else None.

(** The output of [sobelEdgeDetection], pixel by pixel. *)
Definition sobel_image (inputData : raster) (width height : Z)
  : Z -> option (Z * Z * Z * Z) :=
  overlay width (border_val width height) 0 width 0 height 0
    (overlay width (edge_val inputData width) 1 (width - 1) 1 (height - 1) 1
       (fun _ => None)).
Definition ones_2x2 : raster := repeat 255 16.

(** ** The remap kernels without their distortion *)

(** The loop of the remap kernels, over any choice of source points. *)
Definition resample (source : Z -> Z -> float * float) (inputData outputData : raster)
    (width height : Z) : outcome raster :=
  for_range 0 height (fun y out =>
    for_range 0 width (fun x out =>
      let '(srcX, srcY) := source x y in
      write_sample inputData width height x y srcX srcY out) out) outputData.

Section Resample.
Context {L : Libm}.
#[local] Open Scope float_scope.

(** The point a remap kernel samples at for the cell [(x, y)] once its
    distortion is switched off: the cell in polar coordinates around the
    centre, turned back into a point; [adjust] is what the kernel still does
    to the angle. *)
Definition polar_source (adjust : float -> float) (width height x y : Z) : float * float :=
  let centerX := F.of_int width / 2 in
  let centerY := F.of_int height / 2 in
  let dx := F.of_int x - centerX in
  let dy := F.of_int y - centerY in
  let radius := PrimFloat.sqrt (dx * dx + dy * dy) in
  let angle := adjust (atan2 dy dx) in
  (centerX + radius * cos angle, centerY + radius * sin angle).
End Resample.

(** ** Vocabulary of the in-place kernels *)

(** A loop body acts as [f] on the pixel that starts at its index. *)
Definition acts_as (f : Z -> Z -> Z -> outcome (Z * Z * Z))
    (body : Z -> raster -> outcome raster) : Prop :=
  forall (pre : raster) r g b a (rest : raster),
    body (Z.of_nat (length pre)) (pre ++ r :: g :: b :: a :: rest)
    = '(r', g', b') ← f r g b; Done (pre ++ r' :: g' :: b' :: a :: rest).

(** [img'] has the size of [img] and the alpha byte of each of its pixels. *)
Definition same_alpha (img img' : raster) : Prop :=
  length img' = length img /\
  forall p : nat, img' !! (4 * p + 3)%nat = img !! (4 * p + 3)%nat.

(** [c] returned the byte [x]. *)
Definition returns (c : outcome Z) (x : Z) : bool :=
  match c with
  | Done y => Z.eqb y x
  | _ => false
  end.

(** A raster of two pixels in a row. *)
Definition two_pixels : raster := [10; 200; 30; 77; 0; 255; 128; 255].

(** ** Vocabulary of the further properties *)

(** Saturating truncation of a double to a byte: the integer part, kept in
    0..255; NaN and [+oo] give 255, [-oo] gives 0. *)
Definition saturate (d : float) : Z :=
  match Prim2SF d with
  | S754_nan | S754_infinity false => 255
  | S754_infinity true => 0
  | _ => match trunc d with
         | Some z => Z.max 0 (Z.min 255 z)
         | None => 0
         end
  end.

(** The gradient sums of a window whose nine pixels have the luminance
    [intensity ky kx]. *)
Definition window_sums (intensity : Z -> Z -> Z) : outcome (float * float) :=
  for_range (-1) 2 (fun ky sums =>
    for_range (-1) 2 (fun kx '(sumX, sumY) =>
      Done ((sumX + F.of_int (at2 gx (ky + 1) (kx + 1) * intensity ky kx))%float,
            (sumY + F.of_int (at2 gy (ky + 1) (kx + 1) * intensity ky kx))%float))
      sums) (0%float, 0%float).

(** The edge value of a window of constant luminance. *)
Definition flat_edge (i : Z) : outcome Z :=
  '(sumX, sumY) ← window_sums (fun _ _ => i);
  F.to_u8 (F.min 255 (PrimFloat.sqrt (sumX * sumX + sumY * sumY))).

(** Every pixel of [img] has the colour [(r, g, b)]. *)
Definition flat (img : raster) (r g b : Z) : Prop :=
  forall p v, pixel_at img p = Some v -> exists a, v = (r, g, b, a).

(** A 3 x 3 raster of one colour. *)
Definition gray_3x3 : raster :=
  Eval vm_compute in concat (repeat [90; 120; 200; 17] 9).

Section HslRange.
#[local] Open Scope float_scope.

(** The ranges of the three components of an [HSL]: [0 <= h < 360],
    [0 <= s <= 1], [0 <= l <= 1]. *)
Definition hsl_in_range (hsl : HSL) : bool :=
  (0 <=? hsl_h hsl) && (hsl_h hsl <? 360) &&
  (0 <=? hsl_s hsl) && (hsl_s hsl <=? 1) &&
  (0 <=? hsl_l hsl) && (hsl_l hsl <=? 1).

(** A hue that the angle 0 leaves as it is: adding 0 gives it back, and the
    loop that wraps negative hues does not run on it. *)
Definition hue_settled (hsl : HSL) : bool :=
  PrimFloat.Leibniz.eqb (hsl_h hsl + 0) (hsl_h hsl) && negb (hsl_h hsl <? 0).

Definition hsl_checked (hsl : HSL) : bool := hsl_in_range hsl && hue_settled hsl.
End HslRange.

Section GrayPixels.
#[local] Open Scope float_scope.
(** A gray level that survives the trip through HSL whatever the hue:
    its HSL form has hue 0 and saturation 0, and its lightness converts
    back to it. *)
Definition gray_fixed (y : Z) : bool :=
  let hsl := rgbToHsl y y y in
  PrimFloat.Leibniz.eqb (hsl_h hsl) 0 && (hsl_s hsl =? 0)
  && returns (F.to_u8 (hsl_l hsl * 255)) y.
End GrayPixels.

(** Two gray pixels in a row. *)
Definition grays_2x1 : raster := [40; 40; 40; 255; 200; 200; 200; 7].

(** What a remap kernel writes at the cell [(x, y)]: the bilinear sample at
    the source point of the cell, when the sampler returns one. *)
Definition sample_val (source : Z -> Z -> float * float) (inputData : raster)
    (width height x y : Z) : option (Z * Z * Z * Z) :=
  match sampleBilinear inputData width height (fst (source x y)) (snd (source x y)) with
  | Done v => Some v
  | _ => None
  end.

Section SourcePoints.
Context {L : Libm}.
#[local] Open Scope float_scope.

(** The source point [spiralDistortion] samples at for the cell [(x, y)]. *)
Definition spiral_point (width height : Z) (spiralFactor : float) (x y : Z)
  : float * float :=
  let centerX := F.of_int width / 2 in
  let centerY := F.of_int height / 2 in
  let maxRadius := PrimFloat.sqrt (centerX * centerX + centerY * centerY) in
  spiral_source centerX centerY maxRadius spiralFactor x y.

(** The source point [wormholeDistortion] samples at for the cell [(x, y)]. *)
Definition wormhole_point (width height : Z) (pullFactor : float) (x y : Z)
  : float * float :=
  let centerX := F.of_int width / 2 in
  let centerY := F.of_int height / 2 in
  let maxRadius := PrimFloat.sqrt (centerX * centerX + centerY * centerY) in
  let pullFactor := F.max 0 (F.min 0.99 pullFactor) in
  wormhole_source centerX centerY maxRadius pullFactor x y.
End SourcePoints.

(** A loop body that, when it returns, has stored the channel at [i + 2] of
    a raster it left at its length. *)
Definition reaches_blue (body : Z -> raster -> outcome raster) : Prop :=
  forall i img img', body i img = Done img' ->
    i + 2 < Z.of_nat (length img) /\ length img' = length img.

(** A run that comes to an end: with a result, or at an operation the
    language leaves undefined; the bound on its loops was not used up. *)
Definition halts {A : Type} (c : outcome A) : Prop :=
  match c with
  | Diverged => False
  | _ => True
  end.

(** ** Vocabulary for rounding errors *)

(** The value of a finite double, scaled by 2^1074 (an integer: the least
    exponent of a double is -1074); 0 for the other doubles. *)
Definition scaled (x : spec_float) : Z :=
  match x with
  | S754_finite s m e => cond_Zopp s (Zpos m * 2 ^ (e + 1074))
  | _ => 0
  end.

(** A zero or a finite double. *)
Definition finite_sf (x : spec_float) : Prop :=
  match x with
  | S754_zero _ | S754_finite _ _ _ => True
  | _ => False
  end.

(** The scaled value of a double, and the doubles that have one. *)
Definition sc (a : float) : Z := scaled (Prim2SF a).
Definition fin (a : float) : Prop := finite_sf (Prim2SF a).

(** The value of a double as a rational number. *)
Definition val (a : float) : Q := inject_Z (sc a) / inject_Z (2 ^ 1074).

(** The relative error of one rounding is at most [u52] = 2^-52 (twice the
    unit roundoff), and the absolute error of a product that underflows at
    most [tiny] = 2^-1074. *)
Definition u52 : Q := 1 # 4503599627370496.
Definition tiny : Q := 1 / inject_Z (2 ^ 1074).
(** ** Loops, loads and stores *)

Section Basics.
Context {S : Type}.
Implicit Types (body : Z -> S -> outcome S) (s : S).

Lemma for_range_empty lo hi body s : hi <= lo -> for_range lo hi body s = Done s.
Proof.
  intros H. unfold for_range. replace (Z.to_nat (hi - lo)) with O by lia. reflexivity.
Qed.

Lemma for_range_first lo hi body s :
  lo < hi -> for_range lo hi body s = s' ← body lo s; for_range (lo + 1) hi body s'.
Proof.
  intros H. unfold for_range.
  replace (Z.to_nat (hi - lo)) with (Datatypes.S (Z.to_nat (hi - (lo + 1)))) by lia.
  reflexivity.
Qed.

(** Invariant rule: a body that never fails and keeps [I] runs to the end. *)
Lemma for_range_inv (I : Z -> S -> Prop) lo hi body s :
  lo <= hi -> I lo s ->
  (forall i t, lo <= i < hi -> I i t -> exists t', body i t = Done t' /\ I (i + 1) t') ->
  exists t, for_range lo hi body s = Done t /\ I hi t.
Proof.
  intros Hle. unfold for_range.
  remember (Z.to_nat (hi - lo)) as n eqn:Hn.
  revert lo s Hle Hn. induction n as [|n IH]; intros lo s Hle Hn H0 Hstep.
  - assert (hi = lo) by lia. subst hi. exists s. split; [reflexivity | assumption].
  - destruct (Hstep lo s ltac:(lia) H0) as (t' & Hb & Ht').
    simpl. rewrite Hb. simpl.
    apply IH; [lia | lia | assumption |].
    intros i t Hi. apply Hstep. lia.
Qed.

Lemma for_range_id lo hi body s :
  (forall i t, lo <= i < hi -> body i t = Done t) -> for_range lo hi body s = Done s.
Proof.
  intros H. destruct (Z_le_gt_dec lo hi) as [Hle|Hgt].
  - destruct (for_range_inv (fun _ t => t = s) lo hi body s Hle eq_refl) as (t & Ht & ->);
      [|exact Ht].
    intros i t Hi ->. exists s. split; [apply H; assumption | reflexivity].
  - apply for_range_empty. lia.
Qed.

Lemma for_range_ext lo hi (f g : Z -> S -> outcome S) s :
  (forall i t, lo <= i < hi -> f i t = g i t) -> for_range lo hi f s = for_range lo hi g s.
Proof.
  unfold for_range. remember (Z.to_nat (hi - lo)) as n eqn:Hn.
  revert lo s Hn. induction n as [|n IH]; intros lo s Hn H; [reflexivity|].
  cbn [for_count]. rewrite (H lo s) by lia.
  destruct (g lo s) as [t| |]; cbn [mbind outcome_bind]; try reflexivity.
  apply IH; [lia|]. intros i u Hi. apply H. lia.
Qed.
End Basics.

Lemma load_Done (m : raster) (i : Z) (x : Z) :
  load m i = Done x <-> 0 <= i /\ m !! Z.to_nat i = Some x.
Proof.
  unfold load. destruct (Z.ltb_spec i 0).
  - split; [discriminate | lia].
  - destruct (m !! Z.to_nat i) eqn:E; split.
    + intros [= ->]. auto.
    + intros [_ [= ->]]. reflexivity.
    + discriminate.
    + intros [_ [=]].
Qed.

Lemma load_lookup (m : raster) (n : nat) (x : Z) :
  m !! n = Some x -> load m (Z.of_nat n) = Done x.
Proof. intros H. apply load_Done. rewrite Nat2Z.id. split; [lia | assumption]. Qed.

Lemma store_Done (m : raster) (n : nat) (b : Z) :
  (n < length m)%nat -> store m (Z.of_nat n) b = Done (<[n := b]> m).
Proof.
  intros H. unfold store.
  destruct (Z.leb_spec 0 (Z.of_nat n)); [|lia].
  destruct (Z.ltb_spec (Z.of_nat n) (Z.of_nat (length m))); [|lia].
  simpl. rewrite Nat2Z.id. reflexivity.
Qed.

Lemma store_inv (m m' : raster) (i b : Z) :
  store m i b = Done m' ->
  0 <= i < Z.of_nat (length m) /\ m' = <[Z.to_nat i := b]> m.
Proof.
  unfold store. destruct (Z.leb_spec 0 i); destruct (Z.ltb_spec i (Z.of_nat (length m)));
    simpl; intros H1; inversion H1; subst; split; auto; lia.
Qed.

(** ** In-place kernels as pixel maps *)

Section InPlace.
Implicit Types (pre rest img : raster) (f : Z -> Z -> Z -> outcome (Z * Z * Z)).

Lemma load_px0 pre r rest : load (pre ++ r :: rest) (Z.of_nat (length pre)) = Done r.
Proof. apply load_lookup. apply list_lookup_middle. reflexivity. Qed.

Lemma load_px1 pre r g rest :
  load (pre ++ r :: g :: rest) (Z.of_nat (length pre) + 1) = Done g.
Proof.
  replace (Z.of_nat (length pre) + 1) with (Z.of_nat (length (pre ++ [r])))
    by (rewrite length_app; simpl; lia).
  rewrite (cons_middle r pre), app_assoc. apply load_px0.
Qed.

Lemma load_px2 pre r g b rest :
  load (pre ++ r :: g :: b :: rest) (Z.of_nat (length pre) + 2) = Done b.
Proof.
  replace (Z.of_nat (length pre) + 2) with (Z.of_nat (length (pre ++ [r])) + 1)
    by (rewrite length_app; simpl; lia).
  rewrite (cons_middle r pre), app_assoc. apply load_px1.
Qed.

Lemma store_px0 pre r rest v :
  store (pre ++ r :: rest) (Z.of_nat (length pre)) v = Done (pre ++ v :: rest).
Proof.
  rewrite store_Done by (rewrite length_app; simpl; lia).
  rewrite insert_app_r_alt by lia. rewrite Nat.sub_diag. reflexivity.
Qed.

Lemma store_px1 pre r g rest v :
  store (pre ++ r :: g :: rest) (Z.of_nat (length pre) + 1) v = Done (pre ++ r :: v :: rest).
Proof.
  replace (Z.of_nat (length pre) + 1) with (Z.of_nat (length (pre ++ [r])))
    by (rewrite length_app; simpl; lia).
  rewrite (cons_middle r pre), app_assoc, store_px0, <- app_assoc. reflexivity.
Qed.

Lemma store_px2 pre r g b rest v :
  store (pre ++ r :: g :: b :: rest) (Z.of_nat (length pre) + 2) v
  = Done (pre ++ r :: g :: v :: rest).
Proof.
  replace (Z.of_nat (length pre) + 2) with (Z.of_nat (length (pre ++ [r])) + 1)
    by (rewrite length_app; simpl; lia).
  rewrite (cons_middle r pre), app_assoc, store_px1, <- app_assoc. reflexivity.
Qed.

Lemma for_count_map f body (Hb : acts_as f body) n :
  forall pre cur p,
    Z.of_nat (length pre) = p * 4 -> (4 * n <= length cur)%nat ->
    for_count n p (fun p img => body (p * 4) img) (pre ++ cur)
    = cur' ← map_pixels f n cur; Done (pre ++ cur').
Proof.
  induction n as [|n IH]; intros pre cur p Hp Hlen; [reflexivity|].
  destruct cur as [|r [|g [|b [|a rest]]]]; simpl in Hlen; try lia.
  cbn [for_count map_pixels]. rewrite <- Hp, Hb.
  destruct (f r g b) as [[[r' g'] b']| |]; try reflexivity.
  cbn. change (pre ++ r' :: g' :: b' :: a :: rest) with (pre ++ [r'; g'; b'; a] ++ rest).
  rewrite app_assoc, IH; [| rewrite length_app; simpl; lia | lia].
  destruct (map_pixels f n rest); try reflexivity.
  cbn. rewrite <- app_assoc. reflexivity.
Qed.

Lemma for_pixels_map f body (Hb : acts_as f body) (n : nat) img :
  (4 * n <= length img)%nat -> for_pixels (Z.of_nat n) body img = map_pixels f n img.
Proof.
  intros Hlen. unfold for_pixels, for_range.
  replace (Z.to_nat (Z.of_nat n - 0)) with n by lia.
  change img with ([] ++ img) at 1.
  rewrite (for_count_map f body Hb n [] img 0) by (simpl; lia).
  destruct (map_pixels f n img); reflexivity.
Qed.

Lemma map_pixels_length f n img img' :
  map_pixels f n img = Done img' -> length img' = length img.
Proof.
  revert img img'. induction n as [|n IH]; intros img img'; simpl.
  - intros [= ->]. reflexivity.
  - destruct img as [|r [|g [|b [|a rest]]]]; try discriminate.
    destruct (f r g b) as [[[r' g'] b']| |]; try discriminate. cbn.
    destruct (map_pixels f n rest) as [rest'| |] eqn:E; try discriminate. cbn.
    intros [= <-]. simpl. rewrite (IH _ _ E). reflexivity.
Qed.

(** The alpha byte of every pixel survives an in-place kernel. *)
Lemma map_pixels_alpha f n img img' :
  map_pixels f n img = Done img' ->
  forall p, img' !! (4 * p + 3)%nat = img !! (4 * p + 3)%nat.
Proof.
  revert img img'. induction n as [|n IH]; intros img img' H p.
  - simpl in H. injection H as <-. reflexivity.
  - destruct img as [|r [|g [|b [|a rest]]]]; try discriminate.
    cbn [map_pixels] in H.
    destruct (f r g b) as [[[r' g'] b']| |]; try discriminate. cbn in H.
    destruct (map_pixels f n rest) as [rest'| |] eqn:E; try discriminate. cbn in H.
    injection H as <-. destruct p as [|p]; [reflexivity|].
    replace (4 * Datatypes.S p + 3)%nat
      with (Datatypes.S (Datatypes.S (Datatypes.S (Datatypes.S (4 * p + 3))))) by lia.
    exact (IH _ _ E p).
Qed.

(** A kernel whose [f] returns its arguments on bytes changes nothing. *)
Lemma map_pixels_id f n img :
  (forall r g b, u8 r -> u8 g -> u8 b -> f r g b = Done (r, g, b)) ->
  Forall u8 img -> (4 * n <= length img)%nat -> map_pixels f n img = Done img.
Proof.
  intros Hf. revert img. induction n as [|n IH]; intros img Hu Hlen; [reflexivity|].
  destruct img as [|r [|g [|b [|a rest]]]]; simpl in Hlen; try lia.
  inversion Hu as [|? ? Hr Hu1]; subst. inversion Hu1 as [|? ? Hg Hu2]; subst.
  inversion Hu2 as [|? ? Hb0 Hu3]; subst. inversion Hu3 as [|? ? Ha Hu4]; subst.
  simpl. rewrite Hf by assumption. cbn. rewrite IH by (assumption || lia). reflexivity.
Qed.

(** What [map_pixels] leaves at pixel [p]. *)
Lemma map_pixels_pixel f n img img' p r g b a :
  map_pixels f n img = Done img' -> (p < n)%nat ->
  pixel_at img p = Some (r, g, b, a) ->
  exists r' g' b', f r g b = Done (r', g', b') /\ pixel_at img' p = Some (r', g', b', a).
Proof.
  revert img img' p. induction n as [|n IH]; intros img img' p H Hp Hpx; [lia|].
  destruct img as [|r0 [|g0 [|b0 [|a0 rest]]]]; try discriminate.
  cbn [map_pixels] in H.
  destruct (f r0 g0 b0) as [[[r' g'] b']| |] eqn:Ef; try discriminate. cbn in H.
  destruct (map_pixels f n rest) as [rest'| |] eqn:E; try discriminate. cbn in H.
  injection H as <-. destruct p as [|p].
  - cbn in Hpx. injection Hpx as -> -> -> ->. eauto.
  - unfold pixel_at in *.
    replace (4 * Datatypes.S p + 1)%nat
      with (Datatypes.S (Datatypes.S (Datatypes.S (Datatypes.S (4 * p + 1))))) in * by lia.
    replace (4 * Datatypes.S p + 2)%nat
      with (Datatypes.S (Datatypes.S (Datatypes.S (Datatypes.S (4 * p + 2))))) in * by lia.
    replace (4 * Datatypes.S p + 3)%nat
      with (Datatypes.S (Datatypes.S (Datatypes.S (Datatypes.S (4 * p + 3))))) in * by lia.
    replace (4 * Datatypes.S p)%nat
      with (Datatypes.S (Datatypes.S (Datatypes.S (Datatypes.S (4 * p))))) in * by lia.
    apply (IH rest rest' p E); [lia | exact Hpx].
Qed.
(** A kernel whose [f] maps bytes to bytes runs to the end on a raster of bytes. *)
Lemma map_pixels_total f n img :
  (forall r g b, u8 r -> u8 g -> u8 b ->
     exists r' g' b', f r g b = Done (r', g', b') /\ u8 r' /\ u8 g' /\ u8 b') ->
  Forall u8 img -> (4 * n <= length img)%nat ->
  exists img', map_pixels f n img = Done img' /\ Forall u8 img'.
Proof.
  intros Hf. revert img. induction n as [|n IH]; intros img Hu Hlen.
  - exists img. split; [reflexivity | assumption].
  - destruct img as [|r [|g [|b [|a rest]]]]; simpl in Hlen; try lia.
    inversion Hu as [|? ? Hr Hu1]; subst. inversion Hu1 as [|? ? Hg Hu2]; subst.
    inversion Hu2 as [|? ? Hb0 Hu3]; subst. inversion Hu3 as [|? ? Ha Hu4]; subst.
    destruct (Hf r g b Hr Hg Hb0) as (r' & g' & b' & Hrgb & Hr' & Hg' & Hb').
    destruct (IH rest Hu4 ltac:(lia)) as (rest' & Hrest & Hu').
    exists (r' :: g' :: b' :: a :: rest'). split.
    + cbn [map_pixels]. rewrite Hrgb. cbn. rewrite Hrest. reflexivity.
    + do 4 (constructor; [assumption|]). assumption.
Qed.
End InPlace.

(** ** Binary64: the facts about doubles the proofs use *)

Module B64.

Abbreviation finite := S754_finite.

(** The number of binary digits of a mantissa. *)
Lemma digits2_size (m : positive) : digits2_pos m = Pos.size m.
Proof. induction m; simpl; congruence. Qed.

Lemma digits_bounds (m : positive) :
  2 ^ (Zpos (digits2_pos m) - 1) <= Zpos m < 2 ^ Zpos (digits2_pos m).
Proof.
  rewrite digits2_size. split.
  - pose proof (Pos.size_le m) as H.
    assert (H2 : 2 ^ Zpos (Pos.size m) <= 2 * Zpos m).
    { change 2 with (Zpos 2) at 1. rewrite <- Pos2Z.inj_pow. 
      change (2 * Zpos m) with (Zpos (m~0)). apply Pos2Z.pos_le_pos. exact H. }
    replace (Zpos (Pos.size m)) with (Z.succ (Zpos (Pos.size m) - 1)) in H2 by lia.
    rewrite Z.pow_succ_r in H2 by lia. lia.
  - pose proof (Pos.size_gt m) as H.
    change 2 with (Zpos 2). rewrite <- Pos2Z.inj_pow. apply Pos2Z.pos_lt_pos. exact H.
Qed.

(** A canonical mantissa above the subnormal range has 53 digits. *)
Lemma valid_normal (s : bool) (m : positive) (e : Z) :
  valid_binary (finite s m e) = true -> emin < e ->
  Zpos (digits2_pos m) = 53 /\ e <= 971.
Proof.
  unfold valid_binary, SpecFloat.valid_binary, bounded, canonical_mantissa, fexp, SpecFloat.emin.
  intros H He. apply andb_true_iff in H. destruct H as [H1 H2].
  apply Z.eqb_eq in H1. apply Z.leb_le in H2.
  unfold prec, emax, SpecFloat.emin in *. lia.
Qed.

Lemma SFltb_pos (m1 m2 : positive) (e1 e2 : Z) :
  SFltb (finite false m1 e1) (finite false m2 e2)
  = (e1 <? e2) || ((e1 =? e2) && (Zpos m1 <? Zpos m2)).
Proof.
  unfold SFltb, SFcompare. rewrite Pos.compare_cont_spec. unfold Pos.switch_Eq.
  destruct (Z.compare_spec e1 e2) as [->|H|H].
  - rewrite Z.ltb_irrefl, Z.eqb_refl. simpl.
    unfold Z.ltb. simpl. destruct (m1 ?= m2)%positive; reflexivity.
  - apply Z.ltb_lt in H. rewrite H. reflexivity.
  - assert (H1 : (e1 <? e2) = false) by (apply Z.ltb_ge; lia).
    assert (H2 : (e1 =? e2) = false) by (apply Z.eqb_neq; lia).
    rewrite H1, H2. reflexivity.
Qed.

Lemma prim_one : Prim2SF 1 = finite false 4503599627370496 (-52).
Proof. vm_compute. reflexivity. Qed.

Lemma wB_value : wB = 9223372036854775808.
Proof. reflexivity. Qed.

(** [floor63] is the integer part of a double in [1, 2^53). *)
Lemma floor63_spec (a : float) (m : positive) (e : Z) :
  Prim2SF a = finite false m e -> -52 <= e <= 0 ->
  to_Z (F.floor63 a) = Zpos m / 2 ^ (- e).
Proof.
  intros Ha He.
  pose proof (Prim2SF_valid a) as Hv. rewrite Ha in Hv.
  destruct (valid_normal _ _ _ Hv) as [Hd _]; [unfold SpecFloat.emin, emax, prec; lia|].
  pose proof (digits_bounds m) as Hb. rewrite Hd in Hb.
  change (2 ^ (53 - 1)) with 4503599627370496 in Hb.
  unfold F.floor63.
  rewrite FloatAxioms.ltb_spec, Ha, prim_one, SFltb_pos.
  replace ((e <? -52) || (e =? -52) && (Zpos m <? 4503599627370496)) with false; cycle 1.
  { symmetry. apply orb_false_iff. split; [apply Z.ltb_ge; lia|].
    apply andb_false_iff. right. apply Z.ltb_ge. lia. }
  pose proof (frshiftexp_spec a) as Hf. destruct (frshiftexp a) as [mm ee].
  rewrite Ha in Hf. unfold SFfrexp in Hf. rewrite Hd in Hf.
  change (Z.leb prec 53) with true in Hf. cbv iota in Hf.
  injection Hf as Hmm Hee.
  rewrite Uint63Axioms.lsr_spec, normfr_mantissa_spec, Hmm.
  unfold SFnormfr_mantissa. rewrite Z.eqb_refl.
  rewrite Uint63Axioms.sub_spec. change (to_Z 2154) with 2154.
  replace (to_Z ee) with (e + 2154) by (unfold FloatOps.shift, prec in Hee; lia).
  replace ((2154 - (e + 2154)) mod wB) with (- e)
    by (rewrite Z.mod_small; [lia | rewrite wB_value; lia]).
  reflexivity.
Qed.

Lemma SFltb_neg (m1 m2 : positive) (e1 e2 : Z) :
  SFltb (finite true m1 e1) (finite true m2 e2)
  = (e2 <? e1) || ((e1 =? e2) && (Zpos m2 <? Zpos m1)).
Proof.
  unfold SFltb, SFcompare. rewrite Pos.compare_cont_spec. unfold Pos.switch_Eq.
  destruct (Z.compare_spec e1 e2) as [->|H|H].
  - rewrite Z.ltb_irrefl, Z.eqb_refl. simpl.
    unfold Z.ltb. simpl. rewrite (Pos.compare_antisym m1 m2).
    destruct (m1 ?= m2)%positive; reflexivity.
  - assert (H1 : (e2 <? e1) = false) by (apply Z.ltb_ge; lia).
    assert (H2 : (e1 =? e2) = false) by (apply Z.eqb_neq; lia).
    rewrite H1, H2. reflexivity.
  - apply Z.ltb_lt in H. rewrite H. reflexivity.
Qed.

(** What validity says about a mantissa and its exponent. *)
Lemma valid_finite (d : float) (s : bool) (m : positive) (e : Z) :
  Prim2SF d = finite s m e ->
  -1074 <= e <= 971 /\ 0 < Zpos m < 2 ^ 53 /\ (-1074 < e -> 2 ^ 52 <= Zpos m).
Proof.
  intros Hd. pose proof (Prim2SF_valid d) as Hv. rewrite Hd in Hv.
  pose proof (digits_bounds m) as Hb.
  unfold valid_binary, SpecFloat.valid_binary, bounded, canonical_mantissa, fexp,
    SpecFloat.emin, prec, emax in Hv.
  apply andb_true_iff in Hv. destruct Hv as [H1 H2].
  apply Z.eqb_eq in H1. apply Z.leb_le in H2.
  assert (Hd53 : Zpos (digits2_pos m) <= 53) by lia.
  split; [lia|]. split.
  - split; [lia|]. eapply Z.lt_le_trans; [apply Hb|]. apply Z.pow_le_mono_r; lia.
  - intros He. assert (Zpos (digits2_pos m) = 53) as Hd' by lia.
    rewrite Hd' in Hb. change (2 ^ (53 - 1)) with (2 ^ 52) in Hb. lia.
Qed.

Lemma prim_m1 : Prim2SF (-1) = finite true 4503599627370496 (-52).
Proof. vm_compute. reflexivity. Qed.
Lemma prim_256 : Prim2SF 256 = finite false 4503599627370496 (-44).
Proof. vm_compute. reflexivity. Qed.
Lemma prim_0 : Prim2SF 0 = S754_zero false.
Proof. vm_compute. reflexivity. Qed.

(** The integer part of a double below 1 is 0. *)
Lemma small_quotient (m : positive) (e : Z) :
  Zpos m < 2 ^ 53 -> e <= -53 -> Zpos m / 2 ^ (- e) = 0.
Proof.
  intros Hm He. apply Z.div_small. split; [lia|].
  eapply Z.lt_le_trans; [exact Hm|]. apply Z.pow_le_mono_r; lia.
Qed.

Lemma floor63_small (a : float) (m : positive) (e : Z) :
  Prim2SF a = finite false m e -> e <= -53 -> to_Z (F.floor63 a) = 0.
Proof.
  intros Ha He. unfold F.floor63.
  rewrite FloatAxioms.ltb_spec, Ha, prim_one, SFltb_pos.
  replace (e <? -52) with true by (symmetry; apply Z.ltb_lt; lia). reflexivity.
Qed.

Lemma floor63_zero (a : float) (s : bool) :
  Prim2SF a = S754_zero s -> to_Z (F.floor63 a) = 0.
Proof.
  intros Ha. unfold F.floor63. rewrite FloatAxioms.ltb_spec, Ha, prim_one. reflexivity.
Qed.

(** The integer part of a positive double below 2^53. *)
Lemma floor63_trunc (a : float) (m : positive) (e : Z) :
  Prim2SF a = finite false m e -> e <= 0 ->
  to_Z (F.floor63 a) = Zpos m / 2 ^ (- e).
Proof.
  intros Ha He. destruct (valid_finite _ _ _ _ Ha) as (He' & Hm & _).
  destruct (Z_le_gt_dec e (-53)).
  - rewrite (floor63_small a m e), small_quotient by (assumption || lia). reflexivity.
  - apply floor63_spec; [assumption | lia].
Qed.

Lemma quotient_bounds (m : positive) (e k : Z) :
  2 ^ 52 <= Zpos m < 2 ^ 53 -> -52 <= e <= 0 -> 0 <= k ->
  (Zpos m / 2 ^ (- e) < 2 ^ k <-> e + 53 <= k).
Proof.
  intros Hm He Hk.
  assert (Hp : 0 < 2 ^ (- e)) by (apply Z.pow_pos_nonneg; lia).
  split.
  - intros H. destruct (Z_le_gt_dec (e + 53) k) as [|Hgt]; [assumption|exfalso].
    assert (2 ^ k <= Zpos m / 2 ^ (- e)); [|lia].
    apply Z.div_le_lower_bound; [assumption|].
    rewrite <- Z.pow_add_r by lia.
    etransitivity; [|apply Hm]. apply Z.pow_le_mono_r; lia.
  - intros H. apply Z.div_lt_upper_bound; [assumption|].
    rewrite <- Z.pow_add_r by lia.
    eapply Z.lt_le_trans; [apply Hm|]. apply Z.pow_le_mono_r; lia.
Qed.

Lemma abs_finite (d : float) (s : bool) (m : positive) (e : Z) :
  Prim2SF d = finite s m e -> Prim2SF (abs d) = finite false m e.
Proof. intros H. rewrite abs_spec, H. reflexivity. Qed.

(** [static_cast<uint8_t>] as modelled is truncation toward zero, defined
    exactly when the truncated value is a byte. *)
Lemma to_u8_correct (d : float) : F.to_u8 d = in_range 0 256 (trunc d).
Proof.
  unfold F.to_u8, trunc.
  rewrite !FloatAxioms.ltb_spec, prim_m1, prim_256.
  destruct (Prim2SF d) as [s|s| |s m e] eqn:Hd.
  - rewrite (floor63_zero (abs d) false) by (rewrite abs_spec, Hd; reflexivity).
    reflexivity.
  - destruct s; reflexivity.
  - reflexivity.
  - destruct (valid_finite _ _ _ _ Hd) as (He & Hm & Hn).
    pose proof (abs_finite _ _ _ _ Hd) as Ha.
    destruct s.
    + rewrite SFltb_neg. change (SFltb (finite true m e) _) with true.
      rewrite andb_true_r.
      destruct (Z_le_gt_dec e (-53)) as [Hs|Hs].
      * replace (e <? -52) with true by (symmetry; apply Z.ltb_lt; lia).
        cbn [orb]. rewrite (floor63_small _ _ _ Ha Hs).
        replace (0 <=? e) with false by (symmetry; apply Z.leb_gt; lia).
        cbn. rewrite small_quotient by lia. reflexivity.
      * replace (e <? -52) with false by (symmetry; apply Z.ltb_ge; lia).
        replace (Zpos m <? 4503599627370496) with false
          by (symmetry; apply Z.ltb_ge; change 4503599627370496 with (2 ^ 52); apply Hn; lia).
        rewrite andb_false_r. cbn [orb in_range].
        assert (Hv : 0 < (if 0 <=? e then Zpos m * 2 ^ e else Zpos m / 2 ^ (- e))).
        { destruct (Z.leb_spec 0 e).
          - apply Z.mul_pos_pos; [lia | apply Z.pow_pos_nonneg; lia].
          - apply Z.div_str_pos. split; [apply Z.pow_pos_nonneg; lia|].
            etransitivity; [|apply Hn; lia]. apply Z.pow_le_mono_r; lia. }
        replace (0 <=? - _) with false by (symmetry; apply Z.leb_gt; lia).
        reflexivity.
    + change (SFltb (finite true _ _) (finite false m e)) with true. cbn [andb].
      rewrite SFltb_pos.
      destruct (Z_le_gt_dec e (-45)) as [Hs|Hs].
      * replace (e <? -44) with true by (symmetry; apply Z.ltb_lt; lia).
        cbn [orb]. rewrite (floor63_trunc _ _ _ Ha) by lia.
        replace (0 <=? e) with false by (symmetry; apply Z.leb_gt; lia).
        cbn [in_range].
        assert (Hq : 0 <= Zpos m / 2 ^ (- e) < 256).
        { split; [apply Z.div_pos; [lia | apply Z.pow_pos_nonneg; lia]|].
          apply Z.div_lt_upper_bound; [apply Z.pow_pos_nonneg; lia|].
          eapply Z.lt_le_trans; [apply Hm|].
          change 256 with (2 ^ 8). rewrite <- Z.pow_add_r by lia.
          apply Z.pow_le_mono_r; lia. }
        replace (0 <=? _) with true by (symmetry; apply Z.leb_le; lia).
        replace (_ <? 256) with true by (symmetry; apply Z.ltb_lt; lia).
        reflexivity.
      * replace (e <? -44) with false by (symmetry; apply Z.ltb_ge; lia).
        replace (Zpos m <? 4503599627370496) with false
          by (symmetry; apply Z.ltb_ge; change 4503599627370496 with (2 ^ 52); apply Hn; lia).
        rewrite andb_false_r. cbn [orb in_range].
        assert (Hv : 256 <= (if 0 <=? e then Zpos m * 2 ^ e else Zpos m / 2 ^ (- e))).
        { destruct (Z.leb_spec 0 e).
          - assert (0 < 2 ^ e) by (apply Z.pow_pos_nonneg; lia).
            assert (2 ^ 52 <= Zpos m) by (apply Hn; lia).
            change (2 ^ 52) with 4503599627370496 in *. nia.
          - apply Z.div_le_lower_bound; [apply Z.pow_pos_nonneg; lia|].
            change 256 with (2 ^ 8). rewrite <- Z.pow_add_r by lia.
            etransitivity; [|apply Hn; lia]. apply Z.pow_le_mono_r; lia. }
        replace (_ <? 256) with false by (symmetry; apply Z.ltb_ge; lia).
        rewrite andb_false_r. reflexivity.
Qed.

Lemma in_range_Done (lo hi : Z) (o : option Z) (z : Z) :
  in_range lo hi o = Done z -> o = Some z /\ lo <= z < hi.
Proof.
  destruct o as [y|]; simpl; [|discriminate].
  destruct (Z.leb_spec lo y); destruct (Z.ltb_spec y hi); simpl; try discriminate.
  intros [= ->]. split; [reflexivity | lia].
Qed.

(** A defined conversion to [uint8_t] yields a byte. *)
Lemma to_u8_range (d : float) (c : Z) : F.to_u8 d = Done c -> u8 c.
Proof. rewrite to_u8_correct. intros H. apply in_range_Done in H. apply H. Qed.

Lemma prim_2p31 : Prim2SF 2147483648 = finite false 4503599627370496 (-21).
Proof. vm_compute. reflexivity. Qed.
Lemma prim_m2p31m1 : Prim2SF (-2147483649) = finite true 4503599629467648 (-21).
Proof. vm_compute. reflexivity. Qed.

Lemma quotient_pos (m : positive) (e : Z) : 0 <= Zpos m / 2 ^ (- e).
Proof.
  destruct (Z_le_gt_dec e 0).
  - apply Z.div_pos; [lia | apply Z.pow_pos_nonneg; lia].
  - rewrite Z.pow_neg_r by lia. rewrite Z.div_0_r. lia.
Qed.

Lemma quotient_lt (m : positive) (e k : Z) :
  Zpos m < 2 ^ 53 -> e <= 0 -> 0 <= k -> e + 53 <= k -> Zpos m / 2 ^ (- e) < 2 ^ k.
Proof.
  intros Hm He Hk H. apply Z.div_lt_upper_bound; [apply Z.pow_pos_nonneg; lia|].
  rewrite <- Z.pow_add_r by lia.
  eapply Z.lt_le_trans; [apply Hm|]. apply Z.pow_le_mono_r; lia.
Qed.

Lemma value_ge (m : positive) (e k : Z) :
  2 ^ 52 <= Zpos m -> 0 <= k -> k <= e + 52 ->
  2 ^ k <= (if 0 <=? e then Zpos m * 2 ^ e else Zpos m / 2 ^ (- e)).
Proof.
  intros Hm Hk H. destruct (Z.leb_spec 0 e).
  - replace k with ((k - e) + e) by lia.
    destruct (Z_le_gt_dec e k).
    + rewrite Z.pow_add_r by lia.
      apply Z.mul_le_mono_nonneg_r; [apply Z.pow_nonneg; lia|].
      etransitivity; [|apply Hm]. apply Z.pow_le_mono_r; lia.
    + assert (0 < 2 ^ e) by (apply Z.pow_pos_nonneg; lia).
      assert (2 ^ (k - e + e) <= 2 ^ e) by (apply Z.pow_le_mono_r; lia).
      assert (0 < 2 ^ 52) by reflexivity. nia.
  - apply Z.div_le_lower_bound; [apply Z.pow_pos_nonneg; lia|].
    rewrite <- Z.pow_add_r by lia.
    etransitivity; [|apply Hm]. apply Z.pow_le_mono_r; lia.
Qed.

(** [static_cast<int>] as modelled is truncation toward zero, defined exactly
    when the truncated value is a 32-bit integer. *)
Lemma to_int_correct (d : float) :
  F.to_int d = in_range (-2147483648) 2147483648 (trunc d).
Proof.
  unfold F.to_int, trunc.
  rewrite !FloatAxioms.ltb_spec, prim_m2p31m1, prim_2p31, prim_0.
  destruct (Prim2SF d) as [s|s| |s m e] eqn:Hd.
  - rewrite (floor63_zero d s) by assumption. reflexivity.
  - destruct s; reflexivity.
  - reflexivity.
  - destruct (valid_finite _ _ _ _ Hd) as (He & Hm & Hn).
    pose proof (abs_finite _ _ _ _ Hd) as Ha.
    destruct s.
    + rewrite SFltb_neg. change (SFltb (finite true m e) _) with true.
      rewrite andb_true_r.
      destruct (Z_le_gt_dec e (-21)) as [Hs|Hs].
      * rewrite (floor63_trunc _ _ _ Ha) by lia.
        replace (0 <=? e) with false by (symmetry; apply Z.leb_gt; lia).
        pose proof (quotient_pos m e) as Hq0. cbn [in_range].
        replace (- (Zpos m / 2 ^ (- e)) <? 2147483648) with true
          by (symmetry; apply Z.ltb_lt; lia).
        rewrite andb_true_r.
        destruct (Z_le_gt_dec e (-22)) as [Hs'|Hs'].
        -- replace (e <? -21) with true by (symmetry; apply Z.ltb_lt; lia).
           pose proof (quotient_lt m e 31 ltac:(lia) ltac:(lia) ltac:(lia) ltac:(lia)) as Hq.
           change (2 ^ 31) with 2147483648 in Hq.
           replace (-2147483648 <=? _) with true by (symmetry; apply Z.leb_le; lia).
           reflexivity.
        -- assert (e = -21) by lia. subst e.
           rewrite Z.ltb_irrefl, Z.eqb_refl. cbn [orb andb].
           change (2 ^ (- -21)) with 2097152 in *.
           destruct (Z.ltb_spec (Zpos m) 4503599629467648) as [Hlt|Hge].
           ++ assert (Zpos m / 2097152 <= 2147483648).
              { apply Z.lt_succ_r. apply Z.div_lt_upper_bound; lia. }
              replace (-2147483648 <=? _) with true by (symmetry; apply Z.leb_le; lia).
              reflexivity.
           ++ assert (2147483649 <= Zpos m / 2097152).
              { apply Z.div_le_lower_bound; lia. }
              replace (-2147483648 <=? _) with false by (symmetry; apply Z.leb_gt; lia).
              reflexivity.
      * replace (e <? -21) with false by (symmetry; apply Z.ltb_ge; lia).
        replace (-21 =? e) with false by (symmetry; apply Z.eqb_neq; lia).
        cbn [orb andb in_range].
        pose proof (value_ge m e 32 ltac:(apply Hn; lia) ltac:(lia) ltac:(lia)) as Hv.
        change (2 ^ 32) with 4294967296 in Hv.
        replace (-2147483648 <=? _) with false by (symmetry; apply Z.leb_gt; lia).
        reflexivity.
    + change (SFltb (finite true _ _) (finite false m e)) with true.
      change (SFltb (finite false m e) (S754_zero false)) with false.
      cbn [andb]. rewrite SFltb_pos.
      destruct (Z_le_gt_dec e (-22)) as [Hs|Hs].
      * replace (e <? -21) with true by (symmetry; apply Z.ltb_lt; lia).
        cbn [orb]. rewrite (floor63_trunc _ _ _ Hd) by lia.
        replace (0 <=? e) with false by (symmetry; apply Z.leb_gt; lia).
        pose proof (quotient_pos m e) as Hq0.
        pose proof (quotient_lt m e 31 ltac:(lia) ltac:(lia) ltac:(lia) ltac:(lia)) as Hq.
        change (2 ^ 31) with 2147483648 in Hq. cbn [in_range].
        replace (-2147483648 <=? _) with true by (symmetry; apply Z.leb_le; lia).
        replace (_ <? 2147483648) with true by (symmetry; apply Z.ltb_lt; lia).
        reflexivity.
      * replace (e <? -21) with false by (symmetry; apply Z.ltb_ge; lia).
        replace (Zpos m <? 4503599627370496) with false
          by (symmetry; apply Z.ltb_ge; change 4503599627370496 with (2 ^ 52); apply Hn; lia).
        rewrite andb_false_r. cbn [orb in_range].
        pose proof (value_ge m e 31 ltac:(apply Hn; lia) ltac:(lia) ltac:(lia)) as Hv.
        change (2 ^ 31) with 2147483648 in Hv.
        replace (_ <? 2147483648) with false by (symmetry; apply Z.ltb_ge; lia).
        rewrite andb_false_r. reflexivity.
Qed.

#[local] Open Scope float_scope.

Lemma prim_255 : Prim2SF 255 = finite false 8972014882652160 (-45).
Proof. vm_compute. reflexivity. Qed.

(** [clamp] stores every double, NaN included, as some byte. *)
Lemma clamp_total (val : float) : exists c, clamp val = Done c /\ u8 c.
Proof.
  assert (H : exists c, clamp val = Done c).
  { unfold clamp, F.min.
    destruct (val <? 255) eqn:E1.
    - unfold F.max. destruct (0 <? val) eqn:E2.
      + unfold F.to_u8.
        rewrite !FloatAxioms.ltb_spec, ?prim_0, ?prim_255, ?prim_m1, ?prim_256 in *.
        destruct (Prim2SF val) as [s|s| |s m e]; try discriminate; try (destruct s; discriminate).
        destruct s; [discriminate|].
        rewrite SFltb_pos in *.
        assert (He : (e <= -45)%Z).
        { destruct (Z.ltb_spec e (-45)); [lia|].
          destruct (Z.eqb_spec e (-45)); [lia | discriminate]. }
        replace (e <? -44)%Z with true by (symmetry; apply Z.ltb_lt; lia).
        eexists. reflexivity.
      + exists 0%Z. vm_compute. reflexivity.
    - exists 255%Z. vm_compute. reflexivity. }
  destruct H as [c Hc]. exists c. split; [assumption|].
  unfold clamp in Hc. eapply to_u8_range, Hc.
Qed.

Lemma binary_round_aux_sign (s : bool) (m e : Z) (l : location) :
  match binary_round_aux prec emax s m e l with
  | S754_zero s' | S754_infinity s' | S754_finite s' _ _ => s' = s
  | S754_nan => True
  end.
Proof.
  unfold binary_round_aux.
  destruct (shr_fexp prec emax m e l) as [mrs' e'].
  destruct (shr_fexp prec emax _ e' loc_Exact) as [mrs'' e''].
  destruct (shr_m mrs''); [reflexivity | | exact I].
  destruct (Z.leb e'' _); reflexivity.
Qed.

(** A square root is never below zero. *)
Lemma sqrt_sign (x : float) :
  match Prim2SF (PrimFloat.sqrt x) with
  | S754_infinity s | S754_finite s _ _ => s = false
  | _ => True
  end.
Proof.
  rewrite FloatAxioms.sqrt_spec. unfold SF64sqrt, SFsqrt.
  destruct (Prim2SF x) as [s|s| |s m e]; try exact I.
  - destruct s; [exact I | reflexivity].
  - destruct s; [exact I|].
    destruct (SFsqrt_core_binary prec emax (Zpos m) e) as [[mz ez] lz].
    pose proof (binary_round_aux_sign false mz ez lz) as H.
    destruct (binary_round_aux prec emax false mz ez lz); auto.
Qed.

(** The magnitude [sobelEdgeDetection] stores is a byte. *)
Lemma min255_sqrt_byte (x : float) :
  exists c, F.to_u8 (F.min 255 (PrimFloat.sqrt x)) = Done c /\ u8 c.
Proof.
  assert (H : exists c, F.to_u8 (F.min 255 (PrimFloat.sqrt x)) = Done c).
  { unfold F.min. destruct (PrimFloat.sqrt x <? 255) eqn:E.
    - pose proof (sqrt_sign x) as Hs. unfold F.to_u8.
      rewrite !FloatAxioms.ltb_spec, ?prim_255, ?prim_m1, ?prim_256 in *.
      destruct (Prim2SF (PrimFloat.sqrt x)) as [s|s| |s m e]; try discriminate.
      + eexists. reflexivity.
      + subst s. discriminate.
      + subst s. rewrite SFltb_pos in *.
        assert (He : (e <= -45)%Z).
        { destruct (Z.ltb_spec e (-45)); [lia|].
          destruct (Z.eqb_spec e (-45)); [lia | discriminate]. }
        replace (e <? -44)%Z with true by (symmetry; apply Z.ltb_lt; lia).
        eexists. reflexivity.
    - exists 255%Z. vm_compute. reflexivity. }
  destruct H as [c Hc]. exists c. split; [assumption|]. eapply to_u8_range, Hc.
Qed.

End B64.
(** ** Rounding to binary64

    What [binary_round_aux] returns on the mantissas the kernels produce,
    and the exact operations that follow from it. *)

Module Rounding.
Import B64.

(** *** Shifting a mantissa right *)

Lemma shr_1_m (mrs : shr_record) :
  0 <= shr_m mrs -> shr_m (shr_1 mrs) = shr_m mrs / 2.
Proof.
  destruct mrs as [m r s]. cbn [shr_m]. intros Hm.
  destruct m as [|p|p]; [reflexivity| |lia].
  destruct p as [p|p|]; cbn [shr_1 shr_m].
  - rewrite (Pos2Z.inj_xI p). apply Z.div_unique with (r := 1); lia.
  - rewrite (Pos2Z.inj_xO p). apply Z.div_unique with (r := 0); lia.
  - reflexivity.
Qed.

Lemma iter_pos_shr_m (p : positive) (mrs : shr_record) :
  0 <= shr_m mrs -> shr_m (SpecFloat.iter_pos shr_1 p mrs) = shr_m mrs / 2 ^ Zpos p.
Proof.
  revert mrs. induction p as [p IH|p IH|]; intros mrs Hm; cbn [SpecFloat.iter_pos].
  - assert (H1 : 0 <= shr_m (shr_1 mrs))
      by (rewrite shr_1_m by assumption; apply Z.div_pos; lia).
    assert (H2 : 0 <= shr_m (SpecFloat.iter_pos shr_1 p (shr_1 mrs)))
      by (rewrite IH by assumption; apply Z.div_pos; [lia | apply Z.pow_pos_nonneg; lia]).
    rewrite IH, IH, shr_1_m by assumption.
    rewrite !Z.div_div by (try apply Z.pow_pos_nonneg; lia).
    f_equal. rewrite (Pos2Z.inj_xI p).
    replace (2 * Zpos p + 1) with (1 + Zpos p + Zpos p) by lia.
    rewrite !Z.pow_add_r by lia. lia.
  - assert (H2 : 0 <= shr_m (SpecFloat.iter_pos shr_1 p mrs))
      by (rewrite IH by assumption; apply Z.div_pos; [lia | apply Z.pow_pos_nonneg; lia]).
    rewrite IH, IH by assumption.
    rewrite !Z.div_div by (try apply Z.pow_pos_nonneg; lia).
    f_equal. rewrite (Pos2Z.inj_xO p).
    replace (2 * Zpos p) with (Zpos p + Zpos p) by lia.
    rewrite !Z.pow_add_r by lia. lia.
  - rewrite shr_1_m by assumption. reflexivity.
Qed.

(** Shifting out zeros loses nothing. *)
Lemma shr_1_exact (m : Z) :
  0 <= m -> shr_1 {| shr_m := 2 * m; shr_r := false; shr_s := false |}
            = {| shr_m := m; shr_r := false; shr_s := false |}.
Proof. intros Hm. destruct m as [|p|p]; [reflexivity|reflexivity|lia]. Qed.

Lemma iter_pos_shr_exact (p : positive) (m : Z) :
  0 <= m ->
  SpecFloat.iter_pos shr_1 p {| shr_m := m * 2 ^ Zpos p; shr_r := false; shr_s := false |}
  = {| shr_m := m; shr_r := false; shr_s := false |}.
Proof.
  revert m. induction p as [p IH|p IH|]; intros m Hm; cbn [SpecFloat.iter_pos].
  - rewrite (Pos2Z.inj_xI p).
    replace (m * 2 ^ (2 * Zpos p + 1)) with (2 * (m * 2 ^ Zpos p * 2 ^ Zpos p))
      by (replace (2 * Zpos p + 1) with (1 + Zpos p + Zpos p) by lia;
          rewrite !Z.pow_add_r by lia; lia).
    assert (0 < 2 ^ Zpos p) by (apply Z.pow_pos_nonneg; lia).
    rewrite shr_1_exact by nia. rewrite IH by nia. apply IH. assumption.
  - rewrite (Pos2Z.inj_xO p).
    replace (m * 2 ^ (2 * Zpos p)) with (m * 2 ^ Zpos p * 2 ^ Zpos p)
      by (replace (2 * Zpos p) with (Zpos p + Zpos p) by lia;
          rewrite !Z.pow_add_r by lia; lia).
    assert (0 < 2 ^ Zpos p) by (apply Z.pow_pos_nonneg; lia).
    rewrite IH by nia. apply IH. assumption.
  - replace (m * 2 ^ 1) with (2 * m) by lia. apply shr_1_exact. assumption.
Qed.

Lemma round_nearest_even_cases (m : Z) (l : location) :
  round_nearest_even m l = m \/ round_nearest_even m l = m + 1.
Proof.
  destruct l as [|[| |]]; cbn; auto. destruct (Z.even m); auto.
Qed.

(** *** Counting digits *)

Lemma digits_unique (m : positive) (k : Z) :
  2 ^ (k - 1) <= Zpos m < 2 ^ k -> Zpos (digits2_pos m) = k.
Proof.
  intros [H1 H2]. pose proof (digits_bounds m) as [H3 H4].
  set (d := Zpos (digits2_pos m)) in *.
  assert (Hd : 0 < d) by (unfold d; lia).
  assert (Hk : 0 < k).
  { destruct (Z_lt_le_dec 0 k); [assumption|].
    rewrite (Z.pow_neg_r 2 (k - 1)) in H1 by lia.
    assert (2 ^ k <= 2 ^ 0) by (apply Z.pow_le_mono_r; lia).
    change (2 ^ 0) with 1 in *. lia. }
  destruct (Z_lt_le_dec d k) as [Hlt|Hge].
  - assert (2 ^ d <= 2 ^ (k - 1)) by (apply Z.pow_le_mono_r; lia). lia.
  - destruct (Z_lt_le_dec k d) as [Hlt|Hle]; [|lia].
    assert (2 ^ k <= 2 ^ (d - 1)) by (apply Z.pow_le_mono_r; lia). lia.
Qed.

Lemma Zpos_iter_xO (m k : positive) : Zpos (Pos.iter xO m k) = Zpos m * 2 ^ Zpos k.
Proof.
  induction k as [|k IH] using Pos.peano_ind.
  - cbn. lia.
  - rewrite Pos.iter_succ, Pos2Z.inj_xO, IH, Pos2Z.inj_succ, Z.pow_succ_r by lia. lia.
Qed.

Lemma digits_shift (m k : positive) :
  Zpos (digits2_pos (Pos.iter xO m k)) = Zpos (digits2_pos m) + Zpos k.
Proof.
  apply digits_unique. rewrite Zpos_iter_xO.
  pose proof (digits_bounds m) as [H1 H2].
  assert (0 < 2 ^ Zpos k) by (apply Z.pow_pos_nonneg; lia).
  replace (Zpos (digits2_pos m) + Zpos k - 1) with (Zpos (digits2_pos m) - 1 + Zpos k) by lia.
  rewrite !Z.pow_add_r by lia. nia.
Qed.

(** *** Rounding to 53 digits *)

Lemma shr_record_of_loc_m (m : Z) (l : location) : shr_m (shr_record_of_loc m l) = m.
Proof. destruct l as [|[| |]]; reflexivity. Qed.

Lemma bounded_spec (m : positive) (e : Z) :
  bounded prec emax m e = true <->
  Z.max (Zpos (digits2_pos m) + e - 53) (-1074) = e /\ e <= 971.
Proof.
  unfold bounded, canonical_mantissa, fexp, SpecFloat.emin, prec, emax.
  rewrite andb_true_iff, Z.eqb_eq, Z.leb_le. reflexivity.
Qed.

(** A product [m * 2^k] at exponent [e - k] rounds to [m] at exponent [e]. *)
Lemma BRA_exact_shift (s : bool) (m : positive) (e k : Z) :
  bounded prec emax m e = true -> 0 <= k ->
  binary_round_aux prec emax s (Zpos m * 2 ^ k) (e - k) loc_Exact = S754_finite s m e.
Proof.
  intros Hb Hk. apply bounded_spec in Hb. destruct Hb as [Hc He].
  assert (Hpow : 0 < 2 ^ k) by (apply Z.pow_pos_nonneg; lia).
  destruct (Zpos m * 2 ^ k) as [|mk|mk] eqn:Hmk; try lia.
  assert (Hd : Zpos (digits2_pos mk) = Zpos (digits2_pos m) + k).
  { apply digits_unique. rewrite <- Hmk. pose proof (digits_bounds m) as [H1 H2].
    replace (Zpos (digits2_pos m) + k - 1) with (Zpos (digits2_pos m) - 1 + k) by lia.
    rewrite !Z.pow_add_r by lia. nia. }
  unfold binary_round_aux.
  assert (Hfirst : shr_fexp prec emax (Zpos mk) (e - k) loc_Exact
                   = ({| shr_m := Zpos m; shr_r := false; shr_s := false |}, e)).
  { unfold shr_fexp, fexp, SpecFloat.emin, prec, emax. cbn [Zdigits2]. rewrite Hd.
    change (3 - 1024 - 53) with (-1074).
    replace (Zpos (digits2_pos m) + k + (e - k) - 53) with (Zpos (digits2_pos m) + e - 53)
      by lia.
    rewrite Hc. replace (e - (e - k)) with k by lia.
    unfold shr. destruct k as [|pk|pk]; try lia.
    - rewrite Z.mul_1_r in Hmk. injection Hmk as ->.
      replace (e - 0) with e by lia. reflexivity.
    - rewrite <- Hmk. cbn [shr_record_of_loc].
      rewrite iter_pos_shr_exact by lia. f_equal. lia. }
  rewrite Hfirst. cbn [shr_m loc_of_shr_record round_nearest_even].
  assert (Hsecond : shr_fexp prec emax (Zpos m) e loc_Exact
                    = ({| shr_m := Zpos m; shr_r := false; shr_s := false |}, e)).
  { unfold shr_fexp, fexp, SpecFloat.emin, prec, emax. cbn [Zdigits2].
    change (3 - 1024 - 53) with (-1074).
    rewrite Hc, Z.sub_diag. reflexivity. }
  rewrite Hsecond. cbn [shr_m].
  replace (e <=? emax - prec) with true
    by (symmetry; apply Z.leb_le; unfold emax, prec; lia).
  reflexivity.
Qed.

(** A mantissa of at least 53 digits in the normal range rounds to the 53
    leading digits, or to their successor. *)
Lemma BRA_normal (s : bool) (mx : positive) (ex : Z) (l : location) :
  53 <= Zpos (digits2_pos mx) ->
  -1074 <= Zpos (digits2_pos mx) + ex - 53 < 971 ->
  exists m e,
    binary_round_aux prec emax s (Zpos mx) ex l = S754_finite s m e /\
    Zpos (digits2_pos m) = 53 /\
    Zpos (digits2_pos mx) + ex - 53 <= e <= Zpos (digits2_pos mx) + ex - 52 /\
    (Zpos m * 2 ^ (e - (Zpos (digits2_pos mx) + ex - 53))
       = Zpos mx / 2 ^ (Zpos (digits2_pos mx) - 53) \/
     Zpos m * 2 ^ (e - (Zpos (digits2_pos mx) + ex - 53))
       = Zpos mx / 2 ^ (Zpos (digits2_pos mx) - 53) + 1).
Proof.
  set (d := Zpos (digits2_pos mx)). intros Hd Hrange.
  set (e0 := d + ex - 53). set (q := Zpos mx / 2 ^ (d - 53)).
  assert (Hq : 2 ^ 52 <= q < 2 ^ 53).
  { pose proof (digits_bounds mx) as [H1 H2]. fold d in H1, H2.
    assert (Hp : 0 < 2 ^ (d - 53)) by (apply Z.pow_pos_nonneg; lia).
    assert (E1 : 2 ^ (d - 1) = 2 ^ (d - 53) * 2 ^ 52)
      by (rewrite <- Z.pow_add_r by lia; f_equal; lia).
    assert (E2 : 2 ^ d = 2 ^ (d - 53) * 2 ^ 53)
      by (rewrite <- Z.pow_add_r by lia; f_equal; lia).
    unfold q. split.
    - apply Z.div_le_lower_bound; [assumption|]. lia.
    - apply Z.div_lt_upper_bound; [assumption|]. lia. }
  assert (Hfirst : exists mrs, shr_fexp prec emax (Zpos mx) ex l = (mrs, e0)
                               /\ shr_m mrs = q).
  { unfold shr_fexp, fexp, SpecFloat.emin, prec, emax. cbn [Zdigits2]. fold d.
    replace (Z.max (d + ex - 53) (3 - 1024 - 53)) with e0 by (unfold e0; lia).
    replace (e0 - ex) with (d - 53) by (unfold e0; lia).
    unfold shr, q. destruct (d - 53) as [|pk|pk] eqn:Hk; try lia.
    - exists (shr_record_of_loc (Zpos mx) l). split.
      + f_equal. unfold e0. lia.
      + rewrite shr_record_of_loc_m. change (2 ^ 0) with 1. rewrite Z.div_1_r. reflexivity.
    - exists (SpecFloat.iter_pos shr_1 pk (shr_record_of_loc (Zpos mx) l)). split.
      + f_equal. unfold e0. lia.
      + rewrite iter_pos_shr_m by (rewrite shr_record_of_loc_m; lia).
        rewrite shr_record_of_loc_m. reflexivity. }
  destruct Hfirst as (mrs & Hfirst & Hm).
  unfold binary_round_aux. rewrite Hfirst, Hm.
  set (m1 := round_nearest_even q (loc_of_shr_record mrs)).
  assert (Hm1 : m1 = q \/ m1 = q + 1) by apply round_nearest_even_cases.
  destruct (Z_lt_le_dec m1 (2 ^ 53)) as [Hlt|Hge].
  - destruct m1 as [|pm|pm] eqn:Hpm; try lia.
    assert (Hdm : Zpos (digits2_pos pm) = 53) by (apply digits_unique; lia).
    assert (Hsecond : shr_fexp prec emax (Zpos pm) e0 loc_Exact
                      = ({| shr_m := Zpos pm; shr_r := false; shr_s := false |}, e0)).
    { unfold shr_fexp, fexp, SpecFloat.emin, prec, emax. cbn [Zdigits2]. rewrite Hdm.
      replace (Z.max (53 + e0 - 53) (3 - 1024 - 53) - e0) with 0 by (unfold e0; lia).
      reflexivity. }
    rewrite Hsecond. cbn [shr_m].
    replace (e0 <=? emax - prec) with true
      by (symmetry; apply Z.leb_le; unfold emax, prec, e0; lia).
    exists pm, e0. split; [reflexivity|]. split; [assumption|].
    split; [unfold e0; lia|].
    fold d. fold e0. rewrite Z.sub_diag, Z.mul_1_r. fold q. lia.
  - assert (Hval : m1 = 2 ^ 53) by lia.
    assert (Hsecond : shr_fexp prec emax m1 e0 loc_Exact
                      = ({| shr_m := 2 ^ 52; shr_r := false; shr_s := false |}, e0 + 1)).
    { rewrite Hval. unfold shr_fexp, fexp, SpecFloat.emin, prec, emax.
      change (Zdigits2 (2 ^ 53)) with 54.
      replace (Z.max (54 + e0 - 53) (3 - 1024 - 53) - e0) with 1 by (unfold e0; lia).
      reflexivity. }
    rewrite Hsecond. cbn [shr_m]. change (2 ^ 52) with (Zpos 4503599627370496).
    cbv iota.
    replace (e0 + 1 <=? emax - prec) with true
      by (symmetry; apply Z.leb_le; unfold emax, prec, e0; lia).
    exists 4503599627370496%positive, (e0 + 1). split; [reflexivity|].
    split; [reflexivity|]. split; [unfold e0; lia|].
    fold d. fold e0. fold q. right.
    replace (e0 + 1 - e0) with 1 by lia. change (2 ^ 53) with 9007199254740992 in *. lia.
Qed.

Lemma BRA_exact (s : bool) (m : positive) (e : Z) :
  bounded prec emax m e = true ->
  binary_round_aux prec emax s (Zpos m) e loc_Exact = finite s m e.
Proof.
  intros Hb. pose proof (BRA_exact_shift s m e 0 Hb ltac:(lia)) as H.
  rewrite Z.mul_1_r, Z.sub_0_r in H. exact H.
Qed.

(** A mantissa of at most 53 digits is kept, aligned to 53 digits. *)
Lemma binary_round_short (s : bool) (px : positive) (ex : Z) :
  Zpos (digits2_pos px) <= 53 ->
  -1074 <= Zpos (digits2_pos px) + ex - 53 <= 971 ->
  binary_round prec emax s px ex
  = finite s (Z.to_pos (Zpos px * 2 ^ (53 - Zpos (digits2_pos px))))
             (Zpos (digits2_pos px) + ex - 53).
Proof.
  set (d := Zpos (digits2_pos px)). intros Hd He.
  unfold binary_round, shl_align, fexp, SpecFloat.emin, prec, emax. fold d.
  change (3 - 1024 - 53) with (-1074).
  replace (Z.max (d + ex - 53) (-1074)) with (d + ex - 53) by lia.
  destruct (d + ex - 53 - ex) as [|k|k] eqn:Hk; try lia.
  - replace (53 - d) with 0 by lia. rewrite Z.mul_1_r. cbn [Z.to_pos].
    replace (d + ex - 53) with ex by lia.
    apply BRA_exact. apply bounded_spec. fold d. lia.
  - replace (53 - d) with (Zpos k) by lia. rewrite <- Zpos_iter_xO. cbn [Z.to_pos].
    apply BRA_exact. apply bounded_spec. rewrite digits_shift. fold d. lia.
Qed.

(** *** Integers as doubles *)

Lemma of_uint63_small (x : Z) :
  0 < x < 2 ^ 53 ->
  Prim2SF (of_uint63 (of_Z x))
  = finite false (Z.to_pos (x * 2 ^ (53 - Zdigits2 x))) (Zdigits2 x - 53).
Proof.
  intros Hx. rewrite of_uint63_spec, Uint63.of_Z_spec.
  rewrite Z.mod_small by (rewrite wB_value; change (2 ^ 53) with 9007199254740992 in Hx; lia).
  destruct x as [|px|px]; try lia. cbn [binary_normalize Zdigits2].
  assert (Hd : Zpos (digits2_pos px) <= 53).
  { pose proof (digits_bounds px) as [H1 _].
    destruct (Z_le_gt_dec (Zpos (digits2_pos px)) 53) as [|Hgt]; [assumption|].
    assert (2 ^ 53 <= 2 ^ (Zpos (digits2_pos px) - 1)) by (apply Z.pow_le_mono_r; lia).
    lia. }
  rewrite binary_round_short by lia.
  f_equal; lia.
Qed.

(** The representation of [(double) x] for a positive 32-bit [x]. *)
Lemma of_int_pos (x : Z) :
  0 < x < 2 ^ 53 ->
  exists m e, Prim2SF (F.of_int x) = finite false m e /\
              Zpos (digits2_pos m) = 53 /\ -52 <= e <= 0 /\ x * 2 ^ (- e) = Zpos m.
Proof.
  intros Hx. unfold F.of_int.
  replace (x <? 0) with false by (symmetry; apply Z.ltb_ge; lia).
  rewrite of_uint63_small by assumption.
  destruct x as [|px|px]; try lia. cbn [Zdigits2].
  set (d := Zpos (digits2_pos px)).
  assert (Hd : 1 <= d <= 53).
  { pose proof (digits_bounds px) as [H1 _]. fold d in H1. split; [lia|].
    destruct (Z_le_gt_dec d 53) as [|Hgt]; [assumption|].
    assert (2 ^ 53 <= 2 ^ (d - 1)) by (apply Z.pow_le_mono_r; lia). lia. }
  assert (Hp : 0 < 2 ^ (53 - d)) by (apply Z.pow_pos_nonneg; lia).
  eexists _, _. split; [reflexivity|].
  assert (Hm : Zpos (Z.to_pos (Zpos px * 2 ^ (53 - d))) = Zpos px * 2 ^ (53 - d))
    by (apply Z2Pos.id; lia).
  split; [|split; [lia|]].
  - apply digits_unique. rewrite Hm.
    pose proof (digits_bounds px) as [H1 H2]. fold d in H1, H2.
    assert (E1 : 2 ^ (53 - 1) = 2 ^ (d - 1) * 2 ^ (53 - d))
      by (rewrite <- Z.pow_add_r by lia; f_equal; lia).
    assert (E2 : 2 ^ 53 = 2 ^ d * 2 ^ (53 - d))
      by (rewrite <- Z.pow_add_r by lia; f_equal; lia).
    rewrite E1, E2. nia.
  - rewrite Hm. f_equal. f_equal. lia.
Qed.

Lemma of_int_zero : F.of_int 0 = 0%float.
Proof. reflexivity. Qed.

Lemma trunc_of_int (x : Z) : 0 <= x < 2 ^ 53 -> trunc (F.of_int x) = Some x.
Proof.
  intros Hx. destruct (Z.eq_dec x 0) as [->|Hne]; [reflexivity|].
  destruct (of_int_pos x ltac:(lia)) as (m & e & Hm & _ & He & Hv).
  unfold trunc. rewrite Hm. f_equal.
  destruct (Z.leb_spec 0 e).
  - replace e with 0 in * by lia. change (2 ^ (- 0)) with 1 in Hv. change (2 ^ 0) with 1. lia.
  - rewrite <- Hv. apply Z.div_mul. apply Z.pow_nonzero; lia.
Qed.

Lemma to_int_of_int (x : Z) : 0 <= x < 2 ^ 31 -> F.to_int (F.of_int x) = Done x.
Proof.
  intros Hx. rewrite to_int_correct, trunc_of_int.
  - cbn [in_range]. change (2 ^ 31) with 2147483648 in Hx.
    replace (-2147483648 <=? x) with true by (symmetry; apply Z.leb_le; lia).
    replace (x <? 2147483648) with true by (symmetry; apply Z.ltb_lt; lia).
    reflexivity.
  - split; [lia|]. eapply Z.lt_le_trans; [apply Hx|]. apply Z.pow_le_mono_r; lia.
Qed.

Lemma to_u8_of_int (x : Z) : u8 x -> F.to_u8 (F.of_int x) = Done x.
Proof.
  intros Hx. unfold u8 in Hx. rewrite to_u8_correct, trunc_of_int.
  - cbn [in_range].
    replace (0 <=? x) with true by (symmetry; apply Z.leb_le; lia).
    replace (x <? 256) with true by (symmetry; apply Z.ltb_lt; lia).
    reflexivity.
  - change (2 ^ 53) with 9007199254740992. lia.
Qed.

Lemma sub_self (a : float) (s : bool) (m : positive) (e : Z) :
  Prim2SF a = finite s m e -> (a - a)%float = 0%float.
Proof.
  intros Ha. apply Prim2SF_inj. rewrite FloatAxioms.sub_spec, Ha, prim_0.
  unfold SF64sub, SFsub. rewrite Z.min_id. unfold shl_align.
  rewrite (Z.sub_diag e). cbn [fst]. rewrite Z.sub_diag. reflexivity.
Qed.

Lemma of_int_sub_self (x : Z) : 0 <= x < 2 ^ 53 -> (F.of_int x - F.of_int x)%float = 0%float.
Proof.
  intros Hx. destruct (Z.eq_dec x 0) as [->|Hne]; [reflexivity|].
  destruct (of_int_pos x ltac:(lia)) as (m & e & Hm & _).
  eapply sub_self, Hm.
Qed.

Lemma max_0_of_int (x : Z) : 0 <= x < 2 ^ 53 -> F.max 0 (F.of_int x) = F.of_int x.
Proof.
  intros Hx. destruct (Z.eq_dec x 0) as [->|Hne]; [reflexivity|].
  destruct (of_int_pos x ltac:(lia)) as (m & e & Hm & _).
  unfold F.max. rewrite FloatAxioms.ltb_spec, Hm, prim_0. reflexivity.
Qed.

(** *** Comparing normal doubles by value *)

Lemma SFltb_value (m1 m2 : positive) (e1 e2 K : Z) :
  Zpos (digits2_pos m1) = 53 -> Zpos (digits2_pos m2) = 53 ->
  K <= e1 -> K <= e2 ->
  Zpos m1 * 2 ^ (e1 - K) < Zpos m2 * 2 ^ (e2 - K) ->
  SFltb (finite false m1 e1) (finite false m2 e2) = true.
Proof.
  intros Hd1 Hd2 HK1 HK2 Hlt. rewrite SFltb_pos.
  pose proof (digits_bounds m1) as [L1 U1]. pose proof (digits_bounds m2) as [L2 U2].
  rewrite Hd1 in L1, U1. rewrite Hd2 in L2, U2.
  change (2 ^ (53 - 1)) with 4503599627370496 in L1, L2.
  change (2 ^ 53) with 9007199254740992 in U1, U2.
  destruct (Z.ltb_spec e1 e2) as [|Hge]; [reflexivity|].
  destruct (Z.eqb_spec e1 e2) as [->|Hne]; cbn [orb andb].
  - apply Z.ltb_lt.
    assert (0 < 2 ^ (e2 - K)) by (apply Z.pow_pos_nonneg; lia). nia.
  - exfalso.
    assert (Hp : 0 < 2 ^ (e2 - K)) by (apply Z.pow_pos_nonneg; lia).
    assert (E : 2 ^ (e1 - K) = 2 ^ (e1 - e2) * 2 ^ (e2 - K))
      by (rewrite <- Z.pow_add_r by lia; f_equal; lia).
    assert (2 ^ 1 <= 2 ^ (e1 - e2)) by (apply Z.pow_le_mono_r; lia).
    change (2 ^ 1) with 2 in *. rewrite E in Hlt. nia.
Qed.

Lemma shl_align_value (mx : positive) (ex ez : Z) :
  ez <= ex -> Zpos (fst (shl_align mx ex ez)) = Zpos mx * 2 ^ (ex - ez).
Proof.
  intros H. unfold shl_align.
  destruct (ez - ex) as [|k|k] eqn:Hk; try lia; cbn [fst].
  - replace (ex - ez) with 0 by lia. lia.
  - rewrite Zpos_iter_xO. f_equal. f_equal. lia.
Qed.

Lemma digits_align (px : positive) :
  Zpos (digits2_pos px) <= 53 ->
  Zpos (digits2_pos (Z.to_pos (Zpos px * 2 ^ (53 - Zpos (digits2_pos px))))) = 53
  /\ Zpos (Z.to_pos (Zpos px * 2 ^ (53 - Zpos (digits2_pos px))))
     = Zpos px * 2 ^ (53 - Zpos (digits2_pos px)).
Proof.
  set (d := Zpos (digits2_pos px)). intros Hd.
  assert (Hp : 0 < 2 ^ (53 - d)) by (apply Z.pow_pos_nonneg; lia).
  assert (Hm : Zpos (Z.to_pos (Zpos px * 2 ^ (53 - d))) = Zpos px * 2 ^ (53 - d))
    by (apply Z2Pos.id; lia).
  split; [|exact Hm].
  apply digits_unique. rewrite Hm.
  pose proof (digits_bounds px) as [H1 H2]. fold d in H1, H2.
  assert (E1 : 2 ^ (53 - 1) = 2 ^ (d - 1) * 2 ^ (53 - d))
    by (rewrite <- Z.pow_add_r by lia; f_equal; lia).
  assert (E2 : 2 ^ 53 = 2 ^ d * 2 ^ (53 - d))
    by (rewrite <- Z.pow_add_r by lia; f_equal; lia).
  rewrite E1, E2. nia.
Qed.

Lemma prim_1001 : Prim2SF 1.001 = finite false 4508103226997866 (-52).
Proof. reflexivity. Qed.

(** The bound [width - 1.001] of the clamp lies above [width - 2]. *)
Lemma bound_above (w : Z) :
  2 <= w < 2 ^ 31 ->
  exists m e, Prim2SF (F.of_int w - 1.001)%float = finite false m e /\
              Zpos (digits2_pos m) = 53 /\ -53 <= e /\
              (w - 2) * 2 ^ 53 < Zpos m * 2 ^ (e + 53).
Proof.
  intros Hw.
  assert (Hw53 : 0 < w < 2 ^ 53)
    by (split; [lia|]; eapply Z.lt_le_trans; [apply Hw|]; apply Z.pow_le_mono_r; lia).
  destruct (of_int_pos w Hw53) as (mw & ew & Hmw & Hdw & Hew & Hvw).
  rewrite FloatAxioms.sub_spec, Hmw, prim_1001. unfold SF64sub, SFsub.
  replace (Z.min ew (-52)) with (-52) by lia.
  rewrite !shl_align_value by lia. cbn [cond_Zopp].
  replace (-52 - -52) with 0 by lia. rewrite Z.mul_1_r.
  replace (ew - -52) with (52 - - ew) by lia.
  assert (Hpw : 0 < 2 ^ (- ew)) by (apply Z.pow_pos_nonneg; lia).
  assert (EM : Zpos mw * 2 ^ (52 - - ew) = w * 2 ^ 52).
  { rewrite <- Hvw, <- Z.mul_assoc, <- Z.pow_add_r by lia. f_equal. f_equal. lia. }
  rewrite EM. clear EM Hvw Hmw Hdw.
  change (2 ^ 31) with 2147483648 in Hw.
  change (2 ^ 52) with 4503599627370496.
  destruct (w * 4503599627370496 - 4508103226997866) as [|pM|pM] eqn:HM; try lia.
  cbn [binary_normalize].
  set (d := Zpos (digits2_pos pM)).
  pose proof (digits_bounds pM) as [L U]. fold d in L, U.
  assert (Hd52 : 52 <= d).
  { destruct (Z_le_gt_dec 52 d) as [|Hlt]; [assumption|].
    assert (2 ^ d <= 2 ^ 51) by (apply Z.pow_le_mono_r; lia).
    change (2 ^ 51) with 2251799813685248 in *. lia. }
  assert (Hd83 : d <= 83).
  { destruct (Z_le_gt_dec d 83) as [|Hgt]; [assumption|].
    assert (2 ^ 83 <= 2 ^ (d - 1)) by (apply Z.pow_le_mono_r; lia).
    change (2 ^ 83) with 9671406556917033397649408 in *. lia. }
  destruct (Z_le_gt_dec d 53) as [Hshort|Hlong].
  - rewrite binary_round_short by (fold d; lia). fold d.
    destruct (digits_align pM Hshort) as [Hdig Hval]. fold d in Hdig, Hval.
    eexists _, _. split; [reflexivity|]. split; [exact Hdig|]. split; [lia|].
    rewrite Hval. rewrite <- Z.mul_assoc, <- Z.pow_add_r by lia.
    replace (53 - d + (d + -52 - 53 + 53)) with 1 by lia.
    change (2 ^ 53) with 9007199254740992. change (2 ^ 1) with 2. lia.
  - unfold binary_round. fold d.
    assert (Hf : fexp prec emax (d + -52) = d - 105)
      by (unfold fexp, SpecFloat.emin, prec, emax; lia).
    rewrite Hf.
    assert (Hs : shl_align pM (-52) (d - 105) = (pM, -52)).
    { unfold shl_align. destruct (d - 105 - -52) as [|k|k] eqn:Hk; try lia; reflexivity. }
    rewrite Hs.
    destruct (BRA_normal false pM (-52) loc_Exact) as (m & e & Hr & Hdig & He & Hv);
      [fold d; lia | fold d; lia |].
    fold d in He, Hv.
    exists m, e. split; [exact Hr|]. split; [exact Hdig|]. split; [lia|].
    set (k := d - 53) in *. set (q := Zpos pM / 2 ^ k) in *.
    assert (Hpk : 0 < 2 ^ k) by (apply Z.pow_pos_nonneg; unfold k; lia).
    assert (Hk51 : 2 ^ k <= 2 ^ 51) by (apply Z.pow_le_mono_r; unfold k; lia).
    change (2 ^ 51) with 2251799813685248 in Hk51.
    assert (E52 : 2 ^ (52 - k) * 2 ^ k = 4503599627370496).
    { rewrite <- Z.pow_add_r by (unfold k; lia).
      replace (52 - k + k) with 52 by lia. reflexivity. }
    assert (Hq : (w - 2) * 2 ^ (52 - k) + 1 <= q).
    { unfold q. apply Z.div_le_lower_bound; [assumption|]. nia. }
    assert (Hmq : q <= Zpos m * 2 ^ (e - (d + -52 - 53))) by lia.
    assert (E : Zpos m * 2 ^ (e + 53)
                = Zpos m * 2 ^ (e - (d + -52 - 53)) * (2 * 2 ^ k)).
    { rewrite <- (Z.pow_succ_r 2 k) by (unfold k; lia).
      rewrite <- Z.mul_assoc, <- Z.pow_add_r by (unfold k; lia).
      f_equal. f_equal. unfold k. lia. }
    rewrite E. change (2 ^ 53) with 9007199254740992.
    assert ((w - 2) * 4503599627370496 + 2 ^ k <= q * 2 ^ k) by nia.
    nia.
Qed.

Lemma min_bound_of_int (w x : Z) :
  0 <= x <= w - 2 -> w < 2 ^ 31 ->
  F.min (F.of_int w - 1.001)%float (F.of_int x) = F.of_int x.
Proof.
  intros Hx Hw. unfold F.min.
  destruct (bound_above w ltac:(lia)) as (m & e & Hm & Hdig & He & Hv).
  rewrite FloatAxioms.ltb_spec, Hm.
  destruct (Z.eq_dec x 0) as [->|Hne]; [reflexivity|].
  assert (Hx53 : 0 < x < 2 ^ 53).
  { split; [lia|]. apply Z.lt_le_trans with (2 ^ 31); [lia|]. apply Z.pow_le_mono_r; lia. }
  destruct (of_int_pos x Hx53) as (mx & ex & Hmx & Hdx & Hex & Hvx).
  rewrite Hmx.
  rewrite (SFltb_value mx m ex e (-53)); [reflexivity|assumption|assumption|lia|lia|].
  replace (e - -53) with (e + 53) by lia.
  rewrite <- Hvx, <- Z.mul_assoc, <- Z.pow_add_r by lia.
  replace (- ex + (ex - -53)) with 53 by lia.
  assert (0 < 2 ^ 53) by (apply Z.pow_pos_nonneg; lia). nia.
Qed.

Lemma clamp_coord_of_int (w x : Z) :
  0 <= x <= w - 2 -> w < 2 ^ 31 -> clamp_coord w (F.of_int x) = F.of_int x.
Proof.
  intros Hx Hw. unfold clamp_coord. rewrite min_bound_of_int by assumption.
  apply max_0_of_int. split; [lia|].
  apply Z.lt_le_trans with (2 ^ 31); [lia|]. apply Z.pow_le_mono_r; lia.
Qed.


(** *** Multiplying by one, by zero, adding zero *)

Section ExactOps.
#[local] Open Scope float_scope.

Lemma mul_1_r (a : float) : a * 1 = a.
Proof.
  apply Prim2SF_inj. rewrite FloatAxioms.mul_spec, prim_one. unfold SF64mul, SFmul.
  destruct (Prim2SF a) as [s|s| |s m e] eqn:Ha;
    [destruct s; reflexivity | destruct s; reflexivity | reflexivity |].
  pose proof (Prim2SF_valid a) as Hv. rewrite Ha in Hv.
  cbv beta iota. rewrite xorb_false_r, Pos2Z.inj_mul.
  change (Zpos 4503599627370496) with (2 ^ 52)%Z.
  replace (e + -52)%Z with (e - 52)%Z by lia.
  apply BRA_exact_shift; [exact Hv | lia].
Qed.

Lemma mul_0_r (a : float) : nonneg_finite a -> a * 0 = 0.
Proof.
  intros [Ha|(m & e & Ha)]; apply Prim2SF_inj;
    rewrite FloatAxioms.mul_spec, Ha, prim_0; reflexivity.
Qed.

Lemma mul_0_l (a : float) : nonneg_finite a -> 0 * a = 0.
Proof.
  intros [Ha|(m & e & Ha)]; apply Prim2SF_inj;
    rewrite FloatAxioms.mul_spec, Ha, prim_0; reflexivity.
Qed.

Lemma add_0_r (a : float) : nonneg_finite a -> a + 0 = a.
Proof.
  intros [Ha|(m & e & Ha)]; apply Prim2SF_inj;
    rewrite FloatAxioms.add_spec, Ha, prim_0; reflexivity.
Qed.

Lemma of_int_nonneg_finite (x : Z) : (0 <= x < 2 ^ 53)%Z -> nonneg_finite (F.of_int x).
Proof.
  intros Hx. destruct (Z.eq_dec x 0%Z) as [->|Hne]; [left; reflexivity|].
  destruct (of_int_pos x ltac:(lia)) as (m & e & Hm & _). right. eauto.
Qed.

Lemma blend_weights (p1 p2 p3 p4 : Z) :
  u8 p1 -> u8 p2 -> u8 p3 -> u8 p4 ->
  (F.of_int p1 * (1 - 0) + F.of_int p2 * 0) * (1 - 0)
  + (F.of_int p3 * (1 - 0) + F.of_int p4 * 0) * 0 = F.of_int p1.
Proof.
  intros H1 H2 H3 H4.
  assert (N : forall p, u8 p -> nonneg_finite (F.of_int p)).
  { intros p Hp. apply of_int_nonneg_finite. unfold u8 in Hp.
    change (2 ^ 53)%Z with 9007199254740992%Z. lia. }
  replace (1 - 0) with 1 by reflexivity.
  rewrite !mul_1_r, (mul_0_r (F.of_int p2)), (mul_0_r (F.of_int p4)) by auto.
  rewrite !add_0_r, (mul_0_r (F.of_int p3)) by auto.
  apply add_0_r. auto.
Qed.

End ExactOps.

End Rounding.
(** ** Exponent bounds through the operations

    How large and how small the result of an operation on finite doubles
    can be, from the exponents of its operands: enough to tell that the
    polar coordinates of a cell are finite. *)

Module Magnitude.
Import B64 Rounding.

Lemma Zdigits2_bounds (m : Z) : 0 <= m -> 0 <= Zdigits2 m /\ m < 2 ^ Zdigits2 m.
Proof.
  destruct m as [|p|p]; intros H; try lia.
  - cbn. lia.
  - cbn [Zdigits2]. pose proof (digits_bounds p). lia.
Qed.

Lemma Zdigits2_le (m k : Z) : 0 <= m < 2 ^ k -> 0 <= k -> Zdigits2 m <= k.
Proof.
  intros Hm Hk. destruct m as [|p|p]; try lia; cbn [Zdigits2]; [assumption|].
  pose proof (digits_bounds p) as [H1 _].
  destruct (Z_le_gt_dec (Zpos (digits2_pos p)) k) as [|Hgt]; [assumption|].
  assert (2 ^ k <= 2 ^ (Zpos (digits2_pos p) - 1)) by (apply Z.pow_le_mono_r; lia).
  lia.
Qed.

Lemma Zdigits2_mono (a b : Z) : 0 <= a <= b -> Zdigits2 a <= Zdigits2 b.
Proof.
  intros H. destruct (Zdigits2_bounds b ltac:(lia)) as [H1 H2].
  apply Zdigits2_le; lia.
Qed.

Lemma Zdigits2_shift (m : positive) (k : Z) :
  0 <= k -> Zdigits2 (Zpos m * 2 ^ k) = Zpos (digits2_pos m) + k.
Proof.
  intros Hk. assert (Hp : 0 < 2 ^ k) by (apply Z.pow_pos_nonneg; lia).
  destruct (Zpos m * 2 ^ k) as [|q|q] eqn:Hq; try lia. cbn [Zdigits2].
  apply digits_unique. rewrite <- Hq. pose proof (digits_bounds m) as [H1 H2].
  replace (Zpos (digits2_pos m) + k - 1) with (Zpos (digits2_pos m) - 1 + k) by lia.
  rewrite !Z.pow_add_r by lia. nia.
Qed.

Lemma fexp_value (k : Z) : fexp prec emax k = Z.max (k - 53) (-1074).
Proof. reflexivity. Qed.

(** The first step of rounding: the mantissa is cut to at most 53 digits. *)
Lemma shr_fexp_cases (m e : Z) (l : location) :
  0 <= m ->
  exists mrs e', shr_fexp prec emax m e l = (mrs, e') /\
                 0 <= shr_m mrs < 2 ^ 53 /\
                 e' = Z.max e (Z.max (Zdigits2 m + e - 53) (-1074)).
Proof.
  intros Hm. unfold shr_fexp. rewrite fexp_value.
  destruct (Zdigits2_bounds m Hm) as [Hd0 Hd].
  set (d := Zdigits2 m) in *.
  unfold shr. destruct (Z.max (d + e - 53) (-1074) - e) as [|p|p] eqn:Hn.
  - eexists _, _. split; [reflexivity|]. rewrite shr_record_of_loc_m.
    split; [|lia]. split; [lia|].
    eapply Z.lt_le_trans; [exact Hd|]. apply Z.pow_le_mono_r; lia.
  - eexists _, _. split; [reflexivity|].
    rewrite iter_pos_shr_m by (rewrite shr_record_of_loc_m; lia).
    rewrite shr_record_of_loc_m. split; [|lia].
    assert (Hp : 0 < 2 ^ Zpos p) by (apply Z.pow_pos_nonneg; lia).
    split; [apply Z.div_pos; lia|].
    apply Z.div_lt_upper_bound; [assumption|].
    rewrite <- Z.pow_add_r by lia.
    eapply Z.lt_le_trans; [exact Hd|]. apply Z.pow_le_mono_r; lia.
  - eexists _, _. split; [reflexivity|]. rewrite shr_record_of_loc_m.
    split; [|lia]. split; [lia|].
    eapply Z.lt_le_trans; [exact Hd|]. apply Z.pow_le_mono_r; lia.
Qed.

(** Rounding does not overflow below the exponent bound [B]. *)
Lemma BRA_finite (s : bool) (m e B : Z) (l : location) :
  0 <= m -> e < B -> Zdigits2 m + e - 53 < B -> -1074 < B -> B <= 971 ->
  binary_round_aux prec emax s m e l = S754_zero s \/
  exists m' e', binary_round_aux prec emax s m e l = finite s m' e' /\ e' <= B.
Proof.
  intros Hm He Hd HB1 HB2. unfold binary_round_aux.
  destruct (shr_fexp_cases m e l Hm) as (mrs & e1 & -> & [H0 H53] & He1).
  set (m1 := round_nearest_even (shr_m mrs) (loc_of_shr_record mrs)).
  assert (Hm1 : 0 <= m1 < 2 ^ 54).
  { unfold m1. destruct (round_nearest_even_cases (shr_m mrs) (loc_of_shr_record mrs))
      as [-> | ->]; change (2 ^ 54) with (2 * 2 ^ 53); lia. }
  destruct (shr_fexp_cases m1 e1 loc_Exact ltac:(lia)) as (mrs2 & e2 & -> & [H0' _] & He2).
  assert (Hd1 : Zdigits2 m1 <= 54) by (apply Zdigits2_le; lia).
  assert (He2B : e2 <= B) by lia.
  destruct (shr_m mrs2) as [|p|p]; [left; reflexivity| |lia].
  right. replace (e2 <=? emax - prec) with true
    by (symmetry; apply Z.leb_le; unfold emax, prec; lia).
  eauto.
Qed.

Lemma binary_round_finite (s : bool) (pM : positive) (ez B : Z) :
  ez < B -> Zpos (digits2_pos pM) + ez - 53 < B -> -1074 < B -> B <= 971 ->
  binary_round prec emax s pM ez = S754_zero s \/
  exists m' e', binary_round prec emax s pM ez = finite s m' e' /\ e' <= B.
Proof.
  intros He Hd HB1 HB2. unfold binary_round, shl_align. rewrite fexp_value.
  set (d := Zpos (digits2_pos pM)) in *.
  destruct (Z.max (d + ez - 53) (-1074) - ez) as [|k|k] eqn:Hk.
  - apply BRA_finite; cbn [Zdigits2]; fold d; lia.
  - apply BRA_finite; cbn [Zdigits2]; fold d; lia.
  - apply BRA_finite; cbn [Zdigits2]; try rewrite digits_shift; fold d; lia.
Qed.

Lemma binary_normalize_finite (M ez K B : Z) :
  Z.abs M < 2 ^ K -> 0 <= K -> ez < B -> K + ez - 53 < B -> -1074 < B -> B <= 971 ->
  bounded_by B (binary_normalize prec emax M ez false) /\
  (0 <= M -> nonneg (binary_normalize prec emax M ez false)).
Proof.
  intros HM HK He Hd HB1 HB2.
  destruct M as [|p|p]; cbn [binary_normalize].
  - split; [exact I | intros _; exact I].
  - assert (Hp : Zpos (digits2_pos p) <= K) by (apply (Zdigits2_le (Zpos p)); lia).
    destruct (binary_round_finite false p ez B) as [->|(m' & e' & -> & Hb)]; try lia;
      cbn; auto.
  - assert (Hp : Zpos (digits2_pos p) <= K) by (apply (Zdigits2_le (Zpos p)); lia).
    destruct (binary_round_finite true p ez B) as [->|(m' & e' & -> & Hb)]; try lia;
      cbn; split; auto; lia.
Qed.

(** Two mantissas aligned to their smaller exponent. *)
Lemma aligned_bound (mx : positive) (ex ez E : Z) :
  Zpos mx < 2 ^ 53 -> ez <= ex -> ex <= E ->
  0 < Zpos (fst (shl_align mx ex ez)) < 2 ^ (53 + E - ez).
Proof.
  intros Hm Hz HE. rewrite shl_align_value by assumption.
  assert (Hp : 0 < 2 ^ (ex - ez)) by (apply Z.pow_pos_nonneg; lia).
  split; [lia|].
  assert (E1 : 2 ^ (ex - ez) <= 2 ^ (E - ez)) by (apply Z.pow_le_mono_r; lia).
  replace (53 + E - ez) with (53 + (E - ez)) by lia. rewrite Z.pow_add_r by lia. nia.
Qed.

Lemma bounded_by_le (E E' : Z) (x : spec_float) :
  bounded_by E x -> E <= E' -> bounded_by E' x.
Proof. destruct x; cbn; auto; lia. Qed.

Section Bounds.
#[local] Open Scope float_scope.

Lemma sub_bounded (a b : float) (E : Z) :
  bounded_by E (Prim2SF a) -> bounded_by E (Prim2SF b) ->
  (-1074 <= E)%Z -> (E + 2 <= 971)%Z ->
  bounded_by (E + 2) (Prim2SF (a - b)).
Proof.
  intros Ha Hb HE1 HE2. rewrite FloatAxioms.sub_spec. unfold SF64sub, SFsub.
  destruct (Prim2SF a) as [sa|sa| |sa ma ea] eqn:Ea; cbn in Ha; try contradiction;
    destruct (Prim2SF b) as [sb|sb| |sb mb eb] eqn:Eb; cbn in Hb; try contradiction.
  - destruct sa, sb; exact I.
  - cbn. lia.
  - cbn. lia.
  - destruct (valid_finite _ _ _ _ Ea) as (_ & [_ Hma] & _).
    destruct (valid_finite _ _ _ _ Eb) as (_ & [_ Hmb] & _).
    set (ez := Z.min ea eb).
    pose proof (aligned_bound ma ea ez E Hma ltac:(lia) Ha) as H1.
    pose proof (aligned_bound mb eb ez E Hmb ltac:(lia) Hb) as H2.
    apply (binary_normalize_finite _ ez (54 + E - ez)%Z); try lia.
    replace (54 + E - ez)%Z with (1 + (53 + E - ez))%Z by lia.
    rewrite Z.pow_add_r by lia. change (2 ^ 1)%Z with 2%Z.
    destruct sa, sb; cbn [cond_Zopp]; lia.
Qed.

Lemma add_nonneg_bounded (a b : float) (E : Z) :
  nonneg (Prim2SF a) -> nonneg (Prim2SF b) ->
  bounded_by E (Prim2SF a) -> bounded_by E (Prim2SF b) ->
  (-1074 <= E)%Z -> (E + 2 <= 971)%Z ->
  nonneg (Prim2SF (a + b)) /\ bounded_by (E + 2) (Prim2SF (a + b)).
Proof.
  intros Na Nb Ha Hb HE1 HE2. rewrite FloatAxioms.add_spec. unfold SF64add, SFadd.
  destruct (Prim2SF a) as [sa|sa| |sa ma ea] eqn:Ea; cbn in Ha, Na; try contradiction;
    destruct sa; try contradiction;
    destruct (Prim2SF b) as [sb|sb| |sb mb eb] eqn:Eb; cbn in Hb, Nb; try contradiction;
    destruct sb; try contradiction.
  - split; exact I.
  - split; cbn; [exact I | lia].
  - split; cbn; [exact I | lia].
  - destruct (valid_finite _ _ _ _ Ea) as (_ & [_ Hma] & _).
    destruct (valid_finite _ _ _ _ Eb) as (_ & [_ Hmb] & _).
    set (ez := Z.min ea eb).
    pose proof (aligned_bound ma ea ez E Hma ltac:(lia) Ha) as H1.
    pose proof (aligned_bound mb eb ez E Hmb ltac:(lia) Hb) as H2.
    cbn [cond_Zopp].
    destruct (binary_normalize_finite
                (Zpos (fst (shl_align ma ea ez)) + Zpos (fst (shl_align mb eb ez)))
                ez (54 + E - ez) (E + 2))%Z as [Hbd Hnn]; try lia.
    + replace (54 + E - ez)%Z with (1 + (53 + E - ez))%Z by lia.
      rewrite Z.pow_add_r by lia. change (2 ^ 1)%Z with 2%Z. lia.
    + split; [apply Hnn; lia | exact Hbd].
Qed.

Lemma mul_self_bounded (a : float) (E : Z) :
  bounded_by E (Prim2SF a) -> (-500 <= E)%Z -> (2 * E + 54 <= 971)%Z ->
  nonneg (Prim2SF (a * a)) /\ bounded_by (2 * E + 54) (Prim2SF (a * a)).
Proof.
  intros Ha HE1 HE2. rewrite FloatAxioms.mul_spec. unfold SF64mul, SFmul.
  destruct (Prim2SF a) as [sa|sa| |sa ma ea] eqn:Ea; cbn in Ha; try contradiction.
  - destruct sa; split; exact I.
  - rewrite xorb_nilpotent.
    destruct (valid_finite _ _ _ _ Ea) as (_ & [_ Hma] & _).
    assert (Hd : (Zdigits2 (Zpos (ma * ma)) <= 106)%Z).
    { apply Zdigits2_le; [|lia]. rewrite Pos2Z.inj_mul.
      change (2 ^ 106)%Z with (2 ^ 53 * 2 ^ 53)%Z. nia. }
    destruct (BRA_finite false (Zpos (ma * ma)) (ea + ea) (2 * E + 54) loc_Exact)
      as [->|(m' & e' & -> & Hb)]; try lia; cbn; auto.
Qed.

Lemma sqrt_nonneg_bounded (a : float) (E : Z) :
  nonneg (Prim2SF a) -> bounded_by E (Prim2SF a) -> (0 <= E)%Z -> (E + 54 <= 971)%Z ->
  nonneg (Prim2SF (PrimFloat.sqrt a)) /\ bounded_by (E + 54) (Prim2SF (PrimFloat.sqrt a)).
Proof.
  intros Na Ha HE1 HE2. rewrite FloatAxioms.sqrt_spec. unfold SF64sqrt, SFsqrt.
  destruct (Prim2SF a) as [sa|sa| |sa ma ea] eqn:Ea; cbn in Ha, Na; try contradiction;
    destruct sa; try contradiction.
  - split; exact I.
  - destruct (valid_finite _ _ _ _ Ea) as ([Hea _] & [_ Hma] & _).
    unfold SFsqrt_core_binary. cbn [Zdigits2]. rewrite fexp_value.
    set (d := Zpos (digits2_pos ma)).
    assert (Hd : (1 <= d <= 53)%Z).
    { unfold d. split; [lia|]. apply (Zdigits2_le (Zpos ma)); lia. }
    rewrite !Z.div2_div.
    set (e' := Z.min (Z.max ((d + ea + 1) / 2 - 53) (-1074)) (ea / 2)).
    assert (He' : (ea / 2 - 53 <= e' <= ea / 2)%Z)
      by (unfold e'; Z.to_euclidean_division_equations; lia).
    assert (Hh : (2 * (ea / 2) <= ea /\ ea / 2 <= E /\ ea - ea / 2 <= E)%Z)
      by (Z.to_euclidean_division_equations; lia).
    set (s := (ea - 2 * e')%Z).
    assert (Hs : (0 <= s)%Z) by (unfold s; lia).
    set (m' := match s with Zpos _ => Z.shiftl (Zpos ma) s | Z0 => Zpos ma | Zneg _ => 0%Z end).
    assert (Hm' : m' = (Zpos ma * 2 ^ s)%Z).
    { unfold m'. destruct s as [|p|p] eqn:Es; try lia.
      - rewrite Z.shiftl_mul_pow2 by lia. reflexivity. }
    destruct (Z.sqrtrem m') as [q r] eqn:Eq.
    assert (Hq : q = Z.sqrt m') by (rewrite <- Z.sqrtrem_sqrt, Eq; reflexivity).
    assert (Hp : (0 < 2 ^ s)%Z) by (apply Z.pow_pos_nonneg; lia).
    assert (Hq0 : (0 <= q <= m')%Z).
    { rewrite Hq. split; [apply Z.sqrt_nonneg | apply Z.sqrt_le_lin; lia]. }
    assert (Hdq : (Zdigits2 q <= d + s)%Z).
    { etransitivity; [apply Zdigits2_mono; exact Hq0|].
      rewrite Hm', Zdigits2_shift by lia. fold d. lia. }
    match goal with
    | |- context [binary_round_aux _ _ false q e' ?l] =>
        destruct (BRA_finite false q e' (E + 54) l) as [->|(m2 & e2 & -> & Hb)]
    end; try lia; cbn; auto.
Qed.

Lemma div_nonneg_bounded (a b : float) (E A : Z) :
  nonneg (Prim2SF a) -> bounded_by E (Prim2SF a) -> above A (Prim2SF b) ->
  (-1074 < E - A + 54)%Z -> (E - A + 54 <= 971)%Z ->
  nonneg (Prim2SF (a / b)) /\ bounded_by (E - A + 54) (Prim2SF (a / b)).
Proof.
  intros Na Ha Hb HB1 HB2. rewrite FloatAxioms.div_spec. unfold SF64div, SFdiv.
  destruct (Prim2SF b) as [sb|sb| |sb mb eb] eqn:Eb; cbn in Hb; try contradiction.
  destruct sb; try contradiction.
  destruct (Prim2SF a) as [sa|sa| |sa ma ea] eqn:Ea; cbn in Ha, Na; try contradiction;
    destruct sa; try contradiction.
  - split; exact I.
  - destruct (valid_finite _ _ _ _ Ea) as (_ & [_ Hma] & _).
    unfold SFdiv_core_binary. cbn [Zdigits2]. rewrite fexp_value.
    set (d1 := Zpos (digits2_pos ma)). set (d2 := Zpos (digits2_pos mb)).
    assert (Hd1 : (1 <= d1 <= 53)%Z).
    { unfold d1. split; [lia|]. apply (Zdigits2_le (Zpos ma)); lia. }
    set (e' := Z.min (Z.max (d1 + ea - (d2 + eb) - 53) (-1074)) (ea - eb)).
    set (s := (ea - eb - e')%Z).
    assert (Hs : (0 <= s)%Z) by (unfold s, e'; lia).
    set (m' := match s with Zpos _ => Z.shiftl (Zpos ma) s | Z0 => Zpos ma | Zneg _ => 0%Z end).
    assert (Hm' : m' = (Zpos ma * 2 ^ s)%Z).
    { unfold m'. destruct s as [|p|p] eqn:Es; try lia.
      - rewrite Z.shiftl_mul_pow2 by lia. reflexivity. }
    assert (Hp : (0 < 2 ^ s)%Z) by (apply Z.pow_pos_nonneg; lia).
    destruct (Z.div_eucl m' (Zpos mb)) as [q r] eqn:Eq.
    assert (Hq : q = (m' / Zpos mb)%Z) by (unfold Z.div; rewrite Eq; reflexivity).
    assert (Hq0 : (0 <= q <= m')%Z).
    { rewrite Hq. split; [apply Z.div_pos; lia|].
      apply Z.div_le_upper_bound; [lia|]. nia. }
    assert (Hdq : (Zdigits2 q <= d1 + s)%Z).
    { etransitivity; [apply Zdigits2_mono; exact Hq0|].
      rewrite Hm', Zdigits2_shift by lia. fold d1. lia. }
    cbn [xorb].
    match goal with
    | |- context [binary_round_aux _ _ false q e' ?l] =>
        destruct (BRA_finite false q e' (E - A + 54) l) as [->|(m2 & e2 & -> & Hb2)]
    end; try (unfold e'; lia); try (unfold s in *; lia); cbn; auto.
Qed.

End Bounds.

Lemma prim_two : Prim2SF 2 = finite false 4503599627370496 (-51).
Proof. reflexivity. Qed.

Lemma div_eucl_exact (a b : Z) : b <> 0 -> Z.div_eucl (a * b) b = (a, 0).
Proof.
  intros Hb. pose proof (Z.div_mul a b Hb) as Hq. pose proof (Z.mod_mul a b Hb) as Hr.
  unfold Z.div, Z.modulo in Hq, Hr.
  destruct (Z.div_eucl (a * b) b) as [q r]. cbn in Hq, Hr. subst. reflexivity.
Qed.

(** What validity says about a positive normal double. *)
Lemma above_normal (a : float) (A : Z) :
  above A (Prim2SF a) -> -1073 <= A ->
  exists m e, Prim2SF a = finite false m e /\ A <= e <= 971 /\
              2 ^ 52 <= Zpos m < 2 ^ 53 /\ Zpos (digits2_pos m) = 53.
Proof.
  intros Ha HA. destruct (Prim2SF a) as [s|s| |s m e] eqn:Ea; cbn in Ha; try contradiction.
  destruct s; try contradiction.
  destruct (valid_finite _ _ _ _ Ea) as ([_ He] & [_ Hm] & Hn).
  specialize (Hn ltac:(lia)).
  exists m, e. split; [reflexivity|]. split; [lia|]. split; [lia|].
  apply digits_unique. change (2 ^ (53 - 1)) with (2 ^ 52). lia.
Qed.

Section Lower.
#[local] Open Scope float_scope.

(** Halving a normal double is exact. *)
Lemma div_two (a : float) (s : bool) (m : positive) (e : Z) :
  Prim2SF a = finite s m e -> (-1072 <= e)%Z ->
  Prim2SF (a / 2) = finite s m (e - 1).
Proof.
  intros Ha He.
  destruct (valid_finite _ _ _ _ Ha) as ([_ He2] & [_ Hm] & Hn).
  specialize (Hn ltac:(lia)).
  assert (Hdig : Zpos (digits2_pos m) = 53%Z)
    by (apply digits_unique; change (2 ^ (53 - 1))%Z with (2 ^ 52)%Z; lia).
  rewrite FloatAxioms.div_spec, Ha, prim_two.
  unfold SF64div, SFdiv, SFdiv_core_binary. cbn [Zdigits2]. rewrite Hdig, fexp_value.
  change (Zpos (digits2_pos 4503599627370496)) with 53%Z.
  replace (Z.min (Z.max (53 + e - (53 + -51) - 53) (-1074)) (e - -51))%Z with (e - 2)%Z by lia.
  replace (e - -51 - (e - 2))%Z with 53%Z by lia.
  rewrite Z.shiftl_mul_pow2 by lia.
  replace (Zpos m * 2 ^ 53)%Z with (2 * Zpos m * Zpos 4503599627370496)%Z
    by (change (2 ^ 53)%Z with (2 * 4503599627370496)%Z; lia).
  rewrite div_eucl_exact by lia.
  change (new_location 4503599627370496 0) with loc_Exact.
  rewrite xorb_false_r.
  replace (2 * Zpos m)%Z with (Zpos m * 2 ^ 1)%Z by (change (2 ^ 1)%Z with 2%Z; lia).
  replace (e - 2)%Z with (e - 1 - 1)%Z by lia.
  apply BRA_exact_shift; [|lia].
  apply bounded_spec. rewrite Hdig. lia.
Qed.

Lemma mul_self_above (a : float) (A E : Z) :
  above A (Prim2SF a) -> bounded_by E (Prim2SF a) ->
  (-500 <= A)%Z -> (E <= 450)%Z ->
  above (2 * A + 52) (Prim2SF (a * a)).
Proof.
  intros Ha Hb HA HE.
  destruct (above_normal a A Ha ltac:(lia)) as (m & e & Ea & He & Hm & Hdig).
  rewrite Ea in Hb. cbn in Hb.
  rewrite FloatAxioms.mul_spec, Ea. unfold SF64mul, SFmul. cbn [xorb].
  set (d := Zpos (digits2_pos (m * m))).
  assert (Hd : (105 <= d <= 106)%Z).
  { pose proof (digits_bounds (m * m)) as [L U]. fold d in L, U.
    rewrite Pos2Z.inj_mul in L, U.
    change (2 ^ 52)%Z with 4503599627370496%Z in Hm.
    change (2 ^ 53)%Z with 9007199254740992%Z in Hm.
    split.
    - destruct (Z_le_gt_dec 105 d) as [|Hlt]; [assumption|].
      assert (2 ^ d <= 2 ^ 104)%Z by (apply Z.pow_le_mono_r; lia).
      change (2 ^ 104)%Z with (4503599627370496 * 4503599627370496)%Z in *. nia.
    - destruct (Z_le_gt_dec d 106) as [|Hgt]; [assumption|].
      assert (2 ^ 106 <= 2 ^ (d - 1))%Z by (apply Z.pow_le_mono_r; lia).
      change (2 ^ 106)%Z with (9007199254740992 * 9007199254740992)%Z in *. nia. }
  destruct (BRA_normal false (m * m) (e + e) loc_Exact) as (m' & e' & -> & _ & He' & _);
    fold d; try lia.
  cbn. fold d in He'. lia.
Qed.

Lemma add_above (a b : float) (A E : Z) :
  above A (Prim2SF a) -> above A (Prim2SF b) ->
  bounded_by E (Prim2SF a) -> bounded_by E (Prim2SF b) ->
  (-1073 <= A)%Z -> (E <= 960)%Z ->
  above A (Prim2SF (a + b)).
Proof.
  intros Ha Hb Ba Bb HA HE.
  destruct (above_normal a A Ha HA) as (ma & ea & Ea & Hea & Hma & _).
  destruct (above_normal b A Hb HA) as (mb & eb & Eb & Heb & Hmb & _).
  rewrite Ea in Ba. rewrite Eb in Bb. cbn in Ba, Bb.
  rewrite FloatAxioms.add_spec, Ea, Eb. unfold SF64add, SFadd. cbn [cond_Zopp].
  set (ez := Z.min ea eb).
  pose proof (aligned_bound ma ea ez E ltac:(lia) ltac:(lia) Ba) as H1.
  pose proof (aligned_bound mb eb ez E ltac:(lia) ltac:(lia) Bb) as H2.
  assert (L1 : (2 ^ (52 + ea - ez) <= Zpos (fst (shl_align ma ea ez)))%Z).
  { rewrite shl_align_value by lia.
    replace (52 + ea - ez)%Z with (52 + (ea - ez))%Z by lia.
    rewrite Z.pow_add_r by lia.
    apply Z.mul_le_mono_nonneg_r; [apply Z.pow_nonneg; lia | lia]. }
  assert (L2 : (2 ^ (52 + eb - ez) <= Zpos (fst (shl_align mb eb ez)))%Z).
  { rewrite shl_align_value by lia.
    replace (52 + eb - ez)%Z with (52 + (eb - ez))%Z by lia.
    rewrite Z.pow_add_r by lia.
    apply Z.mul_le_mono_nonneg_r; [apply Z.pow_nonneg; lia | lia]. }
  destruct (Zpos (fst (shl_align ma ea ez)) + Zpos (fst (shl_align mb eb ez)))%Z
    as [|pM|pM] eqn:HM; try lia.
  cbn [binary_normalize].
  set (d := Zpos (digits2_pos pM)).
  pose proof (digits_bounds pM) as [L U]. fold d in L, U.
  assert (Hda : (53 + ea - ez <= d)%Z).
  { destruct (Z_le_gt_dec (53 + ea - ez) d) as [|Hlt]; [assumption|].
    assert (2 ^ d <= 2 ^ (52 + ea - ez))%Z by (apply Z.pow_le_mono_r; lia). lia. }
  assert (Hdb : (53 + eb - ez <= d)%Z).
  { destruct (Z_le_gt_dec (53 + eb - ez) d) as [|Hlt]; [assumption|].
    assert (2 ^ d <= 2 ^ (52 + eb - ez))%Z by (apply Z.pow_le_mono_r; lia). lia. }
  assert (Hdu : (d <= 54 + E - ez)%Z).
  { destruct (Z_le_gt_dec d (54 + E - ez)) as [|Hgt]; [assumption|].
    assert (2 ^ (54 + E - ez) <= 2 ^ (d - 1))%Z by (apply Z.pow_le_mono_r; lia).
    replace (54 + E - ez)%Z with (1 + (53 + E - ez))%Z in * by lia.
    rewrite Z.pow_add_r in * by lia. change (2 ^ 1)%Z with 2%Z in *. lia. }
  unfold binary_round. fold d. rewrite fexp_value.
  assert (Hs : shl_align pM ez (Z.max (d + ez - 53) (-1074)) = (pM, ez)).
  { unfold shl_align.
    destruct (Z.max (d + ez - 53) (-1074) - ez)%Z as [|k|k] eqn:Hk; try lia; reflexivity. }
  rewrite Hs.
  destruct (BRA_normal false pM ez loc_Exact) as (m' & e' & -> & _ & He' & _);
    fold d; try lia.
  cbn. fold d in He'. lia.
Qed.

Lemma sqrt_above (a : float) (A : Z) :
  above A (Prim2SF a) -> (-1000 <= A)%Z ->
  above (A / 2 - 26) (Prim2SF (PrimFloat.sqrt a)).
Proof.
  intros Ha HA.
  destruct (above_normal a A Ha ltac:(lia)) as (m & e & Ea & He & Hm & Hdig).
  rewrite FloatAxioms.sqrt_spec, Ea. unfold SF64sqrt, SFsqrt, SFsqrt_core_binary.
  cbn [Zdigits2]. rewrite Hdig, fexp_value, !Z.div2_div.
  assert (Hh : (A / 2 <= e / 2 /\ 0 <= e - 2 * (e / 2) <= 1)%Z)
    by (Z.to_euclidean_division_equations; lia).
  replace (Z.min (Z.max ((53 + e + 1) / 2 - 53) (-1074)) (e / 2))%Z with (e / 2 - 26)%Z
    by (Z.to_euclidean_division_equations; lia).
  set (s := (e - 2 * (e / 2 - 26))%Z).
  assert (Hs : (s = 52 \/ s = 53)%Z) by (unfold s; lia).
  set (m' := match s with Zpos _ => Z.shiftl (Zpos m) s | Z0 => Zpos m | Zneg _ => 0%Z end).
  assert (Hm' : m' = (Zpos m * 2 ^ s)%Z).
  { unfold m'. destruct s as [|p|p] eqn:Es; try lia.
    rewrite Z.shiftl_mul_pow2 by lia. reflexivity. }
  assert (Hrange : (2 ^ 52 * 2 ^ 52 <= m' < 2 ^ 53 * 2 ^ 53)%Z).
  { rewrite Hm'. change (2 ^ 52)%Z with 4503599627370496%Z in *.
    change (2 ^ 53)%Z with 9007199254740992%Z in *.
    destruct Hs as [-> | ->].
    - change (2 ^ 52)%Z with 4503599627370496%Z. lia.
    - change (2 ^ 53)%Z with 9007199254740992%Z. lia. }
  destruct (Z.sqrtrem m') as [q r] eqn:Eq.
  assert (Hq : q = Z.sqrt m') by (rewrite <- Z.sqrtrem_sqrt, Eq; reflexivity).
  assert (Hq52 : (2 ^ 52 <= q)%Z)
    by (rewrite Hq; apply Z.sqrt_le_square; lia).
  assert (Hq53 : (q < 2 ^ 53)%Z)
    by (rewrite Hq; apply Z.sqrt_lt_square; lia).
  destruct q as [|pq|pq]; try lia.
  assert (Hdq : Zpos (digits2_pos pq) = 53%Z)
    by (apply digits_unique; change (2 ^ (53 - 1))%Z with (2 ^ 52)%Z; lia).
  match goal with
  | |- context [binary_round_aux _ _ false (Zpos pq) ?e0 ?l] =>
      destruct (BRA_normal false pq e0 l) as (m2 & e2 & -> & _ & He2 & _)
  end; rewrite ?Hdq; try lia.
  cbn. rewrite Hdq in He2. lia.
Qed.

End Lower.

End Magnitude.

(** ** Rounding errors of the binary64 operations *)

(** Rounding an exact result to binary64: the result is finite when the
    exact one is below 2^971, and its error is at most the 2^-52th part of
    the exact result, or one unit of 2^-1074 where the result is subnormal. *)
Module Accuracy.
Import B64 Rounding Magnitude.

(** The first step of rounding an exact mantissa: what is shifted out. *)
Lemma shr_fexp_exact (p : positive) (E : Z) :
  exists mrs,
    shr_fexp prec emax (Zpos p) E loc_Exact
    = (mrs, Z.max E (Z.max (Zpos (digits2_pos p) + E - 53) (-1074))) /\
    shr_m mrs = Zpos p / 2 ^ (Z.max E (Z.max (Zpos (digits2_pos p) + E - 53) (-1074)) - E) /\
    (Z.max (Zpos (digits2_pos p) + E - 53) (-1074) <= E ->
     loc_of_shr_record mrs = loc_Exact).
Proof.
  unfold shr_fexp. rewrite fexp_value. cbn [Zdigits2 shr_record_of_loc].
  set (f := Z.max (Zpos (digits2_pos p) + E - 53) (-1074)).
  unfold shr. destruct (f - E) as [|k|k] eqn:Hk.
  - eexists. split; [f_equal; lia|]. cbn [shr_m].
    replace (Z.max E f - E) with 0 by lia. rewrite Z.div_1_r. split; reflexivity.
  - eexists. split; [f_equal; lia|].
    rewrite iter_pos_shr_m by (cbn; lia). cbn [shr_m].
    replace (Z.max E f - E) with (Zpos k) by lia. split; [reflexivity | lia].
  - eexists. split; [f_equal; lia|]. cbn [shr_m].
    replace (Z.max E f - E) with 0 by lia. rewrite Z.div_1_r. split; reflexivity.
Qed.

(** The second step: a mantissa of at most 54 digits is brought back to 53. *)
Lemma shr_fexp_again (m1 e1 : Z) :
  0 <= m1 <= 2 ^ 53 -> -1074 <= e1 ->
  exists mrs e2,
    shr_fexp prec emax m1 e1 loc_Exact = (mrs, e2) /\
    0 <= shr_m mrs /\ shr_m mrs * 2 ^ (e2 - e1) = m1 /\ e1 <= e2 <= e1 + 1.
Proof.
  intros Hm He. unfold shr_fexp. rewrite fexp_value. cbn [shr_record_of_loc].
  destruct (Z.eq_dec m1 (2 ^ 53)) as [->|Hne].
  - change (Zdigits2 (2 ^ 53)) with 54.
    replace (Z.max (54 + e1 - 53) (-1074) - e1) with 1 by lia.
    exists {| shr_m := 2 ^ 52; shr_r := false; shr_s := false |}, (e1 + 1).
    split; [reflexivity|]. cbn [shr_m].
    replace (e1 + 1 - e1) with 1 by lia. split; [|split]; [|reflexivity|]; lia.
  - assert (Hd : Zdigits2 m1 <= 53) by (apply Zdigits2_le; lia).
    destruct (Zdigits2_bounds m1 ltac:(lia)) as [Hd0 _].
    unfold shr. destruct (Z.max (Zdigits2 m1 + e1 - 53) (-1074) - e1) as [|k|k] eqn:Hk;
      try lia; eexists _, _; (split; [reflexivity|]); cbn [shr_m];
      rewrite Z.sub_diag, Z.mul_1_r; lia.
Qed.

(** Rounding an exact mantissa [p] at exponent [E]: the result is the
    quotient of [p] by the power of two shifted out, or its successor. *)
Lemma BRA_value (s : bool) (p : positive) (E : Z) :
  Z.max E (Z.max (Zpos (digits2_pos p) + E - 53) (-1074)) < 971 ->
  exists m1,
    (m1 = Zpos p / 2 ^ (Z.max E (Z.max (Zpos (digits2_pos p) + E - 53) (-1074)) - E) \/
     m1 = Zpos p / 2 ^ (Z.max E (Z.max (Zpos (digits2_pos p) + E - 53) (-1074)) - E) + 1 /\
     E < Z.max (Zpos (digits2_pos p) + E - 53) (-1074)) /\
    match binary_round_aux prec emax s (Zpos p) E loc_Exact with
    | S754_zero s' => s' = s /\ m1 = 0
    | S754_finite s' m e =>
        s' = s /\ -1074 <= e <= 971 /\
        Zpos m * 2 ^ (e + 1074)
        = m1 * 2 ^ (Z.max E (Z.max (Zpos (digits2_pos p) + E - 53) (-1074)) + 1074)
    | _ => False
    end.
Proof.
  set (d := Zpos (digits2_pos p)). set (f := Z.max (d + E - 53) (-1074)).
  set (e1 := Z.max E f). intros He1.
  destruct (shr_fexp_exact p E) as (mrs & H1 & Hq & Hex). fold d f e1 in H1, Hq, Hex.
  unfold binary_round_aux. rewrite H1.
  set (q := Zpos p / 2 ^ (e1 - E)) in *.
  assert (Hq53 : 0 <= q < 2 ^ 53).
  { pose proof (digits_bounds p) as [_ U]. fold d in U.
    assert (Hp : 0 < 2 ^ (e1 - E)) by (apply Z.pow_pos_nonneg; lia).
    unfold q. split; [apply Z.div_pos; lia|].
    apply Z.div_lt_upper_bound; [assumption|].
    rewrite <- Z.pow_add_r by lia.
    eapply Z.lt_le_trans; [exact U|]. apply Z.pow_le_mono_r; lia. }
  set (m1 := round_nearest_even (shr_m mrs) (loc_of_shr_record mrs)).
  assert (Hm1 : m1 = q \/ m1 = q + 1 /\ E < f).
  { unfold m1. rewrite Hq. destruct (Z_le_gt_dec f E) as [Hle|Hgt].
    - rewrite (Hex Hle). left. reflexivity.
    - destruct (round_nearest_even_cases q (loc_of_shr_record mrs)) as [-> | ->];
        [left; reflexivity | right; split; [reflexivity | lia]]. }
  exists m1. split; [exact Hm1|].
  destruct (shr_fexp_again m1 e1) as (mrs2 & e2 & H2 & H0 & Hv & He2); [lia | lia |].
  rewrite H2. destruct (shr_m mrs2) as [|m|m] eqn:Hm; [| |lia].
  - split; [reflexivity | lia].
  - replace (e2 <=? emax - prec) with true
      by (symmetry; apply Z.leb_le; unfold emax, prec; lia).
    split; [reflexivity|]. split; [lia|].
    rewrite <- Hv, <- Z.mul_assoc, <- Z.pow_add_r by lia. do 2 f_equal. lia.
Qed.


(** The error of rounding, in units of [2^-(1074 + c)]: at most the 2^-52th
    part of the value, plus one unit of the last place of the subnormal
    doubles when the exponent lies below theirs. *)
Lemma BRA_near (s : bool) (p : positive) (E c : Z) :
  0 <= c -> 0 <= E + 1074 + c ->
  Zpos p * 2 ^ (E + 1074 + c) <= 2 ^ (2044 + c) ->
  exists R,
    0 <= R /\
    finite_sf (binary_round_aux prec emax s (Zpos p) E loc_Exact) /\
    scaled (binary_round_aux prec emax s (Zpos p) E loc_Exact) = cond_Zopp s R /\
    2 ^ 52 * Z.abs (R * 2 ^ c - Zpos p * 2 ^ (E + 1074 + c))
    <= Zpos p * 2 ^ (E + 1074 + c) + (if E <? -1074 then 2 ^ 52 * 2 ^ c else 0).
Proof.
  intros Hc HE HX.
  set (d := Zpos (digits2_pos p)). set (f := Z.max (d + E - 53) (-1074)).
  set (e1 := Z.max E f).
  pose proof (digits_bounds p) as [L U]. fold d in L, U.
  assert (Hd : d + E <= 971).
  { destruct (Z_le_gt_dec (d + E) 971) as [|Hgt]; [assumption|exfalso].
    assert (2 ^ (2044 + c) < 2 ^ (d - 1) * 2 ^ (E + 1074 + c)).
    { rewrite <- Z.pow_add_r by lia. apply Z.pow_lt_mono_r; lia. }
    assert (0 < 2 ^ (E + 1074 + c)) by (apply Z.pow_pos_nonneg; lia). nia. }
  assert (Hd1 : 1 <= d) by (unfold d; lia).
  destruct (BRA_value s p E) as (m1 & Hm1 & Hr); [fold d; lia|].
  fold d f e1 in Hm1, Hr.
  set (k := e1 - E) in *. set (q := Zpos p / 2 ^ k) in *.
  assert (Hk : 0 <= k) by (unfold k, e1; lia).
  assert (Hpk : 0 < 2 ^ k) by (apply Z.pow_pos_nonneg; lia).
  assert (Hq : q * 2 ^ k <= Zpos p < (q + 1) * 2 ^ k).
  { unfold q. pose proof (Z.mul_div_le (Zpos p) (2 ^ k) Hpk).
    pose proof (Z.mul_succ_div_gt (Zpos p) (2 ^ k) Hpk). lia. }
  assert (Hq0 : 0 <= q) by (unfold q; apply Z.div_pos; lia).
  set (U0 := 2 ^ (E + 1074 + c)) in *.
  assert (HU0 : 0 < U0) by (apply Z.pow_pos_nonneg; lia).
  assert (HR : m1 * 2 ^ (e1 + 1074) * 2 ^ c = m1 * 2 ^ k * U0).
  { unfold U0, k. rewrite <- !Z.mul_assoc, <- !Z.pow_add_r by lia. do 2 f_equal. lia. }
  assert (Herr : 2 ^ 52 * Z.abs (m1 * 2 ^ k * U0 - Zpos p * U0)
                 <= Zpos p * U0 + (if E <? -1074 then 2 ^ 52 * 2 ^ c else 0)).
  { replace (m1 * 2 ^ k * U0 - Zpos p * U0) with ((m1 * 2 ^ k - Zpos p) * U0) by ring.
    rewrite Z.abs_mul, (Z.abs_eq U0) by lia.
    destruct (Z.eq_dec k 0) as [Hk0|Hk0].
    - assert (m1 = q) as -> by (destruct Hm1 as [->|[_ Hlt]]; [reflexivity | unfold k, e1 in Hk0; lia]).
      rewrite Hk0 in *. change (2 ^ 0) with 1 in *.
      replace (q * 1 - Zpos p) with 0 by lia. cbn [Z.abs].
      destruct (E <? -1074); [assert (0 < 2 ^ c) by (apply Z.pow_pos_nonneg; lia)|]; nia.
    - assert (He1 : e1 = f) by (unfold k, e1 in *; lia).
      assert (Habs : Z.abs (m1 * 2 ^ k - Zpos p) <= 2 ^ k)
        by (destruct Hm1 as [->|[-> _]]; lia).
      destruct (Z_le_gt_dec (-1074) (d + E - 53)) as [Hn|Hs].
      + assert (Hk53 : k = d - 53) by (unfold k; rewrite He1; unfold f; lia).
        assert (E52 : 2 ^ 52 * 2 ^ k = 2 ^ (d - 1))
          by (rewrite <- Z.pow_add_r by lia; f_equal; lia).
        assert (2 ^ 52 * Z.abs (m1 * 2 ^ k - Zpos p) <= Zpos p) by nia.
        destruct (E <? -1074); [assert (0 < 2 ^ c) by (apply Z.pow_pos_nonneg; lia)|]; nia.
      + assert (HE' : E < -1074) by (unfold k in *; rewrite He1 in *; unfold f in *; lia).
        replace (E <? -1074) with true by (symmetry; apply Z.ltb_lt; lia).
        assert (EU : 2 ^ k * U0 = 2 ^ c).
        { unfold U0, k. rewrite <- Z.pow_add_r by lia. f_equal. rewrite He1. unfold f. lia. }
        assert (0 < 2 ^ c) by (apply Z.pow_pos_nonneg; lia).
        assert (0 < 2 ^ 52) by (apply Z.pow_pos_nonneg; lia).
        assert (Z.abs (m1 * 2 ^ k - Zpos p) * U0 <= 2 ^ c) by nia.
        nia. }
  assert (Hm0 : 0 <= m1) by (destruct Hm1 as [->|[-> _]]; lia).
  exists (m1 * 2 ^ (e1 + 1074)).
  split; [apply Z.mul_nonneg_nonneg; [lia | apply Z.pow_nonneg; lia]|].
  rewrite HR.
  destruct (binary_round_aux prec emax s (Zpos p) E loc_Exact) as [s'|s'| |s' m e];
    try contradiction.
  - destruct Hr as [-> ->]. split; [exact I|]. split; [|exact Herr].
    cbn [scaled]. destruct s; reflexivity.
  - destruct Hr as (-> & He & Hv). split; [exact I|]. split; [|exact Herr].
    cbn [scaled]. rewrite Hv. reflexivity.
Qed.

End Accuracy.

(** The error of [+], [-] and [*], on values scaled by 2^1074. *)
Module Accuracy2.
Import B64 Rounding Magnitude Accuracy.

Lemma shl_align_spec (mx : positive) (ex ez : Z) :
  exists mz ez', shl_align mx ex ez = (mz, ez') /\ ez' = Z.min ex ez /\
                 Zpos mz = Zpos mx * 2 ^ (ex - ez').
Proof.
  unfold shl_align. destruct (ez - ex) as [|k|k] eqn:Hk.
  - eexists _, _. split; [reflexivity|]. split; [lia|].
    rewrite Z.sub_diag. lia.
  - eexists _, _. split; [reflexivity|]. split; [lia|].
    rewrite Z.sub_diag. lia.
  - eexists _, _. split; [reflexivity|]. split; [lia|].
    unfold shift_pos. rewrite Zpos_iter_xO. do 2 f_equal. lia.
Qed.

Lemma binary_round_near (s : bool) (p : positive) (ez : Z) :
  -1074 <= ez -> Zpos p * 2 ^ (ez + 1074) <= 2 ^ 2044 ->
  exists R,
    0 <= R /\
    finite_sf (binary_round prec emax s p ez) /\
    scaled (binary_round prec emax s p ez) = cond_Zopp s R /\
    2 ^ 52 * Z.abs (R - Zpos p * 2 ^ (ez + 1074)) <= Zpos p * 2 ^ (ez + 1074).
Proof.
  intros Hez HX. unfold binary_round. rewrite fexp_value.
  destruct (shl_align_spec p ez (Z.max (Zpos (digits2_pos p) + ez - 53) (-1074)))
    as (mz & ez' & -> & Hez' & Hmz).
  assert (EX : Zpos mz * 2 ^ (ez' + 1074 + 0) = Zpos p * 2 ^ (ez + 1074)).
  { rewrite Hmz, <- Z.mul_assoc, <- Z.pow_add_r by lia. do 2 f_equal. lia. }
  destruct (BRA_near s mz ez' 0) as (R & HR0 & Hfin & Hsc & Herr);
    [lia | lia | rewrite EX; exact HX |].
  exists R. split; [exact HR0|]. split; [exact Hfin|]. split; [exact Hsc|].
  rewrite EX in Herr. change (2 ^ 0) with 1 in Herr. rewrite Z.mul_1_r in Herr.
  replace (ez' <? -1074) with false in Herr by (symmetry; apply Z.ltb_ge; lia).
  lia.
Qed.

Lemma binary_normalize_near (M ez : Z) :
  -1074 <= ez -> Z.abs M * 2 ^ (ez + 1074) <= 2 ^ 2044 ->
  finite_sf (binary_normalize prec emax M ez false) /\
  2 ^ 52 * Z.abs (scaled (binary_normalize prec emax M ez false) - M * 2 ^ (ez + 1074))
  <= Z.abs M * 2 ^ (ez + 1074).
Proof.
  intros Hez HX. assert (Hp : 0 < 2 ^ (ez + 1074)) by (apply Z.pow_pos_nonneg; lia).
  destruct M as [|p|p]; cbn [binary_normalize].
  - split; [exact I|]. cbn. lia.
  - destruct (binary_round_near false p ez Hez HX) as (R & HR0 & Hfin & -> & Herr).
    split; [exact Hfin|]. exact Herr.
  - destruct (binary_round_near true p ez Hez HX) as (R & HR0 & Hfin & -> & Herr).
    split; [exact Hfin|]. cbn [cond_Zopp Z.abs] in *.
    replace (- R - Z.neg p * 2 ^ (ez + 1074)) with (- (R - Zpos p * 2 ^ (ez + 1074))) by lia.
    rewrite Z.abs_opp. exact Herr.
Qed.

Lemma fin_cases (a : float) :
  fin a ->
  (exists s, Prim2SF a = S754_zero s) \/
  (exists s m e, Prim2SF a = S754_finite s m e /\ -1074 <= e <= 971 /\ 0 < Zpos m < 2 ^ 53).
Proof.
  unfold fin. destruct (Prim2SF a) as [s|s| |s m e] eqn:Ha; cbn; try contradiction; intros _.
  - left. eauto.
  - right. destruct (valid_finite _ _ _ _ Ha) as (He & Hm & _). eauto 10.
Qed.

Section Ops.
#[local] Open Scope float_scope.

Lemma add_near (a b : float) :
  fin a -> fin b -> (Z.abs (sc a + sc b) <= 2 ^ 2044)%Z ->
  fin (a + b) /\ (2 ^ 52 * Z.abs (sc (a + b) - (sc a + sc b)) <= Z.abs (sc a + sc b))%Z.
Proof.
  intros Fa Fb. unfold sc, fin. rewrite FloatAxioms.add_spec. unfold SF64add, SFadd.
  destruct (fin_cases a Fa) as [(sa & ->)|(sa & ma & ea & -> & Hea & Hma)];
    destruct (fin_cases b Fb) as [(sb & ->)|(sb & mb & eb & -> & Heb & Hmb)].
  - intros _. destruct sa, sb; cbn; split; (exact I || lia).
  - intros _. split; [exact I|]. cbn [scaled].
    rewrite Z.add_0_l, Z.sub_diag. cbn. lia.
  - intros _. split; [exact I|]. cbn [scaled].
    rewrite Z.add_0_r, Z.sub_diag. cbn. lia.
  - cbn [scaled]. set (ez := Z.min ea eb).
    rewrite !shl_align_value by (unfold ez; lia).
    set (M := (cond_Zopp sa (Zpos ma * 2 ^ (ea - ez))
               + cond_Zopp sb (Zpos mb * 2 ^ (eb - ez)))%Z).
    assert (EM : (cond_Zopp sa (Zpos ma * 2 ^ (ea + 1074))
                  + cond_Zopp sb (Zpos mb * 2 ^ (eb + 1074)) = M * 2 ^ (ez + 1074))%Z).
    { unfold M.
      replace (ea + 1074)%Z with ((ea - ez) + (ez + 1074))%Z by lia.
      replace (eb + 1074)%Z with ((eb - ez) + (ez + 1074))%Z by lia.
      rewrite (Z.pow_add_r 2 (ea - ez)), (Z.pow_add_r 2 (eb - ez)) by (unfold ez; lia).
      generalize (2 ^ (ea - ez))%Z (2 ^ (eb - ez))%Z (2 ^ (ez + 1074))%Z. intros P1 P2 P3.
      destruct sa, sb; cbn [cond_Zopp]; ring. }
    rewrite EM. intros HX.
    assert (Hp : (0 < 2 ^ (ez + 1074))%Z) by (apply Z.pow_pos_nonneg; unfold ez; lia).
    rewrite Z.abs_mul, (Z.abs_eq (2 ^ (ez + 1074))) in * by lia.
    apply binary_normalize_near; [unfold ez; lia | exact HX].
Qed.

Lemma sub_near (a b : float) :
  fin a -> fin b -> (Z.abs (sc a - sc b) <= 2 ^ 2044)%Z ->
  fin (a - b) /\ (2 ^ 52 * Z.abs (sc (a - b) - (sc a - sc b)) <= Z.abs (sc a - sc b))%Z.
Proof.
  intros Fa Fb. unfold sc, fin. rewrite FloatAxioms.sub_spec. unfold SF64sub, SFsub.
  destruct (fin_cases a Fa) as [(sa & ->)|(sa & ma & ea & -> & Hea & Hma)];
    destruct (fin_cases b Fb) as [(sb & ->)|(sb & mb & eb & -> & Heb & Hmb)].
  - intros _. destruct sa, sb; cbn; split; (exact I || lia).
  - intros _. split; [exact I|]. cbn [scaled].
    replace (cond_Zopp (negb sb) (Zpos mb * 2 ^ (eb + 1074)))%Z
      with (0 - cond_Zopp sb (Zpos mb * 2 ^ (eb + 1074)))%Z
      by (destruct sb; cbn [negb cond_Zopp]; lia).
    rewrite Z.sub_diag. cbn. lia.
  - intros _. split; [exact I|]. cbn [scaled].
    rewrite Z.sub_0_r, Z.sub_diag. cbn. lia.
  - cbn [scaled]. set (ez := Z.min ea eb).
    rewrite !shl_align_value by (unfold ez; lia).
    set (M := (cond_Zopp sa (Zpos ma * 2 ^ (ea - ez))
               - cond_Zopp sb (Zpos mb * 2 ^ (eb - ez)))%Z).
    assert (EM : (cond_Zopp sa (Zpos ma * 2 ^ (ea + 1074))
                  - cond_Zopp sb (Zpos mb * 2 ^ (eb + 1074)) = M * 2 ^ (ez + 1074))%Z).
    { unfold M.
      replace (ea + 1074)%Z with ((ea - ez) + (ez + 1074))%Z by lia.
      replace (eb + 1074)%Z with ((eb - ez) + (ez + 1074))%Z by lia.
      rewrite (Z.pow_add_r 2 (ea - ez)), (Z.pow_add_r 2 (eb - ez)) by (unfold ez; lia).
      generalize (2 ^ (ea - ez))%Z (2 ^ (eb - ez))%Z (2 ^ (ez + 1074))%Z. intros P1 P2 P3.
      destruct sa, sb; cbn [cond_Zopp]; ring. }
    rewrite EM. intros HX.
    assert (Hp : (0 < 2 ^ (ez + 1074))%Z) by (apply Z.pow_pos_nonneg; unfold ez; lia).
    rewrite Z.abs_mul, (Z.abs_eq (2 ^ (ez + 1074))) in * by lia.
    apply binary_normalize_near; [unfold ez; lia | exact HX].
Qed.

Lemma mul_near (a b : float) :
  fin a -> fin b -> (Z.abs (sc a * sc b) <= 2 ^ 3118)%Z ->
  fin (a * b) /\
  (2 ^ 52 * Z.abs (sc (a * b) * 2 ^ 1074 - sc a * sc b)
   <= Z.abs (sc a * sc b) + 2 ^ 52 * 2 ^ 1074)%Z.
Proof.
  intros Fa Fb. unfold sc, fin. rewrite FloatAxioms.mul_spec. unfold SF64mul, SFmul.
  assert (HT : (0 < 2 ^ 52 * 2 ^ 1074)%Z) by (apply Z.mul_pos_pos; apply Z.pow_pos_nonneg; lia).
  destruct (fin_cases a Fa) as [(sa & ->)|(sa & ma & ea & -> & Hea & Hma)];
    destruct (fin_cases b Fb) as [(sb & ->)|(sb & mb & eb & -> & Heb & Hmb)].
  - intros _. split; [exact I|]. cbn [scaled Z.mul Z.sub Z.abs Z.add Z.opp]. lia.
  - intros _. split; [exact I|]. cbn [scaled Z.mul Z.sub Z.abs Z.add Z.opp]. lia.
  - intros _. split; [exact I|]. cbn [scaled]. rewrite Z.mul_0_r. cbn. lia.
  - cbn [scaled].
    set (A := (Zpos ma * 2 ^ (ea + 1074))%Z). set (B := (Zpos mb * 2 ^ (eb + 1074))%Z).
    assert (EX : (Zpos (ma * mb) * 2 ^ (ea + eb + 1074 + 1074) = A * B)%Z).
    { unfold A, B. rewrite Pos2Z.inj_mul.
      replace (ea + eb + 1074 + 1074)%Z with ((ea + 1074) + (eb + 1074))%Z by lia.
      rewrite Z.pow_add_r by lia.
      generalize (2 ^ (ea + 1074))%Z (2 ^ (eb + 1074))%Z. intros P1 P2. ring. }
    assert (HA : (0 < A)%Z) by (apply Z.mul_pos_pos; [lia | apply Z.pow_pos_nonneg; lia]).
    assert (HB : (0 < B)%Z) by (apply Z.mul_pos_pos; [lia | apply Z.pow_pos_nonneg; lia]).
    assert (Eprod : (cond_Zopp sa A * cond_Zopp sb B = cond_Zopp (xorb sa sb) (A * B))%Z)
      by (destruct sa, sb; cbn [cond_Zopp xorb]; ring).
    rewrite Eprod.
    assert (Eabs : Z.abs (cond_Zopp (xorb sa sb) (A * B)) = (A * B)%Z)
      by (destruct (xorb sa sb); cbn [cond_Zopp]; rewrite ?Z.abs_opp; apply Z.abs_eq; nia).
    rewrite Eabs. intros HX.
    destruct (BRA_near (xorb sa sb) (ma * mb) (ea + eb) 1074) as (R & HR0 & Hfin & -> & Herr);
      [lia | lia | rewrite EX; change (2044 + 1074)%Z with 3118%Z; exact HX |].
    split; [exact Hfin|]. rewrite EX in Herr.
    assert (Ediff : (cond_Zopp (xorb sa sb) R * 2 ^ 1074 - cond_Zopp (xorb sa sb) (A * B)
                     = cond_Zopp (xorb sa sb) (R * 2 ^ 1074 - A * B))%Z)
      by (destruct (xorb sa sb); cbn [cond_Zopp]; ring).
    rewrite Ediff.
    assert (Eabs2 : forall s z, Z.abs (cond_Zopp s z) = Z.abs z)
      by (intros [] z; cbn [cond_Zopp]; [apply Z.abs_opp | reflexivity]).
    rewrite Eabs2. destruct (ea + eb <? -1074)%Z; lia.
Qed.
End Ops.
End Accuracy2.

(** The same on rational values: each operation returns its exact result
    up to [M * u52] (and [tiny] for a product) when the exact result is at
    most [M] in magnitude. *)
Module AccuracyQ.
Import B64 Rounding Magnitude Accuracy Accuracy2.
#[local] Open Scope Q_scope.

Lemma t_pos : 0 < inject_Z (2 ^ 1074).
Proof.
  replace 0 with (inject_Z 0) by reflexivity. rewrite <- Zlt_Qlt.
  apply Z.pow_pos_nonneg; lia.
Qed.

Lemma val_scaled (a : float) : val a * inject_Z (2 ^ 1074) == inject_Z (sc a).
Proof. unfold val. pose proof t_pos. field. lra. Qed.

Ltac toQ H :=
  rewrite Zle_Qle in H; unfold Z.sub in H;
  repeat (rewrite inject_Z_plus in H || rewrite inject_Z_mult in H
          || rewrite inject_Z_opp in H).

(** From a relative error on scaled values to one on values. *)
Lemma near_sum (R X : Z) (M : Q) :
  (2 ^ 52 * Z.abs (R - X) <= Z.abs X)%Z ->
  - M <= inject_Z X / inject_Z (2 ^ 1074) <= M ->
  inject_Z X / inject_Z (2 ^ 1074) - M * u52
  <= inject_Z R / inject_Z (2 ^ 1074)
  <= inject_Z X / inject_Z (2 ^ 1074) + M * u52.
Proof.
  intros H HM. pose proof t_pos as Ht.
  assert (H1 : (2 ^ 52 * (R - X) <= Z.abs X)%Z) by lia.
  assert (H2 : (- Z.abs X <= 2 ^ 52 * (R - X))%Z) by lia.
  assert (Hx : inject_Z X == inject_Z X / inject_Z (2 ^ 1074) * inject_Z (2 ^ 1074))
    by (field; lra).
  assert (Hr : inject_Z R == inject_Z R / inject_Z (2 ^ 1074) * inject_Z (2 ^ 1074))
    by (field; lra).
  change (2 ^ 52)%Z with 4503599627370496%Z in H1, H2. unfold u52.
  generalize dependent (inject_Z X / inject_Z (2 ^ 1074)). intros x HM Hx.
  generalize dependent (inject_Z R / inject_Z (2 ^ 1074)). intros r Hr.
  generalize dependent (inject_Z (2 ^ 1074)). intros t Ht Hx Hr.
  destruct (Z_le_gt_dec 0 X) as [Hpos|Hneg].
  - rewrite Z.abs_eq in H1, H2 by assumption.
    toQ H1. toQ H2. rewrite Zle_Qle in Hpos.
    change (inject_Z 0) with 0 in Hpos.
    change (inject_Z 4503599627370496) with (4503599627370496 # 1) in *.
    assert (Hx0 : 0 <= x) by nra.
    assert (HMx : 0 <= (M - x) * t) by (apply Qmult_le_0_compat; lra).
    split.
    + assert ((x - M * (1 # 4503599627370496) - r) * t <= 0) by lra. nra.
    + assert ((r - x - M * (1 # 4503599627370496)) * t <= 0) by lra. nra.
  - rewrite Z.abs_neq in H1, H2 by lia.
    assert (Hneg' : (X <= 0)%Z) by lia.
    toQ H1. toQ H2. rewrite Zle_Qle in Hneg'.
    change (inject_Z 0) with 0 in Hneg'.
    change (inject_Z 4503599627370496) with (4503599627370496 # 1) in *.
    assert (Hx0 : x <= 0) by nra.
    assert (HMx : 0 <= (M + x) * t) by (apply Qmult_le_0_compat; lra).
    split.
    + assert ((x - M * (1 # 4503599627370496) - r) * t <= 0) by lra. nra.
    + assert ((r - x - M * (1 # 4503599627370496)) * t <= 0) by lra. nra.
Qed.

Lemma near_prod (R P : Z) (M : Q) :
  (2 ^ 52 * Z.abs (R * 2 ^ 1074 - P) <= Z.abs P + 2 ^ 52 * 2 ^ 1074)%Z ->
  - M <= inject_Z P / (inject_Z (2 ^ 1074) * inject_Z (2 ^ 1074)) <= M ->
  inject_Z P / (inject_Z (2 ^ 1074) * inject_Z (2 ^ 1074)) - (M * u52 + tiny)
  <= inject_Z R / inject_Z (2 ^ 1074)
  <= inject_Z P / (inject_Z (2 ^ 1074) * inject_Z (2 ^ 1074)) + (M * u52 + tiny).
Proof.
  intros H HM. pose proof t_pos as Ht.
  assert (H1 : (2 ^ 52 * (R * 2 ^ 1074 - P) <= Z.abs P + 2 ^ 52 * 2 ^ 1074)%Z) by lia.
  assert (H2 : (- (Z.abs P + 2 ^ 52 * 2 ^ 1074) <= 2 ^ 52 * (R * 2 ^ 1074 - P))%Z) by lia.
  assert (Hx : inject_Z P
               == inject_Z P / (inject_Z (2 ^ 1074) * inject_Z (2 ^ 1074))
                  * inject_Z (2 ^ 1074) * inject_Z (2 ^ 1074))
    by (field; lra).
  assert (Hr : inject_Z R == inject_Z R / inject_Z (2 ^ 1074) * inject_Z (2 ^ 1074))
    by (field; lra).
  assert (Hy : tiny * inject_Z (2 ^ 1074) == 1) by (unfold tiny; field; lra).
  change (2 ^ 52)%Z with 4503599627370496%Z in H1, H2. unfold u52.
  generalize dependent tiny. intros y Hy.
  generalize dependent (inject_Z P / (inject_Z (2 ^ 1074) * inject_Z (2 ^ 1074))).
  intros x HM Hx.
  generalize dependent (inject_Z R / inject_Z (2 ^ 1074)). intros r Hr.
  destruct (Z_le_gt_dec 0 P) as [Hpos|Hneg].
  - rewrite Z.abs_eq in H1, H2 by assumption.
    toQ H1. toQ H2. rewrite Zle_Qle in Hpos.
    change (inject_Z 0) with 0 in Hpos.
    change (inject_Z 4503599627370496) with (4503599627370496 # 1) in *.
    generalize dependent (inject_Z (2 ^ 1074)). intros t Ht Hy Hx Hr H1 H2.
    assert (Htt : 0 < t * t) by nra.
    assert (Hx0 : 0 <= x) by nra.
    assert (HMx : 0 <= (M - x) * (t * t)) by (apply Qmult_le_0_compat; lra).
    split.
    + assert ((x - (M * (1 # 4503599627370496) + y) - r) * (t * t) <= 0) by nra. nra.
    + assert ((r - x - (M * (1 # 4503599627370496) + y)) * (t * t) <= 0) by nra. nra.
  - rewrite Z.abs_neq in H1, H2 by lia.
    assert (Hneg' : (P <= 0)%Z) by lia.
    toQ H1. toQ H2. rewrite Zle_Qle in Hneg'.
    change (inject_Z 0) with 0 in Hneg'.
    change (inject_Z 4503599627370496) with (4503599627370496 # 1) in *.
    generalize dependent (inject_Z (2 ^ 1074)). intros t Ht Hy Hx Hr H1 H2.
    assert (Htt : 0 < t * t) by nra.
    assert (Hx0 : x <= 0) by nra.
    assert (HMx : 0 <= (M + x) * (t * t)) by (apply Qmult_le_0_compat; lra).
    split.
    + assert ((x - (M * (1 # 4503599627370496) + y) - r) * (t * t) <= 0) by nra. nra.
    + assert ((r - x - (M * (1 # 4503599627370496) + y)) * (t * t) <= 0) by nra. nra.
Qed.


Lemma cap_sum (X : Z) (M : Q) :
  - M <= inject_Z X / inject_Z (2 ^ 1074) <= M -> M <= inject_Z (2 ^ 970) ->
  (Z.abs X <= 2 ^ 2044)%Z.
Proof.
  intros HM Hcap. pose proof t_pos as Ht.
  assert (Hx : inject_Z X == inject_Z X / inject_Z (2 ^ 1074) * inject_Z (2 ^ 1074))
    by (field; lra).
  assert (E : inject_Z (2 ^ 2044) == inject_Z (2 ^ 970) * inject_Z (2 ^ 1074))
    by (rewrite <- inject_Z_mult, <- Z.pow_add_r by lia; reflexivity).
  assert (H0 : 0 <= inject_Z (2 ^ 970))
    by (replace 0 with (inject_Z 0) by reflexivity; rewrite <- Zle_Qle;
        apply Z.pow_nonneg; lia).
  generalize dependent (inject_Z X / inject_Z (2 ^ 1074)). intros x HM Hx.
  assert (P1 : 0 <= (inject_Z (2 ^ 970) - x) * inject_Z (2 ^ 1074))
    by (apply Qmult_le_0_compat; lra).
  assert (P2 : 0 <= (inject_Z (2 ^ 970) + x) * inject_Z (2 ^ 1074))
    by (apply Qmult_le_0_compat; lra).
  assert (H1 : inject_Z X <= inject_Z (2 ^ 2044)) by lra.
  assert (H2 : inject_Z (- 2 ^ 2044) <= inject_Z X) by (rewrite inject_Z_opp; lra).
  rewrite <- Zle_Qle in H1, H2. lia.
Qed.

Lemma cap_prod (P : Z) (M : Q) :
  - M <= inject_Z P / (inject_Z (2 ^ 1074) * inject_Z (2 ^ 1074)) <= M ->
  M <= inject_Z (2 ^ 970) ->
  (Z.abs P <= 2 ^ 3118)%Z.
Proof.
  intros HM Hcap. pose proof t_pos as Ht.
  assert (Hx : inject_Z P
               == inject_Z P / (inject_Z (2 ^ 1074) * inject_Z (2 ^ 1074))
                  * (inject_Z (2 ^ 1074) * inject_Z (2 ^ 1074)))
    by (field; lra).
  assert (E : inject_Z (2 ^ 3118)
              == inject_Z (2 ^ 970) * (inject_Z (2 ^ 1074) * inject_Z (2 ^ 1074)))
    by (rewrite <- !inject_Z_mult, <- !Z.pow_add_r by lia; reflexivity).
  assert (H0 : 0 <= inject_Z (2 ^ 970))
    by (replace 0 with (inject_Z 0) by reflexivity; rewrite <- Zle_Qle;
        apply Z.pow_nonneg; lia).
  assert (Htt : 0 < inject_Z (2 ^ 1074) * inject_Z (2 ^ 1074))
    by (apply Qmult_lt_0_compat; exact Ht).
  generalize dependent (inject_Z P / (inject_Z (2 ^ 1074) * inject_Z (2 ^ 1074))).
  intros x HM Hx.
  generalize dependent (inject_Z (2 ^ 1074) * inject_Z (2 ^ 1074)). intros tt Htt Hx E.
  assert (P1 : 0 <= (inject_Z (2 ^ 970) - x) * tt) by (apply Qmult_le_0_compat; lra).
  assert (P2 : 0 <= (inject_Z (2 ^ 970) + x) * tt) by (apply Qmult_le_0_compat; lra).
  assert (H1 : inject_Z P <= inject_Z (2 ^ 3118)) by lra.
  assert (H2 : inject_Z (- 2 ^ 3118) <= inject_Z P) by (rewrite inject_Z_opp; lra).
  rewrite <- Zle_Qle in H1, H2. lia.
Qed.

Lemma val_add (a b : float) :
  val a + val b == inject_Z (sc a + sc b) / inject_Z (2 ^ 1074).
Proof. unfold val. rewrite inject_Z_plus. pose proof t_pos. field. lra. Qed.

Lemma val_sub (a b : float) :
  val a - val b == inject_Z (sc a - sc b) / inject_Z (2 ^ 1074).
Proof.
  unfold val, Z.sub. rewrite inject_Z_plus, inject_Z_opp. pose proof t_pos. field. lra.
Qed.

Lemma val_mul (a b : float) :
  val a * val b
  == inject_Z (sc a * sc b) / (inject_Z (2 ^ 1074) * inject_Z (2 ^ 1074)).
Proof. unfold val. rewrite inject_Z_mult. pose proof t_pos. field. lra. Qed.

Section OpsQ.
#[local] Open Scope float_scope.

(** The three rounded operations on values: the error is at most the
    2^-52th part of a bound [M] on the exact result (and, for a product,
    one unit of the last place of the subnormal doubles more). *)
Lemma add_Q (a b : float) (M : Q) :
  fin a -> fin b -> (- M <= val a + val b <= M)%Q -> (M <= inject_Z (2 ^ 970))%Q ->
  fin (a + b) /\
  (val a + val b - M * u52 <= val (a + b) <= val a + val b + M * u52)%Q.
Proof.
  intros Fa Fb HM Hcap. rewrite val_add in *.
  destruct (add_near a b Fa Fb (cap_sum _ _ HM Hcap)) as [F H].
  split; [exact F|]. apply near_sum; assumption.
Qed.

Lemma sub_Q (a b : float) (M : Q) :
  fin a -> fin b -> (- M <= val a - val b <= M)%Q -> (M <= inject_Z (2 ^ 970))%Q ->
  fin (a - b) /\
  (val a - val b - M * u52 <= val (a - b) <= val a - val b + M * u52)%Q.
Proof.
  intros Fa Fb HM Hcap. rewrite val_sub in *.
  destruct (sub_near a b Fa Fb (cap_sum _ _ HM Hcap)) as [F H].
  split; [exact F|]. apply near_sum; assumption.
Qed.

Lemma mul_Q (a b : float) (M : Q) :
  fin a -> fin b -> (- M <= val a * val b <= M)%Q -> (M <= inject_Z (2 ^ 970))%Q ->
  fin (a * b) /\
  (val a * val b - (M * u52 + tiny) <= val (a * b) <= val a * val b + (M * u52 + tiny))%Q.
Proof.
  intros Fa Fb HM Hcap. rewrite val_mul in *.
  destruct (mul_near a b Fa Fb (cap_prod _ _ HM Hcap)) as [F H].
  split; [exact F|]. apply near_prod; assumption.
Qed.
End OpsQ.

End AccuracyQ.

(** The comparisons of finite doubles are the comparisons of their values. *)
Module Order.
Import B64 Rounding Magnitude Accuracy Accuracy2 AccuracyQ.

Lemma fin_valid (a : float) :
  fin a ->
  (exists s, Prim2SF a = S754_zero s) \/
  (exists s m e, Prim2SF a = S754_finite s m e /\ -1074 <= e <= 971 /\
                 0 < Zpos m < 2 ^ 53 /\ (-1074 < e -> 2 ^ 52 <= Zpos m)).
Proof.
  unfold fin. destruct (Prim2SF a) as [s|s| |s m e] eqn:Ha; cbn; try contradiction; intros _.
  - left. eauto.
  - right. destruct (valid_finite _ _ _ _ Ha) as (He & Hm & Hn). eauto 10.
Qed.

(** Of two canonical mantissas the one with the smaller exponent is the
    smaller number. *)
Lemma lower_exponent (m1 m2 : positive) (e1 e2 : Z) :
  -1074 <= e1 -> e1 < e2 -> Zpos m1 < 2 ^ 53 -> 2 ^ 52 <= Zpos m2 ->
  Zpos m1 * 2 ^ (e1 + 1074) < Zpos m2 * 2 ^ (e2 + 1074).
Proof.
  intros He1 He Hm1 Hm2.
  assert (Hp : 0 < 2 ^ (e1 + 1074)) by (apply Z.pow_pos_nonneg; lia).
  assert (E : 2 ^ (e2 + 1074) = 2 ^ (e2 - e1) * 2 ^ (e1 + 1074))
    by (rewrite <- Z.pow_add_r by lia; f_equal; lia).
  assert (2 ^ 1 <= 2 ^ (e2 - e1)) by (apply Z.pow_le_mono_r; lia).
  change (2 ^ 1) with 2 in *. change (2 ^ 53) with (2 * 2 ^ 52) in Hm1.
  assert (0 < 2 ^ 52) by (apply Z.pow_pos_nonneg; lia).
  rewrite E. nia.
Qed.

Lemma compare_pos (m1 m2 : positive) (e1 e2 : Z) :
  -1074 <= e1 -> -1074 <= e2 -> Zpos m1 < 2 ^ 53 -> Zpos m2 < 2 ^ 53 ->
  (-1074 < e1 -> 2 ^ 52 <= Zpos m1) -> (-1074 < e2 -> 2 ^ 52 <= Zpos m2) ->
  match e1 ?= e2 with
  | Lt => Lt
  | Gt => Gt
  | Eq => Pos.compare_cont Eq m1 m2
  end = (Zpos m1 * 2 ^ (e1 + 1074) ?= Zpos m2 * 2 ^ (e2 + 1074)).
Proof.
  intros He1 He2 Hm1 Hm2 Hn1 Hn2. symmetry.
  destruct (Z.compare_spec e1 e2) as [->|Hlt|Hgt].
  - rewrite Pos.compare_cont_spec. cbn [Pos.switch_Eq].
    assert (Hp : 0 < 2 ^ (e2 + 1074)) by (apply Z.pow_pos_nonneg; lia).
    destruct (Pos.compare_spec m1 m2) as [->|Hlt|Hgt].
    + apply Z.compare_refl.
    + apply Z.compare_lt_iff. apply Z.mul_lt_mono_pos_r; [exact Hp | lia].
    + apply Z.compare_gt_iff. apply Z.mul_lt_mono_pos_r; [exact Hp | lia].
  - apply Z.compare_lt_iff. apply lower_exponent; lia.
  - apply Z.compare_gt_iff. apply lower_exponent; lia.
Qed.

Lemma compare_scaled (a b : float) :
  fin a -> fin b -> SFcompare (Prim2SF a) (Prim2SF b) = Some (sc a ?= sc b).
Proof.
  intros Fa Fb. unfold sc.
  destruct (fin_valid a Fa) as [(sa & ->)|(sa & ma & ea & -> & Hea & Hma & Hna)];
    destruct (fin_valid b Fb) as [(sb & ->)|(sb & mb & eb & -> & Heb & Hmb & Hnb)];
    cbn [SFcompare scaled].
  - reflexivity.
  - assert (0 < Zpos mb * 2 ^ (eb + 1074))
      by (apply Z.mul_pos_pos; [lia | apply Z.pow_pos_nonneg; lia]).
    f_equal. symmetry. destruct sb; cbn [cond_Zopp];
      [apply Z.compare_gt_iff | apply Z.compare_lt_iff]; lia.
  - assert (0 < Zpos ma * 2 ^ (ea + 1074))
      by (apply Z.mul_pos_pos; [lia | apply Z.pow_pos_nonneg; lia]).
    f_equal. symmetry. destruct sa; cbn [cond_Zopp];
      [apply Z.compare_lt_iff | apply Z.compare_gt_iff]; lia.
  - assert (HA : 0 < Zpos ma * 2 ^ (ea + 1074))
      by (apply Z.mul_pos_pos; [lia | apply Z.pow_pos_nonneg; lia]).
    assert (HB : 0 < Zpos mb * 2 ^ (eb + 1074))
      by (apply Z.mul_pos_pos; [lia | apply Z.pow_pos_nonneg; lia]).
    f_equal. destruct sa, sb; cbn [cond_Zopp].
    + rewrite Z.compare_opp.
      rewrite <- (compare_pos mb ma eb ea) by lia.
      rewrite (Z.compare_antisym eb ea), (Pos.compare_cont_antisym ma mb Eq).
      destruct (eb ?= ea); reflexivity.
    + symmetry. apply Z.compare_lt_iff. lia.
    + symmetry. apply Z.compare_gt_iff. lia.
    + apply compare_pos; lia.
Qed.

Section Compare.
#[local] Open Scope float_scope.

Lemma ltb_scaled (a b : float) : fin a -> fin b -> (a <? b) = (sc a <? sc b)%Z.
Proof.
  intros Fa Fb. rewrite FloatAxioms.ltb_spec. unfold SFltb.
  rewrite (compare_scaled a b Fa Fb). unfold Z.ltb. reflexivity.
Qed.

Lemma leb_scaled (a b : float) : fin a -> fin b -> (a <=? b) = (sc a <=? sc b)%Z.
Proof.
  intros Fa Fb. rewrite FloatAxioms.leb_spec. unfold SFleb.
  rewrite (compare_scaled a b Fa Fb). unfold Z.leb.
  destruct (sc a ?= sc b)%Z; reflexivity.
Qed.
End Compare.

#[local] Open Scope Q_scope.

Lemma val_le (a b : float) : (sc a <= sc b)%Z <-> val a <= val b.
Proof.
  pose proof t_pos as Ht. pose proof (val_scaled a) as Ha. pose proof (val_scaled b) as Hb.
  rewrite Zle_Qle, <- Ha, <- Hb.
  generalize dependent (inject_Z (2 ^ 1074)). intros t Ht _ _.
  split; intros H; nra.
Qed.

Lemma val_lt (a b : float) : (sc a < sc b)%Z <-> val a < val b.
Proof.
  pose proof t_pos as Ht. pose proof (val_scaled a) as Ha. pose proof (val_scaled b) as Hb.
  rewrite Zlt_Qlt, <- Ha, <- Hb.
  generalize dependent (inject_Z (2 ^ 1074)). intros t Ht _ _.
  split; intros H; nra.
Qed.

Section CompareQ.
#[local] Open Scope float_scope.

Lemma ltb_true (a b : float) : fin a -> fin b -> (a <? b) = true -> (val a < val b)%Q.
Proof.
  intros Fa Fb H. rewrite ltb_scaled in H by assumption.
  apply val_lt, Z.ltb_lt, H.
Qed.

Lemma ltb_false (a b : float) : fin a -> fin b -> (a <? b) = false -> (val b <= val a)%Q.
Proof.
  intros Fa Fb H. rewrite ltb_scaled in H by assumption.
  apply val_le, Z.ltb_ge, H.
Qed.

Lemma ltb_by_val (a b : float) : fin a -> fin b -> (val a < val b)%Q -> (a <? b) = true.
Proof.
  intros Fa Fb H. rewrite ltb_scaled by assumption. apply Z.ltb_lt, val_lt, H.
Qed.

Lemma leb_true (a b : float) : fin a -> fin b -> (a <=? b) = true -> (val a <= val b)%Q.
Proof.
  intros Fa Fb H. rewrite leb_scaled in H by assumption.
  apply val_le, Z.leb_le, H.
Qed.

(** A double between two finite doubles is finite. *)
Lemma between_fin (lo a hi : float) :
  fin lo -> fin hi -> (lo <=? a) = true -> ((a <=? hi) || (a <? hi)) = true -> fin a.
Proof.
  unfold fin. rewrite FloatAxioms.leb_spec, FloatAxioms.leb_spec, FloatAxioms.ltb_spec.
  unfold SFleb, SFltb.
  destruct (Prim2SF lo) as [[]|[]| |[] m0 e0]; try contradiction;
    destruct (Prim2SF hi) as [[]|[]| |[] m1 e1]; try contradiction;
    destruct (Prim2SF a) as [[]|[]| |[] m e]; cbn [finite_sf SFcompare];
    intros _ _ H1 H2; try exact I; try discriminate H1; try discriminate H2.
Qed.
End CompareQ.
End Order.

(** The values of the constants of the code, and the cast to [uint8_t]. *)
Module Values.
Import B64 Rounding Magnitude Accuracy Accuracy2 AccuracyQ Order.
#[local] Open Scope Q_scope.

Lemma of_int_val (c : Z) :
  (0 <= c < 2 ^ 53)%Z -> fin (F.of_int c) /\ val (F.of_int c) == inject_Z c.
Proof.
  intros Hc. destruct (Z.eq_dec c 0%Z) as [->|Hne].
  - split; [exact I|]. vm_compute. reflexivity.
  - destruct (of_int_pos c ltac:(lia)) as (m & e & Hm & _ & He & Hv).
    unfold fin, val, sc. rewrite Hm. split; [exact I|]. cbn [scaled cond_Zopp].
    assert (E : (Zpos m * 2 ^ (e + 1074) = c * 2 ^ 1074)%Z).
    { rewrite <- Hv, <- Z.mul_assoc, <- Z.pow_add_r by lia. do 2 f_equal. lia. }
    rewrite E, inject_Z_mult. pose proof t_pos. field. lra.
Qed.

Lemma val_0 : val 0 == 0. Proof. vm_compute. reflexivity. Qed.
Lemma val_1 : val 1 == 1. Proof. vm_compute. reflexivity. Qed.
Lemma val_m1 : val (-1) == -1. Proof. vm_compute. reflexivity. Qed.
Lemma val_255 : val 255 == 255. Proof. vm_compute. reflexivity. Qed.
Lemma val_256 : val 256 == 256. Proof. vm_compute. reflexivity. Qed.

Lemma tiny_small : 0 < tiny /\ tiny <= 1 # 1000000000000000000000000.
Proof. split; vm_compute; reflexivity || discriminate. Qed.

(** A finite double strictly between -1 and 256 converts to a byte. *)
Lemma to_u8_Q (d : float) :
  fin d -> -1 < val d -> val d < 256 -> exists c, F.to_u8 d = Done c /\ u8 c.
Proof.
  intros Fd Hlo Hhi.
  assert (H : exists c, F.to_u8 d = Done c).
  { unfold F.to_u8.
    rewrite (ltb_by_val (-1) d), (ltb_by_val d 256); try assumption; try exact I.
    - eexists. reflexivity.
    - rewrite val_256. exact Hhi.
    - rewrite val_m1. exact Hlo. }
  destruct H as [c Hc]. exists c. split; [exact Hc | eapply to_u8_range, Hc].
Qed.
End Values.

(** Weighted means of two levels, as [sampleBilinear] forms them. *)
Module Blend.
Import B64 Rounding Magnitude Accuracy Accuracy2 AccuracyQ Order Values.

Lemma cap_small (M : Q) : (M <= 4096)%Q -> (M <= inject_Z (2 ^ 970))%Q.
Proof.
  intros H. eapply Qle_trans; [exact H|]. vm_compute. discriminate.
Qed.

Section Mix.
#[local] Open Scope float_scope.

(** A weighted mean of two levels with weights that add up to 1, as the
    sampler computes it. *)
Lemma mix (P Q0 wo w : float) (D : Q) :
  fin P -> fin Q0 -> fin wo -> fin w ->
  (0 <= D <= 1 # 2)%Q ->
  (- D <= val P <= 255 + D)%Q -> (- D <= val Q0 <= 255 + D)%Q ->
  (- (4 # 1) * u52 <= val wo)%Q -> (- (4 # 1) * u52 <= val w)%Q ->
  (val wo + val w <= 1 + (4 # 1) * u52)%Q ->
  fin (P * wo + Q0 * w) /\
  (- (D + (1 # 274877906944)) <= val (P * wo + Q0 * w) <= 255 + D + (1 # 274877906944))%Q.
Proof.
  intros FP FQ Fwo Fw HD HP HQ Hwo Hw Hsum.
  pose proof tiny_small as [Ht0 Ht1]. unfold u52 in *.
  assert (Hwo1 : (val wo <= 1 + (8 # 1) * (1 # 4503599627370496))%Q) by lra.
  assert (Hw1 : (val w <= 1 + (8 # 1) * (1 # 4503599627370496))%Q) by lra.
  assert (Hpw : (- (512 # 1) <= val P * val wo <= 512)%Q) by nra.
  assert (Hqw : (- (512 # 1) <= val Q0 * val w <= 512)%Q) by nra.
  destruct (mul_Q P wo 512 FP Fwo Hpw) as [F1 H1]; [apply cap_small; lra |].
  destruct (mul_Q Q0 w 512 FQ Fw Hqw) as [F2 H2]; [apply cap_small; lra |].
  unfold u52 in *.
  destruct (add_Q (P * wo) (Q0 * w) 1026 F1 F2) as [F3 H3];
    [lra | apply cap_small; lra |].
  split; [exact F3|]. unfold u52 in *.
  generalize dependent (val (P * wo + Q0 * w)). intros r H3.
  generalize dependent (val (P * wo)). intros a H1 H3.
  generalize dependent (val (Q0 * w)). intros b H2 H3.
  generalize dependent (val P). generalize dependent (val Q0).
  generalize dependent (val wo). generalize dependent (val w). generalize dependent tiny.
  intros y Hy0 Hy1 vw Hw Hw1 vwo Hwo Hsum Hwo1 vq HQ Hqw H2 vp HP Hpw H1.
  assert (A1 : (0 <= (vp + D) * (vwo + (4 # 1) * (1 # 4503599627370496)))%Q)
    by (apply Qmult_le_0_compat; lra).
  assert (A2 : (0 <= (255 + D - vp) * (vwo + (4 # 1) * (1 # 4503599627370496)))%Q)
    by (apply Qmult_le_0_compat; lra).
  assert (B1 : (0 <= (vq + D) * (vw + (4 # 1) * (1 # 4503599627370496)))%Q)
    by (apply Qmult_le_0_compat; lra).
  assert (B2 : (0 <= (255 + D - vq) * (vw + (4 # 1) * (1 # 4503599627370496)))%Q)
    by (apply Qmult_le_0_compat; lra).
  assert (C1 : (0 <= D * (1 + (4 # 1) * (1 # 4503599627370496) - vwo - vw))%Q)
    by (apply Qmult_le_0_compat; lra).
  assert (C2 : (0 <= D * (vwo + (4 # 1) * (1 # 4503599627370496)))%Q)
    by (apply Qmult_le_0_compat; lra).
  assert (C3 : (0 <= D * (vw + (4 # 1) * (1 # 4503599627370496)))%Q)
    by (apply Qmult_le_0_compat; lra).
  split; lra.
Qed.
End Mix.
End Blend.

(** ** [hslToRgb] on the HSL ranges *)

(** [hueToRgb] returns a byte when [p] and [q] are levels in [0, 1] (up to
    rounding) and the hue argument is at least -1/2. *)
Module HueTotal.
Import B64 Rounding Magnitude Accuracy Accuracy2 AccuracyQ Order Values Blend.
#[local] Open Scope Q_scope.

(** A point between two levels, a little beyond them at most. *)
Lemma lerp (x y k e c : Q) :
  0 <= e <= 1 -> 0 <= c <= 1 ->
  - e <= x <= 1 + e -> - e <= y <= 1 + e -> - c <= k <= 1 + c ->
  - e - 3 * c <= x + k * (y - x) <= 1 + e + 3 * c.
Proof.
  intros He Hc Hx Hy Hk.
  assert (Hce : 0 <= c * (1 - e)) by (apply Qmult_le_0_compat; lra).
  assert (Hce' : 0 <= c * e) by (apply Qmult_le_0_compat; lra).
  destruct (Qlt_le_dec k 0) as [Hneg|Hpos].
  - assert (0 <= (- k) * (y + e)) by (apply Qmult_le_0_compat; lra).
    assert (0 <= (- k) * (1 + e - y)) by (apply Qmult_le_0_compat; lra).
    assert (0 <= (- k) * (x + e)) by (apply Qmult_le_0_compat; lra).
    assert (0 <= (- k) * (1 + e - x)) by (apply Qmult_le_0_compat; lra).
    assert (0 <= (c + k) * e) by (apply Qmult_le_0_compat; lra).
    split; lra.
  - destruct (Qlt_le_dec 1 k) as [Hbig|Hsmall].
    + assert (0 <= k * (y + e)) by (apply Qmult_le_0_compat; lra).
      assert (0 <= k * (1 + e - y)) by (apply Qmult_le_0_compat; lra).
      assert (0 <= (k - 1) * (x + e)) by (apply Qmult_le_0_compat; lra).
      assert (0 <= (k - 1) * (1 + e - x)) by (apply Qmult_le_0_compat; lra).
      assert (0 <= (1 + c - k) * e) by (apply Qmult_le_0_compat; lra).
      split; lra.
    + assert (0 <= k * (y + e)) by (apply Qmult_le_0_compat; lra).
      assert (0 <= k * (1 + e - y)) by (apply Qmult_le_0_compat; lra).
      assert (0 <= (1 - k) * (x + e)) by (apply Qmult_le_0_compat; lra).
      assert (0 <= (1 - k) * (1 + e - x)) by (apply Qmult_le_0_compat; lra).
      split; lra.
Qed.

Lemma val_2 : val 2 == 2. Proof. vm_compute. reflexivity. Qed.
Lemma val_6 : val 6 == 6. Proof. vm_compute. reflexivity. Qed.
Lemma val_half : val 0.5 == 1 # 2. Proof. vm_compute. reflexivity. Qed.

Section Consts.
#[local] Open Scope float_scope.
Lemma val_sixth : ((1 # 6) - (1 # 1000000000000) <= val (1 / 6) <= (1 # 6) + (1 # 1000000000000))%Q.
Proof. split; vm_compute; discriminate. Qed.
Lemma val_third : ((1 # 3) - (1 # 1000000000000) <= val (1 / 3) <= (1 # 3) + (1 # 1000000000000))%Q.
Proof. split; vm_compute; discriminate. Qed.
Lemma val_two_thirds :
  ((2 # 3) - (1 # 1000000000000) <= val (2 / 3) <= (2 # 3) + (1 # 1000000000000))%Q.
Proof. split; vm_compute; discriminate. Qed.
Lemma val_1_2 : (val (1 / 2) == 1 # 2)%Q. Proof. vm_compute. reflexivity. Qed.
End Consts.

Section PQ.
#[local] Open Scope float_scope.

(** The two levels [p] and [q] of [hslToRgb] lie in [0, 1], up to rounding. *)
Lemma pq_range (l s : float) :
  fin l -> fin s -> (0 <= val l <= 1)%Q -> (0 <= val s <= 1)%Q ->
  fin (if l <? 0.5 then l * (1 + s) else l + s - l * s) /\
  fin (2 * l - (if l <? 0.5 then l * (1 + s) else l + s - l * s)) /\
  (- (1 # 1000000000000)
   <= val (if l <? 0.5 then l * (1 + s) else l + s - l * s)
   <= 1 + (1 # 1000000000000))%Q /\
  (- (1 # 1000000000000)
   <= val (2 * l - (if l <? 0.5 then l * (1 + s) else l + s - l * s))
   <= 1 + (1 # 1000000000000))%Q.
Proof.
  intros Fl Fs Hl Hs. pose proof tiny_small as [Ht0 Ht1].
  destruct (mul_Q 2 l 2 I Fl) as [F2l H2l];
    [rewrite val_2; lra | apply cap_small; lra |].
  rewrite val_2 in H2l. unfold u52 in *.
  destruct (l <? 0.5) eqn:Hlt.
  - apply ltb_true in Hlt; [|exact Fl|exact I]. rewrite val_half in Hlt.
    destruct (add_Q 1 s 2 I Fs) as [Fa Ha];
      [rewrite val_1; lra | apply cap_small; lra |].
    rewrite val_1 in Ha. unfold u52 in *.
    assert (P1 : (0 <= val l * (val (1 + s) - (1 # 2)))%Q)
      by (apply Qmult_le_0_compat; lra).
    assert (P2 : (0 <= ((1 # 2) - val l) * (val (1 + s) - (1 # 2)))%Q)
      by (apply Qmult_le_0_compat; lra).
    assert (P3 : (0 <= val l * (val s + 1 + (1 # 1000000000000000) - val (1 + s)))%Q)
      by (apply Qmult_le_0_compat; lra).
    assert (P4 : (0 <= val l * (val (1 + s) - val s - 1 + (1 # 1000000000000000)))%Q)
      by (apply Qmult_le_0_compat; lra).
    assert (P5 : (0 <= val l * (1 - val s))%Q) by (apply Qmult_le_0_compat; lra).
    assert (P6 : (0 <= val l * val s)%Q) by (apply Qmult_le_0_compat; lra).
    destruct (mul_Q l (1 + s) 2 Fl Fa) as [Fq Hq]; [lra | apply cap_small; lra |].
    unfold u52 in *.
    destruct (sub_Q (2 * l) (l * (1 + s)) 4 F2l Fq) as [Fp Hp];
      [lra | apply cap_small; lra |].
    unfold u52 in *.
    split; [exact Fq|]. split; [exact Fp|]. split; lra.
  - apply ltb_false in Hlt; [|exact Fl|exact I]. rewrite val_half in Hlt.
    destruct (add_Q l s 2 Fl Fs) as [Fb Hb]; [lra | apply cap_small; lra |].
    assert (P1 : (0 <= val l * val s)%Q) by (apply Qmult_le_0_compat; lra).
    assert (P2 : (0 <= (1 - val l) * (1 - val s))%Q) by (apply Qmult_le_0_compat; lra).
    assert (P3 : (0 <= (1 - val l) * val s)%Q) by (apply Qmult_le_0_compat; lra).
    destruct (mul_Q l s 2 Fl Fs) as [Fc Hc]; [lra | apply cap_small; lra |].
    unfold u52 in *.
    destruct (sub_Q (l + s) (l * s) 4 Fb Fc) as [Fq Hq]; [lra | apply cap_small; lra |].
    unfold u52 in *.
    destruct (sub_Q (2 * l) (l + s - l * s) 4 F2l Fq) as [Fp Hp];
      [lra | apply cap_small; lra |].
    unfold u52 in *.
    split; [exact Fq|]. split; [exact Fp|]. split; lra.
Qed.
End PQ.

Section Hue.
#[local] Open Scope float_scope.

Lemma cap_large (M : Q) : (M <= inject_Z (2 ^ 200))%Q -> (M <= inject_Z (2 ^ 970))%Q.
Proof.
  intros H. eapply Qle_trans; [exact H|]. rewrite <- Zle_Qle.
  apply Z.pow_le_mono_r; lia.
Qed.

(** The hue argument of [hueToRgb], once wrapped, is not negative. *)
Lemma hue_arg (t : float) :
  fin t -> (- (1 # 2) <= val t <= inject_Z (2 ^ 110))%Q ->
  fin (if 1 <? (if t <? 0 then t + 1 else t)
       then (if t <? 0 then t + 1 else t) - 1 else (if t <? 0 then t + 1 else t)) /\
  (0 <= val (if 1 <? (if t <? 0 then t + 1 else t)
             then (if t <? 0 then t + 1 else t) - 1
             else (if t <? 0 then t + 1 else t)))%Q.
Proof.
  intros Ft Ht.
  assert (H110 : (inject_Z (2 ^ 110) + 2 <= inject_Z (2 ^ 200))%Q)
    by (vm_compute; discriminate).
  assert (H1 : fin (if t <? 0 then t + 1 else t) /\
               (0 <= val (if t <? 0 then t + 1 else t) <= inject_Z (2 ^ 110) + 2)%Q).
  { destruct (t <? 0) eqn:Hneg.
    - apply ltb_true in Hneg; [|exact Ft|exact I]. rewrite val_0 in Hneg.
      destruct (add_Q t 1 1 Ft I) as [F H];
        [rewrite val_1; lra | apply cap_small; lra |].
      rewrite val_1 in H. unfold u52 in H. split; [exact F|].
      assert (0 <= inject_Z (2 ^ 110))%Q by (vm_compute; discriminate). lra.
    - apply ltb_false in Hneg; [|exact Ft|exact I]. rewrite val_0 in Hneg.
      split; [exact Ft | lra]. }
  destruct H1 as [F1 V1].
  generalize dependent (if t <? 0 then t + 1 else t). intros t1 F1 V1.
  destruct (1 <? t1) eqn:Hbig.
  - apply ltb_true in Hbig; [|exact I|exact F1]. rewrite val_1 in Hbig.
    destruct (sub_Q t1 1 (val t1 - 1) F1 I) as [F H];
      [rewrite val_1; lra | apply cap_large; lra |].
    rewrite val_1 in H. unfold u52 in H. split; [exact F | lra].
  - split; [exact F1 | lra].
Qed.

Lemma hueToRgb_total (p q t : float) :
  fin p -> fin q -> fin t ->
  (- (1 # 1000000000000) <= val p <= 1 + (1 # 1000000000000))%Q ->
  (- (1 # 1000000000000) <= val q <= 1 + (1 # 1000000000000))%Q ->
  (- (1 # 2) <= val t <= inject_Z (2 ^ 110))%Q ->
  exists c, hueToRgb p q t = Done c /\ u8 c.
Proof.
  intros Fp Fq Ft Hp Hq Ht. unfold hueToRgb. cbv zeta.
  destruct (hue_arg t Ft Ht) as [F2 V2].
  generalize dependent (if 1 <? (if t <? 0 then t + 1 else t)
                        then (if t <? 0 then t + 1 else t) - 1
                        else (if t <? 0 then t + 1 else t)).
  intros t2 F2 V2. pose proof tiny_small as [Ht0 Ht1].
  pose proof val_sixth as H6. pose proof val_two_thirds as H23. pose proof val_1_2 as H12.
  destruct (sub_Q q p 4 Fq Fp) as [Fw1 Hw1]; [lra | apply cap_small; lra |].
  unfold u52 in Hw1.
  destruct (t2 <? 1 / 6) eqn:B1.
  { apply ltb_true in B1; [|exact F2|exact I].
    destruct (mul_Q (q - p) 6 16 Fw1 I) as [Fw2 Hw2];
      [rewrite val_6; lra | apply cap_small; lra |].
    rewrite val_6 in Hw2. unfold u52 in Hw2.
    assert (A1 : (0 <= (val ((q - p) * 6) + 7) * val t2)%Q)
      by (apply Qmult_le_0_compat; lra).
    assert (A2 : (0 <= (7 - val ((q - p) * 6)) * val t2)%Q)
      by (apply Qmult_le_0_compat; lra).
    destruct (mul_Q ((q - p) * 6) t2 4 Fw2 F2) as [Fw3 Hw3];
      [lra | apply cap_small; lra |].
    unfold u52 in Hw3.
    destruct (add_Q p ((q - p) * 6 * t2) 4 Fp Fw3) as [Fw4 Hw4];
      [lra | apply cap_small; lra |].
    unfold u52 in Hw4.
    destruct (mul_Q (p + (q - p) * 6 * t2) 255 1024 Fw4 I) as [Fd Hd];
      [rewrite val_255; lra | apply cap_small; lra |].
    rewrite val_255 in Hd. unfold u52 in Hd.
    pose proof (lerp (val p) (val q) (6 * val t2) (1 # 1000000000000) (1 # 100000000000)
                  ltac:(lra) ltac:(lra) Hp Hq ltac:(lra)) as HL.
    assert (A3 : (0 <= (val ((q - p) * 6) - 6 * (val q - val p) + (1 # 1000000000000))
                      * val t2)%Q) by (apply Qmult_le_0_compat; lra).
    assert (A4 : (0 <= (6 * (val q - val p) + (1 # 1000000000000) - val ((q - p) * 6))
                      * val t2)%Q) by (apply Qmult_le_0_compat; lra).
    apply to_u8_Q; [exact Fd | lra | lra]. }
  destruct (t2 <? 1 / 2) eqn:B2.
  { destruct (mul_Q q 255 256 Fq I) as [Fd Hd];
      [rewrite val_255; lra | apply cap_small; lra |].
    rewrite val_255 in Hd. unfold u52 in Hd.
    apply to_u8_Q; [exact Fd | lra | lra]. }
  destruct (t2 <? 2 / 3) eqn:B3.
  { apply ltb_true in B3; [|exact F2|exact I].
    apply ltb_false in B2; [|exact F2|exact I].
    destruct (sub_Q (2 / 3) t2 1 I F2) as [Fk Hk]; [lra | apply cap_small; lra |].
    unfold u52 in Hk.
    assert (A1 : (0 <= (val (q - p) + 2) * (val (2 / 3 - t2) + (1 # 1000000000000)))%Q)
      by (apply Qmult_le_0_compat; lra).
    assert (A2 : (0 <= (2 - val (q - p)) * (val (2 / 3 - t2) + (1 # 1000000000000)))%Q)
      by (apply Qmult_le_0_compat; lra).
    destruct (mul_Q (q - p) (2 / 3 - t2) 4 Fw1 Fk) as [Fw2 Hw2];
      [lra | apply cap_small; lra |].
    unfold u52 in Hw2.
    destruct (mul_Q ((q - p) * (2 / 3 - t2)) 6 16 Fw2 I) as [Fw3 Hw3];
      [rewrite val_6; lra | apply cap_small; lra |].
    rewrite val_6 in Hw3. unfold u52 in Hw3.
    destruct (add_Q p ((q - p) * (2 / 3 - t2) * 6) 4 Fp Fw3) as [Fw4 Hw4];
      [lra | apply cap_small; lra |].
    unfold u52 in Hw4.
    destruct (mul_Q (p + (q - p) * (2 / 3 - t2) * 6) 255 1024 Fw4 I) as [Fd Hd];
      [rewrite val_255; lra | apply cap_small; lra |].
    rewrite val_255 in Hd. unfold u52 in Hd.
    pose proof (lerp (val p) (val q) (6 * val (2 / 3 - t2))
                  (1 # 1000000000000) (1 # 100000000000)
                  ltac:(lra) ltac:(lra) Hp Hq ltac:(lra)) as HL.
    assert (A3 : (0 <= (val (q - p) - (val q - val p) + (1 # 1000000000000))
                      * (val (2 / 3 - t2) + (1 # 1000000000000)))%Q)
      by (apply Qmult_le_0_compat; lra).
    assert (A4 : (0 <= ((val q - val p) + (1 # 1000000000000) - val (q - p))
                      * (val (2 / 3 - t2) + (1 # 1000000000000)))%Q)
      by (apply Qmult_le_0_compat; lra).
    apply to_u8_Q; [exact Fd | lra | lra]. }
  destruct (mul_Q p 255 256 Fp I) as [Fd Hd];
    [rewrite val_255; lra | apply cap_small; lra |].
  rewrite val_255 in Hd. unfold u52 in Hd.
  apply to_u8_Q; [exact Fd | lra | lra].
Qed.
End Hue.
End HueTotal.

(** [hslToRgb] returns three bytes on the HSL ranges. *)
Module HslTotal.
Import B64 Rounding Magnitude Accuracy Accuracy2 AccuracyQ Order Values Blend HueTotal.

Lemma prim_360 : Prim2SF 360 = S754_finite false 6333186975989760 (-44).
Proof. reflexivity. Qed.

Lemma sc_bound (a : float) (E : Z) :
  nonneg (Prim2SF a) -> bounded_by E (Prim2SF a) ->
  fin a /\ 0 <= sc a <= 2 ^ 53 * 2 ^ (E + 1074).
Proof.
  unfold fin, sc. destruct (Prim2SF a) as [s|s| |s m e] eqn:Ha; cbn;
    try contradiction; destruct s; try contradiction; intros _ Hb.
  - split; [exact I|]. split; [lia|].
    apply Z.mul_nonneg_nonneg; apply Z.pow_nonneg; lia.
  - destruct (valid_finite _ _ _ _ Ha) as (He & Hm & _).
    split; [exact I|]. split.
    + apply Z.mul_nonneg_nonneg; [lia | apply Z.pow_nonneg; lia].
    + apply Z.mul_le_mono_nonneg; [lia | lia | apply Z.pow_nonneg; lia |].
      apply Z.pow_le_mono_r; lia.
Qed.

Lemma val_of_sc_bounds (a : float) (K : Z) :
  0 <= sc a <= K * 2 ^ 1074 -> (0 <= val a <= inject_Z K)%Q.
Proof.
  intros [H0 H1]. pose proof t_pos as Ht. pose proof (val_scaled a) as Ha.
  rewrite Zle_Qle in H0, H1. rewrite inject_Z_mult in H1.
  change (inject_Z 0) with 0%Q in H0.
  generalize dependent (inject_Z (2 ^ 1074)). intros T H1 Ht Ha.
  generalize dependent (inject_Z (sc a)). intros S H0 H1 Ha.
  split; nra.
Qed.

Section Fraction.
#[local] Open Scope float_scope.

Lemma val_360 : (val 360 == 360)%Q. Proof. vm_compute. reflexivity. Qed.

(** The hue as a fraction of the circle. *)
Lemma hue_fraction (h : float) :
  fin h -> (0 <= val h)%Q -> (val h < 360)%Q ->
  fin (h / 360) /\ (0 <= val (h / 360) <= inject_Z (2 ^ 107))%Q.
Proof.
  intros Fh H0 H1.
  assert (H0' : (val 0 <= val h)%Q) by (rewrite val_0; exact H0).
  assert (H1' : (val h < val 360)%Q) by (rewrite val_360; exact H1).
  apply val_le in H0'. apply val_lt in H1'.
  assert (S0 : sc 0 = 0%Z) by reflexivity.
  assert (S360 : sc 360 = (6333186975989760 * 2 ^ 1030)%Z)
    by (unfold sc; rewrite prim_360; reflexivity).
  rewrite S0 in H0'. rewrite S360 in H1'. clear S0 S360 H0 H1.
  destruct (fin_valid h Fh) as [[s Eh]|(s & m & e & Eh & He & Hm & Hn)].
  - unfold fin, val, sc. rewrite FloatAxioms.div_spec, Eh, prim_360.
    destruct s; cbn; (split; [exact I|]); split; vm_compute; discriminate.
  - unfold sc in H0', H1'. rewrite Eh in H0', H1'. cbn [scaled] in H0', H1'.
    assert (Hp : (0 < 2 ^ (e + 1074))%Z) by (apply Z.pow_pos_nonneg; lia).
    destruct s; cbn [cond_Zopp] in H0', H1'; [nia|].
    assert (Hlow : (e <= -44)%Z).
    { destruct (Z_le_gt_dec e (-44)) as [|Hgt]; [assumption|exfalso].
      assert (Hm52 : (2 ^ 52 <= Zpos m)%Z) by (apply Hn; lia).
      assert (Hpow : (2 ^ 1031 <= 2 ^ (e + 1074))%Z) by (apply Z.pow_le_mono_r; lia).
      change (2 ^ 1031)%Z with (2 * 2 ^ 1030)%Z in Hpow.
      assert (H30 : (0 < 2 ^ 1030)%Z) by (apply Z.pow_pos_nonneg; lia).
      change (2 ^ 52)%Z with 4503599627370496%Z in Hm52.
      generalize dependent (2 ^ 1030)%Z. generalize dependent (2 ^ (e + 1074))%Z.
      intros X _ HX P HP HX2. nia. }
    destruct (div_nonneg_bounded h 360 (-44) (-44)) as [N B].
    + rewrite Eh. exact I.
    + rewrite Eh. cbn. exact Hlow.
    + rewrite prim_360. cbn. lia.
    + lia.
    + lia.
    + destruct (sc_bound _ _ N B) as [F Hsc]. split; [exact F|].
      apply val_of_sc_bounds.
      change (2 ^ 53 * 2 ^ (-44 - -44 + 54 + 1074))%Z with (2 ^ 53 * 2 ^ 1128)%Z in Hsc.
      replace (2 ^ 107 * 2 ^ 1074)%Z with (2 ^ 53 * 2 ^ 1128)%Z; [exact Hsc|].
      rewrite <- !Z.pow_add_r by lia. reflexivity.
Qed.

(** [hslToRgb] returns three bytes on every colour in the HSL ranges. *)
Lemma hslToRgb_total (hsl : HSL) :
  hsl_in_range hsl = true ->
  exists r g b, hslToRgb hsl = Done (r, g, b) /\ u8 r /\ u8 g /\ u8 b.
Proof.
  unfold hsl_in_range. intros H. rewrite !andb_true_iff in H.
  destruct H as [[[[[Hh0 Hh1] Hs0] Hs1] Hl0] Hl1].
  assert (Fh : fin (hsl_h hsl)).
  { apply (between_fin 0 _ 360); [exact I | exact I | exact Hh0 |].
    rewrite Hh1. apply orb_true_r. }
  assert (Fs : fin (hsl_s hsl)).
  { apply (between_fin 0 _ 1); [exact I | exact I | exact Hs0 |].
    rewrite Hs1. reflexivity. }
  assert (Fl : fin (hsl_l hsl)).
  { apply (between_fin 0 _ 1); [exact I | exact I | exact Hl0 |].
    rewrite Hl1. reflexivity. }
  apply leb_true in Hh0, Hs0, Hs1, Hl0, Hl1; try assumption; try exact I.
  apply ltb_true in Hh1; try assumption; try exact I.
  rewrite val_0 in Hh0, Hs0, Hl0. rewrite val_1 in Hs1, Hl1. rewrite val_360 in Hh1.
  pose proof tiny_small as [Ht0 Ht1].
  unfold hslToRgb. cbv zeta.
  destruct (hsl_s hsl =? 0).
  - destruct (mul_Q (hsl_l hsl) 255 256 Fl I) as [Fd Hd];
      [rewrite val_255; lra | apply cap_small; lra |].
    rewrite val_255 in Hd. unfold u52 in Hd.
    destruct (to_u8_Q _ Fd) as (c & -> & Hc); [lra | lra |].
    exists c, c, c. cbn. auto.
  - destruct (pq_range (hsl_l hsl) (hsl_s hsl) Fl Fs) as (Fq & Fp & Rq & Rp);
      [lra | lra |].
    destruct (hue_fraction (hsl_h hsl) Fh Hh0 Hh1) as [Fn Rn].
    generalize dependent (hsl_h hsl / 360). intros hn Fn Rn.
    generalize dependent (2 * hsl_l hsl
      - (if hsl_l hsl <? 0.5 then hsl_l hsl * (1 + hsl_s hsl)
         else hsl_l hsl + hsl_s hsl - hsl_l hsl * hsl_s hsl)).
    intros p Fp Rp.
    generalize dependent (if hsl_l hsl <? 0.5 then hsl_l hsl * (1 + hsl_s hsl)
                          else hsl_l hsl + hsl_s hsl - hsl_l hsl * hsl_s hsl).
    intros q Fq Rq.
    pose proof val_third as H3.
    assert (Hbig : (inject_Z (2 ^ 107) + 1 <= inject_Z (2 ^ 200))%Q)
      by (vm_compute; discriminate).
    assert (Hbig' : (4 * inject_Z (2 ^ 107) + 4 <= inject_Z (2 ^ 110))%Q)
      by (vm_compute; discriminate).
    destruct (add_Q hn (1 / 3) (val hn + 1) Fn I) as [Fr Hr];
      [lra | apply cap_large; lra |].
    destruct (sub_Q hn (1 / 3) (val hn + 1) Fn I) as [Fb Hb];
      [lra | apply cap_large; lra |].
    unfold u52 in Hr, Hb.
    destruct (hueToRgb_total p q (hn + 1 / 3) Fp Fq Fr Rp Rq) as (r & -> & Hr8); [lra|].
    destruct (hueToRgb_total p q hn Fp Fq Fn Rp Rq) as (g & -> & Hg8); [lra|].
    destruct (hueToRgb_total p q (hn - 1 / 3) Fp Fq Fb Rp Rq) as (b & -> & Hb8); [lra|].
    exists r, g, b. cbn. auto.
Qed.
End Fraction.
End HslTotal.

(** ** The in-place kernels are pixel maps *)

Section TonalMaps.
Context {L : Libm}.
#[local] Opaque clamp luma hslToRgb rgbToHsl F.of_int.

(** Runs the loads and stores of a loop body on [pre ++ r :: g :: b :: a :: rest],
    splitting on the outcome of whatever else the body binds. *)
Ltac px_step :=
  repeat first
    [ rewrite load_px0 | rewrite load_px1 | rewrite load_px2
    | rewrite store_px0 | rewrite store_px1 | rewrite store_px2
    | progress cbn [mbind outcome_bind]
    | match goal with
      | |- mbind _ ?c = _ =>
          lazymatch c with
          | Done _ => fail
          | Undefined => fail
          | Diverged => fail
          | _ => destruct c as [?| |]
          end
      end ].

Lemma for_pixels_numPixels f body (img : raster) (width height : Z) :
  acts_as f body ->
  0 <= width * height -> 4 * (width * height) <= Z.of_nat (length img) ->
  for_pixels (width * height) body img = map_pixels f (Z.to_nat (width * height)) img.
Proof.
  intros Hb H0 Hlen.
  rewrite <- (Z2Nat.id (width * height)) at 1 by assumption.
  apply for_pixels_map; [assumption | lia].
Qed.

Lemma grayscale_map (img : raster) (width height : Z) :
  0 <= width * height -> 4 * (width * height) <= Z.of_nat (length img) ->
  grayscale img width height = map_pixels gray_px (Z.to_nat (width * height)) img.
Proof.
  apply for_pixels_numPixels. intros pre r g b a rest. unfold gray_px.
  px_step; reflexivity.
Qed.

Lemma hueRotate_map fuel (img : raster) (width height : Z) angleDegrees :
  0 <= width * height -> 4 * (width * height) <= Z.of_nat (length img) ->
  hueRotate fuel img width height angleDegrees
  = map_pixels (hue_px fuel angleDegrees) (Z.to_nat (width * height)) img.
Proof.
  apply for_pixels_numPixels. intros pre r g b a rest. unfold hue_px.
  px_step; try reflexivity.
  match goal with p : (Z * Z * Z)%type |- _ => destruct p as [[r' g'] b'] end.
  px_step; reflexivity.
Qed.

Lemma brightnessContrast_map (img : raster) (width height : Z) brightness contrast :
  0 <= width * height -> 4 * (width * height) <= Z.of_nat (length img) ->
  brightnessContrast img width height brightness contrast
  = map_pixels (bc_px brightness contrast) (Z.to_nat (width * height)) img.
Proof.
  apply for_pixels_numPixels. intros pre r g b a rest. unfold bc_px, bc_channel.
  px_step; reflexivity.
Qed.

Lemma gammaCorrection_map (img : raster) (width height : Z) gamma :
  0 <= width * height -> 4 * (width * height) <= Z.of_nat (length img) ->
  gammaCorrection img width height gamma
  = map_pixels (gamma_px gamma) (Z.to_nat (width * height)) img.
Proof.
  apply for_pixels_numPixels. intros pre r g b a rest. unfold gamma_px, gamma_channel.
  px_step; reflexivity.
Qed.
End TonalMaps.

(** ** Loops that write pixels *)

Section Paint.
Implicit Types (g : Z -> option (Z * Z * Z * Z)) (out : raster) (v : Z * Z * Z * Z).

Lemma painted_length g out : length (painted g out) = length out.
Proof. apply length_imap. Qed.

Lemma painted_lookup g out (i : nat) :
  painted g out !! i
  = (fun old => match g (Z.of_nat i / 4) with
                | Some v => channel (Z.of_nat i mod 4) v
                | None => old
                end) <$> out !! i.
Proof. unfold painted. apply list_lookup_imap. Qed.

Lemma painted_nothing out : painted (fun _ => None) out = out.
Proof.
  apply list_eq. intros i. rewrite painted_lookup. destruct (out !! i); reflexivity.
Qed.

Lemma painted_ext g g' out : (forall p, g p = g' p) -> painted g out = painted g' out.
Proof.
  intros H. apply list_eq. intros i. rewrite !painted_lookup, H. reflexivity.
Qed.

Lemma store_pixel_Done out (p : Z) v :
  0 <= p -> p * 4 + 3 < Z.of_nat (length out) ->
  store_pixel out p v
  = Done (<[Z.to_nat (p * 4 + 3) := channel 3 v]>
          (<[Z.to_nat (p * 4 + 2) := channel 2 v]>
           (<[Z.to_nat (p * 4 + 1) := channel 1 v]>
            (<[Z.to_nat (p * 4) := channel 0 v]> out)))).
Proof.
  intros Hp Hlen. destruct v as [[[r gg] b] a]. unfold store_pixel, store.
  repeat (rewrite ?length_insert;
          match goal with
          | |- context [(0 <=? ?i) && (?i <? ?n)] =>
              replace ((0 <=? i) && (i <? n)) with true
                by (symmetry; apply andb_true_iff; split;
                    [apply Z.leb_le | apply Z.ltb_lt]; lia)
          end; cbn [mbind outcome_bind]).
  reflexivity.
Qed.

Lemma store_pixel_painted g out (p : Z) v :
  0 <= p -> p * 4 + 3 < Z.of_nat (length out) ->
  store_pixel (painted g out) p v = Done (painted (upd g p v) out).
Proof.
  intros Hp Hlen. rewrite store_pixel_Done by (rewrite ?painted_length; lia).
  f_equal. apply list_eq. intros i.
  rewrite (painted_lookup (upd g p v)). unfold upd.
  destruct (Z.eqb_spec (Z.of_nat i / 4) p) as [Hi|Hi].
  - assert (Hc : 0 <= Z.of_nat i mod 4 < 4) by (apply Z.mod_pos_bound; lia).
    assert (Hd : Z.of_nat i = p * 4 + Z.of_nat i mod 4)
      by (rewrite <- Hi; rewrite (Z.div_mod (Z.of_nat i) 4) at 1; lia).
    assert (Hin : (i < length out)%nat) by lia.
    destruct (lookup_lt_is_Some_2 out i Hin) as [old Hold]. rewrite Hold. cbn.
    assert (Hcases : Z.of_nat i mod 4 = 0 \/ Z.of_nat i mod 4 = 1 \/
                     Z.of_nat i mod 4 = 2 \/ Z.of_nat i mod 4 = 3) by lia.
    destruct Hcases as [Hm|[Hm|[Hm|Hm]]]; rewrite Hm in *.
    + rewrite !list_lookup_insert_ne by lia.
      replace i with (Z.to_nat (p * 4)) by lia.
      rewrite list_lookup_insert_eq by (rewrite painted_length; lia). reflexivity.
    + rewrite !list_lookup_insert_ne by lia.
      replace i with (Z.to_nat (p * 4 + 1)) by lia.
      rewrite list_lookup_insert_eq by (rewrite ?length_insert, painted_length; lia).
      reflexivity.
    + rewrite !list_lookup_insert_ne by lia.
      replace i with (Z.to_nat (p * 4 + 2)) by lia.
      rewrite list_lookup_insert_eq by (rewrite ?length_insert, painted_length; lia).
      reflexivity.
    + replace i with (Z.to_nat (p * 4 + 3)) by lia.
      rewrite list_lookup_insert_eq by (rewrite ?length_insert, painted_length; lia).
      reflexivity.
  - assert (Hne : Z.of_nat i < p * 4 \/ p * 4 + 3 < Z.of_nat i).
    { destruct (Z_lt_ge_dec (Z.of_nat i) (p * 4)) as [|Hge]; [left; assumption|right].
      destruct (Z_lt_ge_dec (p * 4 + 3) (Z.of_nat i)) as [|Hle]; [assumption|exfalso].
      apply Hi. symmetry. apply Z.div_unique with (r := Z.of_nat i - p * 4); lia. }
    rewrite !list_lookup_insert_ne by lia.
    apply painted_lookup.
Qed.
End Paint.

Section Rect.
Variables (w N : Z) (val : Z -> Z -> option (Z * Z * Z * Z)).
Variable body : Z -> Z -> raster -> outcome raster.
Variables x0 x1 y0 y1 : Z.
Hypothesis Hw : 0 < w.
Hypothesis Hx0 : 0 <= x0.
Hypothesis Hx1 : x1 <= w.
Hypothesis Hy0 : 0 <= y0.
Hypothesis Hy1 : y1 * w * 4 <= N.
(** At each cell the body writes the pixel that [val] gives, or nothing. *)
Hypothesis Hbody : forall x y out,
  x0 <= x < x1 -> y0 <= y < y1 -> Z.of_nat (length out) = N ->
  body y x out = match val x y with
                 | Some v => store_pixel out (y * w + x) v
                 | None => Done out
                 end.

Lemma cell_of_index (x y : Z) :
  0 <= x < w -> (y * w + x) mod w = x /\ (y * w + x) / w = y.
Proof.
  intros Hx. split.
  - rewrite Z.add_comm, Z.mod_add by lia. apply Z.mod_small. lia.
  - rewrite Z.add_comm, Z.div_add by lia. rewrite Z.div_small by lia. lia.
Qed.

Lemma index_of_cell (q : Z) : q = (q / w) * w + q mod w.
Proof. rewrite (Z.div_mod q w) at 1 by lia. lia. Qed.

Ltac rect_bool :=
  unfold in_rect;
  repeat match goal with
         | |- context [?a <=? ?b] => destruct (Z.leb_spec a b)
         | |- context [?a <? ?b] => destruct (Z.ltb_spec a b)
         end; cbn [andb orb]; try reflexivity; try lia.

Lemma overlay_none g (y : Z) (p : Z) : overlay w val x0 x1 y0 y0 x0 g p = g p.
Proof.
  unfold overlay.
  replace (in_rect x0 x1 y0 y0 (p mod w) (p / w)) with false by rect_bool.
  replace (in_rect x0 x0 y0 (y0 + 1) (p mod w) (p / w)) with false by rect_bool.
  reflexivity.
Qed.

Lemma overlay_next_row g (y : Z) (p : Z) :
  y0 <= y ->
  overlay w val x0 x1 y0 (y + 1) x0 g p = overlay w val x0 x1 y0 y x1 g p.
Proof.
  intros Hy. unfold overlay.
  replace (in_rect x0 x1 y0 (y + 1) (p mod w) (p / w)
           || in_rect x0 x0 (y + 1) (y + 1 + 1) (p mod w) (p / w))
    with (in_rect x0 x1 y0 y (p mod w) (p / w)
          || in_rect x0 x1 y (y + 1) (p mod w) (p / w)) by rect_bool.
  reflexivity.
Qed.

Lemma overlay_skip g (x y : Z) (p : Z) :
  x0 <= x < x1 -> y0 <= y -> val x y = None ->
  overlay w val x0 x1 y0 y (x + 1) g p = overlay w val x0 x1 y0 y x g p.
Proof.
  intros Hx Hy Hv. unfold overlay.
  destruct (Z.eq_dec (p mod w) x) as [Hm|Hm];
    [destruct (Z.eq_dec (p / w) y) as [Hd|Hd]|].
  - rewrite Hm, Hd, Hv.
    destruct (_ || _); destruct (_ || _); reflexivity.
  - replace (in_rect x0 (x + 1) y (y + 1) (p mod w) (p / w)) with false by rect_bool.
    replace (in_rect x0 x y (y + 1) (p mod w) (p / w)) with false by rect_bool.
    reflexivity.
  - replace (in_rect x0 (x + 1) y (y + 1) (p mod w) (p / w))
      with (in_rect x0 x y (y + 1) (p mod w) (p / w)) by rect_bool.
    reflexivity.
Qed.

Lemma overlay_write g (x y : Z) v (p : Z) :
  x0 <= x < x1 -> y0 <= y -> val x y = Some v ->
  upd (overlay w val x0 x1 y0 y x g) (y * w + x) v p
  = overlay w val x0 x1 y0 y (x + 1) g p.
Proof.
  intros Hx Hy Hv. unfold upd.
  destruct (cell_of_index x y ltac:(lia)) as [Hm Hd].
  destruct (Z.eqb_spec p (y * w + x)) as [->|Hp].
  - unfold overlay. rewrite Hm, Hd, Hv.
    replace (in_rect x0 (x + 1) y (y + 1) x y) with true by rect_bool.
    rewrite orb_true_r. reflexivity.
  - unfold overlay.
    assert (Hne : p mod w <> x \/ p / w <> y).
    { destruct (Z.eq_dec (p mod w) x) as [Hm'|]; [|left; assumption].
      right. intros Hd'. apply Hp. rewrite (index_of_cell p), Hm', Hd'. reflexivity. }
    replace (in_rect x0 (x + 1) y (y + 1) (p mod w) (p / w))
      with (in_rect x0 x y (y + 1) (p mod w) (p / w)) by (destruct Hne; rect_bool).
    reflexivity.
Qed.

Lemma row_loop g (out0 : raster) (y : Z) :
  Z.of_nat (length out0) = N -> y0 <= y < y1 -> x0 <= x1 ->
  for_range x0 x1 (body y) (painted (overlay w val x0 x1 y0 y x0 g) out0)
  = Done (painted (overlay w val x0 x1 y0 y x1 g) out0).
Proof.
  intros Hlen Hy Hx.
  destruct (for_range_inv
              (fun x out => out = painted (overlay w val x0 x1 y0 y x g) out0)
              x0 x1 (body y) (painted (overlay w val x0 x1 y0 y x0 g) out0) Hx eq_refl)
    as (t & Ht & ->); [|exact Ht].
  intros x out Hx' ->.
  rewrite Hbody by (rewrite ?painted_length; lia).
  destruct (val x y) as [v|] eqn:Hv.
  - rewrite store_pixel_painted by nia.
    eexists. split; [reflexivity|].
    apply painted_ext. intros p. apply overlay_write; (lia || assumption).
  - eexists. split; [reflexivity|].
    apply painted_ext. intros p. symmetry. apply overlay_skip; (lia || assumption).
Qed.

Lemma rect_loop g (out0 : raster) :
  Z.of_nat (length out0) = N -> x0 <= x1 -> y0 <= y1 ->
  for_range y0 y1 (fun y out => for_range x0 x1 (body y) out) (painted g out0)
  = Done (painted (overlay w val x0 x1 y0 y1 x0 g) out0).
Proof.
  intros Hlen Hx Hy.
  destruct (for_range_inv
              (fun y out => out = painted (overlay w val x0 x1 y0 y x0 g) out0)
              y0 y1 (fun y out => for_range x0 x1 (body y) out) (painted g out0) Hy)
    as (t & Ht & ->); [| |exact Ht].
  - apply painted_ext. intros p. symmetry. apply (overlay_none g y0).
  - intros y out Hy' ->. rewrite row_loop by (assumption || lia).
    eexists. split; [reflexivity|].
    apply painted_ext. intros p. symmetry. apply overlay_next_row. lia.
Qed.

(** The same with ranges that may be empty. *)
Lemma rect_loop_any g (out0 : raster) :
  Z.of_nat (length out0) = N ->
  for_range y0 y1 (fun y out => for_range x0 x1 (body y) out) (painted g out0)
  = Done (painted (overlay w val x0 x1 y0 y1 x0 g) out0).
Proof.
  intros Hlen.
  destruct (Z_le_gt_dec y0 y1) as [Hy|Hy]; [destruct (Z_le_gt_dec x0 x1) as [Hx|Hx]|].
  - apply rect_loop; assumption.
  - rewrite for_range_id by (intros; apply for_range_empty; lia).
    f_equal. apply painted_ext. intros p. unfold overlay.
    replace (in_rect x0 x1 y0 y1 (p mod w) (p / w)) with false by rect_bool.
    replace (in_rect x0 x0 y1 (y1 + 1) (p mod w) (p / w)) with false by rect_bool.
    reflexivity.
  - rewrite for_range_empty by lia.
    f_equal. apply painted_ext. intros p. unfold overlay.
    replace (in_rect x0 x1 y0 y1 (p mod w) (p / w)) with false by rect_bool.
    replace (in_rect x0 x0 y1 (y1 + 1) (p mod w) (p / w)) with false by rect_bool.
    reflexivity.
Qed.
End Rect.

(** A pixel of a painted raster. *)
Lemma painted_pixel (g : Z -> option (Z * Z * Z * Z)) (out : raster) (p : nat)
    (v : Z * Z * Z * Z) :
  g (Z.of_nat p) = Some v -> (4 * p + 3 < length out)%nat ->
  pixel_at (painted g out) p = Some v.
Proof.
  intros Hg Hlen. unfold pixel_at.
  assert (Hc : forall c : nat, (c < 4)%nat ->
            painted g out !! (4 * p + c)%nat = Some (channel (Z.of_nat c) v)).
  { intros c Hc. rewrite painted_lookup.
    destruct (lookup_lt_is_Some_2 out (4 * p + c)) as [old ->]; [lia|].
    cbn [fmap option_fmap option_map].
    replace (Z.of_nat (4 * p + c) / 4) with (Z.of_nat p)
      by (apply Z.div_unique with (r := Z.of_nat c); lia).
    replace (Z.of_nat (4 * p + c) mod 4) with (Z.of_nat c)
      by (apply Z.mod_unique with (q := Z.of_nat p); lia).
    rewrite Hg. reflexivity. }
  replace (4 * p)%nat with (4 * p + 0)%nat at 1 by lia.
  rewrite !Hc by lia. destruct v as [[[r gg] b] a]. reflexivity.
Qed.

(** A raster painted everywhere keeps nothing of what it held. *)
Lemma painted_everywhere (g : Z -> option (Z * Z * Z * Z)) (out other : raster) :
  length other = length out ->
  (forall p, 0 <= p -> p * 4 < Z.of_nat (length out) -> g p <> None) ->
  painted g other = painted g out.
Proof.
  intros Hlen Hg. apply list_eq. intros i. rewrite !painted_lookup.
  destruct (lt_dec i (length out)) as [Hi|Hi].
  - destruct (lookup_lt_is_Some_2 out i Hi) as [a ->].
    destruct (lookup_lt_is_Some_2 other i ltac:(lia)) as [b ->].
    cbn [fmap option_fmap option_map].
    assert (H4 : 0 <= Z.of_nat i / 4) by (apply Z.div_pos; lia).
    assert (Hlt : Z.of_nat i / 4 * 4 < Z.of_nat (length out)).
    { pose proof (Z.mul_div_le (Z.of_nat i) 4 ltac:(lia)). lia. }
    specialize (Hg (Z.of_nat i / 4) H4 Hlt).
    destruct (g (Z.of_nat i / 4)); [reflexivity | congruence].
  - rewrite !lookup_ge_None_2 by lia. reflexivity.
Qed.

(** ** Properties checked on every byte *)

Lemma u8_In (c : Z) : u8 c -> In c u8s.
Proof.
  intros [H0 H1].
  assert (Hs : u8s = map Z.of_nat (seq 0 256)) by (vm_compute; reflexivity).
  rewrite Hs. apply in_map_iff. exists (Z.to_nat c). split; [lia|].
  apply in_seq. lia.
Qed.

Lemma u8_forallb (p : Z -> bool) :
  forallb p u8s = true -> forall c, u8 c -> p c = true.
Proof.
  intros H c Hc. rewrite forallb_forall in H. apply H, u8_In, Hc.
Qed.

Lemma returns_Done (c : outcome Z) (x : Z) : returns c x = true -> c = Done x.
Proof.
  destruct c as [y| |]; simpl; try discriminate.
  intros H. apply Z.eqb_eq in H. subst. reflexivity.
Qed.

Section ByteIdentities.
Context {L : Libm}.
#[local] Open Scope float_scope.

Lemma bc_channel_id (c : Z) : u8 c -> bc_channel 0 0 c = Done c.
Proof.
  intros Hc. apply returns_Done. revert c Hc.
  apply (u8_forallb (fun c => returns (bc_channel 0 0 c) c)).
  vm_compute. reflexivity.
Qed.

Lemma scale_roundtrip (c : Z) : u8 c -> clamp (F.of_int c / 255 * 255) = Done c.
Proof.
  intros Hc. apply returns_Done. revert c Hc.
  apply (u8_forallb (fun c => returns (clamp (F.of_int c / 255 * 255)) c)).
  vm_compute. reflexivity.
Qed.

Lemma gammaInv_one : 1 / F.max 0.01 1 = 1.
Proof. vm_compute. reflexivity. Qed.

Lemma gamma_channel_id (c : Z) :
  (forall x, pow x 1 = x) -> u8 c -> gamma_channel 1 c = Done c.
Proof.
  intros Hpow Hc. unfold gamma_channel. rewrite gammaInv_one, Hpow.
  apply scale_roundtrip, Hc.
Qed.
End ByteIdentities.

(** ** Brightness/contrast and gamma at their neutral parameters *)

Lemma raster_ok_bounds (img : raster) (width height : Z) :
  raster_ok img width height ->
  0 <= width * height /\ 4 * (width * height) <= Z.of_nat (length img) /\
  (4 * Z.to_nat (width * height) <= length img)%nat.
Proof. intros (Hw & Hh & Hlen & _). repeat split; nia. Qed.

(** C5. [brightnessContrast] with brightness 0 and contrast 0 returns the
    raster it was given, byte for byte, and so does [gammaCorrection] with
    gamma 1.0 on a platform whose [pow(x, 1.0)] is [x]. *)
Theorem neutral_parameters_identity (L : Libm) (img : raster) (width height : Z) :
  (forall x, pow x 1 = x) ->
  raster_ok img width height ->
  brightnessContrast img width height 0 0 = Done img /\
  gammaCorrection img width height 1 = Done img.
Proof.
  intros Hpow Hok.
  destruct (raster_ok_bounds _ _ _ Hok) as (H0 & Hlen & Hn).
  destruct Hok as (_ & _ & _ & _ & Hu8). split.
  - rewrite brightnessContrast_map by assumption.
    apply map_pixels_id; [|assumption|assumption].
    intros r g b Hr Hg Hb. unfold bc_px.
    rewrite !bc_channel_id by assumption. reflexivity.
  - rewrite gammaCorrection_map by assumption.
    apply map_pixels_id; [|assumption|assumption].
    intros r g b Hr Hg Hb. unfold gamma_px.
    rewrite !gamma_channel_id by assumption. reflexivity.
Qed.

Lemma ref_pow_one (x : float) : RefLibm.pow x 1 = x.
Proof. reflexivity. Qed.

Lemma two_pixels_ok : raster_ok two_pixels 2 1.
Proof.
  unfold raster_ok, two_pixels. repeat split; try (cbn; lia).
  repeat (constructor; [unfold u8; lia|]). constructor.
Qed.

Lemma neutral_parameters_identity_witness :
  @brightnessContrast two_pixels 2 1 0 0 = Done two_pixels /\
  @gammaCorrection ref_libm two_pixels 2 1 1 = Done two_pixels.
Proof.
  exact (neutral_parameters_identity ref_libm two_pixels 2 1 ref_pow_one two_pixels_ok).
Defined.

(** ** Alpha is out of reach of the tonal kernels *)

Section Alpha.
Context {L : Libm}.

Lemma bc_px_total brightness contrast (r g b : Z) :
  exists r' g' b', bc_px brightness contrast r g b = Done (r', g', b')
                   /\ u8 r' /\ u8 g' /\ u8 b'.
Proof.
  unfold bc_px, bc_channel.
  destruct (B64.clamp_total (128 + (1 + contrast) * (F.of_int r - 128) + brightness * 255))
    as (r' & -> & Hr).
  destruct (B64.clamp_total (128 + (1 + contrast) * (F.of_int g - 128) + brightness * 255))
    as (g' & -> & Hg).
  destruct (B64.clamp_total (128 + (1 + contrast) * (F.of_int b - 128) + brightness * 255))
    as (b' & -> & Hb).
  exists r', g', b'. split; [reflexivity|]. split; [|split]; assumption.
Qed.

Lemma gamma_px_total gamma (r g b : Z) :
  exists r' g' b', gamma_px gamma r g b = Done (r', g', b') /\ u8 r' /\ u8 g' /\ u8 b'.
Proof.
  unfold gamma_px, gamma_channel.
  destruct (B64.clamp_total (pow (F.of_int r / 255) (1 / F.max 0.01 gamma) * 255))
    as (r' & -> & Hr).
  destruct (B64.clamp_total (pow (F.of_int g / 255) (1 / F.max 0.01 gamma) * 255))
    as (g' & -> & Hg).
  destruct (B64.clamp_total (pow (F.of_int b / 255) (1 / F.max 0.01 gamma) * 255))
    as (b' & -> & Hb).
  exists r', g', b'. split; [reflexivity|]. split; [|split]; assumption.
Qed.
End Alpha.

(** C9. The three in-place tonal kernels leave the alpha byte of every pixel
    as it was, for every parameter value: [brightnessContrast] and
    [gammaCorrection] always return, and [hueRotate] keeps alpha whenever it
    returns. *)
Theorem tonal_kernels_keep_alpha (L : Libm) (img : raster) (width height : Z) :
  raster_ok img width height ->
  (forall fuel angleDegrees img',
     hueRotate fuel img width height angleDegrees = Done img' -> same_alpha img img') /\
  (forall brightness contrast,
     exists img', brightnessContrast img width height brightness contrast = Done img'
                  /\ same_alpha img img') /\
  (forall gamma,
     exists img', gammaCorrection img width height gamma = Done img'
                  /\ same_alpha img img').
Proof.
  intros Hok.
  destruct (raster_ok_bounds _ _ _ Hok) as (H0 & Hlen & Hn).
  destruct Hok as (_ & _ & _ & _ & Hu8).
  split; [|split].
  - intros fuel angleDegrees img'. rewrite hueRotate_map by assumption.
    intros H. split; [eapply map_pixels_length | eapply map_pixels_alpha]; exact H.
  - intros brightness contrast. rewrite brightnessContrast_map by assumption.
    destruct (map_pixels_total (bc_px brightness contrast) _ img
                (fun r g b _ _ _ => bc_px_total brightness contrast r g b) Hu8 Hn)
      as (img' & H & _).
    exists img'. split; [exact H|].
    split; [eapply map_pixels_length | eapply map_pixels_alpha]; exact H.
  - intros gamma. rewrite gammaCorrection_map by assumption.
    destruct (map_pixels_total (gamma_px gamma) _ img
                (fun r g b _ _ _ => gamma_px_total gamma r g b) Hu8 Hn)
      as (img' & H & _).
    exists img'. split; [exact H|].
    split; [eapply map_pixels_length | eapply map_pixels_alpha]; exact H.
Qed.

Lemma tonal_kernels_keep_alpha_witness :
  (forall fuel angleDegrees img',
     @hueRotate ref_libm fuel two_pixels 2 1 angleDegrees = Done img' ->
     same_alpha two_pixels img') /\
  (forall brightness contrast,
     exists img', @brightnessContrast two_pixels 2 1 brightness contrast = Done img'
                  /\ same_alpha two_pixels img') /\
  (forall gamma,
     exists img', @gammaCorrection ref_libm two_pixels 2 1 gamma = Done img'
                  /\ same_alpha two_pixels img').
Proof. exact (tonal_kernels_keep_alpha ref_libm two_pixels 2 1 two_pixels_ok). Defined.

(** ** Grayscale *)

Lemma luma_sums_byte_valued :
  forallb (fun a => forallb (fun b => forallb (fun c =>
    byte_valued (a + b + c)) luma_b) luma_g) luma_r = true.
Proof. vm_cast_no_check (eq_refl true). Qed.

Lemma luma_r_In (c : Z) : u8 c -> In (0.299 * F.of_int c)%float luma_r.
Proof.
  intros Hc.
  assert (Hs : luma_r = map (fun c => (0.299 * F.of_int c)%float) u8s)
    by (vm_compute; reflexivity).
  rewrite Hs. apply (in_map (fun c => (0.299 * F.of_int c)%float)), u8_In, Hc.
Qed.

Lemma luma_g_In (c : Z) : u8 c -> In (0.587 * F.of_int c)%float luma_g.
Proof.
  intros Hc.
  assert (Hs : luma_g = map (fun c => (0.587 * F.of_int c)%float) u8s)
    by (vm_compute; reflexivity).
  rewrite Hs. apply (in_map (fun c => (0.587 * F.of_int c)%float)), u8_In, Hc.
Qed.

Lemma luma_b_In (c : Z) : u8 c -> In (0.114 * F.of_int c)%float luma_b.
Proof.
  intros Hc.
  assert (Hs : luma_b = map (fun c => (0.114 * F.of_int c)%float) u8s)
    by (vm_compute; reflexivity).
  rewrite Hs. apply (in_map (fun c => (0.114 * F.of_int c)%float)), u8_In, Hc.
Qed.

(** The luminance of three bytes is defined, and is a byte. *)
Lemma luma_total (r g b : Z) :
  u8 r -> u8 g -> u8 b -> exists y, luma r g b = Done y /\ u8 y.
Proof.
  intros Hr Hg Hb.
  assert (Hv : byte_valued (0.299 * F.of_int r + 0.587 * F.of_int g + 0.114 * F.of_int b)
               = true).
  { pose proof luma_sums_byte_valued as H.
    rewrite forallb_forall in H. specialize (H _ (luma_r_In r Hr)).
    rewrite forallb_forall in H. specialize (H _ (luma_g_In g Hg)).
    rewrite forallb_forall in H. exact (H _ (luma_b_In b Hb)). }
  assert (H : exists y, luma r g b = Done y).
  { unfold luma, F.to_u8. unfold byte_valued in Hv. rewrite Hv. eexists. reflexivity. }
  destruct H as [y Hy]. exists y. split; [assumption|].
  eapply B64.to_u8_range, Hy.
Qed.

Lemma gray_again_all (y : Z) : u8 y -> gray_again y = true.
Proof. apply u8_forallb. vm_compute. reflexivity. Qed.

Lemma luma_of_gray (y : Z) : u8 y -> exists y', luma y y y = Done y' /\ y - 1 <= y' <= y.
Proof.
  intros Hy. pose proof (gray_again_all y Hy) as H. unfold gray_again in H.
  destruct (luma y y y) as [y'| |]; try discriminate.
  exists y'. split; [reflexivity | lia].
Qed.

Lemma gray_px_total (r g b : Z) :
  u8 r -> u8 g -> u8 b ->
  exists r' g' b', gray_px r g b = Done (r', g', b') /\ u8 r' /\ u8 g' /\ u8 b'.
Proof.
  intros Hr Hg Hb. destruct (luma_total r g b Hr Hg Hb) as (y & Hy & Hu).
  exists y, y, y. unfold gray_px. rewrite Hy. repeat split; apply Hu.
Qed.

(** A pixel inside a raster of bytes. *)
Lemma pixel_at_inside (img : raster) (n p : nat) :
  Forall u8 img -> (4 * n <= length img)%nat -> (p < n)%nat ->
  exists r g b a, pixel_at img p = Some (r, g, b, a) /\ u8 r /\ u8 g /\ u8 b /\ u8 a.
Proof.
  intros Hu Hlen Hp. rewrite Forall_lookup in Hu.
  destruct (lookup_lt_is_Some_2 img (4 * p)) as [r Hr]; [lia|].
  destruct (lookup_lt_is_Some_2 img (4 * p + 1)) as [g Hg]; [lia|].
  destruct (lookup_lt_is_Some_2 img (4 * p + 2)) as [b Hb]; [lia|].
  destruct (lookup_lt_is_Some_2 img (4 * p + 3)) as [a Ha]; [lia|].
  exists r, g, b, a. unfold pixel_at. rewrite Hr, Hg, Hb, Ha.
  split; [reflexivity|]. repeat split; eapply Hu; eassumption.
Qed.

(** C7, first half refuted: a pixel that [grayscale] maps to gray level 1 is
    mapped to gray level 0 by a second application. *)
Lemma grayscale_twice_differs :
  grayscale [2; 1; 1; 7] 1 1 = Done [1; 1; 1; 7] /\
  grayscale [1; 1; 1; 7] 1 1 = Done [0; 0; 0; 7].
Proof. split; vm_compute; reflexivity. Qed.

(** C7, as the code has it. After one application of [grayscale] every pixel
    has R = G = B and the alpha byte it had; a second application keeps that
    form and the alpha byte, and lowers each gray level by at most 1. *)
Theorem grayscale_gray_levels (img : raster) (width height : Z) :
  raster_ok img width height ->
  exists img1 img2,
    grayscale img width height = Done img1 /\
    grayscale img1 width height = Done img2 /\
    same_alpha img img1 /\ same_alpha img1 img2 /\
    forall p, (p < Z.to_nat (width * height))%nat ->
      exists y y' a,
        pixel_at img1 p = Some (y, y, y, a) /\
        pixel_at img2 p = Some (y', y', y', a) /\
        y - 1 <= y' <= y.
Proof.
  intros Hok.
  destruct (raster_ok_bounds _ _ _ Hok) as (H0 & Hlen & Hn).
  destruct Hok as (_ & _ & _ & _ & Hu8).
  destruct (map_pixels_total gray_px _ img gray_px_total Hu8 Hn) as (img1 & H1 & Hu1).
  pose proof (map_pixels_length _ _ _ _ H1) as Hl1.
  destruct (map_pixels_total gray_px (Z.to_nat (width * height)) img1 gray_px_total Hu1
              ltac:(lia)) as (img2 & H2 & Hu2).
  exists img1, img2.
  rewrite grayscale_map by assumption.
  rewrite grayscale_map by (assumption || lia).
  split; [exact H1|]. split; [exact H2|].
  split; [split; [eapply map_pixels_length | eapply map_pixels_alpha]; exact H1|].
  split; [split; [eapply map_pixels_length | eapply map_pixels_alpha]; exact H2|].
  intros p Hp.
  destruct (pixel_at_inside img _ p Hu8 Hn Hp) as (r & g & b & a & Hpx & Hr & Hg & Hb & _).
  destruct (map_pixels_pixel _ _ _ _ _ _ _ _ _ H1 Hp Hpx) as (r1 & g1 & b1 & Hf1 & Hpx1).
  unfold gray_px in Hf1.
  destruct (luma_total r g b Hr Hg Hb) as (y & Hy & Huy). rewrite Hy in Hf1.
  cbn in Hf1. injection Hf1 as <- <- <-.
  destruct (map_pixels_pixel _ _ _ _ _ _ _ _ _ H2 Hp Hpx1) as (r2 & g2 & b2 & Hf2 & Hpx2).
  unfold gray_px in Hf2.
  destruct (luma_of_gray y Huy) as (y' & Hy' & Hyy). rewrite Hy' in Hf2.
  cbn in Hf2. injection Hf2 as <- <- <-.
  exists y, y', a. auto.
Qed.

Lemma grayscale_gray_levels_witness :
  exists img1 img2,
    grayscale two_pixels 2 1 = Done img1 /\
    grayscale img1 2 1 = Done img2 /\
    same_alpha two_pixels img1 /\ same_alpha img1 img2 /\
    forall p, (p < Z.to_nat (2 * 1))%nat ->
      exists y y' a,
        pixel_at img1 p = Some (y, y, y, a) /\
        pixel_at img2 p = Some (y', y', y', a) /\
        y - 1 <= y' <= y.
Proof. exact (grayscale_gray_levels two_pixels 2 1 two_pixels_ok). Defined.

(** ** Hue rotation *)

Section HueLoop.
Context {L : Libm}.
#[local] Open Scope float_scope.

(** Adding 360 to -1e19 gives -1e19 back: the double nearest to the sum. *)
Lemma absorbed_360 : -1e19 + 360 = -1e19.
Proof. vm_compute. reflexivity. Qed.

Lemma wrap_negative_stuck (fuel : nat) : wrap_negative fuel (-1e19) = Diverged.
Proof.
  induction fuel as [|fuel IH]; [reflexivity|].
  cbn [wrap_negative]. change (-1e19 <? 0) with true. cbv iota.
  rewrite absorbed_360. exact IH.
Qed.

(** On values that are not negative the loop does nothing. *)
Lemma wrap_negative_skip (fuel : nat) (h : float) :
  (h <? 0) = false -> wrap_negative fuel h = Done h.
Proof. intros H. destruct fuel; cbn [wrap_negative]; rewrite H; reflexivity. Qed.
End HueLoop.

(** C10, at the angle -1e19 (a finite double): the loop that adds 360 while
    the hue is negative never leaves its first state, whatever the number of
    iterations it is given. *)
Theorem hueRotate_never_returns (L : Libm) (fuel : nat) :
  hueRotate fuel [0; 0; 0; 255] 1 1 (-1e19) = Diverged.
Proof.
  rewrite hueRotate_map by (cbn; lia).
  change (Z.to_nat (1 * 1)) with 1%nat. cbn [map_pixels]. unfold hue_px.
  change (hsl_h (rgbToHsl 0 0 0) + -1e19)%float with (-1e19)%float.
  rewrite wrap_negative_stuck. reflexivity.
Qed.

(** ** HSL to RGB *)

Lemma hueToRgb_range (p q t : float) (c : Z) : hueToRgb p q t = Done c -> u8 c.
Proof.
  unfold hueToRgb.
  repeat match goal with
         | |- context [if ?b then _ else _] => destruct b
         end; apply B64.to_u8_range.
Qed.

(** Whenever [hslToRgb] returns, each channel is a byte. *)
Lemma hslToRgb_range (hsl : HSL) (r g b : Z) :
  hslToRgb hsl = Done (r, g, b) -> u8 r /\ u8 g /\ u8 b.
Proof.
  unfold hslToRgb.
  destruct (hsl_s hsl =? 0)%float.
  - destruct (F.to_u8 _) as [c| |] eqn:Hc; cbn; try discriminate.
    intros [= <- <- <-]. apply B64.to_u8_range in Hc. auto.
  - destruct (hueToRgb _ _ (_ + _)) as [r'| |] eqn:Hr; cbn; try discriminate.
    destruct (hueToRgb _ _ (hsl_h hsl / 360)) as [g'| |] eqn:Hg; cbn; try discriminate.
    destruct (hueToRgb _ _ (_ - _)) as [b'| |] eqn:Hb; cbn; try discriminate.
    intros [= <- <- <-].
    apply hueToRgb_range in Hr, Hg, Hb. auto.
Qed.

(** C8, first part refuted: the achromatic branch truncates.  For l = 0.5 the
    channels are 127, and [round(0.5 * 255)] is 128. *)
Lemma hslToRgb_truncates :
  hslToRgb (mkHSL 0 0 0.5) = Done (127, 127, 127) /\
  round_nearest (0.5 * 255) = Some 128.
Proof. split; vm_compute; reflexivity. Qed.

(** C8, as the code has it.  With s == 0 the three channels are the
    truncation toward zero of l * 255 (not its rounding).  For every colour
    in the HSL ranges (hue in [0, 360), saturation and lightness in [0, 1]),
    chromatic or not, [hslToRgb] returns and each channel is in 0..255: no
    rounding pushes a channel to 256, so the casts of the code, which do not
    clamp, are always defined there. *)
Theorem hslToRgb_channels (hsl : HSL) :
  ((hsl_s hsl =? 0)%float = true ->
   hslToRgb hsl = c ← in_range 0 256 (trunc (hsl_l hsl * 255)); Done (c, c, c)) /\
  (hsl_in_range hsl = true ->
   exists r g b, hslToRgb hsl = Done (r, g, b) /\ u8 r /\ u8 g /\ u8 b).
Proof.
  split.
  - intros Hs. unfold hslToRgb. rewrite Hs, B64.to_u8_correct. reflexivity.
  - apply HslTotal.hslToRgb_total.
Qed.

Lemma hslToRgb_channels_witness :
  hslToRgb (mkHSL 0 0 0.5)
  = (c ← in_range 0 256 (trunc (0.5 * 255)); Done (c, c, c)) /\
  exists r g b, hslToRgb (mkHSL 120 1 0.5) = Done (r, g, b) /\ u8 r /\ u8 g /\ u8 b.
Proof.
  split.
  - apply (proj1 (hslToRgb_channels (mkHSL 0 0 0.5))). reflexivity.
  - apply (proj2 (hslToRgb_channels (mkHSL 120 1 0.5))). reflexivity.
Defined.

(** ** Bilinear sampler *)

Section Sampler1x1.
#[local] Open Scope float_scope.

Lemma clamp_coord_1 (u : float) : clamp_coord 1 u = 0.
Proof.
  unfold clamp_coord, F.min.
  assert (Ha : exists m e, Prim2SF (F.of_int 1 - 1.001) = S754_finite true m e)
    by (vm_compute; eauto).
  assert (Hmax : F.max 0 (F.of_int 1 - 1.001) = 0) by (vm_compute; reflexivity).
  destruct Ha as (m0 & e0 & Ha).
  destruct (u <? F.of_int 1 - 1.001) eqn:E; [|exact Hmax].
  unfold F.max. replace (0 <? u) with false; [reflexivity|].
  rewrite FloatAxioms.ltb_spec in *. rewrite B64.prim_0. rewrite Ha in E.
  destruct (Prim2SF u) as [s|s| |s m e]; try discriminate; destruct s;
    try discriminate; reflexivity.
Qed.
End Sampler1x1.

(** C1, at width 1 and height 1: whatever the coordinate, the clamp yields the
    cell (0, 0) and the sampler reads its right and lower neighbours, at byte
    offsets 4 and 8 of a raster that has 4 bytes. *)
Theorem sample_corners_1x1 (u v : float) :
  sample_corners 1 1 u v = Done (0, 4, 4, 8) /\
  forall r g b a, sampleBilinear [r; g; b; a] 1 1 u v = Undefined.
Proof.
  unfold sample_corners, sampleBilinear. rewrite !clamp_coord_1.
  split; [reflexivity|]. intros r g b a. reflexivity.
Qed.

(** C2 refuted: sampled at the integer coordinate (1, 0) of a raster 2 pixels
    wide, the white pixel (1, 0) comes back as 254 on every channel. *)
Lemma sampleBilinear_last_column :
  sampleBilinear white_at_1_0 2 2 1 0 = Done (254, 254, 254, 254) /\
  pixel_at white_at_1_0 1 = Some (255, 255, 255, 255).
Proof. split; vm_compute; reflexivity. Qed.

Lemma load_byte (img : raster) (w h i : Z) :
  raster_ok img w h -> 0 <= i < 4 * (w * h) -> exists b, load img i = Done b /\ u8 b.
Proof.
  intros (_ & _ & Hlen & _ & Hu) Hi.
  destruct (lookup_lt_is_Some_2 img (Z.to_nat i)) as [b Hb]; [lia|].
  exists b. split.
  - apply load_Done. split; [lia | assumption].
  - rewrite Forall_lookup in Hu. eapply Hu, Hb.
Qed.

(** With both ratios zero the blend of a channel is its value at [ptr1]. *)
Lemma blend_at_cell (src : raster) (ptr1 ptr2 ptr3 ptr4 c p1 : Z) :
  load src (ptr1 + c) = Done p1 -> u8 p1 ->
  (exists p, load src (ptr2 + c) = Done p /\ u8 p) ->
  (exists p, load src (ptr3 + c) = Done p /\ u8 p) ->
  (exists p, load src (ptr4 + c) = Done p /\ u8 p) ->
  blend src (ptr1, ptr2, ptr3, ptr4) 0 0 c = Done p1.
Proof.
  intros H1 U1 (p2 & H2 & U2) (p3 & H3 & U3) (p4 & H4 & U4).
  unfold blend. rewrite H1, H2, H3, H4. cbn [mbind outcome_bind].
  rewrite Rounding.blend_weights by assumption. apply Rounding.to_u8_of_int, U1.
Qed.


(** C2. At an integer coordinate [(x, y)] that has a right and a lower
    neighbour ([x <= width - 2], [y <= height - 2]), [sampleBilinear] returns
    exactly the four channels of the source pixel at [(x, y)]. *)
Theorem sampleBilinear_interior (src : raster) (width height x y : Z) :
  raster_ok src width height ->
  0 <= x <= width - 2 -> 0 <= y <= height - 2 ->
  exists px, pixel_at src (Z.to_nat (y * width + x)) = Some px /\
             sampleBilinear src width height (F.of_int x) (F.of_int y) = Done px.
Proof.
  intros Hok Hx Hy. pose proof Hok as (Hw & Hh & _).
  set (p := y * width + x).
  assert (Hp : 0 <= p /\ p + width + 1 < width * height) by (unfold p; nia).
  assert (Hload : forall i, 0 <= i < 4 * (width * height) ->
                            exists b, load src i = Done b /\ u8 b)
    by (intros i Hi; eapply load_byte; eassumption).
  destruct (Hload (p * 4 + 0)) as (r & Hr & Ur); [lia|].
  destruct (Hload (p * 4 + 1)) as (g & Hg & Ug); [lia|].
  destruct (Hload (p * 4 + 2)) as (b & Hb & Ub); [lia|].
  destruct (Hload (p * 4 + 3)) as (a & Ha & Ua); [lia|].
  exists (r, g, b, a). split.
  - unfold pixel_at.
    apply load_Done in Hr, Hg, Hb, Ha.
    replace (4 * Z.to_nat p)%nat with (Z.to_nat (p * 4 + 0)) by lia.
    rewrite (proj2 Hr).
    replace (Z.to_nat (p * 4 + 0) + 1)%nat with (Z.to_nat (p * 4 + 1)) by lia.
    replace (Z.to_nat (p * 4 + 0) + 2)%nat with (Z.to_nat (p * 4 + 2)) by lia.
    replace (Z.to_nat (p * 4 + 0) + 3)%nat with (Z.to_nat (p * 4 + 3)) by lia.
    cbn [mbind option_bind]. rewrite (proj2 Hg). cbn [mbind option_bind].
    rewrite (proj2 Hb). cbn [mbind option_bind]. rewrite (proj2 Ha). reflexivity.
  - unfold sampleBilinear.
    rewrite !Rounding.clamp_coord_of_int by lia. rewrite !Rounding.to_int_of_int by lia.
    cbn [mbind outcome_bind].
    rewrite !Rounding.of_int_sub_self
      by (split; [lia|]; apply Z.lt_le_trans with (2 ^ 31); [lia|];
          apply Z.pow_le_mono_r; lia).
    unfold corner_offsets. fold p.
    rewrite (blend_at_cell src _ _ _ _ 0 r), (blend_at_cell src _ _ _ _ 1 g),
      (blend_at_cell src _ _ _ _ 2 b), (blend_at_cell src _ _ _ _ 3 a);
      try assumption; try (apply Hload; lia).
    reflexivity.
Qed.

Lemma ramp_3x3_ok : raster_ok ramp_3x3 3 3.
Proof.
  unfold raster_ok, ramp_3x3. repeat split; try (cbn; lia).
  repeat (constructor; [unfold u8; lia|]). constructor.
Qed.

Lemma sampleBilinear_interior_witness :
  exists px, pixel_at ramp_3x3 (Z.to_nat (1 * 3 + 1)) = Some px /\
             sampleBilinear ramp_3x3 3 3 (F.of_int 1) (F.of_int 1) = Done px.
Proof.
  apply (sampleBilinear_interior ramp_3x3 3 3 1 1 ramp_3x3_ok); lia.
Defined.

(** ** RGB to HSL and back *)

Section RoundTrip.
#[local] Open Scope float_scope.

Lemma roundtrip_63_all :
  forallb (fun r => forallb (fun g => forallb (fun b =>
    roundtrip_63 r g b) u8s_63) u8s_63) u8s_63 = true.
Proof. vm_cast_no_check (eq_refl true). Qed.

Lemma to_u8_63_eq (d : float) : F.to_u8 d = outcome_map to_Z (to_u8_63 d).
Proof. unfold F.to_u8, to_u8_63. destruct (_ && _); reflexivity. Qed.

Lemma hueToRgb_63_eq (p q t : float) :
  hueToRgb p q t = outcome_map to_Z (hueToRgb_63 p q t).
Proof.
  unfold hueToRgb, hueToRgb_63.
  repeat match goal with
         | |- context [if ?b then _ else _] => destruct b
         end; apply to_u8_63_eq.
Qed.

Lemma hslToRgb_63_eq (hsl : HSL) :
  hslToRgb hsl
  = outcome_map (fun '(r, g, b) => (to_Z r, to_Z g, to_Z b)) (hslToRgb_63 hsl).
Proof.
  unfold hslToRgb, hslToRgb_63. destruct (hsl_s hsl =? 0).
  - rewrite to_u8_63_eq. destruct (to_u8_63 _); reflexivity.
  - rewrite !hueToRgb_63_eq.
    destruct (hueToRgb_63 _ _ (_ + _)); try reflexivity. cbn.
    destruct (hueToRgb_63 _ _ (hsl_h hsl / 360)); try reflexivity. cbn.
    destruct (hueToRgb_63 _ _ (_ - _)); reflexivity.
Qed.

Lemma of_int_u8 (c : Z) : u8 c -> F.of_int c = of_uint63 (of_Z c).
Proof.
  intros [H _]. unfold F.of_int.
  replace (c <? 0)%Z with false by (symmetry; apply Z.ltb_ge; lia). reflexivity.
Qed.

Lemma rgbToHsl_63_eq (r g b : Z) :
  u8 r -> u8 g -> u8 b -> rgbToHsl r g b = rgbToHsl_63 (of_Z r) (of_Z g) (of_Z b).
Proof.
  intros Hr Hg Hb. unfold rgbToHsl, rgbToHsl_63.
  rewrite !of_int_u8 by assumption. reflexivity.
Qed.

Lemma to_Z_of_u8 (c : Z) : u8 c -> to_Z (of_Z c) = c.
Proof.
  intros [H0 H1]. rewrite Uint63.of_Z_spec. apply Z.mod_small.
  rewrite B64.wB_value. lia.
Qed.

Lemma near_63_spec (c : Z) (x : int) :
  u8 c -> near_63 (of_Z c) x = true -> Z.abs (to_Z x - c) <= 1.
Proof.
  intros Hc H. unfold near_63 in H. apply andb_true_iff in H. destruct H as [H1 H2].
  apply Uint63.leb_spec in H1, H2.
  rewrite Uint63.add_spec in H1, H2. rewrite (to_Z_of_u8 c Hc) in *.
  change (to_Z 1) with 1%Z in *.
  destruct Hc as [Hc0 Hc1]. pose proof (Uint63.to_Z_bounded x) as Hx.
  rewrite B64.wB_value in *.
  rewrite (Z.mod_small (c + 1)) in H2 by lia.
  rewrite (Z.mod_small (to_Z x + 1)) in H1 by lia. lia.
Qed.

Lemma u8s_63_In (c : Z) : u8 c -> In (of_Z c) u8s_63.
Proof.
  intros Hc. assert (Hs : u8s_63 = map of_Z u8s) by (vm_compute; reflexivity).
  rewrite Hs. apply in_map, u8_In, Hc.
Qed.
End RoundTrip.

(** C3. Converting a colour of bytes to HSL and back is defined and moves each
    channel by at most 1. *)
Theorem hsl_roundtrip_within_1 (r g b : Z) :
  u8 r -> u8 g -> u8 b ->
  exists r' g' b',
    hslToRgb (rgbToHsl r g b) = Done (r', g', b') /\
    Z.abs (r' - r) <= 1 /\ Z.abs (g' - g) <= 1 /\ Z.abs (b' - b) <= 1.
Proof.
  intros Hr Hg Hb.
  pose proof roundtrip_63_all as H.
  rewrite forallb_forall in H. specialize (H _ (u8s_63_In r Hr)).
  rewrite forallb_forall in H. specialize (H _ (u8s_63_In g Hg)).
  rewrite forallb_forall in H. specialize (H _ (u8s_63_In b Hb)).
  unfold roundtrip_63 in H.
  rewrite rgbToHsl_63_eq, hslToRgb_63_eq by assumption.
  destruct (hslToRgb_63 _) as [[[r' g'] b']| |]; try discriminate.
  apply andb_true_iff in H. destruct H as [H Hb'].
  apply andb_true_iff in H. destruct H as [Hr' Hg'].
  exists (to_Z r'), (to_Z g'), (to_Z b'). split; [reflexivity|].
  auto using near_63_spec.
Qed.

Lemma hsl_roundtrip_within_1_witness :
  exists r' g' b',
    hslToRgb (rgbToHsl 10 200 30) = Done (r', g', b') /\
    Z.abs (r' - 10) <= 1 /\ Z.abs (g' - 200) <= 1 /\ Z.abs (b' - 30) <= 1.
Proof.
  apply (hsl_roundtrip_within_1 10 200 30); unfold u8; lia.
Defined.

(** ** Sobel edge detection *)

Section Sobel.
Variables (inputData : raster) (width height : Z).
Hypothesis Hin : raster_ok inputData width height.
Hypothesis Hw : 1 <= width.
Hypothesis Hh : 1 <= height.

Lemma load_inside (i : Z) :
  0 <= i < 4 * (width * height) -> exists b, load inputData i = Done b /\ u8 b.
Proof.
  intros Hi. destruct Hin as (_ & _ & Hlen & _ & Hu).
  destruct (lookup_lt_is_Some_2 inputData (Z.to_nat i)) as [b Hb]; [lia|].
  exists b. split.
  - apply load_Done. split; [lia | assumption].
  - rewrite Forall_lookup in Hu. eapply Hu, Hb.
Qed.

Lemma sobel_sums_total (x y : Z) :
  1 <= x <= width - 2 -> 1 <= y <= height - 2 ->
  exists sums, sobel_sums inputData width x y = Done sums.
Proof.
  intros Hx Hy. unfold sobel_sums.
  destruct (for_range_inv (fun _ _ => True) (-1) 2
              (fun ky sums =>
                 for_range (-1) 2 (fun kx '(sumX, sumY) =>
                   let pixelPtr := (((y + ky) * width + (x + kx)) * 4)%Z in
                   p0 ← load inputData pixelPtr;
                   p1 ← load inputData (pixelPtr + 1);
                   p2 ← load inputData (pixelPtr + 2);
                   intensity ← luma p0 p1 p2;
                   Done ((sumX + F.of_int (at2 gx (ky + 1) (kx + 1) * intensity))%float,
                         (sumY + F.of_int (at2 gy (ky + 1) (kx + 1) * intensity))%float))
                   sums) (0%float, 0%float) ltac:(lia) I) as (t & Ht & _).
  - intros ky sums Hky _.
    destruct (for_range_inv (fun _ _ => True) (-1) 2
                (fun kx '(sumX, sumY) =>
                   let pixelPtr := (((y + ky) * width + (x + kx)) * 4)%Z in
                   p0 ← load inputData pixelPtr;
                   p1 ← load inputData (pixelPtr + 1);
                   p2 ← load inputData (pixelPtr + 2);
                   intensity ← luma p0 p1 p2;
                   Done ((sumX + F.of_int (at2 gx (ky + 1) (kx + 1) * intensity))%float,
                         (sumY + F.of_int (at2 gy (ky + 1) (kx + 1) * intensity))%float))
                sums ltac:(lia) I) as (t & Ht & _).
    + intros kx [sumX sumY] Hkx _. cbv zeta.
      assert (Hp : 0 <= (y + ky) * width + (x + kx) < width * height) by nia.
      destruct (load_inside (((y + ky) * width + (x + kx)) * 4) ltac:(lia))
        as (p0 & -> & H0).
      destruct (load_inside (((y + ky) * width + (x + kx)) * 4 + 1) ltac:(lia))
        as (p1 & -> & H1).
      destruct (load_inside (((y + ky) * width + (x + kx)) * 4 + 2) ltac:(lia))
        as (p2 & -> & H2).
      cbn [mbind outcome_bind].
      destruct (luma_total p0 p1 p2 H0 H1 H2) as (i & -> & _).
      cbn [mbind outcome_bind]. eexists. split; [reflexivity | exact I].
    + exists t. split; [exact Ht | exact I].
  - exists t. exact Ht.
Qed.

Lemma edge_val_interior (x y : Z) :
  1 <= x <= width - 2 -> 1 <= y <= height - 2 ->
  exists edge alpha, edge_val inputData width x y = Some (edge, edge, edge, alpha).
Proof.
  intros Hx Hy. unfold edge_val.
  destruct (sobel_sums_total x y Hx Hy) as ([sumX sumY] & ->).
  destruct (B64.min255_sqrt_byte (sumX * sumX + sumY * sumY)) as (edge & -> & _).
  destruct (load_inside ((y * width + x) * 4 + 3) ltac:(nia)) as (alpha & -> & _).
  eauto.
Qed.

Lemma sobel_cell_writes (x y : Z) (out : raster) :
  1 <= x < width - 1 -> 1 <= y < height - 1 ->
  sobel_cell inputData width x y out
  = match edge_val inputData width x y with
    | Some v => store_pixel out (y * width + x) v
    | None => Done out
    end.
Proof.
  intros Hx Hy. unfold sobel_cell, edge_val.
  destruct (sobel_sums_total x y ltac:(lia) ltac:(lia)) as ([sumX sumY] & ->).
  cbn [mbind outcome_bind].
  destruct (B64.min255_sqrt_byte (sumX * sumX + sumY * sumY)) as (edge & -> & _).
  destruct (load_inside ((y * width + x) * 4 + 3) ltac:(nia)) as (alpha & -> & _).
  reflexivity.
Qed.

Lemma border_cell_writes (x y : Z) (out : raster) :
  border_cell width height x y out
  = match border_val width height x y with
    | Some v => store_pixel out (y * width + x) v
    | None => Done out
    end.
Proof.
  unfold border_cell, border_val. destruct (_ || _); reflexivity.
Qed.

(** The kernel's output, whatever the output raster held before. *)
Lemma sobel_painted (outputData : raster) :
  Z.of_nat (length outputData) = 4 * (width * height) ->
  sobelEdgeDetection inputData outputData width height
  = Done (painted (sobel_image inputData width height) outputData).
Proof.
  intros Hlen. unfold sobelEdgeDetection, sobel_interior, sobel_border, sobel_image.
  rewrite <- (painted_nothing outputData) at 1.
  rewrite (rect_loop_any width (4 * (width * height)) (edge_val inputData width)
             (fun y x out => sobel_cell inputData width x y out) 1 (width - 1) 1 (height - 1));
    try lia; try nia.
  - cbn [mbind outcome_bind].
    rewrite (rect_loop_any width (4 * (width * height)) (border_val width height)
               (fun y x out => border_cell width height x y out) 0 width 0 height);
      try lia; try nia.
    + reflexivity.
    + intros x y out _ _ _. apply border_cell_writes.
  - intros x y out Hx Hy _. apply sobel_cell_writes; lia.
Qed.
End Sobel.

Section SobelImage.
Variables (inputData : raster) (width height : Z).
Hypothesis Hin : raster_ok inputData width height.
Hypothesis Hw : 1 <= width.
Hypothesis Hh : 1 <= height.

Lemma sobel_image_border (x y : Z) :
  0 <= x < width -> 0 <= y < height ->
  x = 0 \/ x = width - 1 \/ y = 0 \/ y = height - 1 ->
  sobel_image inputData width height (y * width + x) = Some (0, 0, 0, 255).
Proof.
  intros Hx Hy Hb. unfold sobel_image, overlay at 1.
  destruct (cell_of_index width ltac:(lia) x y ltac:(lia)) as [-> ->].
  replace (in_rect 0 width 0 height x y) with true
    by (symmetry; unfold in_rect; repeat (apply andb_true_iff; split);
        (apply Z.leb_le || apply Z.ltb_lt); lia).
  cbn [orb]. unfold border_val.
  replace ((y =? 0) || (y =? height - 1) || (x =? 0) || (x =? width - 1)) with true;
    [reflexivity|].
  symmetry. rewrite !orb_true_iff, !Z.eqb_eq. tauto.
Qed.

Lemma sobel_image_total (p : Z) :
  0 <= p < width * height -> sobel_image inputData width height p <> None.
Proof.
  intros Hp.
  assert (Hx : 0 <= p mod width < width) by (apply Z.mod_pos_bound; lia).
  assert (Hy : 0 <= p / width < height).
  { split; [apply Z.div_pos; lia|]. apply Z.div_lt_upper_bound; lia. }
  unfold sobel_image, overlay at 1.
  replace (in_rect 0 width 0 height (p mod width) (p / width)) with true
    by (symmetry; unfold in_rect; repeat (apply andb_true_iff; split);
        (apply Z.leb_le || apply Z.ltb_lt); lia).
  cbn [orb]. unfold border_val.
  destruct ((p / width =? 0) || (p / width =? height - 1) || (p mod width =? 0)
            || (p mod width =? width - 1)) eqn:Hb; [discriminate|].
  rewrite !orb_false_iff, !Z.eqb_neq in Hb. destruct Hb as [[[Hb1 Hb2] Hb3] Hb4].
  unfold overlay.
  replace (in_rect 1 (width - 1) 1 (height - 1) (p mod width) (p / width)) with true
    by (symmetry; unfold in_rect; repeat (apply andb_true_iff; split);
        (apply Z.leb_le || apply Z.ltb_lt); lia).
  cbn [orb].
  assert (He : exists e a, edge_val inputData width (p mod width) (p / width)
                            = Some (e, e, e, a))
    by (apply edge_val_interior with (height := height); assumption || lia).
  destruct He as (e & a & ->). discriminate.
Qed.
End SobelImage.

(** C4. On a raster of at least 1 x 1 pixels [sobelEdgeDetection] returns;
    every border pixel of its output is (0, 0, 0, 255); and the output is the
    same whatever the output raster held before the call: the two passes
    write every pixel, at every size (below 3 x 3 every pixel is a border
    pixel). *)
Theorem sobel_border_and_coverage (inputData outputData : raster) (width height : Z) :
  1 <= width -> 1 <= height ->
  raster_ok inputData width height ->
  Z.of_nat (length outputData) = 4 * (width * height) ->
  exists out,
    sobelEdgeDetection inputData outputData width height = Done out /\
    length out = length outputData /\
    (forall x y, 0 <= x < width -> 0 <= y < height ->
       x = 0 \/ x = width - 1 \/ y = 0 \/ y = height - 1 ->
       pixel_at out (Z.to_nat (y * width + x)) = Some (0, 0, 0, 255)) /\
    (forall other, length other = length outputData ->
       sobelEdgeDetection inputData other width height = Done out).
Proof.
  intros Hw Hh Hin Hlen.
  exists (painted (sobel_image inputData width height) outputData).
  split; [apply sobel_painted; assumption|].
  split; [apply painted_length|]. split.
  - intros x y Hx Hy Hb. apply painted_pixel.
    + rewrite Z2Nat.id by nia. apply sobel_image_border; assumption.
    + nia.
  - intros other Hother. rewrite sobel_painted by (assumption || lia).
    f_equal. apply painted_everywhere; [assumption|].
    intros p Hp0 Hp. apply sobel_image_total; (assumption || lia).
Qed.

Lemma sobel_border_and_coverage_witness :
  exists out,
    sobelEdgeDetection ramp_3x3 gray_3x3 3 3 = Done out /\
    length out = length gray_3x3 /\
    (forall x y, 0 <= x < 3 -> 0 <= y < 3 ->
       x = 0 \/ x = 3 - 1 \/ y = 0 \/ y = 3 - 1 ->
       pixel_at out (Z.to_nat (y * 3 + x)) = Some (0, 0, 0, 255)) /\
    (forall other, length other = length gray_3x3 ->
       sobelEdgeDetection ramp_3x3 other 3 3 = Done out).
Proof.
  apply (sobel_border_and_coverage ramp_3x3 gray_3x3 3 3);
    [lia | lia | exact ramp_3x3_ok | reflexivity].
Defined.

(** ** The sampler on rasters of at least 2 x 2 pixels *)

Module Corners.
Import B64 Rounding Magnitude.

(** The bound [width - 1.001] of the clamp lies strictly between
    [width - 2] and [width - 1]. *)
Lemma bound_window (w : Z) :
  2 <= w < 2 ^ 31 ->
  exists m e, Prim2SF (F.of_int w - 1.001)%float = finite false m e /\
              2 ^ 52 <= Zpos m /\ e < 0 /\
              (w - 2) * 2 ^ (- e) < Zpos m < (w - 1) * 2 ^ (- e).
Proof.
  intros Hw.
  assert (Hw53 : 0 < w < 2 ^ 53)
    by (split; [lia|]; eapply Z.lt_le_trans; [apply Hw|]; apply Z.pow_le_mono_r; lia).
  destruct (of_int_pos w Hw53) as (mw & ew & Hmw & Hdw & Hew & Hvw).
  assert (Hval : exists m e, Prim2SF (F.of_int w - 1.001)%float = finite false m e /\
                   2 ^ 52 <= Zpos m /\ -53 <= e /\
                   (w - 2) * 2 ^ 53 < Zpos m * 2 ^ (e + 53) < (w - 1) * 2 ^ 53).
  { rewrite FloatAxioms.sub_spec, Hmw, prim_1001. unfold SF64sub, SFsub.
    replace (Z.min ew (-52)) with (-52) by lia.
    rewrite !shl_align_value by lia. cbn [cond_Zopp].
    replace (-52 - -52) with 0 by lia. rewrite Z.mul_1_r.
    replace (ew - -52) with (52 - - ew) by lia.
    assert (Hpw : 0 < 2 ^ (- ew)) by (apply Z.pow_pos_nonneg; lia).
    assert (EM : Zpos mw * 2 ^ (52 - - ew) = w * 2 ^ 52).
    { rewrite <- Hvw, <- Z.mul_assoc, <- Z.pow_add_r by lia. f_equal. f_equal. lia. }
    rewrite EM. clear EM Hvw Hmw Hdw.
    change (2 ^ 31) with 2147483648 in Hw.
    change (2 ^ 52) with 4503599627370496.
    destruct (w * 4503599627370496 - 4508103226997866) as [|pM|pM] eqn:HM; try lia.
    cbn [binary_normalize].
    set (d := Zpos (digits2_pos pM)).
    pose proof (digits_bounds pM) as [L U]. fold d in L, U.
    assert (Hd52 : 52 <= d).
    { destruct (Z_le_gt_dec 52 d) as [|Hlt]; [assumption|].
      assert (2 ^ d <= 2 ^ 51) by (apply Z.pow_le_mono_r; lia).
      change (2 ^ 51) with 2251799813685248 in *. lia. }
    assert (Hd83 : d <= 83).
    { destruct (Z_le_gt_dec d 83) as [|Hgt]; [assumption|].
      assert (2 ^ 83 <= 2 ^ (d - 1)) by (apply Z.pow_le_mono_r; lia).
      change (2 ^ 83) with 9671406556917033397649408 in *. lia. }
    destruct (Z_le_gt_dec d 53) as [Hshort|Hlong].
    - rewrite binary_round_short by (fold d; lia). fold d.
      destruct (digits_align pM Hshort) as [Hdig Hv]. fold d in Hdig, Hv.
      eexists _, _. split; [reflexivity|].
      pose proof (digits_bounds (Z.to_pos (Zpos pM * 2 ^ (53 - d)))) as [L' _].
      rewrite Hdig in L'. change (2 ^ (53 - 1)) with 4503599627370496 in L'.
      split; [exact L'|]. split; [lia|].
      rewrite Hv. rewrite <- Z.mul_assoc, <- Z.pow_add_r by lia.
      replace (53 - d + (d + -52 - 53 + 53)) with 1 by lia.
      change (2 ^ 53) with 9007199254740992. change (2 ^ 1) with 2. lia.
    - unfold binary_round. fold d.
      assert (Hf : fexp prec emax (d + -52) = d - 105)
        by (unfold fexp, SpecFloat.emin, prec, emax; lia).
      rewrite Hf.
      assert (Hs : shl_align pM (-52) (d - 105) = (pM, -52)).
      { unfold shl_align. destruct (d - 105 - -52) as [|k|k] eqn:Hk; try lia; reflexivity. }
      rewrite Hs.
      destruct (BRA_normal false pM (-52) loc_Exact) as (m & e & Hr & Hdig & He & Hv);
        [fold d; lia | fold d; lia |].
      fold d in He, Hv.
      exists m, e. split; [exact Hr|].
      pose proof (digits_bounds m) as [L' _].
      rewrite Hdig in L'. change (2 ^ (53 - 1)) with 4503599627370496 in L'.
      split; [exact L'|]. split; [lia|].
      set (k := d - 53) in *. set (q := Zpos pM / 2 ^ k) in *.
      assert (Hpk : 0 < 2 ^ k) by (apply Z.pow_pos_nonneg; unfold k; lia).
      assert (Hk30 : 2 ^ k <= 2 ^ 30) by (apply Z.pow_le_mono_r; unfold k; lia).
      change (2 ^ 30) with 1073741824 in Hk30.
      assert (E52 : 2 ^ (52 - k) * 2 ^ k = 4503599627370496).
      { rewrite <- Z.pow_add_r by (unfold k; lia).
        replace (52 - k + k) with 52 by lia. reflexivity. }
      assert (Hq : (w - 2) * 2 ^ (52 - k) + 1 <= q).
      { unfold q. apply Z.div_le_lower_bound; [assumption|]. nia. }
      assert (Hq' : q * 2 ^ k <= Zpos pM).
      { unfold q. rewrite Z.mul_comm. apply Z.mul_div_le. assumption. }
      assert (E : Zpos m * 2 ^ (e + 53)
                  = Zpos m * 2 ^ (e - (d + -52 - 53)) * (2 * 2 ^ k)).
      { rewrite <- (Z.pow_succ_r 2 k) by (unfold k; lia).
        rewrite <- Z.mul_assoc, <- Z.pow_add_r by (unfold k; lia).
        f_equal. f_equal. unfold k. lia. }
      rewrite E. change (2 ^ 53) with 9007199254740992.
      assert ((w - 2) * 4503599627370496 + 2 ^ k <= q * 2 ^ k) by nia.
      split; [nia|].
      assert (Zpos m * 2 ^ (e - (d + -52 - 53)) <= q + 1) by lia.
      nia. }
  destruct Hval as (m & e & Hr & Hm & He & Hlo & Hhi).
  exists m, e. split; [exact Hr|]. split; [exact Hm|].
  assert (Hneg : e < 0).
  { destruct (Z_lt_le_dec e 0) as [|Hge]; [assumption|]. exfalso.
    assert (2 ^ 53 <= 2 ^ (e + 53)) by (apply Z.pow_le_mono_r; lia).
    change (2 ^ 31) with 2147483648 in Hw. change (2 ^ 52) with 4503599627370496 in Hm.
    change (2 ^ 53) with 9007199254740992 in *. nia. }
  split; [exact Hneg|].
  assert (Hp : 0 < 2 ^ (- e)) by (apply Z.pow_pos_nonneg; lia).
  assert (E : 2 ^ 53 = 2 ^ (e + 53) * 2 ^ (- e))
    by (rewrite <- Z.pow_add_r by lia; f_equal; lia).
  assert (Hp2 : 0 < 2 ^ (e + 53)) by (apply Z.pow_pos_nonneg; lia).
  rewrite E in Hlo, Hhi. split; nia.
Qed.

(** A positive double below [N] converts to an [int] below [N]. *)
Lemma to_int_below (c : float) (m : positive) (e N : Z) :
  Prim2SF c = finite false m e -> e < 0 -> Zpos m < N * 2 ^ (- e) ->
  N <= 2 ^ 31 ->
  exists z, F.to_int c = Done z /\ 0 <= z < N.
Proof.
  intros Hc He Hm HN.
  assert (Hp : 0 < 2 ^ (- e)) by (apply Z.pow_pos_nonneg; lia).
  exists (Zpos m / 2 ^ (- e)).
  assert (Hz : 0 <= Zpos m / 2 ^ (- e) < N).
  { split; [apply Z.div_pos; lia|]. apply Z.div_lt_upper_bound; [assumption|]. lia. }
  split; [|exact Hz].
  rewrite to_int_correct. unfold trunc. rewrite Hc.
  replace (0 <=? e) with false by (symmetry; apply Z.leb_gt; lia).
  cbn [in_range]. change (2 ^ 31) with 2147483648 in HN.
  replace (-2147483648 <=? Zpos m / 2 ^ (- e)) with true by (symmetry; apply Z.leb_le; lia).
  replace (Zpos m / 2 ^ (- e) <? 2147483648) with true by (symmetry; apply Z.ltb_lt; lia).
  reflexivity.
Qed.

(** Whatever the coordinate, the clamped coordinate converts to a cell that
    has a neighbour on its right. *)
Lemma clamp_coord_cell (w : Z) (u : float) :
  2 <= w < 2 ^ 31 ->
  exists x, F.to_int (clamp_coord w u) = Done x /\ 0 <= x <= w - 2.
Proof.
  intros Hw. destruct (bound_window w Hw) as (m & e & HW & Hm52 & He & Hlo & Hhi).
  assert (Hbound : exists x, F.to_int (F.of_int w - 1.001)%float = Done x /\ 0 <= x <= w - 2).
  { destruct (to_int_below _ m e (w - 1) HW He Hhi ltac:(lia)) as (z & Hz & Hr).
    exists z. split; [exact Hz | lia]. }
  assert (Hzero : exists x, F.to_int 0%float = Done x /\ 0 <= x <= w - 2)
    by (exists 0; split; [reflexivity | lia]).
  assert (HposW : (0 <? F.of_int w - 1.001)%float = true)
    by (rewrite FloatAxioms.ltb_spec, HW, prim_0; reflexivity).
  unfold clamp_coord, F.min, F.max.
  destruct (u <? F.of_int w - 1.001)%float eqn:Hlt.
  - destruct (0 <? u)%float eqn:Hpos; [|exact Hzero].
    rewrite FloatAxioms.ltb_spec in Hlt, Hpos. rewrite HW in Hlt. rewrite prim_0 in Hpos.
    destruct (Prim2SF u) as [s|s| |s mu eu] eqn:Hu; try discriminate.
    + destruct s; discriminate.
    + destruct s; [discriminate|].
      destruct (valid_finite _ _ _ _ Hu) as (_ & [_ Hmu] & _).
      rewrite SFltb_pos in Hlt.
      assert (Hcmp : eu < e \/ (eu = e /\ Zpos mu < Zpos m)).
      { destruct (Z.ltb_spec eu e); [left; assumption|]. right.
        cbn [orb] in Hlt. apply andb_true_iff in Hlt. destruct Hlt as [H1 H2].
        apply Z.eqb_eq in H1. apply Z.ltb_lt in H2. auto. }
      assert (Hmu' : Zpos mu < (w - 1) * 2 ^ (- eu)).
      { destruct Hcmp as [Hlt'|[-> Hlt']]; [|lia].
        assert (E : 2 ^ (- eu) = 2 ^ (e - eu) * 2 ^ (- e))
          by (rewrite <- Z.pow_add_r by lia; f_equal; lia).
        assert (2 ^ 1 <= 2 ^ (e - eu)) by (apply Z.pow_le_mono_r; lia).
        assert (Hp : 0 < 2 ^ (- e)) by (apply Z.pow_pos_nonneg; lia).
        change (2 ^ 1) with 2 in *. change (2 ^ 52) with 4503599627370496 in *.
        change (2 ^ 53) with 9007199254740992 in *. rewrite E. nia. }
      destruct (to_int_below u mu eu (w - 1) Hu ltac:(lia) Hmu' ltac:(lia)) as (z & Hz & Hr).
      exists z. split; [exact Hz | lia].
  - rewrite HposW. exact Hbound.
Qed.

End Corners.

(** The blend of four bytes stays in the range of the cast to [uint8_t]. *)
Module SamplerTotal.
Import B64 Rounding Magnitude Accuracy Accuracy2 AccuracyQ Order Values Blend.

Lemma trunc_scaled (c : float) (x : Z) :
  nonneg_finite c -> trunc c = Some x ->
  x * 2 ^ 1074 <= sc c < (x + 1) * 2 ^ 1074.
Proof.
  unfold trunc, sc. intros [Hc|(m & e & Hc)]; rewrite Hc.
  - intros [= <-]. cbn. lia.
  - destruct (valid_finite _ _ _ _ Hc) as (He & Hm & _).
    intros [= <-]. cbn [scaled cond_Zopp].
    assert (HT : 0 < 2 ^ 1074) by (apply Z.pow_pos_nonneg; lia).
    destruct (Z.leb_spec 0 e) as [Hpos|Hneg].
    + replace (e + 1074) with (e + 1074)%Z by reflexivity.
      rewrite (Z.pow_add_r 2 e 1074) by lia. nia.
    + assert (Hp : 0 < 2 ^ (- e)) by (apply Z.pow_pos_nonneg; lia).
      assert (Hq : 0 < 2 ^ (e + 1074)) by (apply Z.pow_pos_nonneg; lia).
      assert (E : 2 ^ 1074 = 2 ^ (- e) * 2 ^ (e + 1074))
        by (rewrite <- Z.pow_add_r by lia; f_equal; lia).
      pose proof (Z.mul_div_le (Zpos m) (2 ^ (- e)) Hp).
      pose proof (Z.mul_succ_div_gt (Zpos m) (2 ^ (- e)) Hp).
      rewrite E. generalize dependent (Zpos m / 2 ^ (- e)). intros q H1 H2.
      generalize dependent (2 ^ (- e)). generalize dependent (2 ^ (e + 1074)).
      intros A HA B HB _ H1 H2. nia.
Qed.

Lemma trunc_val (c : float) (x : Z) :
  nonneg_finite c -> trunc c = Some x ->
  (inject_Z x <= val c < inject_Z x + 1)%Q.
Proof.
  intros Hc Ht. destruct (trunc_scaled c x Hc Ht) as [H1 H2].
  rewrite Zle_Qle in H1. rewrite Zlt_Qlt in H2.
  rewrite inject_Z_mult in H1, H2. rewrite inject_Z_plus in H2.
  pose proof t_pos as Ht0. pose proof (val_scaled c) as Hv.
  rewrite <- Hv in H1, H2. change (inject_Z 1) with 1%Q in H2.
  generalize dependent (inject_Z (2 ^ 1074)). intros t H1 H2 Ht0 _.
  generalize dependent (val c). intros v H1 H2.
  split; nra.
Qed.

Section Coord.
#[local] Open Scope float_scope.

Lemma clamp_coord_nonneg (w : Z) (u : float) :
  (2 <= w < 2 ^ 31)%Z -> nonneg_finite (clamp_coord w u).
Proof.
  intros Hw. destruct (Corners.bound_window w Hw) as (m & e & HW & _).
  unfold clamp_coord, F.min, F.max.
  destruct (u <? F.of_int w - 1.001) eqn:Hlt.
  - destruct (0 <? u) eqn:Hpos; [|left; reflexivity].
    rewrite FloatAxioms.ltb_spec in Hlt, Hpos. rewrite HW in Hlt. rewrite prim_0 in Hpos.
    destruct (Prim2SF u) as [s|s| |s mu eu] eqn:Hu; try discriminate;
      destruct s; try discriminate.
    right. eauto.
  - replace (0 <? F.of_int w - 1.001) with true
      by (symmetry; rewrite FloatAxioms.ltb_spec, HW, prim_0; reflexivity).
    right. eauto.
Qed.

Lemma nonneg_finite_fin (a : float) : nonneg_finite a -> fin a.
Proof. unfold fin. intros [->|(m & e & ->)]; exact I. Qed.

(** The ratio of a clamped coordinate: its distance to the cell it is in. *)
Lemma cell_ratio_spec (w : Z) (u : float) :
  (2 <= w < 2 ^ 31)%Z ->
  exists x, F.to_int (clamp_coord w u) = Done x /\ (0 <= x <= w - 2)%Z /\
            fin (clamp_coord w u - F.of_int x) /\
            (- u52 <= val (clamp_coord w u - F.of_int x) <= 1 + u52)%Q.
Proof.
  intros Hw. destruct (Corners.clamp_coord_cell w u Hw) as (x & Hx & Hr).
  exists x. split; [exact Hx|]. split; [exact Hr|].
  pose proof (clamp_coord_nonneg w u Hw) as Hn.
  assert (Ht : trunc (clamp_coord w u) = Some x).
  { rewrite to_int_correct in Hx. apply in_range_Done in Hx. apply Hx. }
  destruct (trunc_val _ _ Hn Ht) as [H1 H2].
  destruct (of_int_val x) as [Fx Vx].
  { split; [lia|]. apply Z.lt_le_trans with (2 ^ 31)%Z; [lia|]. apply Z.pow_le_mono_r; lia. }
  destruct (sub_Q (clamp_coord w u) (F.of_int x) 1 (nonneg_finite_fin _ Hn) Fx) as [F H];
    [rewrite Vx; lra | apply cap_small; lra |].
  split; [exact F|]. rewrite Vx in H. lra.
Qed.

Lemma blend_total (src : raster) (ptr1 ptr2 ptr3 ptr4 c : Z) (ur vr : float) :
  (exists p, load src (ptr1 + c) = Done p /\ u8 p) ->
  (exists p, load src (ptr2 + c) = Done p /\ u8 p) ->
  (exists p, load src (ptr3 + c) = Done p /\ u8 p) ->
  (exists p, load src (ptr4 + c) = Done p /\ u8 p) ->
  fin ur -> (- u52 <= val ur <= 1 + u52)%Q ->
  fin vr -> (- u52 <= val vr <= 1 + u52)%Q ->
  exists z, blend src (ptr1, ptr2, ptr3, ptr4) ur vr c = Done z /\ u8 z.
Proof.
  intros (p1 & L1 & U1) (p2 & L2 & U2) (p3 & L3 & U3) (p4 & L4 & U4) Fu Hu Fv Hv.
  unfold blend. rewrite L1, L2, L3, L4. cbn [mbind outcome_bind].
  assert (Hop : forall r, fin r -> (- u52 <= val r <= 1 + u52)%Q ->
            fin (1 - r) /\ (- (4 # 1) * u52 <= val (1 - r))%Q /\
            (- (4 # 1) * u52 <= val r)%Q /\
            (val (1 - r) + val r <= 1 + (4 # 1) * u52)%Q).
  { intros r Fr Hr.
    destruct (sub_Q 1 r 2 I Fr) as [F H];
      [rewrite val_1; unfold u52 in *; lra | apply cap_small; lra |].
    rewrite val_1 in H. unfold u52 in *. split; [exact F|]. lra. }
  destruct (Hop ur Fu Hu) as (Fuo & Huo & Hur & Hus).
  destruct (Hop vr Fv Hv) as (Fvo & Hvo & Hvr & Hvs).
  assert (Hbyte : forall p, u8 p -> fin (F.of_int p) /\ (- 0 <= val (F.of_int p) <= 255 + 0)%Q).
  { intros p Hp. unfold u8 in Hp. destruct (of_int_val p) as [F V].
    - change (2 ^ 53)%Z with 9007199254740992%Z. lia.
    - split; [exact F|]. rewrite V.
      assert (H0 : (0 <= p)%Z) by lia. assert (H255 : (p <= 255)%Z) by lia.
      rewrite Zle_Qle in H0, H255. change (inject_Z 0) with 0%Q in H0.
      change (inject_Z 255) with 255%Q in H255. lra. }
  destruct (Hbyte p1 U1) as [F1 V1]. destruct (Hbyte p2 U2) as [F2 V2].
  destruct (Hbyte p3 U3) as [F3 V3]. destruct (Hbyte p4 U4) as [F4 V4].
  destruct (mix (F.of_int p1) (F.of_int p2) (1 - ur) ur 0 F1 F2 Fuo Fu)
    as [Fa Ha]; try assumption; try lra.
  destruct (mix (F.of_int p3) (F.of_int p4) (1 - ur) ur 0 F3 F4 Fuo Fu)
    as [Fb Hb]; try assumption; try lra.
  destruct (mix _ _ (1 - vr) vr (0 + (1 # 274877906944)) Fa Fb Fvo Fv)
    as [Fc Hc]; try assumption; try lra.
  apply to_u8_Q; [exact Fc | lra | lra].
Qed.
End Coord.

(** On a raster of at least 2 x 2 pixels the sampler returns, whatever the
    coordinate. *)
Lemma sampleBilinear_total (src : raster) (width height : Z) (u v : float) :
  raster_ok src width height -> 2 <= width -> 2 <= height ->
  exists r g b a,
    sampleBilinear src width height u v = Done (r, g, b, a) /\
    u8 r /\ u8 g /\ u8 b /\ u8 a.
Proof.
  intros Hok Hw Hh. pose proof Hok as (Hw1 & Hh1 & Hlen & Hfit & Hu).
  unfold sampleBilinear.
  destruct (cell_ratio_spec width u ltac:(lia)) as (x & -> & Hx & Fu & Vu).
  destruct (cell_ratio_spec height v ltac:(lia)) as (y & -> & Hy & Fv & Vv).
  cbn [mbind outcome_bind]. unfold corner_offsets.
  assert (Hload : forall i, 0 <= i < 4 * (width * height) ->
                            exists b, load src i = Done b /\ u8 b)
    by (intros i Hi; eapply load_byte; eassumption).
  assert (Hp : 0 <= y * width + x /\ y * width + x + width + 1 < width * height) by nia.
  assert (Hb : forall c, 0 <= c < 4 ->
            exists z, blend src ((y * width + x) * 4, (y * width + x) * 4 + 4,
                                 (y * width + x) * 4 + width * 4,
                                 (y * width + x) * 4 + width * 4 + 4)
                        (clamp_coord width u - F.of_int x)%float
                        (clamp_coord height v - F.of_int y)%float c = Done z /\ u8 z).
  { intros c Hc. apply blend_total; try assumption; apply Hload; lia. }
  destruct (Hb 0 ltac:(lia)) as (r & -> & Ur). destruct (Hb 1 ltac:(lia)) as (g & -> & Ug).
  destruct (Hb 2 ltac:(lia)) as (b & -> & Ub). destruct (Hb 3 ltac:(lia)) as (a & -> & Ua).
  exists r, g, b, a. auto.
Qed.
End SamplerTotal.

(** ** Remap kernels *)

(** C6 refuted: with factor 0 both kernels turn the white pixel (1, 1) of a
    2 x 2 raster into (254, 254, 254, 254). *)
Lemma remap_zero_factor_differs :
  @wormholeDistortion ref_libm white_at_1_1 blank_2x2 2 2 0
  = Done [0; 0; 0; 0;  0; 0; 0; 0;  0; 0; 0; 0;  254; 254; 254; 254] /\
  @spiralDistortion ref_libm white_at_1_1 blank_2x2 2 2 0
  = Done [0; 0; 0; 0;  0; 0; 0; 0;  0; 0; 0; 0;  254; 254; 254; 254].
Proof. split; vm_compute; reflexivity. Qed.

Module RemapGeometry.
Import B64 Rounding Magnitude.

Section Geometry.
#[local] Open Scope float_scope.

Lemma nonneg_nonneg_finite (a : float) : nonneg (Prim2SF a) -> nonneg_finite a.
Proof.
  unfold nonneg_finite. destruct (Prim2SF a) as [[]|s| |[] m e]; cbn; try contradiction;
    intros _; eauto.
Qed.

Lemma max_0_nonneg (a : float) : nonneg_finite a -> F.max 0 a = a.
Proof.
  intros [Ha|(m & e & Ha)]; unfold F.max; rewrite FloatAxioms.ltb_spec, Ha, prim_0; cbn.
  - apply Prim2SF_inj. rewrite Ha. reflexivity.
  - reflexivity.
Qed.

Lemma of_int_bounded (x : Z) :
  (0 <= x < 2 ^ 31)%Z ->
  nonneg (Prim2SF (F.of_int x)) /\ bounded_by 0 (Prim2SF (F.of_int x)).
Proof.
  intros Hx. destruct (Z.eq_dec x 0%Z) as [->|Hne]; [split; exact I|].
  destruct (of_int_pos x) as (m & e & -> & _ & He & _).
  - split; [lia|]. apply Z.lt_le_trans with (2 ^ 31)%Z; [lia|]. apply Z.pow_le_mono_r; lia.
  - split; cbn; [exact I | lia].
Qed.

Lemma centre_spec (w : Z) :
  (1 <= w < 2 ^ 31)%Z ->
  above (-53) (Prim2SF (F.of_int w / 2)) /\ bounded_by (-1) (Prim2SF (F.of_int w / 2)).
Proof.
  intros Hw. destruct (of_int_pos w) as (m & e & Hm & _ & He & _).
  - split; [lia|]. apply Z.lt_le_trans with (2 ^ 31)%Z; [lia|]. apply Z.pow_le_mono_r; lia.
  - rewrite (div_two _ _ _ _ Hm) by lia. split; cbn; lia.
Qed.

Section Cell.
Variables (width height x y : Z).
Hypothesis Hw : (1 <= width < 2 ^ 31)%Z.
Hypothesis Hh : (1 <= height < 2 ^ 31)%Z.
Hypothesis Hx : (0 <= x < 2 ^ 31)%Z.
Hypothesis Hy : (0 <= y < 2 ^ 31)%Z.

Lemma maxRadius_above :
  above (-53) (Prim2SF (PrimFloat.sqrt (F.of_int width / 2 * (F.of_int width / 2)
                                        + F.of_int height / 2 * (F.of_int height / 2)))).
Proof.
  destruct (centre_spec width Hw) as [Ax Bx]. destruct (centre_spec height Hh) as [Ay By].
  pose proof (mul_self_above _ (-53) (-1) Ax Bx ltac:(lia) ltac:(lia)) as Axx.
  pose proof (mul_self_above _ (-53) (-1) Ay By ltac:(lia) ltac:(lia)) as Ayy.
  destruct (mul_self_bounded _ (-1) Bx ltac:(lia) ltac:(lia)) as [_ Bxx].
  destruct (mul_self_bounded _ (-1) By ltac:(lia) ltac:(lia)) as [_ Byy].
  pose proof (add_above _ _ _ _ Axx Ayy Bxx Byy ltac:(lia) ltac:(lia)) as As.
  apply (sqrt_above _ _ As). lia.
Qed.

Lemma offset_bounded (w c : Z) :
  (1 <= w < 2 ^ 31)%Z -> (0 <= c < 2 ^ 31)%Z ->
  bounded_by 2 (Prim2SF (F.of_int c - F.of_int w / 2)).
Proof.
  intros Hw' Hc. destruct (of_int_bounded c Hc) as [_ Bc].
  destruct (centre_spec w Hw') as [_ Bw].
  apply (sub_bounded _ _ 0); try lia; [exact Bc|].
  eapply bounded_by_le; [exact Bw | lia].
Qed.

Lemma radius_spec :
  let dx := F.of_int x - F.of_int width / 2 in
  let dy := F.of_int y - F.of_int height / 2 in
  nonneg (Prim2SF (PrimFloat.sqrt (dx * dx + dy * dy))) /\
  bounded_by 114 (Prim2SF (PrimFloat.sqrt (dx * dx + dy * dy))).
Proof.
  intros dx dy.
  pose proof (offset_bounded width x Hw Hx) as Bx. fold dx in Bx.
  pose proof (offset_bounded height y Hh Hy) as By. fold dy in By.
  destruct (mul_self_bounded dx 2 Bx ltac:(lia) ltac:(lia)) as [Nxx Bxx].
  destruct (mul_self_bounded dy 2 By ltac:(lia) ltac:(lia)) as [Nyy Byy].
  destruct (add_nonneg_bounded _ _ 58 Nxx Nyy Bxx Byy ltac:(lia) ltac:(lia)) as [Ns Bs].
  apply (sqrt_nonneg_bounded _ 60 Ns Bs); lia.
Qed.

Lemma ratio_spec :
  let dx := F.of_int x - F.of_int width / 2 in
  let dy := F.of_int y - F.of_int height / 2 in
  let centerX := F.of_int width / 2 in
  let centerY := F.of_int height / 2 in
  nonneg_finite (PrimFloat.sqrt (dx * dx + dy * dy)
                 / PrimFloat.sqrt (centerX * centerX + centerY * centerY)).
Proof.
  intros dx dy centerX centerY. destruct radius_spec as [Nr Br].
  apply nonneg_nonneg_finite.
  apply (div_nonneg_bounded _ _ 114 (-53) Nr Br maxRadius_above); lia.
Qed.
End Cell.

Context {L : Libm}.

Lemma wormhole_source_zero (width height x y : Z) :
  (1 <= width < 2 ^ 31)%Z -> (1 <= height < 2 ^ 31)%Z ->
  (0 <= x < 2 ^ 31)%Z -> (0 <= y < 2 ^ 31)%Z ->
  let centerX := F.of_int width / 2 in
  let centerY := F.of_int height / 2 in
  wormhole_source centerX centerY (PrimFloat.sqrt (centerX * centerX + centerY * centerY))
    (F.max 0 (F.min 0.99 0)) x y
  = polar_source (fun a => a) width height x y.
Proof.
  intros Hw Hh Hx Hy centerX centerY.
  unfold wormhole_source, polar_source. fold centerX centerY.
  set (dx := F.of_int x - centerX). set (dy := F.of_int y - centerY).
  set (radius := PrimFloat.sqrt (dx * dx + dy * dy)).
  set (maxRadius := PrimFloat.sqrt (centerX * centerX + centerY * centerY)).
  replace (F.max 0 (F.min 0.99 0)) with 0 by reflexivity.
  assert (Nr : nonneg_finite radius)
    by (apply nonneg_nonneg_finite, (radius_spec width height x y Hw Hh Hx Hy)).
  assert (Nn : nonneg_finite (if radius =? 0 then 0 else radius / maxRadius)).
  { destruct (radius =? 0); [left; reflexivity|].
    apply (ratio_spec width height x y Hw Hh Hx Hy). }
  rewrite (mul_0_l _ Nn). replace (1 - 0) with 1 by reflexivity.
  rewrite mul_1_r, (max_0_nonneg _ Nr). reflexivity.
Qed.

Lemma spiral_source_zero (width height x y : Z) :
  (1 <= width < 2 ^ 31)%Z -> (1 <= height < 2 ^ 31)%Z ->
  (0 <= x < 2 ^ 31)%Z -> (0 <= y < 2 ^ 31)%Z ->
  let centerX := F.of_int width / 2 in
  let centerY := F.of_int height / 2 in
  spiral_source centerX centerY (PrimFloat.sqrt (centerX * centerX + centerY * centerY))
    0 x y
  = polar_source (fun a => a + 0) width height x y.
Proof.
  intros Hw Hh Hx Hy centerX centerY.
  subst centerX centerY. unfold spiral_source, polar_source. cbv zeta.
  rewrite (mul_0_l _ (ratio_spec width height x y Hw Hh Hx Hy)). reflexivity.
Qed.

End Geometry.
End RemapGeometry.

Module PullFacts.
Section Pull.
#[local] Open Scope float_scope.

Lemma pull_negative (pull : float) :
  (pull <? 0) = true -> F.max 0 (F.min 0.99 pull) = F.max 0 (F.min 0.99 0).
Proof.
  intros H. rewrite FloatAxioms.ltb_spec, B64.prim_0 in H.
  assert (H99 : exists m e, Prim2SF 0.99 = S754_finite false m e)
    by (vm_compute; eauto).
  destruct H99 as (m9 & e9 & H99).
  assert (Hmin : F.min 0.99 pull = pull).
  { unfold F.min. rewrite FloatAxioms.ltb_spec, H99.
    destruct (Prim2SF pull) as [s|s| |s m e]; try discriminate;
      destruct s; try discriminate; reflexivity. }
  rewrite Hmin. unfold F.max at 1. rewrite FloatAxioms.ltb_spec, B64.prim_0.
  destruct (Prim2SF pull) as [s|s| |s m e]; try discriminate;
    destruct s; try discriminate; reflexivity.
Qed.
End Pull.
End PullFacts.

Module RemapFacts.

Section Steps.
Context {S : Type}.

(** A loop that ran to its end ran each of its steps to its end. *)
Lemma for_range_Done_step (lo hi : Z) (body : Z -> S -> outcome S) (s t : S) :
  for_range lo hi body s = Done t ->
  forall i, lo <= i < hi -> exists si ti, body i si = Done ti.
Proof.
  unfold for_range. remember (Z.to_nat (hi - lo)) as n eqn:Hn.
  revert lo s Hn. induction n as [|n IH]; intros lo s Hn H i Hi; [lia|].
  cbn [for_count] in H.
  destruct (body lo s) as [s'| |] eqn:Hb; cbn [mbind outcome_bind] in H; try discriminate.
  destruct (Z.eq_dec i lo) as [->|Hne]; [eauto|].
  apply (IH (lo + 1) s' ltac:(lia) H i). lia.
Qed.
End Steps.

Section Resample.
Variables (source : Z -> Z -> float * float) (inputData : raster) (width height : Z).
Hypothesis Hw : 1 <= width.
Hypothesis Hh : 0 <= height.

Lemma write_sample_val (x y : Z) (out : raster) (v : Z * Z * Z * Z) :
  sample_val source inputData width height x y = Some v ->
  (let '(srcX, srcY) := source x y in
   write_sample inputData width height x y srcX srcY out)
  = store_pixel out (y * width + x) v.
Proof.
  unfold sample_val, write_sample. destruct (source x y) as [srcX srcY]. cbn [fst snd].
  destruct (sampleBilinear inputData width height srcX srcY) as [v'| |]; try discriminate.
  intros [= ->]. destruct v as [[[r g] b] a]. reflexivity.
Qed.

Lemma write_sample_Done (x y : Z) (out out' : raster) :
  (let '(srcX, srcY) := source x y in
   write_sample inputData width height x y srcX srcY out) = Done out' ->
  sample_val source inputData width height x y <> None.
Proof.
  unfold sample_val, write_sample. destruct (source x y) as [srcX srcY]. cbn [fst snd].
  destruct (sampleBilinear inputData width height srcX srcY) as [v'| |];
    cbn [mbind outcome_bind]; discriminate.
Qed.

(** A resampling that returns has sampled every cell, and its result is
    the output raster with every pixel replaced by the sample of its cell. *)
Lemma resample_Done (outputData out : raster) :
  Z.of_nat (length outputData) = 4 * (width * height) ->
  resample source inputData outputData width height = Done out ->
  (forall x y, 0 <= x < width -> 0 <= y < height ->
     sample_val source inputData width height x y <> None) /\
  forall other, Z.of_nat (length other) = 4 * (width * height) ->
    resample source inputData other width height
    = Done (painted (overlay width (sample_val source inputData width height)
                       0 width 0 height 0 (fun _ => None)) other).
Proof.
  intros Hlen Hres.
  assert (Hall : forall x y, 0 <= x < width -> 0 <= y < height ->
            sample_val source inputData width height x y <> None).
  { intros x y Hx Hy. unfold resample in Hres.
    destruct (for_range_Done_step _ _ _ _ _ Hres y Hy) as (sy & ty & Hrow).
    destruct (for_range_Done_step _ _ _ _ _ Hrow x Hx) as (sx & tx & Hcell).
    eapply write_sample_Done, Hcell. }
  split; [exact Hall|].
  intros other Hother. unfold resample.
  rewrite <- (painted_nothing other) at 1.
  apply (rect_loop_any width (4 * (width * height))
           (sample_val source inputData width height)
           (fun y x out => let '(srcX, srcY) := source x y in
                           write_sample inputData width height x y srcX srcY out)
           0 width 0 height); try lia.
  intros x y out' Hx Hy _.
  destruct (sample_val source inputData width height x y) as [v|] eqn:Hv.
  - apply write_sample_val, Hv.
  - exfalso. apply (Hall x y Hx Hy Hv).
Qed.

Lemma overlay_cell (x y : Z) g :
  0 <= x < width -> 0 <= y < height ->
  sample_val source inputData width height x y <> None ->
  overlay width (sample_val source inputData width height) 0 width 0 height 0 g
    (y * width + x)
  = sample_val source inputData width height x y.
Proof.
  intros Hx Hy Hv. unfold overlay.
  destruct (cell_of_index width ltac:(lia) x y ltac:(lia)) as [-> ->].
  replace (in_rect 0 width 0 height x y) with true
    by (symmetry; unfold in_rect; repeat (apply andb_true_iff; split);
        (apply Z.leb_le || apply Z.ltb_lt); lia).
  cbn [orb]. destruct (sample_val source inputData width height x y); congruence.
Qed.

Lemma overlay_total (p : Z) g :
  (forall x y, 0 <= x < width -> 0 <= y < height ->
     sample_val source inputData width height x y <> None) ->
  0 <= p < width * height ->
  overlay width (sample_val source inputData width height) 0 width 0 height 0 g p <> None.
Proof.
  intros Hall Hp.
  assert (Hx : 0 <= p mod width < width) by (apply Z.mod_pos_bound; lia).
  assert (Hy : 0 <= p / width < height).
  { split; [apply Z.div_pos; lia|]. apply Z.div_lt_upper_bound; lia. }
  unfold overlay.
  replace (in_rect 0 width 0 height (p mod width) (p / width)) with true
    by (symmetry; unfold in_rect; repeat (apply andb_true_iff; split);
        (apply Z.leb_le || apply Z.ltb_lt); lia).
  cbn [orb]. specialize (Hall _ _ Hx Hy).
  destruct (sample_val source inputData width height (p mod width) (p / width));
    congruence.
Qed.

(** The statement about [resample] that the two kernels share. *)
Lemma resample_pixels (outputData out : raster) :
  Z.of_nat (length outputData) = 4 * (width * height) ->
  resample source inputData outputData width height = Done out ->
  (forall x y, 0 <= x < width -> 0 <= y < height ->
     exists v,
       sampleBilinear inputData width height (fst (source x y)) (snd (source x y)) = Done v
       /\ pixel_at out (Z.to_nat (y * width + x)) = Some v) /\
  (forall other, length other = length outputData ->
     resample source inputData other width height = Done out).
Proof.
  intros Hlen Hres. destruct (resample_Done outputData out Hlen Hres) as [Hall Hany].
  pose proof (Hany outputData Hlen) as Hout. rewrite Hres in Hout. injection Hout as ->.
  split.
  - intros x y Hx Hy. specialize (Hall x y Hx Hy).
    destruct (sample_val source inputData width height x y) as [v|] eqn:Hv; [|congruence].
    exists v. split.
    + unfold sample_val in Hv. destruct (sampleBilinear _ _ _ _ _); congruence.
    + apply painted_pixel; [|nia]. rewrite Z2Nat.id by nia.
      rewrite overlay_cell by (assumption || congruence). exact Hv.
  - intros other Hother. rewrite (Hany other) by lia. f_equal.
    apply painted_everywhere; [assumption|].
    intros p Hp0 Hp. apply overlay_total; [assumption | lia].
Qed.
End Resample.
End RemapFacts.

Module RemapTotal.
Import SamplerTotal.

Section Total.
Variables (source : Z -> Z -> float * float) (inputData : raster) (width height : Z).
Hypothesis Hin : raster_ok inputData width height.
Hypothesis Hw : 2 <= width.
Hypothesis Hh : 2 <= height.

Lemma sample_val_total (x y : Z) :
  exists v, sample_val source inputData width height x y = Some v.
Proof.
  unfold sample_val.
  destruct (sampleBilinear_total inputData width height
              (fst (source x y)) (snd (source x y)) Hin Hw Hh)
    as (r & g & b & a & -> & _).
  eauto.
Qed.

(** On a raster of at least 2 x 2 pixels the loop of the remap kernels
    returns: it writes at every cell the sample of its source point. *)
Lemma resample_total (outputData : raster) :
  Z.of_nat (length outputData) = 4 * (width * height) ->
  exists out,
    resample source inputData outputData width height = Done out /\
    length out = length outputData /\
    (forall x y, 0 <= x < width -> 0 <= y < height ->
       exists v,
         sampleBilinear inputData width height (fst (source x y)) (snd (source x y))
         = Done v /\
         pixel_at out (Z.to_nat (y * width + x)) = Some v) /\
    (forall other, length other = length outputData ->
       resample source inputData other width height = Done out).
Proof.
  intros Hlen.
  assert (Hres : resample source inputData outputData width height
                 = Done (painted (overlay width (sample_val source inputData width height)
                                    0 width 0 height 0 (fun _ => None)) outputData)).
  { unfold resample. rewrite <- (painted_nothing outputData) at 1.
    apply (rect_loop_any width (4 * (width * height))
             (sample_val source inputData width height)
             (fun y x out => let '(srcX, srcY) := source x y in
                             write_sample inputData width height x y srcX srcY out)
             0 width 0 height); try lia.
    intros x y out' Hx Hy _. destruct (sample_val_total x y) as [v Hv].
    rewrite Hv. apply RemapFacts.write_sample_val, Hv. }
  eexists. split; [exact Hres|]. split; [apply painted_length|].
  apply (RemapFacts.resample_pixels source inputData width height ltac:(lia) ltac:(lia)
           outputData _ Hlen Hres).
Qed.
End Total.
End RemapTotal.

(** C6. On a raster of at least 2 x 2 pixels, with factor 0, both remap
    kernels return, and the distortion has vanished: every output pixel
    [(x, y)] holds the bilinear sample of the input at the point
    [centre + radius * (cos angle, sin angle)] that the polar coordinates of
    its cell give back, with [angle = atan2 dy dx] for the wormhole and
    [atan2 dy dx + 0.0] for the spiral. *)
Theorem remap_zero_factor {L : Libm} (inputData outputData : raster) (width height : Z) :
  raster_ok inputData width height -> 2 <= width -> 2 <= height ->
  Z.of_nat (length outputData) = 4 * (width * height) ->
  (exists out,
     wormholeDistortion inputData outputData width height 0 = Done out /\
     forall x y, 0 <= x < width -> 0 <= y < height ->
       exists px,
         sampleBilinear inputData width height
           (fst (polar_source (fun a => a) width height x y))
           (snd (polar_source (fun a => a) width height x y)) = Done px /\
         pixel_at out (Z.to_nat (y * width + x)) = Some px) /\
  (exists out,
     spiralDistortion inputData outputData width height 0 = Done out /\
     forall x y, 0 <= x < width -> 0 <= y < height ->
       exists px,
         sampleBilinear inputData width height
           (fst (polar_source (fun a => (a + 0)%float) width height x y))
           (snd (polar_source (fun a => (a + 0)%float) width height x y)) = Done px /\
         pixel_at out (Z.to_nat (y * width + x)) = Some px).
Proof.
  intros Hin Hw Hh Hlen. pose proof Hin as (Hw1 & Hh1 & _).
  split.
  - destruct (RemapTotal.resample_total (polar_source (fun a => a) width height)
                inputData width height Hin Hw Hh outputData Hlen)
      as (out & Hres & _ & Hpx & _).
    exists out. split; [|exact Hpx]. rewrite <- Hres.
    unfold wormholeDistortion, resample.
    apply for_range_ext. intros y t Hy. apply for_range_ext. intros x t' Hx.
    rewrite RemapGeometry.wormhole_source_zero by lia. reflexivity.
  - destruct (RemapTotal.resample_total (polar_source (fun a => (a + 0)%float) width height)
                inputData width height Hin Hw Hh outputData Hlen)
      as (out & Hres & _ & Hpx & _).
    exists out. split; [|exact Hpx]. rewrite <- Hres.
    unfold spiralDistortion, resample.
    apply for_range_ext. intros y t Hy. apply for_range_ext. intros x t' Hx.
    rewrite RemapGeometry.spiral_source_zero by lia. reflexivity.
Qed.

Lemma white_at_1_1_ok : raster_ok white_at_1_1 2 2.
Proof.
  unfold raster_ok, white_at_1_1. repeat split; try (cbn; lia).
  repeat (constructor; [unfold u8; lia|]). constructor.
Qed.

Lemma remap_zero_factor_witness :
  (exists out,
     @wormholeDistortion ref_libm white_at_1_1 blank_2x2 2 2 0 = Done out /\
     forall x y, 0 <= x < 2 -> 0 <= y < 2 ->
       exists px,
         sampleBilinear white_at_1_1 2 2
           (fst (@polar_source ref_libm (fun a => a) 2 2 x y))
           (snd (@polar_source ref_libm (fun a => a) 2 2 x y)) = Done px /\
         pixel_at out (Z.to_nat (y * 2 + x)) = Some px) /\
  (exists out,
     @spiralDistortion ref_libm white_at_1_1 blank_2x2 2 2 0 = Done out /\
     forall x y, 0 <= x < 2 -> 0 <= y < 2 ->
       exists px,
         sampleBilinear white_at_1_1 2 2
           (fst (@polar_source ref_libm (fun a => (a + 0)%float) 2 2 x y))
           (snd (@polar_source ref_libm (fun a => (a + 0)%float) 2 2 x y)) = Done px /\
         pixel_at out (Z.to_nat (y * 2 + x)) = Some px).
Proof.
  apply (@remap_zero_factor ref_libm white_at_1_1 blank_2x2 2 2 white_at_1_1_ok);
    [lia | lia | reflexivity].
Defined.
(** ** Further properties of the sampler *)

Module Corners2.
Import B64 Rounding Magnitude Corners.

Lemma load_outside (m : raster) (i : Z) : Z.of_nat (length m) <= i -> load m i = Undefined.
Proof.
  intros H. unfold load. replace (i <? 0) with false by (symmetry; apply Z.ltb_ge; lia).
  rewrite lookup_ge_None_2 by lia. reflexivity.
Qed.

Lemma load_cases (m : raster) (i : Z) : load m i = Undefined \/ exists b, load m i = Done b.
Proof.
  unfold load. destruct (i <? 0); [left; reflexivity|].
  destruct (m !! Z.to_nat i); [right; eauto | left; reflexivity].
Qed.

(** A blend whose third corner lies past the end of the raster. *)
Lemma blend_third_outside (src : raster) (ptr1 ptr2 ptr3 ptr4 c : Z) (ur vr : float) :
  Z.of_nat (length src) <= ptr3 + c ->
  blend src (ptr1, ptr2, ptr3, ptr4) ur vr c = Undefined.
Proof.
  intros H. unfold blend.
  destruct (load_cases src (ptr1 + c)) as [->|(p1 & ->)]; [reflexivity|].
  cbn [mbind outcome_bind].
  destruct (load_cases src (ptr2 + c)) as [->|(p2 & ->)]; [reflexivity|].
  cbn [mbind outcome_bind]. rewrite (load_outside src (ptr3 + c) H). reflexivity.
Qed.

Lemma first_cell (w : Z) (u : float) :
  1 <= w < 2 ^ 31 -> exists x, F.to_int (clamp_coord w u) = Done x /\ 0 <= x.
Proof.
  intros Hw. destruct (Z.eq_dec w 1) as [->|Hne].
  - rewrite clamp_coord_1. exists 0. split; [reflexivity | lia].
  - destruct (clamp_coord_cell w u ltac:(lia)) as (x & Hx & Hr).
    exists x. split; [exact Hx | lia].
Qed.

Lemma single_row_undefined (src : raster) (width : Z) (u v : float) :
  1 <= width < 2 ^ 31 -> Z.of_nat (length src) = 4 * width ->
  sampleBilinear src width 1 u v = Undefined.
Proof.
  intros Hw Hlen. unfold sampleBilinear.
  destruct (first_cell width u Hw) as (x & -> & Hx).
  rewrite (clamp_coord_1 v). cbn [mbind outcome_bind].
  change (F.to_int 0%float) with (Done 0). cbn [mbind outcome_bind].
  unfold corner_offsets. rewrite (blend_third_outside src _ _ _ _ 0) by lia. reflexivity.
Qed.

End Corners2.

(** X1. On a raster of at least 2 x 2 pixels whose byte count fits an
    [int], the four corners [sampleBilinear] reads lie inside the raster,
    whatever the coordinate (infinities and NaN included). *)
Theorem sample_corners_in_bounds (width height : Z) (u v : float) :
  2 <= width < 2 ^ 31 -> 2 <= height < 2 ^ 31 -> 4 * (width * height) < 2 ^ 31 ->
  exists ptr1 ptr2 ptr3 ptr4,
    sample_corners width height u v = Done (ptr1, ptr2, ptr3, ptr4) /\
    Forall (fun ptr => 0 <= ptr /\ ptr + 3 < 4 * (width * height))
           [ptr1; ptr2; ptr3; ptr4].
Proof.
  intros Hw Hh _. unfold sample_corners.
  destruct (Corners.clamp_coord_cell width u Hw) as (x & -> & Hx).
  destruct (Corners.clamp_coord_cell height v Hh) as (y & -> & Hy).
  cbn [mbind outcome_bind]. unfold corner_offsets.
  eexists _, _, _, _. split; [reflexivity|].
  repeat (constructor; [nia|]). constructor.
Qed.

Lemma sample_corners_in_bounds_witness :
  exists ptr1 ptr2 ptr3 ptr4,
    sample_corners 3 2 1e300 (-7.5) = Done (ptr1, ptr2, ptr3, ptr4) /\
    Forall (fun ptr => 0 <= ptr /\ ptr + 3 < 4 * (3 * 2)) [ptr1; ptr2; ptr3; ptr4].
Proof.
  apply (sample_corners_in_bounds 3 2 1e300 (-7.5)); lia.
Defined.

(** X2. On a raster of a single row [sampleBilinear] reads its lower
    neighbours past the end of the raster: the call is undefined for every
    coordinate. *)
Theorem sampleBilinear_single_row (src : raster) (width : Z) (u v : float) :
  1 <= width < 2 ^ 31 -> Z.of_nat (length src) = 4 * width ->
  sampleBilinear src width 1 u v = Undefined.
Proof. apply Corners2.single_row_undefined. Qed.

Lemma sampleBilinear_single_row_witness :
  sampleBilinear two_pixels 2 1 0.5 0 = Undefined.
Proof.
  apply (sampleBilinear_single_row two_pixels 2 0.5 0); [lia | reflexivity].
Defined.

(** X3. Both remap kernels are undefined on every raster of a single row,
    whatever the factor: the sample for their first pixel already leaves the
    raster. *)
Theorem remap_single_row {L : Libm} (inputData outputData : raster) (width : Z)
    (factor : float) :
  1 <= width < 2 ^ 31 -> Z.of_nat (length inputData) = 4 * width ->
  wormholeDistortion inputData outputData width 1 factor = Undefined /\
  spiralDistortion inputData outputData width 1 factor = Undefined.
Proof.
  intros Hw Hlen. unfold wormholeDistortion, spiralDistortion. split.
  - rewrite for_range_first by lia. rewrite for_range_first by lia.
    match goal with
    | |- context [wormhole_source ?a ?b ?c ?d 0 0] =>
        destruct (wormhole_source a b c d 0 0) as [srcX srcY]
    end.
    unfold write_sample. rewrite Corners2.single_row_undefined by assumption. reflexivity.
  - rewrite for_range_first by lia. rewrite for_range_first by lia.
    match goal with
    | |- context [spiral_source ?a ?b ?c ?d 0 0] =>
        destruct (spiral_source a b c d 0 0) as [srcX srcY]
    end.
    unfold write_sample. rewrite Corners2.single_row_undefined by assumption. reflexivity.
Qed.

Lemma remap_single_row_witness :
  @wormholeDistortion ref_libm two_pixels two_pixels 2 1 0.5 = Undefined /\
  @spiralDistortion ref_libm two_pixels two_pixels 2 1 0.5 = Undefined.
Proof.
  apply (@remap_single_row ref_libm two_pixels two_pixels 2 0.5); [lia | reflexivity].
Defined.

(** X17. On a raster of at least 2 x 2 pixels [sampleBilinear] returns
    four bytes, whatever the coordinate (NaN and the infinities included):
    the blend of four bytes never leaves the range of the cast to
    [uint8_t], although the code does not clamp it. *)
Theorem sampleBilinear_returns (src : raster) (width height : Z) (u v : float) :
  raster_ok src width height -> 2 <= width -> 2 <= height ->
  exists r g b a,
    sampleBilinear src width height u v = Done (r, g, b, a) /\
    u8 r /\ u8 g /\ u8 b /\ u8 a.
Proof. apply SamplerTotal.sampleBilinear_total. Qed.

Lemma sampleBilinear_returns_witness :
  exists r g b a,
    sampleBilinear white_at_1_1 2 2 nan (-1e300) = Done (r, g, b, a) /\
    u8 r /\ u8 g /\ u8 b /\ u8 a.
Proof.
  apply (sampleBilinear_returns white_at_1_1 2 2 nan (-1e300) white_at_1_1_ok); lia.
Defined.
(** ** Further properties of [clamp] *)

Lemma to_u8_zero : F.to_u8 0 = Done 0.
Proof. vm_compute. reflexivity. Qed.

Lemma max_min_255 : F.to_u8 (if (0 <? 255)%float then 255%float else 0%float) = Done 255.
Proof. vm_compute. reflexivity. Qed.

(** X4. [clamp] is the saturating truncation to a byte: it returns for
    every double, values below 0 give 0, values of 255 and above give 255,
    and so does NaN. *)
Theorem clamp_saturates (val : float) : clamp val = Done (saturate val).
Proof.
  unfold clamp, F.min.
  destruct (val <? 255)%float eqn:H255; unfold F.max.
  - destruct (0 <? val)%float eqn:H0;
      rewrite FloatAxioms.ltb_spec in H255, H0;
      rewrite B64.prim_255 in H255; rewrite B64.prim_0 in H0;
      unfold saturate, trunc;
      destruct (Prim2SF val) as [s|s| |s m e] eqn:Hv; try discriminate;
      try (destruct s; discriminate).
    + (* 0 < val < 255 *)
      destruct s; [discriminate|].
      destruct (B64.valid_finite _ _ _ _ Hv) as (_ & [_ Hm] & _).
      change (2 ^ 53) with 9007199254740992 in Hm.
      rewrite B64.SFltb_pos in H255.
      assert (Hcase : e < -45 \/ (e = -45 /\ Zpos m < 8972014882652160)).
      { apply orb_true_iff in H255. destruct H255 as [H|H].
        - left. apply Z.ltb_lt, H.
        - right. apply andb_true_iff in H. destruct H as [H1 H2].
          split; [apply Z.eqb_eq, H1 | apply Z.ltb_lt, H2]. }
      rewrite B64.to_u8_correct. unfold trunc. rewrite Hv.
      replace (0 <=? e) with false by (symmetry; apply Z.leb_gt; lia).
      assert (Hp : 0 < 2 ^ (- e)) by (apply Z.pow_pos_nonneg; lia).
      assert (Hq : 0 <= Zpos m / 2 ^ (- e) < 255).
      { split; [apply Z.div_pos; lia|]. apply Z.div_lt_upper_bound; [assumption|].
        destruct Hcase as [Hlt|[He Hlt]].
        - assert (2 ^ 46 <= 2 ^ (- e)) by (apply Z.pow_le_mono_r; lia).
          change (2 ^ 46) with 70368744177664 in *. lia.
        - subst e. change (2 ^ (- -45)) with 35184372088832. lia. }
      cbn [in_range].
      replace (0 <=? Zpos m / 2 ^ (- e)) with true by (symmetry; apply Z.leb_le; lia).
      replace (Zpos m / 2 ^ (- e) <? 256) with true by (symmetry; apply Z.ltb_lt; lia).
      cbn [andb]. f_equal. lia.
    + (* val is a zero *)
      rewrite to_u8_zero. destruct s; reflexivity.
    + (* val is -oo *)
      rewrite to_u8_zero. destruct s; [reflexivity | discriminate].
    + (* val < 0 *)
      destruct s; [|discriminate].
      rewrite to_u8_zero. f_equal.
      destruct (Z.leb_spec 0 e).
      * assert (0 < 2 ^ e) by (apply Z.pow_pos_nonneg; lia). nia.
      * pose proof (B64.quotient_pos m e). lia.
  - (* 255 <= val, or NaN *)
    rewrite max_min_255.
    f_equal. rewrite FloatAxioms.ltb_spec, B64.prim_255 in H255.
    unfold saturate, trunc.
    destruct (Prim2SF val) as [s|s| |s m e] eqn:Hv;
      [discriminate | destruct s; [discriminate | reflexivity] | reflexivity |].
    destruct s; [discriminate|].
    destruct (B64.valid_finite _ _ _ _ Hv) as (_ & [_ Hm] & Hn).
    change (2 ^ 53) with 9007199254740992 in Hm.
    change (2 ^ 52) with 4503599627370496 in Hn.
    rewrite B64.SFltb_pos in H255.
    assert (Hcase : -45 < e \/ (e = -45 /\ 8972014882652160 <= Zpos m)).
    { apply orb_false_iff in H255. destruct H255 as [H1 H2]. apply Z.ltb_ge in H1.
      apply andb_false_iff in H2. destruct H2 as [H2|H2].
      - left. apply Z.eqb_neq in H2. lia.
      - apply Z.ltb_ge in H2. destruct (Z.eq_dec e (-45)); [right; split; assumption | left; lia]. }
    assert (Hbig : 255 <= (if 0 <=? e then Zpos m * 2 ^ e else Zpos m / 2 ^ (- e))).
    { destruct (Z.leb_spec 0 e).
      - specialize (Hn ltac:(lia)).
        assert (0 < 2 ^ e) by (apply Z.pow_pos_nonneg; lia).
        apply Z.le_trans with (Zpos m * 1); [lia|].
        apply Z.mul_le_mono_nonneg_l; lia.
      - assert (Hp : 0 < 2 ^ (- e)) by (apply Z.pow_pos_nonneg; lia).
        apply Z.div_le_lower_bound; [assumption|].
        destruct Hcase as [Hgt|[He Hge]].
        + specialize (Hn ltac:(lia)).
          assert (2 ^ (- e) <= 2 ^ 44) by (apply Z.pow_le_mono_r; lia).
          change (2 ^ 44) with 17592186044416 in *. lia.
        + subst e. change (2 ^ (- -45)) with 35184372088832. lia. }
    revert Hbig.
    generalize (if 0 <=? e then Zpos m * 2 ^ e else Zpos m / 2 ^ (- e)).
    intros z Hz. lia.
Qed.
(** ** Further properties of the Sobel kernel *)

Module SobelFacts.

Lemma flat_edge_zero (i : Z) : u8 i -> flat_edge i = Done 0.
Proof.
  intros Hi. apply returns_Done. revert i Hi.
  apply (u8_forallb (fun i => returns (flat_edge i) 0)).
  vm_compute. reflexivity.
Qed.

Section Window.
Variables (inputData : raster) (width height : Z).
Hypothesis Hin : raster_ok inputData width height.

Lemma pixel_loads (p : Z) (r g b a : Z) :
  0 <= p -> pixel_at inputData (Z.to_nat p) = Some (r, g, b, a) ->
  load inputData (p * 4) = Done r /\ load inputData (p * 4 + 1) = Done g /\
  load inputData (p * 4 + 2) = Done b /\ load inputData (p * 4 + 3) = Done a.
Proof.
  intros Hp. unfold pixel_at. intros H.
  destruct (inputData !! (4 * Z.to_nat p)%nat) as [r'|] eqn:Er; [|discriminate].
  destruct (inputData !! (4 * Z.to_nat p + 1)%nat) as [g'|] eqn:Eg; [|discriminate].
  destruct (inputData !! (4 * Z.to_nat p + 2)%nat) as [b'|] eqn:Eb; [|discriminate].
  destruct (inputData !! (4 * Z.to_nat p + 3)%nat) as [a'|] eqn:Ea; [|discriminate].
  cbn in H. injection H as -> -> -> ->.
  repeat split; apply load_Done; (split; [lia|]).
  - replace (Z.to_nat (p * 4)) with (4 * Z.to_nat p)%nat by lia. exact Er.
  - replace (Z.to_nat (p * 4 + 1)) with (4 * Z.to_nat p + 1)%nat by lia. exact Eg.
  - replace (Z.to_nat (p * 4 + 2)) with (4 * Z.to_nat p + 2)%nat by lia. exact Eb.
  - replace (Z.to_nat (p * 4 + 3)) with (4 * Z.to_nat p + 3)%nat by lia. exact Ea.
Qed.

(** The sums of a window depend on the luminance of its pixels only. *)
Lemma sobel_sums_window (x y : Z) (intensity : Z -> Z -> Z) :
  (forall ky kx, -1 <= ky < 2 -> -1 <= kx < 2 ->
     exists r g b a,
       0 <= (y + ky) * width + (x + kx) /\
       pixel_at inputData (Z.to_nat ((y + ky) * width + (x + kx))) = Some (r, g, b, a) /\
       luma r g b = Done (intensity ky kx)) ->
  sobel_sums inputData width x y = window_sums intensity.
Proof.
  intros Hwin. unfold sobel_sums, window_sums.
  apply for_range_ext. intros ky sums Hky.
  apply for_range_ext. intros kx [sumX sumY] Hkx. cbv zeta.
  destruct (Hwin ky kx Hky Hkx) as (r & g & b & a & Hp & Hpx & Hl).
  destruct (pixel_loads _ r g b a Hp Hpx) as (-> & -> & -> & _).
  cbn [mbind outcome_bind]. rewrite Hl. reflexivity.
Qed.
End Window.

Lemma sobel_image_interior (inputData : raster) (width height x y : Z) :
  raster_ok inputData width height ->
  1 <= x <= width - 2 -> 1 <= y <= height - 2 ->
  sobel_image inputData width height (y * width + x) = edge_val inputData width x y.
Proof.
  intros Hin Hx Hy. unfold sobel_image, overlay at 1.
  destruct (cell_of_index width ltac:(lia) x y ltac:(lia)) as [-> ->].
  replace (in_rect 0 width 0 height x y) with true
    by (symmetry; unfold in_rect; repeat (apply andb_true_iff; split);
        (apply Z.leb_le || apply Z.ltb_lt); lia).
  cbn [orb]. unfold border_val.
  replace ((y =? 0) || (y =? height - 1) || (x =? 0) || (x =? width - 1)) with false.
  - unfold overlay. destruct (cell_of_index width ltac:(lia) x y ltac:(lia)) as [-> ->].
    replace (in_rect 1 (width - 1) 1 (height - 1) x y) with true
      by (symmetry; unfold in_rect; repeat (apply andb_true_iff; split);
          (apply Z.leb_le || apply Z.ltb_lt); lia).
    cbn [orb].
    destruct (edge_val_interior inputData width height Hin ltac:(lia) ltac:(lia) x y Hx Hy)
      as (e & a & ->).
    reflexivity.
  - symmetry. rewrite !orb_false_iff, !Z.eqb_neq. lia.
Qed.

(** What [edge_val] holds when it is defined. *)
Lemma edge_val_Some (inputData : raster) (width x y : Z) (v : Z * Z * Z * Z) :
  edge_val inputData width x y = Some v ->
  exists edge alpha sumX sumY,
    v = (edge, edge, edge, alpha) /\
    sobel_sums inputData width x y = Done (sumX, sumY) /\
    F.to_u8 (F.min 255 (PrimFloat.sqrt (sumX * sumX + sumY * sumY))) = Done edge /\
    load inputData ((y * width + x) * 4 + 3) = Done alpha.
Proof.
  unfold edge_val.
  destruct (sobel_sums inputData width x y) as [[sumX sumY]| |]; try discriminate.
  destruct (F.to_u8 _) as [edge| |] eqn:He; try discriminate.
  destruct (load _ _) as [alpha| |] eqn:Ha; try discriminate.
  intros [= <-]. eauto 10.
Qed.

End SobelFacts.

(** X5. Inside the border [sobelEdgeDetection] writes a gray pixel: its
    three colour channels hold one byte, the edge magnitude of the cell
    (the byte that [min(255, sqrt(sumX^2 + sumY^2))] converts to, as
    [edge_val] computes it from the 3 x 3 window), and its alpha byte is the
    alpha byte of the input pixel. *)
Theorem sobel_interior_gray (inputData outputData : raster) (width height x y : Z) :
  raster_ok inputData width height ->
  Z.of_nat (length outputData) = 4 * (width * height) ->
  1 <= x <= width - 2 -> 1 <= y <= height - 2 ->
  exists out edge alpha,
    sobelEdgeDetection inputData outputData width height = Done out /\
    pixel_at out (Z.to_nat (y * width + x)) = Some (edge, edge, edge, alpha) /\
    edge_val inputData width x y = Some (edge, edge, edge, alpha) /\
    u8 edge /\
    inputData !! (4 * Z.to_nat (y * width + x) + 3)%nat = Some alpha.
Proof.
  intros Hin Hlen Hx Hy.
  destruct (edge_val_interior inputData width height Hin ltac:(lia) ltac:(lia) x y Hx Hy)
    as (e & a & He).
  destruct (SobelFacts.edge_val_Some _ _ _ _ _ He) as (e' & a' & sx & sy & Hv & _ & Hu & Ha).
  assert (e' = e /\ a' = a) as [-> ->] by (split; congruence).
  exists (painted (sobel_image inputData width height) outputData), e, a.
  split; [apply sobel_painted; (assumption || lia)|]. split; [|split; [exact He|split]].
  - apply painted_pixel.
    + rewrite Z2Nat.id by nia. rewrite SobelFacts.sobel_image_interior by assumption.
      exact He.
    + nia.
  - eapply B64.to_u8_range, Hu.
  - apply load_Done in Ha. destruct Ha as [_ Ha].
    replace (4 * Z.to_nat (y * width + x) + 3)%nat
      with (Z.to_nat ((y * width + x) * 4 + 3)) by nia.
    exact Ha.
Qed.

Module SobelFlat.
Import SobelFacts.

Lemma edge_val_flat (inputData : raster) (width height x y r g b : Z) :
  raster_ok inputData width height -> flat inputData r g b ->
  1 <= x <= width - 2 -> 1 <= y <= height - 2 ->
  exists alpha, edge_val inputData width x y = Some (0, 0, 0, alpha).
Proof.
  intros Hin Hflat Hx Hy.
  pose proof Hin as (_ & _ & Hlen & _ & Hu).
  assert (Hpix : forall p, 0 <= p < width * height ->
            exists a, pixel_at inputData (Z.to_nat p) = Some (r, g, b, a)
                      /\ u8 r /\ u8 g /\ u8 b).
  { intros p Hp.
    destruct (pixel_at_inside inputData (Z.to_nat (width * height)) (Z.to_nat p) Hu)
      as (r' & g' & b' & a' & Hpx & Hr & Hg & Hb & _); try lia.
    destruct (Hflat _ _ Hpx) as (a & Ha). injection Ha as -> -> -> ->.
    exists a. auto. }
  destruct (Hpix (y * width + x) ltac:(nia)) as (a0 & Hp0 & Hr & Hg & Hb).
  destruct (luma_total r g b Hr Hg Hb) as (i & Hi & Ui).
  assert (Hs : sobel_sums inputData width x y = window_sums (fun _ _ => i)).
  { apply sobel_sums_window. intros ky kx Hky Hkx.
    destruct (Hpix ((y + ky) * width + (x + kx)) ltac:(nia)) as (a & Hp & _).
    exists r, g, b, a. split; [nia|]. split; [exact Hp | exact Hi]. }
  pose proof (flat_edge_zero i Ui) as Hz. unfold flat_edge in Hz.
  unfold edge_val. rewrite Hs.
  destruct (window_sums (fun _ _ => i)) as [[sumX sumY]| |]; try discriminate.
  cbn [mbind outcome_bind] in Hz. rewrite Hz.
  destruct (pixel_loads inputData (y * width + x) r g b a0 ltac:(nia) Hp0)
    as (_ & _ & _ & ->).
  eauto.
Qed.

End SobelFlat.

(** X6. An image of one colour has no edges: [sobelEdgeDetection] turns it
    into black, every colour channel of every output pixel is 0 (the alpha
    bytes are those of the input inside, 255 on the border). *)
Theorem sobel_flat_image (inputData outputData : raster) (width height r g b : Z) :
  1 <= width -> 1 <= height ->
  raster_ok inputData width height ->
  Z.of_nat (length outputData) = 4 * (width * height) ->
  flat inputData r g b ->
  exists out,
    sobelEdgeDetection inputData outputData width height = Done out /\
    forall x y, 0 <= x < width -> 0 <= y < height ->
      exists alpha, pixel_at out (Z.to_nat (y * width + x)) = Some (0, 0, 0, alpha).
Proof.
  intros Hw Hh Hin Hlen Hflat.
  exists (painted (sobel_image inputData width height) outputData).
  split; [apply sobel_painted; assumption|].
  intros x y Hx Hy.
  destruct (Z_le_gt_dec 1 x) as [Hx1|Hx0];
    [destruct (Z_le_gt_dec x (width - 2)) as [Hx2|Hx2];
     [destruct (Z_le_gt_dec 1 y) as [Hy1|Hy0];
      [destruct (Z_le_gt_dec y (height - 2)) as [Hy2|Hy2]|]|]|].
  - destruct (SobelFlat.edge_val_flat inputData width height x y r g b Hin Hflat)
      as (alpha & He); try lia.
    exists alpha. apply painted_pixel; [|nia].
    rewrite Z2Nat.id by nia.
    rewrite SobelFacts.sobel_image_interior by (assumption || lia). exact He.
  - exists 255. apply painted_pixel; [|nia]. rewrite Z2Nat.id by nia.
    apply sobel_image_border; (assumption || lia).
  - exists 255. apply painted_pixel; [|nia]. rewrite Z2Nat.id by nia.
    apply sobel_image_border; (assumption || lia).
  - exists 255. apply painted_pixel; [|nia]. rewrite Z2Nat.id by nia.
    apply sobel_image_border; (assumption || lia).
  - exists 255. apply painted_pixel; [|nia]. rewrite Z2Nat.id by nia.
    apply sobel_image_border; (assumption || lia).
Qed.

Lemma gray_3x3_ok : raster_ok gray_3x3 3 3.
Proof.
  unfold raster_ok, gray_3x3. repeat split; try (cbn; lia).
  repeat (constructor; [unfold u8; lia|]). constructor.
Qed.

Lemma gray_3x3_flat : flat gray_3x3 90 120 200.
Proof.
  intros p v H.
  assert (Hp : (p < 9)%nat).
  { unfold pixel_at in H.
    destruct (gray_3x3 !! (4 * p)%nat) as [r|] eqn:E; [|discriminate].
    apply lookup_lt_Some in E. change (length gray_3x3) with 36%nat in E. lia. }
  do 9 (destruct p as [|p]; [vm_compute in H; injection H as <-; eauto|]).
  lia.
Qed.

Lemma sobel_flat_image_witness :
  exists out,
    sobelEdgeDetection gray_3x3 ramp_3x3 3 3 = Done out /\
    forall x y, 0 <= x < 3 -> 0 <= y < 3 ->
      exists alpha, pixel_at out (Z.to_nat (y * 3 + x)) = Some (0, 0, 0, alpha).
Proof.
  apply (sobel_flat_image gray_3x3 ramp_3x3 3 3 90 120 200);
    [lia | lia | exact gray_3x3_ok | reflexivity | exact gray_3x3_flat].
Defined.

Lemma sobel_interior_gray_witness :
  exists out edge alpha,
    sobelEdgeDetection ramp_3x3 gray_3x3 3 3 = Done out /\
    pixel_at out (Z.to_nat (1 * 3 + 1)) = Some (edge, edge, edge, alpha) /\
    edge_val ramp_3x3 3 1 1 = Some (edge, edge, edge, alpha) /\
    u8 edge /\
    ramp_3x3 !! (4 * Z.to_nat (1 * 3 + 1) + 3)%nat = Some alpha.
Proof.
  apply (sobel_interior_gray ramp_3x3 gray_3x3 3 3 1 1);
    [exact ramp_3x3_ok | reflexivity | lia | lia].
Defined.
(** ** Further properties of the colour conversions *)

Module HslFacts.

Lemma hsl_checked_63_all :
  forallb (fun r => forallb (fun g => forallb (fun b =>
    hsl_checked (rgbToHsl_63 r g b)) u8s_63) u8s_63) u8s_63 = true.
Proof. vm_cast_no_check (eq_refl true). Qed.

Lemma hsl_checked_all (r g b : Z) :
  u8 r -> u8 g -> u8 b -> hsl_checked (rgbToHsl r g b) = true.
Proof.
  intros Hr Hg Hb.
  pose proof hsl_checked_63_all as H.
  rewrite forallb_forall in H. specialize (H _ (u8s_63_In r Hr)).
  rewrite forallb_forall in H. specialize (H _ (u8s_63_In g Hg)).
  rewrite forallb_forall in H. specialize (H _ (u8s_63_In b Hb)).
  rewrite rgbToHsl_63_eq by assumption. exact H.
Qed.

(** The round trip through HSL, on every colour of bytes. *)
Lemma roundtrip_near (r g b : Z) :
  u8 r -> u8 g -> u8 b ->
  exists r' g' b',
    hslToRgb (rgbToHsl r g b) = Done (r', g', b') /\
    Z.abs (r' - r) <= 1 /\ Z.abs (g' - g) <= 1 /\ Z.abs (b' - b) <= 1.
Proof.
  intros Hr Hg Hb.
  pose proof roundtrip_63_all as H.
  rewrite forallb_forall in H. specialize (H _ (u8s_63_In r Hr)).
  rewrite forallb_forall in H. specialize (H _ (u8s_63_In g Hg)).
  rewrite forallb_forall in H. specialize (H _ (u8s_63_In b Hb)).
  unfold roundtrip_63 in H.
  rewrite rgbToHsl_63_eq, hslToRgb_63_eq by assumption.
  destruct (hslToRgb_63 _) as [[[r' g'] b']| |]; try discriminate.
  apply andb_true_iff in H. destruct H as [H Hb'].
  apply andb_true_iff in H. destruct H as [Hr' Hg'].
  exists (to_Z r'), (to_Z g'), (to_Z b'). split; [reflexivity|].
  auto using near_63_spec.
Qed.

Lemma hslToRgb_bytes (hsl : HSL) (r g b : Z) :
  hslToRgb hsl = Done (r, g, b) -> u8 r /\ u8 g /\ u8 b.
Proof.
  unfold hslToRgb. destruct (hsl_s hsl =? 0)%float.
  - destruct (F.to_u8 _) as [c| |] eqn:Hc; cbn; try discriminate.
    intros [= <- <- <-]. apply B64.to_u8_range in Hc. auto.
  - destruct (hueToRgb _ _ (_ + _)) as [r'| |] eqn:Hr; cbn; try discriminate.
    destruct (hueToRgb _ _ (hsl_h hsl / 360)) as [g'| |] eqn:Hg; cbn; try discriminate.
    destruct (hueToRgb _ _ (_ - _)) as [b'| |] eqn:Hb; cbn; try discriminate.
    intros [= <- <- <-]. apply hueToRgb_range in Hr, Hg, Hb. auto.
Qed.

Section HueZero.
Context {L : Libm}.
#[local] Open Scope float_scope.
Hypothesis fmod_small :
  forall x, nonneg_finite x -> (x <? 360) = true -> fmod x 360 = x.

Lemma settled_nonneg (h : float) :
  (0 <=? h) = true -> (h <? 360) = true -> h + 0 = h -> nonneg_finite h.
Proof.
  intros H0 H360 Hadd. unfold nonneg_finite.
  rewrite FloatAxioms.leb_spec, B64.prim_0 in H0.
  rewrite FloatAxioms.ltb_spec in H360.
  assert (Hadd' : Prim2SF (h + 0) = Prim2SF h) by (rewrite Hadd; reflexivity).
  rewrite FloatAxioms.add_spec, B64.prim_0 in Hadd'.
  destruct (Prim2SF h) as [s|s| |s m e]; try discriminate.
  - destruct s; [discriminate | auto].
  - destruct s; discriminate.
  - destruct s; [discriminate | eauto].
Qed.

Lemma hue_px_zero (fuel : nat) (r g b : Z) :
  u8 r -> u8 g -> u8 b ->
  hue_px fuel 0 r g b = hslToRgb (rgbToHsl r g b).
Proof.
  intros Hr Hg Hb. pose proof (hsl_checked_all r g b Hr Hg Hb) as H.
  unfold hsl_checked, hsl_in_range, hue_settled in H. unfold hue_px.
  set (hsl := rgbToHsl r g b) in *. clearbody hsl.
  destruct hsl as [h s l]. cbn [hsl_h hsl_s hsl_l] in *.
  apply andb_true_iff in H. destruct H as [Hrange Hset].
  apply andb_true_iff in Hset. destruct Hset as [Hadd Hneg].
  apply FloatAxioms.Leibniz.eqb_spec in Hadd. apply negb_true_iff in Hneg.
  repeat (apply andb_true_iff in Hrange; destruct Hrange as [Hrange ?]).
  rewrite Hadd.
  assert (Hw : wrap_negative fuel h = Done h)
    by (destruct fuel; cbn [wrap_negative]; rewrite Hneg; reflexivity).
  rewrite Hw. cbn [mbind outcome_bind].
  rewrite fmod_small; [reflexivity | | assumption].
  apply settled_nonneg; assumption.
Qed.
End HueZero.

End HslFacts.

(** X7. The HSL form of every colour of bytes is in range: the hue in
    [0, 360), the saturation and the lightness in [0, 1]. *)
Theorem rgbToHsl_in_range (r g b : Z) :
  u8 r -> u8 g -> u8 b -> hsl_in_range (rgbToHsl r g b) = true.
Proof.
  intros Hr Hg Hb. pose proof (HslFacts.hsl_checked_all r g b Hr Hg Hb) as H.
  unfold hsl_checked in H. apply andb_true_iff in H. apply H.
Qed.

Lemma rgbToHsl_in_range_witness : hsl_in_range (rgbToHsl 10 200 30) = true.
Proof. apply (rgbToHsl_in_range 10 200 30); unfold u8; lia. Defined.

(** X8. Where the platform's [fmod(x, 360)] is [x] for [+0 <= x < 360],
    [hueRotate] by the angle 0 returns on every raster of bytes, keeps every
    alpha byte and moves each colour channel by at most 1. *)
Theorem hueRotate_zero_near (L : Libm) (fuel : nat) (img : raster) (width height : Z) :
  (forall x, nonneg_finite x -> (x <? 360)%float = true -> fmod x 360 = x) ->
  raster_ok img width height ->
  exists img',
    hueRotate fuel img width height 0 = Done img' /\
    same_alpha img img' /\
    forall p r g b a,
      (p < Z.to_nat (width * height))%nat -> pixel_at img p = Some (r, g, b, a) ->
      exists r' g' b',
        pixel_at img' p = Some (r', g', b', a) /\
        Z.abs (r' - r) <= 1 /\ Z.abs (g' - g) <= 1 /\ Z.abs (b' - b) <= 1.
Proof.
  intros Hfmod Hok. pose proof Hok as (Hw & Hh & Hlen & Hfit & Hu).
  assert (H0 : 0 <= width * height) by nia.
  rewrite hueRotate_map by lia.
  destruct (map_pixels_total (hue_px fuel 0) (Z.to_nat (width * height)) img)
    as (img' & Himg' & _); [|assumption|lia|].
  { intros r g b Hr Hg Hb. rewrite (HslFacts.hue_px_zero Hfmod) by assumption.
    destruct (HslFacts.roundtrip_near r g b Hr Hg Hb) as (r' & g' & b' & Hrt & _).
    exists r', g', b'. split; [exact Hrt|].
    eapply HslFacts.hslToRgb_bytes, Hrt. }
  exists img'. split; [exact Himg'|]. split.
  - split; [eapply map_pixels_length, Himg' | eapply map_pixels_alpha, Himg'].
  - intros p r g b a Hp Hpx.
    destruct (map_pixels_pixel _ _ _ _ _ _ _ _ _ Himg' Hp Hpx) as (r' & g' & b' & Hf & Hpx').
    assert (Hbytes : u8 r /\ u8 g /\ u8 b).
    { destruct (pixel_at_inside img (Z.to_nat (width * height)) p Hu ltac:(lia) Hp)
        as (r0 & g0 & b0 & a0 & Hpx0 & Hr & Hg & Hb & _).
      rewrite Hpx in Hpx0. injection Hpx0 as <- <- <- <-. auto. }
    destruct Hbytes as (Hr & Hg & Hb).
    rewrite (HslFacts.hue_px_zero Hfmod) in Hf by assumption.
    destruct (HslFacts.roundtrip_near r g b Hr Hg Hb) as (r2 & g2 & b2 & Hrt & Hn).
    rewrite Hrt in Hf. injection Hf as <- <- <-.
    exists r2, g2, b2. split; [exact Hpx' | exact Hn].
Qed.

Lemma fmod_loop_small (fuel : nat) (r b : float) :
  (r <? b)%float = true -> RefLibm.fmod_loop (S fuel) r b = r.
Proof. intros H. cbn [RefLibm.fmod_loop]. rewrite H. reflexivity. Qed.

Lemma ref_fmod_small (x : float) :
  nonneg_finite x -> (x <? 360)%float = true -> RefLibm.fmod x 360 = x.
Proof.
  intros Hx Hlt.
  assert (Habs : abs x = x).
  { apply Prim2SF_inj. rewrite FloatAxioms.abs_spec.
    destruct Hx as [->|(m & e & ->)]; reflexivity. }
  assert (Hfin : (x <? infinity)%float = true).
  { rewrite FloatAxioms.ltb_spec. destruct Hx as [->|(m & e & ->)]; reflexivity. }
  assert (Hneg : (x <? 0)%float = false).
  { rewrite FloatAxioms.ltb_spec. destruct Hx as [->|(m & e & ->)]; reflexivity. }
  unfold RefLibm.fmod. rewrite Habs, Hfin, Hneg.
  change (0 <? abs 360)%float with true. change (abs 360 <? infinity)%float with true.
  cbn [andb]. change (abs 360) with 360%float.
  change 2200%nat with (S 2199). apply fmod_loop_small, Hlt.
Qed.

Lemma hueRotate_zero_near_witness :
  exists img',
    @hueRotate ref_libm 0 two_pixels 2 1 0 = Done img' /\
    same_alpha two_pixels img' /\
    forall p r g b a,
      (p < Z.to_nat (2 * 1))%nat -> pixel_at two_pixels p = Some (r, g, b, a) ->
      exists r' g' b',
        pixel_at img' p = Some (r', g', b', a) /\
        Z.abs (r' - r) <= 1 /\ Z.abs (g' - g) <= 1 /\ Z.abs (b' - b) <= 1.
Proof.
  apply (hueRotate_zero_near ref_libm 0 two_pixels 2 1 ref_fmod_small two_pixels_ok).
Defined.

Module GrayFacts.

Lemma gray_fixed_all (y : Z) : u8 y -> gray_fixed y = true.
Proof.
  revert y. apply (u8_forallb gray_fixed). vm_compute. reflexivity.
Qed.

Lemma pixel_at_next (r g b a : Z) (rest : raster) (p : nat) :
  pixel_at (r :: g :: b :: a :: rest) (S p) = pixel_at rest p.
Proof.
  unfold pixel_at.
  replace (4 * S p)%nat with (S (S (S (S (4 * p))))) by lia.
  replace (S (S (S (S (4 * p)))) + 1)%nat with (S (S (S (S (4 * p + 1))))) by lia.
  replace (S (S (S (S (4 * p)))) + 2)%nat with (S (S (S (S (4 * p + 2))))) by lia.
  replace (S (S (S (S (4 * p)))) + 3)%nat with (S (S (S (S (4 * p + 3))))) by lia.
  reflexivity.
Qed.

(** A kernel whose [f] returns the colour of each pixel of [img] leaves
    [img] as it is. *)
Lemma map_pixels_fix (f : Z -> Z -> Z -> outcome (Z * Z * Z)) (n : nat) (img : raster) :
  (4 * n <= length img)%nat ->
  (forall p r g b a, (p < n)%nat -> pixel_at img p = Some (r, g, b, a) ->
     f r g b = Done (r, g, b)) ->
  map_pixels f n img = Done img.
Proof.
  revert img. induction n as [|n IH]; intros img Hlen Hf; [reflexivity|].
  destruct img as [|r [|g [|b [|a rest]]]]; cbn [length] in Hlen; try lia.
  cbn [map_pixels]. rewrite (Hf 0%nat r g b a) by (lia || reflexivity).
  cbn [mbind outcome_bind]. rewrite IH.
  - reflexivity.
  - cbn [length] in Hlen. lia.
  - intros p r' g' b' a' Hp Hpx. apply (Hf (S p) r' g' b' a'); [lia|].
    rewrite pixel_at_next. exact Hpx.
Qed.

Section Hue.
Context {L : Libm}.
#[local] Open Scope float_scope.

Lemma add_0_l_not_negative (angle : float) :
  (angle <? 0) = false -> (0 + angle <? 0) = false.
Proof.
  rewrite !FloatAxioms.ltb_spec, FloatAxioms.add_spec, B64.prim_0.
  destruct (Prim2SF angle) as [s|s| |s m e]; try (destruct s); try discriminate;
    reflexivity.
Qed.

Lemma hue_px_gray (fuel : nat) (angle : float) (y : Z) :
  u8 y -> (angle <? 0) = false -> hue_px fuel angle y y y = Done (y, y, y).
Proof.
  intros Hy Hangle. pose proof (gray_fixed_all y Hy) as H. unfold gray_fixed in H.
  cbv zeta in H. unfold hue_px.
  set (hsl := rgbToHsl y y y) in *. clearbody hsl.
  destruct hsl as [h s l]. cbn [hsl_h hsl_s hsl_l] in *.
  apply andb_true_iff in H. destruct H as [H Hl].
  apply andb_true_iff in H. destruct H as [Hh Hs].
  apply FloatAxioms.Leibniz.eqb_spec in Hh. subst h.
  apply returns_Done in Hl.
  assert (Hw : wrap_negative fuel (0 + angle) = Done (0 + angle))
    by (destruct fuel; cbn [wrap_negative];
        rewrite (add_0_l_not_negative angle Hangle); reflexivity).
  rewrite Hw. cbn [mbind outcome_bind].
  unfold hslToRgb. cbn [hsl_h hsl_s hsl_l]. rewrite Hs, Hl. reflexivity.
Qed.
End Hue.

End GrayFacts.

(** X9. [hueRotate] by an angle that is not negative (NaN and [+oo]
    included) returns a raster of gray pixels (R = G = B) as it is: a gray
    has saturation 0, and the conversion back ignores the hue. *)
Theorem hueRotate_gray (L : Libm) (fuel : nat) (img : raster) (width height : Z)
    (angleDegrees : float) :
  raster_ok img width height ->
  (forall p r g b a, pixel_at img p = Some (r, g, b, a) -> r = g /\ g = b) ->
  (angleDegrees <? 0)%float = false ->
  hueRotate fuel img width height angleDegrees = Done img.
Proof.
  intros Hok Hgray Hangle. pose proof Hok as (Hw & Hh & Hlen & Hfit & Hu).
  assert (H0 : 0 <= width * height) by nia.
  rewrite hueRotate_map by lia.
  apply GrayFacts.map_pixels_fix; [lia|].
  intros p r g b a Hp Hpx.
  destruct (Hgray p r g b a Hpx) as [-> ->].
  destruct (pixel_at_inside img (Z.to_nat (width * height)) p Hu ltac:(lia) Hp)
    as (r0 & g0 & b0 & a0 & Hpx0 & Hr & _).
  rewrite Hpx in Hpx0. injection Hpx0 as <- <-.
  apply GrayFacts.hue_px_gray; assumption.
Qed.

Lemma hueRotate_gray_witness :
  @hueRotate ref_libm 0 grays_2x1 2 1 90 = Done grays_2x1.
Proof.
  apply (hueRotate_gray ref_libm 0 grays_2x1 2 1 90).
  - unfold raster_ok, grays_2x1. repeat split; try (cbn; lia).
    repeat (constructor; [unfold u8; lia|]). constructor.
  - intros p r g b a H.
    assert (Hp : (p < 2)%nat).
    { unfold pixel_at in H.
      destruct (grays_2x1 !! (4 * p)%nat) as [x|] eqn:E; [|discriminate].
      apply lookup_lt_Some in E. change (length grays_2x1) with 8%nat in E. lia. }
    do 2 (destruct p as [|p]; [vm_compute in H; injection H as <- <- <- <-; auto|]).
    lia.
  - reflexivity.
Defined.

(** ** Further properties of the remap kernels *)

(** X10. A negative pull factor is clamped to 0: on a raster of at least
    2 x 2 pixels [wormholeDistortion] returns what it returns for the factor
    0, and every output pixel holds the bilinear sample of the input at the
    point the polar coordinates of its cell give back. *)
Theorem wormhole_negative_pull {L : Libm} (inputData outputData : raster)
    (width height : Z) (pullFactor : float) :
  raster_ok inputData width height -> 2 <= width -> 2 <= height ->
  Z.of_nat (length outputData) = 4 * (width * height) ->
  (pullFactor <? 0)%float = true ->
  exists out,
    wormholeDistortion inputData outputData width height pullFactor = Done out /\
    wormholeDistortion inputData outputData width height 0 = Done out /\
    forall x y, 0 <= x < width -> 0 <= y < height ->
      exists px,
        sampleBilinear inputData width height
          (fst (polar_source (fun a => a) width height x y))
          (snd (polar_source (fun a => a) width height x y)) = Done px /\
        pixel_at out (Z.to_nat (y * width + x)) = Some px.
Proof.
  intros Hin Hw Hh Hlen Hneg. pose proof Hin as (Hw1 & Hh1 & _).
  destruct (RemapTotal.resample_total (polar_source (fun a => a) width height)
              inputData width height Hin Hw Hh outputData Hlen)
    as (out & Hres & _ & Hpx & _).
  assert (H0 : wormholeDistortion inputData outputData width height 0 = Done out).
  { rewrite <- Hres. unfold wormholeDistortion, resample.
    apply for_range_ext. intros y t Hy. apply for_range_ext. intros x t' Hx.
    rewrite RemapGeometry.wormhole_source_zero by lia. reflexivity. }
  exists out. split; [|split; [exact H0 | exact Hpx]].
  rewrite <- H0. unfold wormholeDistortion.
  rewrite (PullFacts.pull_negative pullFactor Hneg). reflexivity.
Qed.

Lemma wormhole_negative_pull_witness :
  exists out,
    @wormholeDistortion ref_libm white_at_1_1 blank_2x2 2 2 (-3) = Done out /\
    @wormholeDistortion ref_libm white_at_1_1 blank_2x2 2 2 0 = Done out /\
    forall x y, 0 <= x < 2 -> 0 <= y < 2 ->
      exists px,
        sampleBilinear white_at_1_1 2 2
          (fst (@polar_source ref_libm (fun a => a) 2 2 x y))
          (snd (@polar_source ref_libm (fun a => a) 2 2 x y)) = Done px /\
        pixel_at out (Z.to_nat (y * 2 + x)) = Some px.
Proof.
  apply (@wormhole_negative_pull ref_libm white_at_1_1 blank_2x2 2 2 (-3)
           white_at_1_1_ok); [lia | lia | reflexivity | reflexivity].
Defined.

(** X14. When a remap kernel returns, its output holds at every pixel the
    bilinear sample of the input at the source point of that pixel, and
    nothing of what the output raster held before: the same call on any other
    output raster of that size returns the same raster.  Stated for each
    kernel on its own. *)
Theorem remap_writes_samples {L : Libm} (inputData outputData : raster)
    (width height : Z) (factor : float) :
  1 <= width < 2 ^ 31 -> 0 <= height < 2 ^ 31 -> 4 * (width * height) < 2 ^ 31 ->
  Z.of_nat (length outputData) = 4 * (width * height) ->
  (forall spiral,
     spiralDistortion inputData outputData width height factor = Done spiral ->
     (forall x y, 0 <= x < width -> 0 <= y < height ->
        exists v,
          sampleBilinear inputData width height
            (fst (spiral_point width height factor x y))
            (snd (spiral_point width height factor x y)) = Done v /\
          pixel_at spiral (Z.to_nat (y * width + x)) = Some v) /\
     (forall other, length other = length outputData ->
        spiralDistortion inputData other width height factor = Done spiral)) /\
  (forall wormhole,
     wormholeDistortion inputData outputData width height factor = Done wormhole ->
     (forall x y, 0 <= x < width -> 0 <= y < height ->
        exists v,
          sampleBilinear inputData width height
            (fst (wormhole_point width height factor x y))
            (snd (wormhole_point width height factor x y)) = Done v /\
          pixel_at wormhole (Z.to_nat (y * width + x)) = Some v) /\
     (forall other, length other = length outputData ->
        wormholeDistortion inputData other width height factor = Done wormhole)).
Proof.
  intros Hw Hh _ Hlen. split.
  - intros spiral Hs.
    apply (RemapFacts.resample_pixels (spiral_point width height factor)
             inputData width height ltac:(lia) ltac:(lia) outputData spiral Hlen Hs).
  - intros wormhole Hs.
    apply (RemapFacts.resample_pixels (wormhole_point width height factor)
             inputData width height ltac:(lia) ltac:(lia) outputData wormhole Hlen Hs).
Qed.

Lemma remap_writes_samples_witness :
  ((forall x y, 0 <= x < 2 -> 0 <= y < 2 ->
      exists v,
        sampleBilinear white_at_1_1 2 2
          (fst (@spiral_point ref_libm 2 2 0 x y))
          (snd (@spiral_point ref_libm 2 2 0 x y)) = Done v /\
        pixel_at [0; 0; 0; 0;  0; 0; 0; 0;  0; 0; 0; 0;  254; 254; 254; 254]
          (Z.to_nat (y * 2 + x)) = Some v) /\
   (forall other, length other = length blank_2x2 ->
      @spiralDistortion ref_libm white_at_1_1 other 2 2 0
      = Done [0; 0; 0; 0;  0; 0; 0; 0;  0; 0; 0; 0;  254; 254; 254; 254])) /\
  ((forall x y, 0 <= x < 2 -> 0 <= y < 2 ->
      exists v,
        sampleBilinear white_at_1_1 2 2
          (fst (@wormhole_point ref_libm 2 2 0 x y))
          (snd (@wormhole_point ref_libm 2 2 0 x y)) = Done v /\
        pixel_at [0; 0; 0; 0;  0; 0; 0; 0;  0; 0; 0; 0;  254; 254; 254; 254]
          (Z.to_nat (y * 2 + x)) = Some v) /\
   (forall other, length other = length blank_2x2 ->
      @wormholeDistortion ref_libm white_at_1_1 other 2 2 0
      = Done [0; 0; 0; 0;  0; 0; 0; 0;  0; 0; 0; 0;  254; 254; 254; 254])).
Proof.
  destruct (@remap_writes_samples ref_libm white_at_1_1 blank_2x2 2 2 0) as [Hs Hw];
    [lia | lia | lia | reflexivity |].
  split; [apply Hs | apply Hw]; vm_compute; reflexivity.
Defined.

(** X18. On a raster of at least 2 x 2 pixels both remap kernels return,
    whatever the factor (NaN and the infinities included), and leave the
    output raster at its length. *)
Theorem remap_kernels_return {L : Libm} (inputData outputData : raster)
    (width height : Z) (factor : float) :
  raster_ok inputData width height -> 2 <= width -> 2 <= height ->
  Z.of_nat (length outputData) = 4 * (width * height) ->
  exists spiral wormhole,
    spiralDistortion inputData outputData width height factor = Done spiral /\
    wormholeDistortion inputData outputData width height factor = Done wormhole /\
    length spiral = length outputData /\ length wormhole = length outputData.
Proof.
  intros Hin Hw Hh Hlen.
  destruct (RemapTotal.resample_total (spiral_point width height factor)
              inputData width height Hin Hw Hh outputData Hlen)
    as (spiral & Hs & Ls & _).
  destruct (RemapTotal.resample_total (wormhole_point width height factor)
              inputData width height Hin Hw Hh outputData Hlen)
    as (wormhole & Hwh & Lw & _).
  exists spiral, wormhole. split; [exact Hs|]. split; [exact Hwh|]. split; assumption.
Qed.

Lemma remap_kernels_return_witness :
  exists spiral wormhole,
    @spiralDistortion ref_libm white_at_1_1 blank_2x2 2 2 nan = Done spiral /\
    @wormholeDistortion ref_libm white_at_1_1 blank_2x2 2 2 nan = Done wormhole /\
    length spiral = length blank_2x2 /\ length wormhole = length blank_2x2.
Proof.
  apply (@remap_kernels_return ref_libm white_at_1_1 blank_2x2 2 2 nan white_at_1_1_ok);
    [lia | lia | reflexivity].
Defined.
(** ** Further properties of the in-place kernels *)

Module EmptyFacts.
Section Loops.
Context {S : Type}.

(** A loop nest with no column or no row does nothing. *)
Lemma nest_empty (x0 x1 y0 y1 : Z) (body : Z -> Z -> S -> outcome S) (s : S) :
  x1 <= x0 \/ y1 <= y0 ->
  for_range y0 y1 (fun y out => for_range x0 x1 (fun x out => body x y out) out) s = Done s.
Proof.
  intros [Hx|Hy].
  - apply for_range_id. intros y t _. apply for_range_empty. exact Hx.
  - apply for_range_empty. exact Hy.
Qed.
End Loops.
End EmptyFacts.

(** X11. An image without pixels is left alone, for sizes that are values
    of an [int] ([height - 1] and [width - 1] do not overflow): when
    [numPixels * 4] is zero or negative and fits an [int], the four in-place
    kernels return their raster untouched, and with [width <= 0] or
    [height <= 0] the three kernels that write an output raster return it
    untouched; no byte is read, whatever the rasters hold. *)
Theorem empty_image_untouched (L : Libm) (fuel : nat) (img out : raster)
    (width height : Z) (a b : float) :
  - 2 ^ 31 < width < 2 ^ 31 -> - 2 ^ 31 < height < 2 ^ 31 ->
  (- 2 ^ 31 <= 4 * (width * height) <= 0 ->
   grayscale img width height = Done img /\
   hueRotate fuel img width height a = Done img /\
   brightnessContrast img width height a b = Done img /\
   gammaCorrection img width height a = Done img) /\
  (width <= 0 \/ height <= 0 ->
   sobelEdgeDetection img out width height = Done out /\
   spiralDistortion img out width height a = Done out /\
   wormholeDistortion img out width height a = Done out).
Proof.
  intros _ _. split.
  - intros H.
    unfold grayscale, hueRotate, brightnessContrast, gammaCorrection, for_pixels.
    repeat split; apply for_range_empty; lia.
  - intros H. unfold sobelEdgeDetection, sobel_interior, sobel_border,
      spiralDistortion, wormholeDistortion.
    repeat split.
    + rewrite EmptyFacts.nest_empty by lia. cbn [mbind outcome_bind].
      apply EmptyFacts.nest_empty. lia.
    + apply (EmptyFacts.nest_empty 0 width 0 height
               (fun x y out =>
                  let '(srcX, srcY) := spiral_source _ _ _ _ x y in
                  write_sample img width height x y srcX srcY out)). lia.
    + apply (EmptyFacts.nest_empty 0 width 0 height
               (fun x y out =>
                  let '(srcX, srcY) := wormhole_source _ _ _ _ x y in
                  write_sample img width height x y srcX srcY out)). lia.
Qed.

Lemma empty_image_untouched_witness :
  (grayscale two_pixels (-3) 2 = Done two_pixels /\
   @hueRotate ref_libm 5 two_pixels (-3) 2 90 = Done two_pixels /\
   brightnessContrast two_pixels (-3) 2 90 0.5 = Done two_pixels /\
   @gammaCorrection ref_libm two_pixels (-3) 2 90 = Done two_pixels) /\
  (sobelEdgeDetection two_pixels blank_2x2 (-3) 2 = Done blank_2x2 /\
   @spiralDistortion ref_libm two_pixels blank_2x2 (-3) 2 90 = Done blank_2x2 /\
   @wormholeDistortion ref_libm two_pixels blank_2x2 (-3) 2 90 = Done blank_2x2).
Proof.
  destruct (empty_image_untouched ref_libm 5 two_pixels blank_2x2 (-3) 2 90 0.5)
    as [Hin Hout]; [lia | lia |].
  split; [apply Hin | apply Hout]; lia.
Defined.

Module TonalFacts.

Lemma bc_white (c : Z) : u8 c -> bc_channel 1 0 c = Done 255.
Proof.
  intros Hc. apply returns_Done. revert c Hc.
  apply (u8_forallb (fun c => returns (bc_channel 1 0 c) 255)). vm_compute. reflexivity.
Qed.

Lemma bc_black (c : Z) : u8 c -> bc_channel (-1) 0 c = Done 0.
Proof.
  intros Hc. apply returns_Done. revert c Hc.
  apply (u8_forallb (fun c => returns (bc_channel (-1) 0 c) 0)). vm_compute. reflexivity.
Qed.

Lemma bc_flat (c : Z) : u8 c -> bc_channel 0 (-1) c = Done 128.
Proof.
  intros Hc. apply returns_Done. revert c Hc.
  apply (u8_forallb (fun c => returns (bc_channel 0 (-1) c) 128)). vm_compute. reflexivity.
Qed.

(** A kernel that gives every colour channel of bytes the value [v]. *)
Lemma map_pixels_const (f : Z -> Z -> Z -> outcome (Z * Z * Z)) (v : Z) (n : nat)
    (img : raster) :
  (forall r g b, u8 r -> u8 g -> u8 b -> f r g b = Done (v, v, v)) ->
  Forall u8 img -> (4 * n <= length img)%nat ->
  exists img', map_pixels f n img = Done img' /\
    forall p r g b a, (p < n)%nat -> pixel_at img p = Some (r, g, b, a) ->
      pixel_at img' p = Some (v, v, v, a).
Proof.
  intros Hf. revert img. induction n as [|n IH]; intros img Hu Hlen.
  - exists img. split; [reflexivity|]. intros p r g b a Hp. lia.
  - destruct img as [|r [|g [|b [|a rest]]]]; cbn [length] in Hlen; try lia.
    inversion Hu as [|? ? Hr Hu1]; subst. inversion Hu1 as [|? ? Hg Hu2]; subst.
    inversion Hu2 as [|? ? Hb Hu3]; subst. inversion Hu3 as [|? ? Ha Hu4]; subst.
    destruct (IH rest Hu4 ltac:(lia)) as (rest' & Hrest & Hpix).
    exists (v :: v :: v :: a :: rest'). split.
    + cbn [map_pixels]. rewrite (Hf r g b Hr Hg Hb). cbn [mbind outcome_bind].
      rewrite Hrest. reflexivity.
    + intros p r' g' b' a' Hp Hpx. destruct p as [|p].
      * vm_compute in Hpx. injection Hpx as <- <- <- <-. reflexivity.
      * rewrite GrayFacts.pixel_at_next in *. apply (Hpix p r' g' b' a'); [lia | exact Hpx].
Qed.

(** A kernel whose [f] gives bytes keeps a raster of bytes a raster of bytes. *)
Lemma map_pixels_bytes (f : Z -> Z -> Z -> outcome (Z * Z * Z)) (n : nat)
    (img img' : raster) :
  (forall r g b r' g' b', f r g b = Done (r', g', b') -> u8 r' /\ u8 g' /\ u8 b') ->
  Forall u8 img -> map_pixels f n img = Done img' -> Forall u8 img'.
Proof.
  intros Hf. revert img img'. induction n as [|n IH]; intros img img' Hu H.
  - cbn in H. injection H as <-. exact Hu.
  - destruct img as [|r [|g [|b [|a rest]]]]; try discriminate.
    inversion Hu as [|? ? Hr Hu1]; subst. inversion Hu1 as [|? ? Hg Hu2]; subst.
    inversion Hu2 as [|? ? Hb Hu3]; subst. inversion Hu3 as [|? ? Ha Hu4]; subst.
    cbn [map_pixels] in H.
    destruct (f r g b) as [[[r' g'] b']| |] eqn:Ef; try discriminate.
    cbn [mbind outcome_bind] in H.
    destruct (map_pixels f n rest) as [rest'| |] eqn:Er; try discriminate.
    cbn [mbind outcome_bind] in H. injection H as <-.
    destruct (Hf _ _ _ _ _ _ Ef) as (Hr' & Hg' & Hb').
    do 4 (constructor; [assumption|]). eapply IH; eassumption.
Qed.

End TonalFacts.

(** X12. The ends of the parameter ranges of [brightnessContrast]:
    brightness +1 turns every colour channel of a raster of bytes into 255,
    brightness -1 into 0 (contrast 0), and contrast -1 into 128
    (brightness 0); the alpha bytes stay. *)
Theorem brightnessContrast_extremes (img : raster) (width height : Z) :
  raster_ok img width height ->
  exists white black flat,
    brightnessContrast img width height 1 0 = Done white /\
    brightnessContrast img width height (-1) 0 = Done black /\
    brightnessContrast img width height 0 (-1) = Done flat /\
    forall p r g b a,
      (p < Z.to_nat (width * height))%nat -> pixel_at img p = Some (r, g, b, a) ->
      pixel_at white p = Some (255, 255, 255, a) /\
      pixel_at black p = Some (0, 0, 0, a) /\
      pixel_at flat p = Some (128, 128, 128, a).
Proof.
  intros Hok. pose proof Hok as (Hw & Hh & Hlen & Hfit & Hu).
  assert (H0 : 0 <= width * height) by nia.
  rewrite !brightnessContrast_map by lia.
  destruct (TonalFacts.map_pixels_const (bc_px 1 0) 255 (Z.to_nat (width * height)) img)
    as (white & -> & Hwhite); [|assumption|lia|].
  { intros r g b Hr Hg Hb. unfold bc_px. rewrite !TonalFacts.bc_white by assumption.
    reflexivity. }
  destruct (TonalFacts.map_pixels_const (bc_px (-1) 0) 0 (Z.to_nat (width * height)) img)
    as (black & -> & Hblack); [|assumption|lia|].
  { intros r g b Hr Hg Hb. unfold bc_px. rewrite !TonalFacts.bc_black by assumption.
    reflexivity. }
  destruct (TonalFacts.map_pixels_const (bc_px 0 (-1)) 128 (Z.to_nat (width * height)) img)
    as (flat & -> & Hflat); [|assumption|lia|].
  { intros r g b Hr Hg Hb. unfold bc_px. rewrite !TonalFacts.bc_flat by assumption.
    reflexivity. }
  exists white, black, flat. repeat split; eauto.
Qed.

Lemma brightnessContrast_extremes_witness :
  exists white black flat,
    brightnessContrast two_pixels 2 1 1 0 = Done white /\
    brightnessContrast two_pixels 2 1 (-1) 0 = Done black /\
    brightnessContrast two_pixels 2 1 0 (-1) = Done flat /\
    forall p r g b a,
      (p < Z.to_nat (2 * 1))%nat -> pixel_at two_pixels p = Some (r, g, b, a) ->
      pixel_at white p = Some (255, 255, 255, a) /\
      pixel_at black p = Some (0, 0, 0, a) /\
      pixel_at flat p = Some (128, 128, 128, a).
Proof.
  apply (brightnessContrast_extremes two_pixels 2 1 two_pixels_ok).
Defined.

(** X13. The in-place kernels hand on a raster the next kernel accepts:
    on a raster of [width * height] pixels of bytes, [grayscale],
    [brightnessContrast] and [gammaCorrection] return one again, for every
    parameter, and so does [hueRotate] whenever it returns. *)
Theorem in_place_kernels_keep_rasters (L : Libm) (img : raster) (width height : Z) :
  raster_ok img width height ->
  (exists img', grayscale img width height = Done img' /\ raster_ok img' width height) /\
  (forall brightness contrast,
     exists img', brightnessContrast img width height brightness contrast = Done img'
                  /\ raster_ok img' width height) /\
  (forall gamma,
     exists img', gammaCorrection img width height gamma = Done img'
                  /\ raster_ok img' width height) /\
  (forall fuel angleDegrees img',
     hueRotate fuel img width height angleDegrees = Done img' ->
     raster_ok img' width height).
Proof.
  intros Hok. pose proof Hok as (Hw & Hh & Hlen & Hfit & Hu).
  assert (H0 : 0 <= width * height) by nia.
  assert (Hkeep : forall f img',
            map_pixels f (Z.to_nat (width * height)) img = Done img' ->
            Forall u8 img' -> raster_ok img' width height).
  { intros f img' Hm Hu'. unfold raster_ok.
    split; [exact Hw|]. split; [exact Hh|].
    split; [rewrite (map_pixels_length _ _ _ _ Hm); exact Hlen|].
    split; [exact Hfit | exact Hu']. }
  split; [|split; [|split]].
  - rewrite grayscale_map by lia.
    destruct (map_pixels_total gray_px (Z.to_nat (width * height)) img)
      as (img' & Hm & Hu'); [apply gray_px_total | assumption | lia |].
    exists img'. split; [exact Hm | eapply Hkeep; eassumption].
  - intros brightness contrast. rewrite brightnessContrast_map by lia.
    destruct (map_pixels_total (bc_px brightness contrast) (Z.to_nat (width * height)) img)
      as (img' & Hm & Hu'); [intros; apply bc_px_total | assumption | lia |].
    exists img'. split; [exact Hm | eapply Hkeep; eassumption].
  - intros gamma. rewrite gammaCorrection_map by lia.
    destruct (map_pixels_total (gamma_px gamma) (Z.to_nat (width * height)) img)
      as (img' & Hm & Hu'); [intros; apply gamma_px_total | assumption | lia |].
    exists img'. split; [exact Hm | eapply Hkeep; eassumption].
  - intros fuel angleDegrees img' Hm. rewrite hueRotate_map in Hm by lia.
    apply (Hkeep _ _ Hm).
    eapply TonalFacts.map_pixels_bytes; [|exact Hu|exact Hm].
    intros r g b r' g' b'. unfold hue_px.
    destruct (wrap_negative _ _) as [h| |]; cbn [mbind outcome_bind]; try discriminate.
    apply HslFacts.hslToRgb_bytes.
Qed.

Lemma in_place_kernels_keep_rasters_witness :
  (exists img', grayscale two_pixels 2 1 = Done img' /\ raster_ok img' 2 1) /\
  (forall brightness contrast,
     exists img', brightnessContrast two_pixels 2 1 brightness contrast = Done img'
                  /\ raster_ok img' 2 1) /\
  (forall gamma,
     exists img', @gammaCorrection ref_libm two_pixels 2 1 gamma = Done img'
                  /\ raster_ok img' 2 1) /\
  (forall fuel angleDegrees img',
     @hueRotate ref_libm fuel two_pixels 2 1 angleDegrees = Done img' ->
     raster_ok img' 2 1).
Proof.
  apply (in_place_kernels_keep_rasters ref_libm two_pixels 2 1 two_pixels_ok).
Defined.

Module ShortFacts.

Lemma store_length (m m' : raster) (i b : Z) :
  store m i b = Done m' -> i < Z.of_nat (length m) /\ length m' = length m.
Proof.
  intros H. apply store_inv in H. destruct H as [Hi ->].
  split; [lia | apply length_insert].
Qed.

(** A pixel loop over more pixels than the raster holds does not return. *)
Lemma for_count_short (body : Z -> raster -> outcome raster) (n : nat) (p : Z)
    (img img' : raster) :
  reaches_blue body -> (0 < n)%nat ->
  Z.of_nat (length img) + 2 <= 4 * (p + Z.of_nat n) ->
  for_count n p (fun p img => body (p * 4) img) img <> Done img'.
Proof.
  intros Hb. revert p img. induction n as [|n IH]; intros p img Hn Hlen; [lia|].
  cbn [for_count].
  destruct (body (p * 4) img) as [img1| |] eqn:E; cbn [mbind outcome_bind];
    try discriminate.
  destruct (Hb _ _ _ E) as [Hi Hl].
  destruct n as [|n]; [lia|].
  apply IH; [lia | rewrite Hl; lia].
Qed.

Lemma for_pixels_short (body : Z -> raster -> outcome raster) (numPixels : Z)
    (img img' : raster) :
  reaches_blue body ->
  Z.of_nat (length img) + 2 <= 4 * numPixels ->
  for_pixels numPixels body img <> Done img'.
Proof.
  intros Hb Hlen. unfold for_pixels, for_range.
  apply for_count_short; [assumption | lia | lia].
Qed.

Ltac bind_inv H :=
  repeat match type of H with
         | mbind _ ?c = Done _ =>
             let E := fresh "E" in
             destruct c eqn:E; cbn [mbind outcome_bind] in H; try discriminate H
         end.

Ltac store_facts :=
  repeat match goal with
         | E : store _ _ _ = Done _ |- _ => apply store_length in E; destruct E
         end.

Section Bodies.
Context {L : Libm}.
#[local] Opaque clamp luma hslToRgb rgbToHsl F.of_int store load.

Lemma grayscale_reaches (img img' : raster) (width height : Z) :
  Z.of_nat (length img) + 2 <= 4 * (width * height) ->
  grayscale img width height <> Done img'.
Proof.
  intros Hlen. unfold grayscale. apply for_pixels_short; [|assumption].
  intros i m m' H. bind_inv H. store_facts. split; [lia | congruence].
Qed.

Lemma brightnessContrast_reaches (img img' : raster) (width height : Z)
    (brightness contrast : float) :
  Z.of_nat (length img) + 2 <= 4 * (width * height) ->
  brightnessContrast img width height brightness contrast <> Done img'.
Proof.
  intros Hlen. unfold brightnessContrast. apply for_pixels_short; [|assumption].
  intros i m m' H. bind_inv H. store_facts. split; [lia | congruence].
Qed.

Lemma gammaCorrection_reaches (img img' : raster) (width height : Z) (gamma : float) :
  Z.of_nat (length img) + 2 <= 4 * (width * height) ->
  gammaCorrection img width height gamma <> Done img'.
Proof.
  intros Hlen. unfold gammaCorrection. apply for_pixels_short; [|assumption].
  intros i m m' H. bind_inv H. store_facts. split; [lia | congruence].
Qed.

Lemma hueRotate_reaches (fuel : nat) (img img' : raster) (width height : Z)
    (angleDegrees : float) :
  Z.of_nat (length img) + 2 <= 4 * (width * height) ->
  hueRotate fuel img width height angleDegrees <> Done img'.
Proof.
  intros Hlen. unfold hueRotate. apply for_pixels_short; [|assumption].
  intros i m m' H. bind_inv H.
  match goal with p : (Z * Z * Z)%type |- _ => destruct p as [[r' g'] b'] end.
  bind_inv H. store_facts. split; [lia | congruence].
Qed.
End Bodies.
End ShortFacts.

(** X15. The in-place kernels need the whole raster: on a raster that is
    two bytes or more short of [width * height] pixels none of them returns
    (the loop reads or writes past the end of the raster). *)
Theorem in_place_kernels_need_pixels (L : Libm) (fuel : nat) (img : raster)
    (width height : Z) (a b : float) :
  Z.of_nat (length img) + 2 <= 4 * (width * height) ->
  (forall img', grayscale img width height <> Done img') /\
  (forall img', hueRotate fuel img width height a <> Done img') /\
  (forall img', brightnessContrast img width height a b <> Done img') /\
  (forall img', gammaCorrection img width height a <> Done img').
Proof.
  intros Hlen.
  split; [intros img'; apply ShortFacts.grayscale_reaches; assumption|].
  split; [intros img'; apply ShortFacts.hueRotate_reaches; assumption|].
  split; [intros img'; apply ShortFacts.brightnessContrast_reaches; assumption|].
  intros img'. apply ShortFacts.gammaCorrection_reaches; assumption.
Qed.

Lemma in_place_kernels_need_pixels_witness :
  (forall img', grayscale two_pixels 3 1 <> Done img') /\
  (forall img', @hueRotate ref_libm 5 two_pixels 3 1 90 <> Done img') /\
  (forall img', brightnessContrast two_pixels 3 1 90 0.5 <> Done img') /\
  (forall img', @gammaCorrection ref_libm two_pixels 3 1 90 <> Done img').
Proof.
  apply (in_place_kernels_need_pixels ref_libm 5 two_pixels 3 1 90 0.5).
  cbn. lia.
Defined.
(** ** The hue loop on angles that are not negative *)

Module HaltFacts.

Lemma add_not_negative (h angle : float) :
  nonneg_finite h -> (angle <? 0)%float = false -> (h + angle <? 0)%float = false.
Proof.
  intros Hh Hangle.
  rewrite FloatAxioms.ltb_spec, B64.prim_0 in Hangle.
  rewrite FloatAxioms.ltb_spec, FloatAxioms.add_spec, B64.prim_0.
  destruct Hh as [->|(m & e & ->)];
    destruct (Prim2SF angle) as [s|s| |s m' e']; try (destruct s); try discriminate;
    try reflexivity.
  unfold SF64add, SFadd. cbv zeta.
  destruct (shl_align m e _) as [p ?], (shl_align m' e' _) as [q ?].
  cbn [fst cond_Zopp]. change (Z.pos p + Z.pos q) with (Z.pos (p + q)).
  cbn [binary_normalize]. unfold binary_round.
  destruct (shl_align (p + q) _ _) as [mz ez].
  pose proof (B64.binary_round_aux_sign false (Zpos mz) ez loc_Exact) as Hs.
  destruct (binary_round_aux _ _ _ _ _ _) as [s|s| |s m2 e2]; try subst s; reflexivity.
Qed.

Lemma bind_halts {A B : Type} (c : outcome A) (k : A -> outcome B) :
  halts c -> (forall x, halts (k x)) -> halts (x ← c; k x).
Proof. intros Hc Hk. destruct c as [x| |]; [apply Hk | exact I | exact Hc]. Qed.

Lemma to_u8_halts (d : float) : halts (F.to_u8 d).
Proof. unfold F.to_u8. destruct (_ && _); exact I. Qed.

Lemma hueToRgb_halts (p q t : float) : halts (hueToRgb p q t).
Proof.
  unfold hueToRgb. cbv zeta.
  repeat match goal with |- context [if ?c then _ else _] => destruct c end;
    apply to_u8_halts.
Qed.

Section Hue.
Context {L : Libm}.

Lemma hslToRgb_halts (hsl : HSL) : halts (hslToRgb hsl).
Proof.
  unfold hslToRgb. cbv zeta. destruct (hsl_s hsl =? 0)%float.
  - apply bind_halts; [apply to_u8_halts | intros c; exact I].
  - apply bind_halts; [apply hueToRgb_halts | intros r].
    apply bind_halts; [apply hueToRgb_halts | intros g].
    apply bind_halts; [apply hueToRgb_halts | intros b]. exact I.
Qed.
End Hue.
End HaltFacts.

Module HaltLoop.
Import HaltFacts.

Section Loop.
Context {S : Type}.

(** A loop halts when each of its steps halts on the states the steps
    before it can leave. *)
Lemma for_count_halts (P : S -> Prop) (body : Z -> S -> outcome S) :
  (forall i s, P s -> halts (body i s) /\ forall s', body i s = Done s' -> P s') ->
  forall n i s, P s -> halts (for_count n i body s).
Proof.
  intros Hb. induction n as [|n IH]; intros i s Hs; [exact I|].
  cbn [for_count]. destruct (Hb i s Hs) as [Hh Hp].
  destruct (body i s) as [s'| |]; cbn [mbind outcome_bind];
    [apply IH, Hp; reflexivity | exact I | exact Hh].
Qed.
End Loop.

Lemma load_u8 (img : raster) (i c : Z) : Forall u8 img -> load img i = Done c -> u8 c.
Proof.
  intros Hu H. apply load_Done in H. destruct H as [_ H].
  rewrite Forall_lookup in Hu. eapply Hu, H.
Qed.

Lemma store_u8 (img img' : raster) (i c : Z) :
  Forall u8 img -> u8 c -> store img i c = Done img' -> Forall u8 img'.
Proof.
  intros Hu Hc H. apply store_inv in H. destruct H as [_ ->].
  apply Forall_insert; assumption.
Qed.

Lemma load_never_loops (img : raster) (i : Z) : load img i = Diverged -> False.
Proof.
  unfold load. destruct (i <? 0); [discriminate|].
  destruct (img !! Z.to_nat i); discriminate.
Qed.

Lemma store_never_loops (img : raster) (i c : Z) : store img i c = Diverged -> False.
Proof. unfold store. destruct (_ && _); discriminate. Qed.

Section Hue.
Context {L : Libm}.

Lemma wrap_skipped (fuel : nat) (angle : float) (r g b : Z) :
  u8 r -> u8 g -> u8 b -> (angle <? 0)%float = false ->
  wrap_negative fuel (hsl_h (rgbToHsl r g b) + angle)
  = Done (hsl_h (rgbToHsl r g b) + angle)%float.
Proof.
  intros Hr Hg Hb Hangle. pose proof (HslFacts.hsl_checked_all r g b Hr Hg Hb) as H.
  unfold hsl_checked, hsl_in_range, hue_settled in H.
  set (hsl := rgbToHsl r g b) in *. clearbody hsl.
  destruct hsl as [h s l]. cbn [hsl_h hsl_s hsl_l] in *.
  apply andb_true_iff in H. destruct H as [Hrange Hset].
  apply andb_true_iff in Hset. destruct Hset as [Hadd Hneg].
  apply FloatAxioms.Leibniz.eqb_spec in Hadd.
  repeat (apply andb_true_iff in Hrange; destruct Hrange as [Hrange ?]).
  assert (Hh : nonneg_finite h) by (apply HslFacts.settled_nonneg; assumption).
  destruct fuel; cbn [wrap_negative];
    rewrite (add_not_negative h angle Hh Hangle); reflexivity.
Qed.

(** One pixel of [hueRotate] on a raster of bytes: the step halts, and when
    it returns the raster still holds bytes. *)
Lemma hue_step (fuel : nat) (angle : float) (i : Z) (img : raster) :
  Forall u8 img -> (angle <? 0)%float = false ->
  let step :=
    r ← load img i;
    g ← load img (i + 1);
    b ← load img (i + 2);
    let hsl := rgbToHsl r g b in
    h ← wrap_negative fuel (hsl_h hsl + angle);
    let hsl := mkHSL (fmod h 360) (hsl_s hsl) (hsl_l hsl) in
    '(r, g, b) ← hslToRgb hsl;
    img ← store img i r;
    img ← store img (i + 1) g;
    store img (i + 2) b in
  halts step /\ forall img', step = Done img' -> Forall u8 img'.
Proof.
  intros Hu Hangle. cbv zeta.
  destruct (load img i) as [r| |] eqn:Lr; cbn [mbind outcome_bind];
    [|split; [exact I | discriminate] | exfalso; exact (load_never_loops _ _ Lr)].
  destruct (load img (i + 1)) as [g| |] eqn:Lg; cbn [mbind outcome_bind];
    [|split; [exact I | discriminate] | exfalso; exact (load_never_loops _ _ Lg)].
  destruct (load img (i + 2)) as [b| |] eqn:Lb; cbn [mbind outcome_bind];
    [|split; [exact I | discriminate] | exfalso; exact (load_never_loops _ _ Lb)].
  pose proof (load_u8 _ _ _ Hu Lr) as Ur. pose proof (load_u8 _ _ _ Hu Lg) as Ug.
  pose proof (load_u8 _ _ _ Hu Lb) as Ub.
  rewrite (wrap_skipped fuel angle r g b Ur Ug Ub Hangle). cbn [mbind outcome_bind].
  pose proof (hslToRgb_halts
                (mkHSL (fmod (hsl_h (rgbToHsl r g b) + angle) 360)
                   (hsl_s (rgbToHsl r g b)) (hsl_l (rgbToHsl r g b)))) as Hh.
  destruct (hslToRgb _) as [[[r' g'] b']| |] eqn:Hc; cbn [mbind outcome_bind];
    [|split; [exact I | discriminate] | contradiction].
  destruct (hslToRgb_range _ _ _ _ Hc) as (Ur' & Ug' & Ub').
  destruct (store img i r') as [img1| |] eqn:S1; cbn [mbind outcome_bind];
    [|split; [exact I | discriminate] | exfalso; exact (store_never_loops _ _ _ S1)].
  pose proof (store_u8 _ _ _ _ Hu Ur' S1) as U1.
  destruct (store img1 (i + 1) g') as [img2| |] eqn:S2; cbn [mbind outcome_bind];
    [|split; [exact I | discriminate] | exfalso; exact (store_never_loops _ _ _ S2)].
  pose proof (store_u8 _ _ _ _ U1 Ug' S2) as U2.
  destruct (store img2 (i + 2) b') as [img3| |] eqn:S3;
    [|split; [exact I | discriminate] | exfalso; exact (store_never_loops _ _ _ S3)].
  split; [exact I|]. intros img' [= <-]. exact (store_u8 _ _ _ _ U2 Ub' S3).
Qed.
End Hue.
End HaltLoop.

(** X16. For an angle that is not negative (NaN and [+oo] included) the
    loop that lifts a negative hue is never entered: on every raster of
    bytes, whatever the width and the height it is called with, [hueRotate]
    halts, whatever the bound on the loop. *)
Theorem hueRotate_halts (L : Libm) (fuel : nat) (img : raster) (width height : Z)
    (angleDegrees : float) :
  Forall u8 img ->
  (angleDegrees <? 0)%float = false ->
  halts (hueRotate fuel img width height angleDegrees).
Proof.
  intros Hu Hangle. unfold hueRotate, for_pixels, for_range.
  apply (HaltLoop.for_count_halts (Forall u8)); [|exact Hu].
  intros p s Hs. apply HaltLoop.hue_step; assumption.
Qed.

Lemma hueRotate_halts_witness :
  halts (@hueRotate ref_libm 0 two_pixels 2 1 720).
Proof.
  apply (hueRotate_halts ref_libm 0 two_pixels 2 1 720);
    [apply two_pixels_ok | reflexivity].
Defined.
